(** * Horn-constraint learner: Horndini, the Sorcar reducers, Winnow masking
      and the LTF-to-Boolean lowering

    A shallow embedding of [include/sorcar copy.h] (classes [sorcar],
    [winnow] and [perceptron]) and of the driver [main] of [src/sorcar.cpp],
    with the properties of its specification and further properties of the
    code.

    Conventions of the embedding.
    - [std::set<unsigned>] is a strictly increasing [list nat]; iteration
      order of the source is the order of the list.
    - [std::vector<std::set<unsigned>>] is a [list (list nat)].
    - an [assert] of the source is an outcome of its own ([AssertFailed]);
      a [throw std::runtime_error(msg)] is [Thrown msg].
    - the greedy reducer erases from a [std::set] the element on which its
      range-[for] stands; the run has no defined behaviour from there on,
      which is an outcome of its own ([Undefined]).
    - [int] and [unsigned] are unbounded ([Z] and [nat]); the extraction of
      an [unsigned] from a stream, which fails beyond [UINT_MAX], is
      modelled with its bound.
    - a read beyond the end of a vector, undefined in the source, reads the
      default value written at the access ([0] for a bit, the empty set for
      a conjunction). *)

From Stdlib Require Import String.
From Stdlib Require Import List ZArith Lia Bool Arith Sorted QArith Qround.
From Stdlib Require DecimalString DecimalNat.
Import ListNotations.

Close Scope Q_scope.
Open Scope list_scope.
Open Scope nat_scope.

(* ------------------------------------------------------------------ *)
(** * Outcomes *)

Inductive outcome (A : Type) : Type :=
| Returned (a : A)
| Thrown (what : string)
| AssertFailed
| Undefined
| OutOfFuel.

Arguments Returned {A} a.
Arguments Thrown {A} what.
Arguments AssertFailed {A}.
Arguments Undefined {A}.
Arguments OutOfFuel {A}.

Definition bind {A B : Type} (m : outcome A) (k : A -> outcome B) : outcome B :=
  match m with
  | Returned a => k a
  | Thrown w => Thrown w
  | AssertFailed => AssertFailed
  | Undefined => Undefined
  | OutOfFuel => OutOfFuel
  end.

Notation "x <- m ;; k" := (bind m (fun x => k))
  (at level 61, m at next level, right associativity).
Notation "' p <- m ;; k" := (bind m (fun p => k))
  (at level 61, p pattern, m at next level, right associativity).

Definition assert (b : bool) : outcome unit :=
  if b then Returned tt else AssertFailed.

(* ------------------------------------------------------------------ *)
(** * Data model *)

(** Modelled from the spec: [datapoint.h] is not among the sources.  A data
    point carries its location in [_categorical_data[0]], the truth value of
    every atomic predicate in [_int_data] (an [int] per predicate, non-zero
    for true) and a classification state. *)
Record datapoint : Type := mk_datapoint {
  _categorical_data : list nat;
  _int_data : list Z;
  _classification : bool;
  _is_classified : bool
}.

(** Modelled from the spec: [horn_constraint.h] is not among the sources.
    The premises are references to data points, the conclusion is a
    reference or [nullptr] (the conclusion "false").  Data points are never
    mutated by the learner, so a reference is modelled by its target. *)
Record horn_constraint : Type := mk_horn {
  _premises : list datapoint;
  _conclusion : option datapoint
}.

(** [dp._categorical_data[0]] *)
Definition loc (dp : datapoint) : nat := nth 0 (_categorical_data dp) 0%nat.

(** [dp._int_data[c]] *)
Definition bit (dp : datapoint) (c : nat) : Z := nth c (_int_data dp) 0%Z.

(** A conjunction, and a vector of conjunctions indexed by location. *)
Definition pset := list nat.
Definition psets := list pset.

(** [v[id]] for a vector of conjunctions. *)
Definition at_loc (v : psets) (id : nat) : pset := nth id v [].

(** In-place update of [v[id]]. *)
Fixpoint update {A : Type} (id : nat) (f : A -> A) (v : list A) : list A :=
  match v, id with
  | [], _ => []
  | c :: v', O => f c :: v'
  | c :: v', S id' => c :: update id' f v'
  end.

(** ** Ordered sets of predicate indices *)

(** [s.insert(x)] *)
Fixpoint insert (x : nat) (s : pset) : pset :=
  match s with
  | [] => [x]
  | y :: s' =>
      if x <? y then x :: s
      else if y <? x then y :: insert x s'
      else s
  end.

(** [s.erase(x)] *)
Fixpoint erase (x : nat) (s : pset) : pset :=
  match s with
  | [] => []
  | y :: s' => if x =? y then s' else y :: erase x s'
  end.

(** [s.count(x) != 0] *)
Definition member (x : nat) (s : pset) : bool := existsb (Nat.eqb x) s.

(** The invariant of [std::set]: strictly increasing. *)
Definition ordered (s : pset) : Prop := StronglySorted lt s.

Fixpoint orderedb (s : pset) : bool :=
  match s with
  | [] => true
  | x :: s' => forallb (Nat.ltb x) s' && orderedb s'
  end.

(* ------------------------------------------------------------------ *)
(** * [sorcar::satisfies] *)

Fixpoint satisfies (dp : datapoint) (conjunction : pset) : bool :=
  match conjunction with
  | [] => true
  | c :: rest => if (bit dp c =? 0)%Z then false else satisfies dp rest
  end.

(* ------------------------------------------------------------------ *)
(** * [sorcar::prepare_sets] *)

(** The simultaneous walk over [R[i]] and [X[i]].  The first component is
    what is left of [R[i]], the second is [X_minus_R[i]] after the
    insertions. *)
Fixpoint prepare_walk (Ri : pset) : pset -> pset -> pset * pset :=
  fix walk_X (Xi : pset) (XmRi : pset) {struct Xi} : pset * pset :=
    match Ri, Xi with
    | [], _ =>
        (* R[i].erase(R_it, end) erases nothing;
           X_minus_R[i].insert(X_it, X[i].cend()) *)
        ([], fold_left (fun acc x => insert x acc) Xi XmRi)
    | _ :: _, [] =>
        (* R[i].erase(R_it, R[i].end()) *)
        ([], XmRi)
    | r :: Ri', x :: Xi' =>
        if r <? x then prepare_walk Ri' Xi XmRi
        else if x <? r then walk_X Xi' (insert x XmRi)
        else let (R', M') := prepare_walk Ri' Xi' XmRi in (r :: R', M')
    end.

Fixpoint prepare_sets (X R X_minus_R : psets) : psets * psets :=
  match X, R, X_minus_R with
  | Xi :: X', Ri :: R', Mi :: M' =>
      let (Ri', Mi') := prepare_walk Ri Xi Mi in
      let (R'', M'') := prepare_sets X' R' M' in
      (Ri' :: R'', Mi' :: M'')
  | _, _, _ => (R, X_minus_R)
  end.

(** [std::vector<std::set<unsigned>> v(n)] *)
Definition empty_sets (n : nat) : psets := repeat [] n.

(* ------------------------------------------------------------------ *)
(** * [sorcar::is_consistent] *)

Definition lhs_satisfied (R : psets) (premises : list datapoint) : bool :=
  forallb (fun dp => satisfies dp (at_loc R (loc dp))) premises.

Definition conclusion_satisfied (R : psets) (c : option datapoint) : bool :=
  match c with
  | None => false
  | Some d => satisfies d (at_loc R (loc d))
  end.

Definition datapoint_ok (predicates : psets) (dp : datapoint) : bool :=
  if _is_classified dp then
    let classification := satisfies dp (at_loc predicates (loc dp)) in
    if classification && negb (_classification dp) then false
    else if negb classification && _classification dp then false
    else true
  else true.

Definition horn_ok (predicates : psets) (hc : horn_constraint) : bool :=
  negb (lhs_satisfied predicates (_premises hc)
        && negb (conclusion_satisfied predicates (_conclusion hc))).

Definition is_consistent (predicates : psets) (datapoints : list datapoint)
    (horn_constraints : list horn_constraint) : bool :=
  forallb (datapoint_ok predicates) datapoints
  && forallb (horn_ok predicates) horn_constraints.

(* ------------------------------------------------------------------ *)
(** * [sorcar::horndini] *)

Definition msg_intervals_empty : string := "Intervals are empty"%string.
Definition msg_inconsistent : string := "No consistent conjunction exists"%string.

(** The initial conjunction of a location: every index of its interval,
    [for (j = first; j <= second; ++j) conjunction.insert(end, j)]. *)
Definition interval_set (iv : nat * nat) : pset :=
  seq (fst iv) (S (snd iv) - fst iv).

(** One positive data point knocks out of [conjunctions[id]] every
    predicate it makes false. *)
Definition knock_out_one (dp : datapoint) (conjunctions : psets) : outcome psets :=
  let id := loc dp in
  _ <- assert (id <? length conjunctions) ;;
  Returned (update id (filter (fun p => negb (bit dp p =? 0)%Z)) conjunctions).

Fixpoint knock_out (positive : list datapoint) (conjunctions : psets)
  : outcome psets :=
  match positive with
  | [] => Returned conjunctions
  | dp :: rest => c <- knock_out_one dp conjunctions ;; knock_out rest c
  end.

(** The inner [while] over the premises of one constraint: a premise that
    satisfies its conjunction is erased from the left-hand side. *)
Fixpoint discharge (conjunctions : psets) (premises : list datapoint)
  : outcome (list datapoint) :=
  match premises with
  | [] => Returned []
  | dp :: rest =>
      _ <- assert (loc dp <? length conjunctions) ;;
      if satisfies dp (at_loc conjunctions (loc dp))
      then discharge conjunctions rest
      else rest' <- discharge conjunctions rest ;; Returned (dp :: rest')
  end.

(** The walk over the working copy of the Horn constraints.  The result is
    the new list [positive] and what is left of [copy_of_hc]. *)
Fixpoint fire (conjunctions : psets) (copy_of_hc : list horn_constraint)
  : outcome (list datapoint * list horn_constraint) :=
  match copy_of_hc with
  | [] => Returned ([], [])
  | hc :: rest =>
      lhs <- discharge conjunctions (_premises hc) ;;
      match lhs, _conclusion hc with
      | [], None => Thrown msg_inconsistent
      | [], Some c =>
          ' (positive, live) <- fire conjunctions rest ;;
          Returned (c :: positive, live)
      | _ :: _, concl =>
          ' (positive, live) <- fire conjunctions rest ;;
          Returned (positive, mk_horn lhs concl :: live)
      end
  end.

(** One round of the [do ... while (!positive.empty())] loop: the
    knock-out, then the walk over the constraints.  The state is the list
    [positive], the working copy of the constraints and the conjunctions. *)
Definition horndini_state : Type :=
  list datapoint * list horn_constraint * psets.

Definition horndini_round (st : horndini_state) : outcome horndini_state :=
  let '(positive, copy_of_hc, conjunctions) := st in
  c <- knock_out positive conjunctions ;;
  ' (positive', live) <- fire c copy_of_hc ;;
  Returned (positive', live, c).

(** The loop.  Every round that goes on has erased a constraint, so the
    fuel handed over by [horndini_conjunctions] is never used up
    ([horndini_loop_fuel] below). *)
Fixpoint horndini_loop (fuel : nat) (st : horndini_state) : outcome psets :=
  match fuel with
  | O => OutOfFuel
  | S fuel' =>
      ' (positive', live, c) <- horndini_round st ;;
      match positive' with
      | [] => Returned c
      | _ :: _ => horndini_loop fuel' (positive', live, c)
      end
  end.

(** [reaches st st']: the loop started in [st] begins a round in [st']. *)
Inductive reaches : horndini_state -> horndini_state -> Prop :=
| reaches_here (st : horndini_state) : reaches st st
| reaches_round (st : horndini_state) (positive' : list datapoint)
    (live : list horn_constraint) (c : psets) (st' : horndini_state) :
    horndini_round st = Returned (positive', live, c) ->
    positive' <> [] ->
    reaches (positive', live, c) st' ->
    reaches st st'.

Definition is_positive (dp : datapoint) : bool :=
  _is_classified dp && _classification dp.

Definition is_negative (dp : datapoint) : bool :=
  _is_classified dp && negb (_classification dp).

(** The overload of [horndini] that works on given conjunctions. *)
Definition horndini_conjunctions (datapoints : list datapoint)
    (horn_constraints : list horn_constraint) (conjunctions : psets)
  : outcome psets :=
  horndini_loop (S (length horn_constraints))
    (filter is_positive datapoints, horn_constraints, conjunctions).

(** The overload of [horndini] that starts from the intervals. *)
Definition horndini (datapoints : list datapoint)
    (horn_constraints : list horn_constraint) (intervals : list (nat * nat))
  : outcome psets :=
  match intervals with
  | [] => Thrown msg_intervals_empty
  | _ :: _ =>
      horndini_conjunctions datapoints horn_constraints
        (map interval_set intervals)
  end.

(** ** The scenarios of the specification (one location, interval (0,3)) *)

Definition pos (bits : list Z) : datapoint := mk_datapoint [0] bits true true.
Definition neg (bits : list Z) : datapoint := mk_datapoint [0] bits false true.
Definition unl (bits : list Z) : datapoint := mk_datapoint [0] bits false false.

Definition S1_data : list datapoint := [pos [1;1;0;1]%Z; pos [1;0;0;1]%Z].
Definition S2_data : list datapoint := [pos [1;1;1;1]%Z; neg [1;1;0;1]%Z].
Definition S3_a : datapoint := pos [1;0;1;0]%Z.
Definition S3_b : datapoint := unl [1;1;0;0]%Z.
Definition S3_c : datapoint := unl [0;0;1;0]%Z.
Definition S3_data : list datapoint := [S3_a; S3_b; S3_c].
Definition S3_horn : list horn_constraint := [mk_horn [S3_a] (Some S3_b)].
Definition S4_p : datapoint := pos [1;1;0;0]%Z.
Definition S4_horn : list horn_constraint := [mk_horn [S4_p] None].
(** A positive and a negative example that no conjunction separates. *)
Definition N_data : list datapoint := [pos [1;1;0;1]%Z; neg [1;1;1;1]%Z].

Definition S6_data : list datapoint :=
  [pos [1;1;1;1]%Z; neg [1;1;0;1]%Z; neg [0;1;0;1]%Z].

(** Two constraints over unlabeled data points: [K_a => K_b], satisfied by
    the empty conjunction, and [K_c => false]. *)
Definition K_a : datapoint := unl [1;0;1;1]%Z.
Definition K_b : datapoint := unl [1;1;0;1]%Z.
Definition K_c : datapoint := unl [1;1;0;0]%Z.
Definition K_1 : horn_constraint := mk_horn [K_a] (Some K_b).
Definition K_2 : horn_constraint := mk_horn [K_c] None.

(* ------------------------------------------------------------------ *)
(** * [sorcar::reduce_predicates_all] *)

Definition msg_X_empty : string := "X must not be empty"%string.
Definition msg_sizes : string := "R and X must be of same size"%string.

(** The walk over [X_minus_R[id]] that moves every 0-entry of [dp] into
    [R[id]].  Result: the new [R[id]] and the new [X_minus_R[id]]. *)
Fixpoint move_zeros (dp : datapoint) (XmRi Ri : pset) : pset * pset :=
  match XmRi with
  | [] => (Ri, [])
  | p :: rest =>
      if (bit dp p =? 0)%Z
      then move_zeros dp rest (insert p Ri)
      else let (r, m) := move_zeros dp rest Ri in (r, p :: m)
  end.

Definition add_all (st : psets * psets) (dp : datapoint) : psets * psets :=
  let (R, X_minus_R) := st in
  let id := loc dp in
  let (r, m) := move_zeros dp (at_loc X_minus_R id) (at_loc R id) in
  (update id (fun _ => r) R, update id (fun _ => m) X_minus_R).

(** The loop over the data points that treats the negative examples. *)
Fixpoint negatives_all (datapoints : list datapoint) (X R X_minus_R : psets)
  : outcome (psets * psets) :=
  match datapoints with
  | [] => Returned (R, X_minus_R)
  | dp :: rest =>
      let id := loc dp in
      _ <- assert (id <? length R) ;;
      if is_negative dp && satisfies dp (at_loc R id) then
        _ <- assert (negb (satisfies dp (at_loc X id))) ;;
        let size_before := length (at_loc R id) in
        let (R', M') := add_all (R, X_minus_R) dp in
        _ <- assert (size_before <? length (at_loc R' id)) ;;
        negatives_all rest X R' M'
      else negatives_all rest X R X_minus_R
  end.

(** The loop that decides [lhs_satisfied], with its assertion and [break]. *)
Fixpoint check_lhs (R : psets) (premises : list datapoint) : outcome bool :=
  match premises with
  | [] => Returned true
  | dp :: rest =>
      _ <- assert (loc dp <? length R) ;;
      if satisfies dp (at_loc R (loc dp)) then check_lhs R rest
      else Returned false
  end.

(** One walk over [horn_constraint_pointers].  Result: [R], [X_minus_R],
    the constraints left in the list and the flag
    [added_relevant_predicate] (which the source sets to [false] when it
    adds predicates). *)
Fixpoint horn_walk_all (pointers : list horn_constraint) (R X_minus_R : psets)
  : outcome (psets * psets * list horn_constraint * bool) :=
  match pointers with
  | [] => Returned (R, X_minus_R, [], true)
  | hc :: rest =>
      lhs <- check_lhs R (_premises hc) ;;
      if negb lhs then
        horn_walk_all rest R X_minus_R
      else if conclusion_satisfied R (_conclusion hc) then
        ' (R', M', live, flag) <- horn_walk_all rest R X_minus_R ;;
        Returned (R', M', hc :: live, flag)
      else
        let (R1, M1) := fold_left add_all (_premises hc) (R, X_minus_R) in
        ' (R', M', live, _) <- horn_walk_all rest R1 M1 ;;
        Returned (R', M', live, false)
  end.

(** [do ... while (!added_relevant_predicate)].  A walk that asks for
    another one has erased a constraint. *)
Fixpoint horn_loop_all (fuel : nat) (pointers : list horn_constraint)
    (R X_minus_R : psets) : outcome psets :=
  match fuel with
  | O => OutOfFuel
  | S fuel' =>
      ' (R', M', live, flag) <- horn_walk_all pointers R X_minus_R ;;
      if flag then Returned R' else horn_loop_all fuel' live R' M'
  end.

(** The argument check shared by the four reducers. *)
Definition check_arguments (X R : psets) : outcome unit :=
  match X with
  | [] => Thrown msg_X_empty
  | _ :: _ => if length X =? length R then Returned tt else Thrown msg_sizes
  end.

Definition reduce_predicates_all (datapoints : list datapoint)
    (horn_constraints : list horn_constraint) (X R : psets) : outcome psets :=
  _ <- check_arguments X R ;;
  let (R0, M0) := prepare_sets X R (empty_sets (length X)) in
  ' (R1, M1) <- negatives_all datapoints X R0 M0 ;;
  R2 <- horn_loop_all (S (length horn_constraints)) horn_constraints R1 M1 ;;
  _ <- assert (is_consistent R2 datapoints horn_constraints) ;;
  Returned R2.

(* ------------------------------------------------------------------ *)
(** * [sorcar::reduce_predicates_first] *)

(** The walk over [X_minus_R[id]] that moves the first 0-entry of [dp]
    into [R[id]] and stops.  The flag tells whether one was found. *)
Fixpoint move_first_zero (dp : datapoint) (XmRi Ri : pset) : pset * pset * bool :=
  match XmRi with
  | [] => (Ri, [], false)
  | p :: rest =>
      if (bit dp p =? 0)%Z
      then (insert p Ri, rest, true)
      else let '(r, m, added) := move_first_zero dp rest Ri in (r, p :: m, added)
  end.

Definition add_first (st : psets * psets) (dp : datapoint) : psets * psets * bool :=
  let (R, X_minus_R) := st in
  let id := loc dp in
  let '(r, m, added) := move_first_zero dp (at_loc X_minus_R id) (at_loc R id) in
  (update id (fun _ => r) R, update id (fun _ => m) X_minus_R, added).

Fixpoint negatives_first (datapoints : list datapoint) (R X_minus_R : psets)
  : outcome (psets * psets) :=
  match datapoints with
  | [] => Returned (R, X_minus_R)
  | dp :: rest =>
      let id := loc dp in
      _ <- assert (id <? length R) ;;
      if is_negative dp && satisfies dp (at_loc R id) then
        let size_before := length (at_loc R id) in
        let '(R', M', _) := add_first (R, X_minus_R) dp in
        _ <- assert (size_before <? length (at_loc R' id)) ;;
        negatives_first rest R' M'
      else negatives_first rest R X_minus_R
  end.

(** The loop over the premises of an unsatisfied constraint: the first
    premise that has a 0-entry in its [X_minus_R] gives it to [R]. *)
Fixpoint add_first_premise (premises : list datapoint) (R X_minus_R : psets)
  : psets * psets * bool :=
  match premises with
  | [] => (R, X_minus_R, false)
  | dp :: rest =>
      let '(R', M', added) := add_first (R, X_minus_R) dp in
      if added then (R', M', true) else add_first_premise rest R' M'
  end.

Fixpoint horn_walk_first (pointers : list horn_constraint) (R X_minus_R : psets)
  : outcome (psets * psets * list horn_constraint * bool) :=
  match pointers with
  | [] => Returned (R, X_minus_R, [], true)
  | hc :: rest =>
      lhs <- check_lhs R (_premises hc) ;;
      if negb lhs then
        horn_walk_first rest R X_minus_R
      else if conclusion_satisfied R (_conclusion hc) then
        ' (R', M', live, flag) <- horn_walk_first rest R X_minus_R ;;
        Returned (R', M', hc :: live, flag)
      else
        let '(R1, M1, added) := add_first_premise (_premises hc) R X_minus_R in
        _ <- assert added ;;
        ' (R', M', live, _) <- horn_walk_first rest R1 M1 ;;
        Returned (R', M', live, false)
  end.

Fixpoint horn_loop_first (fuel : nat) (pointers : list horn_constraint)
    (R X_minus_R : psets) : outcome psets :=
  match fuel with
  | O => OutOfFuel
  | S fuel' =>
      ' (R', M', live, flag) <- horn_walk_first pointers R X_minus_R ;;
      if flag then Returned R' else horn_loop_first fuel' live R' M'
  end.

Definition reduce_predicates_first (datapoints : list datapoint)
    (horn_constraints : list horn_constraint) (X R : psets) : outcome psets :=
  _ <- check_arguments X R ;;
  let (R0, M0) := prepare_sets X R (empty_sets (length X)) in
  ' (R1, M1) <- negatives_first datapoints R0 M0 ;;
  R2 <- horn_loop_first (S (length horn_constraints)) horn_constraints R1 M1 ;;
  _ <- assert (is_consistent R2 datapoints horn_constraints) ;;
  Returned R2.

(* ------------------------------------------------------------------ *)
(** * [sorcar::reduce_predicates_greedy] *)

(** The scratch structure [predicates]: per location a [std::map] from a
    predicate to the negative data points and the Horn constraints it would
    fix.  A pointer into [datapoints] or [horn_constraints] is modelled by
    the index of its target, a set of pointers by an ordered set of
    indices, a map by a list of bindings with increasing keys. *)
Definition entry : Type := pset * pset.
Definition pmap : Type := list (nat * entry).

Definition msg_out_of_range : string := "out_of_range"%string.

(** [m[p] = f(m[p])], where [operator[]] makes a missing entry. *)
Fixpoint map_upd (p : nat) (f : entry -> entry) (m : pmap) : pmap :=
  match m with
  | [] => [(p, f ([], []))]
  | (q, e) :: m' =>
      if p <? q then (p, f ([], [])) :: m
      else if q <? p then (q, e) :: map_upd p f m'
      else (q, f e) :: m'
  end.

(** [m.at(p)] *)
Fixpoint map_at (p : nat) (m : pmap) : option entry :=
  match m with
  | [] => None
  | (q, e) :: m' => if p =? q then Some e else map_at p m'
  end.

(** [m.erase(p)] *)
Fixpoint map_erase (p : nat) (m : pmap) : pmap :=
  match m with
  | [] => []
  | (q, e) :: m' => if p =? q then m' else (q, e) :: map_erase p m'
  end.

Definition add_first_component (n : nat) (e : entry) : entry := (insert n (fst e), snd e).
Definition add_second_component (h : nat) (e : entry) : entry := (fst e, insert h (snd e)).
Definition del_first_component (n : nat) (e : entry) : entry := (erase n (fst e), snd e).
Definition del_second_component (h : nat) (e : entry) : entry := (fst e, erase h (snd e)).

(** [for (p : X_minus_R[id]) if (dp._int_data[p] == 0) predicates[id][p]. ... .insert(..)] *)
Fixpoint record_zeros (f : entry -> entry) (dp : datapoint) (XmRi : pset)
    (m : pmap) : pmap :=
  match XmRi with
  | [] => m
  | p :: rest =>
      record_zeros f dp rest (if (bit dp p =? 0)%Z then map_upd p f m else m)
  end.

Definition record (f : entry -> entry) (X_minus_R : psets)
    (predicates : list pmap) (dp : datapoint) : list pmap :=
  update (loc dp) (record_zeros f dp (at_loc X_minus_R (loc dp))) predicates.

Fixpoint negatives_greedy (n : nat) (datapoints : list datapoint)
    (R X_minus_R : psets) (predicates : list pmap) : outcome (list pmap) :=
  match datapoints with
  | [] => Returned predicates
  | dp :: rest =>
      _ <- assert (loc dp <? length R) ;;
      if is_negative dp && satisfies dp (at_loc R (loc dp)) then
        negatives_greedy (S n) rest R X_minus_R
          (record (add_first_component n) X_minus_R predicates dp)
      else negatives_greedy (S n) rest R X_minus_R predicates
  end.

(** The loop that finds the relevant predicates of the unsatisfied Horn
    constraints; [h] is the position of the head of [pointers] in
    [horn_constraints]. *)
Fixpoint scan_horn (h : nat) (pointers : list horn_constraint)
    (R X_minus_R : psets) (predicates : list pmap) (done : bool)
  : outcome (list pmap * bool) :=
  match pointers with
  | [] => Returned (predicates, done)
  | hc :: rest =>
      lhs <- check_lhs R (_premises hc) ;;
      if lhs && negb (conclusion_satisfied R (_conclusion hc)) then
        scan_horn (S h) rest R X_minus_R
          (fold_left (record (add_second_component h) X_minus_R) (_premises hc) predicates)
          false
      else scan_horn (S h) rest R X_minus_R predicates done
  end.

(** The search for the predicate with the largest value; the state is
    [(best_value, best_id, best_p, found_unprocessed_predicate)]. *)
Definition better (i : nat) (best : nat * nat * nat * bool) (pair : nat * entry)
  : nat * nat * nat * bool :=
  let '(best_value, _, _, _) := best in
  let value := length (fst (snd pair)) + length (snd (snd pair)) in
  if best_value <? value then (value, i, fst pair, true) else best.

Fixpoint find_best (i : nat) (predicates : list pmap) (best : nat * nat * nat * bool)
  : nat * nat * nat * bool :=
  match predicates with
  | [] => best
  | m :: rest => find_best (S i) rest (fold_left (better i) m best)
  end.

(** The range-[for] of the inner loop stands on the element [x] of a set
    ([component]: the first or the second) of the entry
    [predicates.at(best_id).at(best_p)].  An [erase(x)] on that very set
    destroys the node the loop stands on: the reference [dp] (or [hc]) that
    the loop body reads next and the iterator that the loop increments are
    invalid from then on. *)
Definition stands (component : entry -> pset) (best_id best_p x : nat)
    (id p : nat) (e : entry) : bool :=
  (id =? best_id) && (p =? best_p) && member x (component e).

(** [for (p : X_minus_R[id]) if (dp->_int_data[p] == 0)
       predicates.at(id).at(p). ... .erase(..)]
    [walked p e] tells whether the erasure from the entry [e] at [p] takes
    away the element on which the enclosing range-[for] stands. *)
Fixpoint forget_zeros (f : entry -> entry) (walked : nat -> entry -> bool)
    (dp : datapoint) (XmRi : pset) (m : pmap) : outcome pmap :=
  match XmRi with
  | [] => Returned m
  | p :: rest =>
      if (bit dp p =? 0)%Z then
        match map_at p m with
        | None => Thrown msg_out_of_range
        | Some e =>
            if walked p e then Undefined
            else forget_zeros f walked dp rest (map_upd p f m)
        end
      else forget_zeros f walked dp rest m
  end.

Definition forget (f : entry -> entry) (walked : nat -> nat -> entry -> bool)
    (X_minus_R : psets) (predicates : list pmap) (dp : datapoint)
  : outcome (list pmap) :=
  match nth_error predicates (loc dp) with
  | None => Thrown msg_out_of_range
  | Some m =>
      m' <- forget_zeros f (walked (loc dp)) dp (at_loc X_minus_R (loc dp)) m ;;
      Returned (update (loc dp) (fun _ => m') predicates)
  end.

Fixpoint foldM {A B : Type} (f : A -> B -> outcome A) (l : list B) (a : A)
  : outcome A :=
  match l with
  | [] => Returned a
  | b :: rest => a' <- f a b ;; foldM f rest a'
  end.

Definition no_datapoint : datapoint := mk_datapoint [] [] false false.
Definition no_horn : horn_constraint := mk_horn [] None.

(** The inner [do ... while (found_unprocessed_predicate)].  The two sets
    of the chosen entry are walked from their first element on; the body
    of either walk erases, among others, from the set that is walked, and
    the run is [Undefined] as soon as it erases the element the walk
    stands on.  Every round that goes on erases an entry of [predicates],
    so more fuel than entries is enough ([greedy_pick_fuel] below). *)
Fixpoint greedy_pick (fuel : nat) (datapoints : list datapoint)
    (horn_constraints : list horn_constraint) (X_minus_R : psets)
    (predicates : list pmap) (new_relevant_predicates : list (nat * nat))
    (done : bool) : outcome (list pmap * list (nat * nat) * bool) :=
  match fuel with
  | O => OutOfFuel
  | S fuel' =>
      let '(_, best_id, best_p, found) := find_best 0 predicates (0, 0, 0, false) in
      if found then
        match map_at best_p (nth best_id predicates []) with
        | None => Thrown msg_out_of_range
        | Some (negs, horns) =>
            ps1 <- foldM (fun ps n =>
                            forget (del_first_component n)
                              (stands fst best_id best_p n) X_minus_R ps
                              (nth n datapoints no_datapoint))
                         negs predicates ;;
            ps2 <- foldM (fun ps h =>
                            foldM (forget (del_second_component h)
                                     (stands snd best_id best_p h) X_minus_R)
                              (_premises (nth h horn_constraints no_horn)) ps)
                         horns ps1 ;;
            greedy_pick fuel' datapoints horn_constraints X_minus_R
              (update best_id (map_erase best_p) ps2)
              (new_relevant_predicates ++ [(best_id, best_p)]) false
        end
      else Returned (predicates, new_relevant_predicates, done)
  end.

Definition entries (predicates : list pmap) : nat :=
  fold_right (fun m n => length m + n) 0 predicates.

(** The [DEBUG check]: every remaining entry has two empty sets. *)
Definition all_processed (predicates : list pmap) : bool :=
  forallb (forallb (fun pair : nat * entry =>
                      match pair with
                      | (_, ([], [])) => true
                      | _ => false
                      end)) predicates.

Definition apply_relevant (st : psets * psets) (pair : nat * nat) : psets * psets :=
  (update (fst pair) (insert (snd pair)) (fst st),
   update (fst pair) (erase (snd pair)) (snd st)).

(** The outer [do ... while (!done)].  The source may run it for ever:
    [fuel] bounds the number of rounds. *)
Fixpoint greedy_loop (fuel : nat) (datapoints : list datapoint)
    (horn_constraints : list horn_constraint) (R X_minus_R : psets)
    (predicates : list pmap) : outcome psets :=
  match fuel with
  | O => OutOfFuel
  | S fuel' =>
      ' (ps1, done1) <- scan_horn 0 horn_constraints R X_minus_R predicates true ;;
      ' (ps2, new_relevant_predicates, done) <-
          greedy_pick (S (entries ps1)) datapoints horn_constraints X_minus_R
            ps1 [] done1 ;;
      _ <- assert (all_processed ps2) ;;
      let (R', M') := fold_left apply_relevant new_relevant_predicates (R, X_minus_R) in
      if done then Returned R'
      else greedy_loop fuel' datapoints horn_constraints R' M' ps2
  end.

Definition reduce_predicates_greedy (fuel : nat) (datapoints : list datapoint)
    (horn_constraints : list horn_constraint) (X R : psets) : outcome psets :=
  _ <- check_arguments X R ;;
  let (R0, M0) := prepare_sets X R (empty_sets (length X)) in
  ps <- negatives_greedy 0 datapoints R0 M0 (repeat [] (length X)) ;;
  R2 <- greedy_loop fuel datapoints horn_constraints R0 M0 ps ;;
  _ <- assert (is_consistent R2 datapoints horn_constraints) ;;
  Returned R2.

(* ------------------------------------------------------------------ *)
(** * [sorcar::reduce_predicates_minimal] *)

(** The Z3 expressions the reducer builds.  [constant n] is the Boolean
    constant named [ctx.int_symbol(n)]; [at_most vs k] is the size
    constraint [sum of ite(constant v, 1, 0) over vs <= k]. *)
Inductive expr : Type :=
| bool_val (b : bool)
| constant (n : nat)
| or_ (a b : expr)
| and_ (a b : expr)
| not_ (a : expr)
| at_most (vs : list nat) (k : nat).

(** The solver is not part of the sources: [check] stands for
    [solver.check()] on the added assertions, [Some model] for the answer
    [sat], where [model n] tells whether [model.eval] makes [constant n]
    true, and [None] for any other answer. *)
Definition solver : Type := list expr -> option (nat -> bool).

Fixpoint eval (model : nat -> bool) (e : expr) : bool :=
  match e with
  | bool_val b => b
  | constant n => model n
  | or_ a b => eval model a || eval model b
  | and_ a b => eval model a && eval model b
  | not_ a => negb (eval model a)
  | at_most vs k =>
      fold_right (fun v n => (if model v then 1 else 0) + n) 0 vs <=? k
  end.

Definition msg_bound : string := "k >= var_count"%string.

(** [attr2expr]: per location the map from the predicates of
    [X_minus_R[i]] to fresh constants, numbered from [var_count] on. *)
Fixpoint make_variables (var_count : nat) (X_minus_R : psets)
  : list (list (nat * nat)) * nat :=
  match X_minus_R with
  | [] => ([], var_count)
  | s :: rest =>
      let (ms, n) := make_variables (var_count + length s) rest in
      (combine s (seq var_count (length s)) :: ms, n)
  end.

Fixpoint expr_at (p : nat) (m : list (nat * nat)) : option expr :=
  match m with
  | [] => None
  | (q, v) :: m' => if p =? q then Some (constant v) else expr_at p m'
  end.

(** The clause of a misclassified negative data point. *)
Fixpoint negative_clause (dp : datapoint) (XmRi : pset) (m : list (nat * nat))
    (clause : expr) : outcome expr :=
  match XmRi with
  | [] => Returned clause
  | p :: rest =>
      if (bit dp p =? 0)%Z then
        match expr_at p m with
        | None => Thrown msg_out_of_range
        | Some v => negative_clause dp rest m (or_ clause v)
        end
      else negative_clause dp rest m clause
  end.

Fixpoint negatives_minimal (datapoints : list datapoint) (R X_minus_R : psets)
    (attr2expr : list (list (nat * nat))) (neg_expr : expr) : outcome expr :=
  match datapoints with
  | [] => Returned neg_expr
  | dp :: rest =>
      let id := loc dp in
      if is_negative dp && satisfies dp (at_loc R id) then
        clause <- negative_clause dp (at_loc X_minus_R id) (nth id attr2expr [])
                    (bool_val false) ;;
        negatives_minimal rest R X_minus_R attr2expr (and_ neg_expr clause)
      else negatives_minimal rest R X_minus_R attr2expr neg_expr
  end.

(** [for (pair : attr2expr[id]) if (dp->_int_data[pair.first] == 0)
       clause = clause || pair.second], over all premises. *)
Definition premise_clause (attr2expr : list (list (nat * nat)))
    (clause : expr) (dp : datapoint) : expr :=
  fold_left (fun c pair => if (bit dp (fst pair) =? 0)%Z
                           then or_ c (constant (snd pair)) else c)
            (nth (loc dp) attr2expr []) clause.

Definition conclusion_guard (attr2expr : list (list (nat * nat)))
    (d : datapoint) : expr :=
  fold_left (fun e pair => if (bit d (fst pair) =? 0)%Z
                           then and_ e (not_ (constant (snd pair))) else e)
            (nth (loc d) attr2expr []) (bool_val true).

Fixpoint horn_minimal (horn_constraints : list horn_constraint) (R : psets)
    (attr2expr : list (list (nat * nat))) (horn_expr : expr) : outcome expr :=
  match horn_constraints with
  | [] => Returned horn_expr
  | hc :: rest =>
      lhs <- check_lhs R (_premises hc) ;;
      let clause := fold_left (premise_clause attr2expr) (_premises hc) (bool_val false) in
      if lhs && negb (conclusion_satisfied R (_conclusion hc)) then
        horn_minimal rest R attr2expr (and_ horn_expr clause)
      else if lhs then
        match _conclusion hc with
        | Some d =>
            horn_minimal rest R attr2expr
              (and_ horn_expr (or_ clause (conclusion_guard attr2expr d)))
        | None => horn_minimal rest R attr2expr horn_expr
        end
      else horn_minimal rest R attr2expr horn_expr
  end.

Definition all_variables (attr2expr : list (list (nat * nat))) : list nat :=
  map (fun pair : nat * nat => snd pair) (concat attr2expr).

(** [R[i].insert(pair.first)] for every constant the model makes true. *)
Definition add_model (model : nat -> bool) (attr2expr : list (list (nat * nat)))
    (R : psets) : psets :=
  fst (fold_left
         (fun (st : psets * nat) m =>
            (update (snd st)
               (fun r => fold_left (fun r pair => if model (snd pair : nat)
                                                  then insert (fst pair) r else r) m r)
               (fst st),
             S (snd st)))
         attr2expr (R, 0)).

(** The search for the least bound [k]; it stops at [k >= var_count]. *)
Fixpoint solve (fuel : nat) (check : solver) (k var_count : nat)
    (neg_expr horn_expr : expr) (attr2expr : list (list (nat * nat)))
    (R : psets) : outcome psets :=
  match fuel with
  | O => OutOfFuel
  | S fuel' =>
      match check [neg_expr; horn_expr; at_most (all_variables attr2expr) k] with
      | Some model => Returned (add_model model attr2expr R)
      | None =>
          if var_count <=? k then Thrown msg_bound
          else solve fuel' check (S k) var_count neg_expr horn_expr attr2expr R
      end
  end.

Definition reduce_predicates_minimal (check : solver) (datapoints : list datapoint)
    (horn_constraints : list horn_constraint) (X R : psets) : outcome psets :=
  _ <- check_arguments X R ;;
  let (R0, M0) := prepare_sets X R (empty_sets (length X)) in
  let (attr2expr, var_count) := make_variables 0 M0 in
  neg_expr <- negatives_minimal datapoints R0 M0 attr2expr (bool_val true) ;;
  horn_expr <- horn_minimal horn_constraints R0 attr2expr (bool_val true) ;;
  R2 <- solve (S var_count) check 1 var_count neg_expr horn_expr attr2expr R0 ;;
  _ <- assert (is_consistent R2 datapoints horn_constraints) ;;
  Returned R2.

(* ------------------------------------------------------------------ *)
(** * [class winnow] *)

(** A [float] is modelled by the rational number it denotes, and an [int]
    by an integer without bound; a conversion of a [float] to [int]
    truncates toward zero ([to_int]).  The rounding of the floating-point
    operations to binary32 and the overflow of a 32-bit [int] are not
    modelled: the model computes what the source computes as long as the
    numbers at hand are represented exactly, as the whole numbers up to
    2^24 are ([exact] below). *)
Definition to_int (x : Q) : Z := Z.quot (Qnum x) (Zpos (Qden x)).

Record winnow : Type := mk_winnow {
  weights : list Q;
  theta : Q;
  lr : Q
}.

(** The [float] nearest to [0.441], the threshold the constructor sets, and
    the [float] nearest to [2.4], its update rate. *)
Definition theta_init : Q := 14797505 # 33554432.
Definition lr_init : Q := 5033165 # 2097152.

(** The constructor [winnow(num_pred, init_wgts)]: [num_pred] weights
    [2.0 * num_pred / 5]. *)
Definition winnow_init (num_pred : nat) : winnow :=
  mk_winnow (repeat (Qmake (2 * Z.of_nat num_pred) 5) num_pred) theta_init lr_init.

(** The objects that the driver ([main] in [sorcar.cpp]) makes: one per
    location, with [intervals[i].second - intervals[i].first + 1] weights. *)
Definition winnow_objs (intervals : list (nat * nat)) : list winnow :=
  map (fun iv => winnow_init (snd iv - fst iv + 1)) intervals.

(** [winnow::predict] *)
Definition predict (w : winnow) (dp : datapoint) : bool :=
  let sum :=
    fold_left (fun sum i => (sum + nth i (weights w) 0 * inject_Z (bit dp i))%Q)
              (seq 0 (length (_int_data dp))) 0%Q in
  Qle_bool (theta w) sum.

(** [winnow::update] *)
Definition update_weights (w : winnow) (dp : datapoint) (prediction : bool) : winnow :=
  mk_winnow
    (map (fun iw : nat * Q =>
            let (i, wi) := iw in
            let wi1 := if negb (_classification dp) && prediction
                          && negb (bit dp i =? 0)%Z
                       then (wi / lr w)%Q else wi in
            if _classification dp && negb prediction && negb (bit dp i =? 0)%Z
            then (wi1 * lr w)%Q else wi1)
         (combine (seq 0 (length (_int_data dp))) (weights w))
     ++ skipn (length (_int_data dp)) (weights w))
    (theta w) (lr w).

(** [winnow::train_once] *)
Definition train_once (w : winnow) (dps : list datapoint) : winnow :=
  fold_left (fun w dp => update_weights w dp (predict w dp)) dps w.

(** [winnow::check_acc] *)
Definition check_acc (w : winnow) (dps : list datapoint) : bool :=
  forallb (fun dp => Bool.eqb (predict w dp) (_classification dp)) dps.

(** [winnow::train]; the source loops until the accuracy is 100%. *)
Fixpoint train (fuel : nat) (w : winnow) (dps : list datapoint) : outcome winnow :=
  if check_acc w dps then Returned w
  else match fuel with
       | O => OutOfFuel
       | S fuel' => train fuel' (train_once w dps) dps
       end.

(** The first loop of [execute_algorithm]: an unlabeled data point gets
    the label [satisfies(dp, X[loc])], then data and label are inverted and
    the data point goes to the list of its location. *)
Definition invert (X : psets) (dp : datapoint) : datapoint :=
  let classification :=
    if _is_classified dp then _classification dp
    else satisfies dp (at_loc X (loc dp)) in
  mk_datapoint (_categorical_data dp)
    (map (fun b => (1 - b)%Z) (_int_data dp))
    (negb classification) (_is_classified dp).

Definition segregate (n : nat) (X : psets) (dps : list datapoint)
  : list (list datapoint) :=
  fold_left (fun winnow_dps dp =>
               update (loc dp) (fun l => l ++ [invert X dp]) winnow_dps)
            dps (repeat [] n).

(** The heuristic of [execute_algorithm]:
    [for (j < weights.size()) if (X[i].count(j) == 0) weights[j] = 0]. *)
Fixpoint mask_from (j : nat) (Xi : pset) (ws : list Q) : list Q :=
  match ws with
  | [] => []
  | w :: rest => (if member j Xi then w else 0%Q) :: mask_from (S j) Xi rest
  end.

Fixpoint mask_objs (i : nat) (X : psets) (w_objs : list winnow) : list winnow :=
  match w_objs with
  | [] => []
  | w :: rest =>
      mk_winnow (mask_from 0 (at_loc X i) (weights w)) (theta w) (lr w)
      :: mask_objs (S i) X rest
  end.

Definition mask (X : psets) (w_objs : list winnow) : list winnow :=
  mask_objs 0 X w_objs.

Fixpoint train_all (fuel : nat) (w_objs : list winnow)
    (winnow_dps : list (list datapoint)) : outcome (list winnow) :=
  match w_objs, winnow_dps with
  | w :: ws, dps :: rest =>
      w' <- train fuel w dps ;;
      ws' <- train_all fuel ws rest ;;
      Returned (w' :: ws')
  | _, _ => Returned w_objs
  end.

(** [winnow::execute_algorithm] *)
Definition execute_algorithm (fuel : nat) (w_objs : list winnow)
    (dps : list datapoint) (X R : psets) : outcome (list winnow) :=
  let winnow_dps := segregate (length w_objs) X dps in
  train_all fuel (mask X w_objs) winnow_dps.

(** ** [winnow::ltf2bool] *)

(** The decision tree that [ltf2bool] writes: a leaf with its
    classification, or a node on attribute [idx] with the two subtrees in
    the order of the [children] array. *)
Inductive tree : Type :=
| leaf (classification : bool)
| node (idx : nat) (first second : tree).

(** The loop over [J]: [(sum, max, idx)], starting from [(0, -1, -1)].
    [sum += weights[j]] adds in [float] and converts the result to [int],
    [weights[j] > max] compares in [float], and [max = weights[j]]
    converts to [int].  The sum is that of the source as long as it is
    computed exactly (weights and sums that are whole numbers up to 2^24);
    beyond, the source rounds the sum to binary32 and overflows the [int],
    which the model does not. *)
Definition scan_step (ws : list Q) (st : Z * Z * Z) (j : nat) : Z * Z * Z :=
  let '(sum, max, idx) := st in
  let w := nth j ws 0%Q in
  let sum' := to_int (inject_Z sum + w) in
  if negb (Qle_bool w (inject_Z max))
  then (sum', to_int w, Z.of_nat j)
  else (sum', max, idx).

Definition scan (ws : list Q) (J : pset) : Z * Z * Z :=
  fold_left (scan_step ws) J (0, -1, -1)%Z.

(** [J.erase(idx)], where [idx] is an [int]. *)
Definition erase_idx (idx : Z) (J : pset) : pset :=
  if (idx <? 0)%Z then J else erase (Z.to_nat idx) J.

(** The recursion erases an index of [J] in every call that goes on; the
    fuel handed over by [ltf2bool] is the size of [J]. *)
Fixpoint ltf2bool_rec (fuel : nat) (ws : list Q) (J : pset) (theta : Z)
  : outcome tree :=
  if (theta <=? 0)%Z then Returned (leaf true)
  else
    let '(sum, max, idx) := scan ws J in
    if (theta <? sum)%Z then
      match fuel with
      | O => OutOfFuel
      | S fuel' =>
          let J' := erase_idx idx J in
          first <- ltf2bool_rec fuel' ws J' theta ;;
          second <- ltf2bool_rec fuel' ws J' (theta - max) ;;
          Returned (node (Z.to_nat idx) first second)
      end
    else Returned (leaf false).

Definition ltf2bool (w_obj : winnow) (J : pset) (theta : Z) : outcome tree :=
  ltf2bool_rec (length J) (weights w_obj) J theta.

(** The tree that [write_ltf2bool_json] writes for one location when
    [write_true] is false: [int sum] accumulates the weights as in
    [scan_step], and [sum - theta], a [float], is converted to the [int]
    that [ltf2bool] takes.  As for [scan_step], the value is that of the
    source as long as the sum and the difference are computed exactly. *)
Definition lower (w_obj : winnow) : outcome tree :=
  let n := length (weights w_obj) in
  let sum := fold_left (fun sum w => to_int (inject_Z sum + w)) (weights w_obj) 0%Z in
  ltf2bool w_obj (seq 0 n) (to_int (inject_Z sum - theta w_obj)).

(** The text of a tree, with the attribute names of the metadata. *)
Definition dq : string := String (Ascii.ascii_of_nat 34) EmptyString.

Definition json_node (attribute : string) (classification children : string)
  : string :=
  ("{" ++ dq ++ "attribute" ++ dq ++ ":" ++ dq ++ attribute ++ dq ++ ","
   ++ dq ++ "cut" ++ dq ++ ":0," ++ dq ++ "classification" ++ dq ++ ":"
   ++ classification ++ "," ++ dq ++ "children" ++ dq ++ ":" ++ children
   ++ "}")%string.

Fixpoint to_json (int_names : list string) (t : tree) : string :=
  match t with
  | leaf true => json_node EmptyString "true" "null"
  | leaf false => json_node EmptyString "false" "null"
  | node idx first second =>
      json_node (nth idx int_names EmptyString) "true"
        ("[" ++ to_json int_names first ++ "," ++ to_json int_names second ++ "]")
  end%string.

(** An input is accepted when it reaches a leaf [true]; the first child is
    taken when the attribute is 0, the second when it is 1. *)
Fixpoint accepts (t : tree) (x : nat -> bool) : bool :=
  match t with
  | leaf classification => classification
  | node idx first second => if x idx then accepts second x else accepts first x
  end.

(* ------------------------------------------------------------------ *)
(** * The vocabulary of the specification *)

(** [H[k] ⊆ X[k]] for every location [k]. *)
Definition included (H X : psets) : Prop :=
  forall k i, In i (at_loc H k) -> In i (at_loc X k).

(** Consistency as the specification words it: every positive example
    satisfies the conjunction of its location, no negative example does, and
    a Horn constraint whose premises all satisfy theirs has a conclusion,
    which satisfies its own. *)
Definition consistent (H : psets) (datapoints : list datapoint)
    (horn_constraints : list horn_constraint) : Prop :=
  (forall dp, In dp datapoints -> is_positive dp = true ->
              satisfies dp (at_loc H (loc dp)) = true)
  /\ (forall dp, In dp datapoints -> is_negative dp = true ->
                 satisfies dp (at_loc H (loc dp)) = false)
  /\ (forall hc, In hc horn_constraints ->
                 (forall p, In p (_premises hc) ->
                            satisfies p (at_loc H (loc p)) = true) ->
                 exists c, _conclusion hc = Some c
                           /\ satisfies c (at_loc H (loc c)) = true).

(** The assertions that [reduce_predicates_minimal] hands to the solver on
    the scenario S1 at the bound [k]: no clause, and the size constraint
    over the constants of the predicates 0 and 3. *)
Definition S1_query (k : nat) : list expr :=
  [bool_val true; bool_val true; at_most [0; 1] k].

(** The conjunction that the model of the solver selects on S1. *)
Definition S1_selected (model : nat -> bool) : pset :=
  (if model 0 then [0] else []) ++ (if model 1 then [3] else []).

(** Every conjunction of [H] lies within the interval of its location. *)
Definition within (H : psets) (intervals : list (nat * nat)) : Prop :=
  forall k i, In i (at_loc H k) ->
              exists iv, nth_error intervals k = Some iv
                         /\ fst iv <= i <= snd iv.

(** The data-model invariant on locations: every data point that the
    learner is given or that a Horn constraint refers to has a location
    below [n]. *)
Definition valid_horn (n : nat) (hc : horn_constraint) : Prop :=
  Forall (fun p => loc p < n) (_premises hc)
  /\ forall d, _conclusion hc = Some d -> loc d < n.

Definition valid_locations (n : nat) (datapoints : list datapoint)
    (horn_constraints : list horn_constraint) : Prop :=
  Forall (fun dp => loc dp < n) datapoints
  /\ Forall (valid_horn n) horn_constraints.

(** A Horn constraint is respected by [H]. *)
Definition respects (H : psets) (hc : horn_constraint) : Prop :=
  (forall p, In p (_premises hc) -> satisfies p (at_loc H (loc p)) = true) ->
  exists c, _conclusion hc = Some c /\ satisfies c (at_loc H (loc c)) = true.

(** The premises that a walk of Horndini leaves in a constraint: those that
    do not satisfy the conjunction of their location. *)
Definition remaining (c : psets) (premises : list datapoint) : list datapoint :=
  filter (fun p => negb (satisfies p (at_loc c (loc p)))) premises.

(** A constraint given to Horndini is accounted for in a state of the loop:
    what is left of it is in the working copy, or its conclusion is a
    positive data point, waiting in the list or knocked out already. *)
Definition settled (st : horndini_state) (hc : horn_constraint) : Prop :=
  let '(positive, live, c) := st in
  (exists hc', In hc' live /\ _conclusion hc' = _conclusion hc
               /\ incl (_premises hc') (_premises hc))
  \/ (exists d, _conclusion hc = Some d
                /\ (In d positive \/ satisfies d (at_loc c (loc d)) = true)).

Definition valid_state (n : nat) (st : horndini_state) : Prop :=
  let '(positive, live, c) := st in
  Forall (fun dp => loc dp < n) positive
  /\ Forall (valid_horn n) live /\ length c = n.

(** The weighted sum of a Boolean input over the attributes of [J]. *)
Definition weighted_sum (ws : list Q) (J : pset) (x : nat -> bool) : Q :=
  fold_right (fun j s => ((if x j then nth j ws 0 else 0) + s)%Q) 0%Q J.

(** The same sum with every weight truncated to an [int], as [ltf2bool]
    reads the weights. *)
Definition score (ws : list Q) (J : pset) (x : nat -> bool) : Z :=
  fold_right (fun j s => ((if x j then to_int (nth j ws 0%Q) else 0) + s)%Z) 0%Z J.

(** The sum that [write_ltf2bool_json] and [ltf2bool] accumulate in an
    [int] when no weight is negative. *)
Definition total (ws : list Q) (J : pset) : Z :=
  fold_right (fun j s => (to_int (nth j ws 0%Q) + s)%Z) 0%Z J.

(** No weight is negative (Winnow starts from positive weights, multiplies
    and divides them by the rate, and masks with 0). *)
Definition nonneg (ws : list Q) : Prop := Forall (fun w => (0 <= w)%Q) ws.

(** What the reducers keep true of [R] and [X_minus_R]: at every location
    the two are ordered, disjoint, and together make up [X]. *)
Definition split_of (X R X_minus_R : psets) : Prop :=
  length R = length X /\ length X_minus_R = length X
  /\ forall k,
       ordered (at_loc R k) /\ ordered (at_loc X_minus_R k)
       /\ (forall i, In i (at_loc X k)
                     <-> In i (at_loc R k) \/ In i (at_loc X_minus_R k))
       /\ (forall i, ~ (In i (at_loc R k) /\ In i (at_loc X_minus_R k))).

(** The invariant of [std::map]: strictly increasing keys. *)
Definition keys (m : pmap) : pset := map fst m.
Definition keys_ordered (m : pmap) : Prop := ordered (keys m).

(* ------------------------------------------------------------------ *)
(** * Further vocabulary *)

(** [H] is satisfied by every positive example and respects every Horn
    constraint: what Horndini looks at. *)
Definition admissible (H : psets) (datapoints : list datapoint)
    (horn_constraints : list horn_constraint) : Prop :=
  (forall dp, In dp datapoints -> is_positive dp = true ->
              satisfies dp (at_loc H (loc dp)) = true)
  /\ (forall hc, In hc horn_constraints -> respects H hc).

(* ------------------------------------------------------------------ *)
(** * The driver [main] of [sorcar.cpp] *)

(** [enum algorithm], without [WINNOW] and [PERCEPTRON]: their branches of
    [main] write a threshold function through class interfaces that the
    header of the sources does not have. *)
Inductive algorithm : Type :=
| HORNDINI
| SORCAR
| SORCAR_FIRST
| SORCAR_GREEDY
| SORCAR_MINIMAL.

(** [main] from the call of Horndini on, for the learners of conjunctions.
    What the driver has read is given: the options [alg], [reset_R],
    [horndini_first_round] and [alternate], the number [round] of the
    status file, the sample, the intervals, and [R_file], what
    [read_R_file] returns.  The result is the vector of conjunctions that is
    written to the JSON file and to the R file. *)
Definition main (check : solver) (fuel : nat) (alg : algorithm)
    (reset_R horndini_first_round alternate : bool) (round : nat)
    (R_file : psets) (datapoints : list datapoint)
    (horn_constraints : list horn_constraint) (intervals : list (nat * nat))
  : outcome psets :=
  X <- horndini datapoints horn_constraints intervals ;;
  _ <- assert (is_consistent X datapoints horn_constraints) ;;
  match alg with
  | HORNDINI => Returned X
  | _ =>
      let R := if reset_R || (round =? 1) then empty_sets (length X) else R_file in
      if negb (horndini_first_round && (round =? 1))
         && negb (alternate && (round mod 2 =? 1))
      then
        match alg with
        | SORCAR_FIRST => reduce_predicates_first datapoints horn_constraints X R
        | SORCAR_GREEDY => reduce_predicates_greedy fuel datapoints horn_constraints X R
        | SORCAR_MINIMAL => reduce_predicates_minimal check datapoints horn_constraints X R
        | _ => reduce_predicates_all datapoints horn_constraints X R
        end
      else Returned X
  end.

(** What training keeps of an object: the threshold and the rate, and a
    relation [keeps] between every weight before and after. *)
Definition kept (keeps : Q -> Q -> Prop) (w w' : winnow) : Prop :=
  Forall2 keeps (weights w) (weights w')
  /\ theta w' = theta w /\ lr w' = lr w.

(* ------------------------------------------------------------------ *)
(** * [sorcar::write_R_file] and [sorcar::read_R_file] *)

(** A file is the text in it.  Whether the stream could be opened is given
    to the two functions: [opened] for the output stream, [None] for an
    input stream that failed. *)
Definition msg_opening (filename : string) : string :=
  ("Error opening " ++ filename)%string.

(** The character that [std::endl] writes and [std::getline] stops at. *)
Definition endl : Ascii.ascii := Ascii.ascii_of_nat 10.

(** [outfile << p]: the decimal digits of [p]. *)
Definition show_unsigned (p : nat) : string :=
  DecimalString.NilEmpty.string_of_uint (Nat.to_uint p).

(** [for (p : R[i]) outfile << p << " "] *)
Fixpoint write_predicates (s : pset) : string :=
  match s with
  | [] => EmptyString
  | p :: rest => (show_unsigned p ++ " " ++ write_predicates rest)%string
  end.

Definition write_conjunction (s : pset) : string :=
  match s with
  | [] => "e"%string
  | _ :: _ => write_predicates s
  end.

(** The loop over [R]; [first] tells whether [i] is 0. *)
Fixpoint write_conjunctions (first : bool) (R : psets) : string :=
  match R with
  | [] => EmptyString
  | s :: rest =>
      ((if first then EmptyString else String endl EmptyString)
       ++ write_conjunction s ++ write_conjunctions false rest)%string
  end.

Definition write_R_file (filename : string) (opened : bool) (R : psets)
  : outcome string :=
  if opened then Returned (write_conjunctions true R)
  else Thrown (msg_opening filename).

(** The lines that [while (std::getline(infile, line))] sees: the text cut
    at every [endl]; an empty rest after the last [endl] is no line. *)
Fixpoint getlines (text : string) : list string :=
  match text with
  | EmptyString => []
  | String c rest =>
      if Ascii.eqb c endl then EmptyString :: getlines rest
      else match getlines rest with
           | [] => [String c EmptyString]
           | line :: lines => String c line :: lines
           end
  end.

(** [line_stream >> p] for an [unsigned p], as the stream library does it
    in the classic locale: white space is skipped, a sign is accepted, the
    decimal digits are read; the extraction fails when there is no digit or
    when the number is beyond [UINT_MAX]; a number after [-] is negated
    modulo [UINT_MAX + 1]. *)
Definition isspace (c : Ascii.ascii) : bool :=
  let n := Ascii.nat_of_ascii c in
  (n =? 32) || ((9 <=? n) && (n <=? 13)).

Fixpoint skip_ws (s : string) : string :=
  match s with
  | EmptyString => EmptyString
  | String c rest => if isspace c then skip_ws rest else s
  end.

Definition digit (c : Ascii.ascii) : option N :=
  let n := Ascii.N_of_ascii c in
  if ((48 <=? n) && (n <=? 57))%N then Some (n - 48)%N else None.

(** The digits at the head of [s]: their value on top of [acc], whether
    there was one, and what follows them. *)
Fixpoint digits (s : string) (acc : N) (seen : bool) : N * bool * string :=
  match s with
  | EmptyString => (acc, seen, s)
  | String c rest =>
      match digit c with
      | Some d => digits rest (acc * 10 + d)%N true
      | None => (acc, seen, s)
      end
  end.

Definition UINT_MAX : N := 4294967295%N.

Definition minus_sign : Ascii.ascii := Ascii.ascii_of_nat 45.
Definition plus_sign : Ascii.ascii := Ascii.ascii_of_nat 43.

Definition extract (line_stream : string) : option (nat * string) :=
  let s1 := skip_ws line_stream in
  let '(negative, s2) :=
    match s1 with
    | EmptyString => (false, s1)
    | String c rest =>
        if Ascii.eqb c minus_sign then (true, rest)
        else if Ascii.eqb c plus_sign then (false, rest)
        else (false, s1)
    end in
  let '(v, seen, s3) := digits s2 0%N false in
  if seen && (v <=? UINT_MAX)%N
  then Some (N.to_nat (if negative then ((UINT_MAX + 1 - v) mod (UINT_MAX + 1))%N
                       else v), s3)
  else None.

(** [while (line_stream >> p) cur_R.insert(p)].  Every extraction that
    succeeds takes a character off the stream, so the length of the line is
    fuel enough ([read_R_file_returns] below). *)
Fixpoint read_predicates (fuel : nat) (line_stream : string) (cur_R : pset)
  : outcome pset :=
  match extract line_stream with
  | None => Returned cur_R
  | Some (p, rest) =>
      match fuel with
      | O => OutOfFuel
      | S fuel' => read_predicates fuel' rest (insert p cur_R)
      end
  end.

Fixpoint read_lines (lines : list string) (R : psets) : outcome psets :=
  match lines with
  | [] => Returned R
  | line :: rest =>
      if String.eqb line EmptyString then read_lines rest R
      else if String.eqb line "e" then read_lines rest (R ++ [[]])
      else
        cur_R <- read_predicates (String.length line) line [] ;;
        read_lines rest (R ++ [cur_R])
  end.

Definition read_R_file (filename : string) (infile : option string)
  : outcome psets :=
  match infile with
  | None => Thrown (msg_opening filename)
  | Some text => read_lines (getlines text) []
  end.

(** No [endl] in a text. *)
Fixpoint one_line (s : string) : bool :=
  match s with
  | EmptyString => true
  | String c rest => negb (Ascii.eqb c endl) && one_line rest
  end.

(** A predicate index that fits an [unsigned] of 32 bits. *)
Definition fits_unsigned (p : nat) : Prop := (N.of_nat p <= UINT_MAX)%N.

(** A tree that tests attributes of [J] only, and none twice on a path:
    below a node the attribute of the node is gone from [J]. *)
Fixpoint tree_within (J : pset) (t : tree) : Prop :=
  match t with
  | leaf _ => True
  | node idx first second =>
      In idx J /\ tree_within (erase idx J) first
      /\ tree_within (erase idx J) second
  end.

Fixpoint depth (t : tree) : nat :=
  match t with
  | leaf _ => 0
  | node _ first second => S (Nat.max (depth first) (depth second))
  end.

(** A solver is sound when the model of an answer [sat] makes every
    assertion true. *)
Definition sound (check : solver) : Prop :=
  forall assertions model,
    check assertions = Some model ->
    Forall (fun e => eval model e = true) assertions.

(** The model selects the predicate [p] at the location [i]: it makes the
    constant of [p] in [attr2expr[i]] true. *)
Definition selected (model : nat -> bool) (attr2expr : list (list (nat * nat)))
    (i p : nat) : Prop :=
  exists v, In (p, v) (nth i attr2expr []) /\ model v = true.

(** The model selects a predicate that the data point makes false. *)
Definition falsified (model : nat -> bool) (attr2expr : list (list (nat * nat)))
    (dp : datapoint) : Prop :=
  exists p, bit dp p = 0%Z /\ selected model attr2expr (loc dp) p.

(* ------------------------------------------------------------------ *)
(** * [class perceptron] *)

Module perceptron.

Record perceptron : Type := mk_perceptron {
  weights : list Q;
  theta : Q;
  lr : Q
}.

(** The constructor: [num_pred + 1] weights [1.0] ([weights[0]] is the
    bias), the threshold [0.0] and the rate [0.01], as the [float] nearest
    to it. *)
Definition init (num_pred : nat) : perceptron :=
  mk_perceptron (repeat 1%Q (S num_pred)) 0%Q (5368709 # 536870912)%Q.

(** [perceptron::predict] *)
Definition predict (w : perceptron) (dp : datapoint) : bool :=
  let sum :=
    fold_left (fun sum i => (sum + nth (i + 1) (weights w) 0 * inject_Z (bit dp i))%Q)
              (seq 0 (length (_int_data dp))) (nth 0 (weights w) 0%Q) in
  Qle_bool (theta w) sum.

(** [dp._classification - prediction], of two [bool]: an [int]. *)
Definition error (dp : datapoint) (prediction : bool) : Z :=
  ((if _classification dp then 1 else 0) - (if prediction then 1 else 0))%Z.

(** One round of the loop of [perceptron::update]: it moves [weights[i+1]]
    and then the bias [weights[0]]. *)
Definition update_step (rate : Q) (dp : datapoint) (prediction : bool)
    (ws : list Q) (i : nat) : list Q :=
  update 0 (fun w0 => (w0 + rate * inject_Z (error dp prediction))%Q)
    (update (i + 1)
       (fun wi => (wi + rate * inject_Z (error dp prediction)
                        * inject_Z (bit dp i))%Q) ws).

(** [perceptron::update] *)
Definition update_weights (w : perceptron) (dp : datapoint) (prediction : bool)
  : perceptron :=
  mk_perceptron
    (fold_left (update_step (lr w) dp prediction)
       (seq 0 (length (_int_data dp))) (weights w))
    (theta w) (lr w).

(** [perceptron::train_once] *)
Definition train_once (w : perceptron) (dps : list datapoint) : perceptron :=
  fold_left (fun w dp => update_weights w dp (predict w dp)) dps w.

(** [perceptron::check_acc] *)
Definition check_acc (w : perceptron) (dps : list datapoint) : bool :=
  forallb (fun dp => Bool.eqb (predict w dp) (_classification dp)) dps.

(** [perceptron::train]; the source loops until the accuracy is 100%. *)
Fixpoint train (fuel : nat) (w : perceptron) (dps : list datapoint)
  : outcome perceptron :=
  if check_acc w dps then Returned w
  else match fuel with
       | O => OutOfFuel
       | S fuel' => train fuel' (train_once w dps) dps
       end.

(** The weights of two objects are equal as numbers, and the thresholds and
    the rates are the same. *)
Definition same (w w' : perceptron) : Prop :=
  Forall2 Qeq (weights w) (weights w')
  /\ theta w' = theta w /\ lr w' = lr w.

End perceptron.

(* ------------------------------------------------------------------ *)
(** * The bookkeeping of the greedy reducer *)

(** The entry of the predicate [p] of the location [id], the empty one when
    [predicates] has none. *)
Definition entry_at (predicates : list pmap) (id p : nat) : entry :=
  match map_at p (nth id predicates []) with
  | Some e => e
  | None => ([], [])
  end.

(** [dp] is a data point of the location [id] on which the predicate [p] of
    [X_minus_R] is 0: adding [p] keeps [dp] from satisfying the
    conjunction. *)
Definition zero_at (X_minus_R : psets) (id p : nat) (dp : datapoint) : Prop :=
  loc dp = id /\ In p (at_loc X_minus_R id) /\ bit dp p = 0%Z.

(** Every predicate that the walks of the inner loop visit for [dp] has an
    entry. *)
Definition filed (X_minus_R : psets) (predicates : list pmap) (dp : datapoint)
  : Prop :=
  loc dp < length predicates
  /\ forall q, In q (at_loc X_minus_R (loc dp)) -> bit dp q = 0%Z ->
               map_at q (nth (loc dp) predicates []) <> None.

(** A negative data point that satisfies [R], and a Horn constraint that [R]
    does not satisfy: the tests of the two recording loops. *)
Definition violating (R : psets) (dp : datapoint) : bool :=
  is_negative dp && satisfies dp (at_loc R (loc dp)).

Definition unsatisfied (R : psets) (hc : horn_constraint) : bool :=
  lhs_satisfied R (_premises hc) && negb (conclusion_satisfied R (_conclusion hc)).

(** What [predicates] holds when the first [n] data points and the first
    [h] Horn constraints have been looked at: the first set of an entry
    holds the violating data points that its predicate fixes, the second
    the unsatisfied constraints with a premise that it fixes. *)
Definition recorded (datapoints : list datapoint)
    (horn_constraints : list horn_constraint) (R X_minus_R : psets)
    (n h : nat) (predicates : list pmap) : Prop :=
  Forall keys_ordered predicates
  /\ (forall id p x,
        In x (fst (entry_at predicates id p))
        <-> x < n /\ violating R (nth x datapoints no_datapoint) = true
            /\ zero_at X_minus_R id p (nth x datapoints no_datapoint))
  /\ (forall id p y,
        In y (snd (entry_at predicates id p))
        <-> y < h /\ unsatisfied R (nth y horn_constraints no_horn) = true
            /\ exists dp, In dp (_premises (nth y horn_constraints no_horn))
                          /\ zero_at X_minus_R id p dp)
  /\ (forall x, x < n -> violating R (nth x datapoints no_datapoint) = true ->
                filed X_minus_R predicates (nth x datapoints no_datapoint))
  /\ (forall y dp, y < h ->
                   unsatisfied R (nth y horn_constraints no_horn) = true ->
                   In dp (_premises (nth y horn_constraints no_horn)) ->
                   filed X_minus_R predicates dp).

(* ------------------------------------------------------------------ *)
(** * Numbers that the lowering handles without loss *)

(** A whole number from 0 to 2^24: a [float] holds it exactly, its
    conversion to [int] is the number itself, and sums and differences of
    such numbers that stay in the range are computed exactly. *)
Definition exact (q : Q) : Prop :=
  exists n : Z, (0 <= n <= 16777216)%Z /\ (q == inject_Z n)%Q.

(** The sum of the weights of the attributes of [J]. *)
Definition live_sum (ws : list Q) (J : pset) : Q :=
  weighted_sum ws J (fun _ => true).

(* ================================================================== *)
(** * Properties *)

(* ------------------------------------------------------------------ *)
(** ** Ordered sets *)

Lemma In_insert (x y : nat) (s : pset) :
  In y (insert x s) <-> y = x \/ In y s.
Proof.
  induction s as [|z s IH]; simpl.
  - intuition.
  - destruct (x <? z) eqn:Hxz; [simpl; intuition|].
    destruct (z <? x) eqn:Hzx; simpl.
    + rewrite IH. intuition.
    + apply Nat.ltb_ge in Hxz, Hzx.
      assert (x = z) by lia. subst. intuition.
Qed.

Lemma ordered_cons_inv (x : nat) (s : pset) :
  ordered (x :: s) -> ordered s /\ forall y, In y s -> x < y.
Proof.
  intros H. inversion H; subst. split; [assumption|].
  intros y Hy. rewrite Forall_forall in *. auto.
Qed.

Lemma ordered_cons (x : nat) (s : pset) :
  ordered s -> (forall y, In y s -> x < y) -> ordered (x :: s).
Proof.
  intros Hs Hx. constructor; [assumption|]. now apply Forall_forall.
Qed.

Lemma ordered_insert (x : nat) (s : pset) : ordered s -> ordered (insert x s).
Proof.
  induction s as [|z s IH]; simpl; intros Hs.
  - apply ordered_cons; [constructor | intros ? []].
  - destruct (ordered_cons_inv _ _ Hs) as [Hs' Hz].
    destruct (x <? z) eqn:Hxz.
    + apply Nat.ltb_lt in Hxz. apply ordered_cons; [assumption|].
      intros y [<-|Hy]; [assumption|]. specialize (Hz _ Hy). lia.
    + destruct (z <? x) eqn:Hzx; [|assumption].
      apply Nat.ltb_lt in Hzx. apply ordered_cons; [auto|].
      intros y Hy. apply In_insert in Hy as [->|Hy]; auto.
Qed.

Lemma In_erase (x y : nat) (s : pset) :
  ordered s -> (In y (erase x s) <-> y <> x /\ In y s).
Proof.
  induction s as [|z s IH]; simpl; intros Hs.
  - intuition.
  - destruct (ordered_cons_inv _ _ Hs) as [Hs' Hz].
    destruct (x =? z) eqn:Hxz.
    + apply Nat.eqb_eq in Hxz. subst z. split.
      * intros Hy. specialize (Hz _ Hy). split; [lia | now right].
      * intros [Hne [->|Hy]]; [congruence | assumption].
    + apply Nat.eqb_neq in Hxz. simpl. rewrite (IH Hs'). intuition congruence.
Qed.

Lemma ordered_erase (x : nat) (s : pset) : ordered s -> ordered (erase x s).
Proof.
  induction s as [|z s IH]; simpl; intros Hs; [assumption|].
  destruct (ordered_cons_inv _ _ Hs) as [Hs' Hz].
  destruct (x =? z) eqn:Hxz; [assumption|].
  apply ordered_cons; [auto|].
  intros y Hy. apply In_erase in Hy; [|assumption]. apply Hz, Hy.
Qed.

Lemma orderedb_spec (s : pset) : orderedb s = true <-> ordered s.
Proof.
  induction s as [|x s IH]; simpl.
  - split; [constructor | reflexivity].
  - rewrite andb_true_iff, forallb_forall, IH. split.
    + intros [Hx Hs]. apply ordered_cons; [assumption|].
      intros y Hy. apply Nat.ltb_lt. auto.
    + intros H. destruct (ordered_cons_inv _ _ H) as [Hs Hx]. split; [|assumption].
      intros y Hy. apply Nat.ltb_lt. auto.
Qed.

Lemma member_spec (x : nat) (s : pset) : member x s = true <-> In x s.
Proof.
  unfold member. rewrite existsb_exists. split.
  - intros [y [Hy Heq]]. apply Nat.eqb_eq in Heq. now subst.
  - intros H. exists x. split; [assumption | apply Nat.eqb_refl].
Qed.

Lemma In_fold_insert (l s : pset) (y : nat) :
  In y (fold_left (fun acc x => insert x acc) l s) <-> In y l \/ In y s.
Proof.
  revert s. induction l as [|x l IH]; simpl; intros s.
  - intuition.
  - rewrite IH, In_insert. intuition.
Qed.

Lemma ordered_fold_insert (l s : pset) :
  ordered s -> ordered (fold_left (fun acc x => insert x acc) l s).
Proof.
  revert s. induction l as [|x l IH]; simpl; intros s Hs; [assumption|].
  apply IH, ordered_insert, Hs.
Qed.

(* ------------------------------------------------------------------ *)
(** ** Vectors of conjunctions *)

Lemma length_update {A : Type} (id : nat) (f : A -> A) (v : list A) :
  length (update id f v) = length v.
Proof.
  revert id. induction v as [|c v IH]; intros [|id]; simpl; auto.
Qed.

Lemma nth_update {A : Type} (id k : nat) (f : A -> A) (v : list A) (d : A) :
  nth k (update id f v) d
  = if (k =? id) && (id <? length v) then f (nth k v d) else nth k v d.
Proof.
  revert id k. induction v as [|c v IH]; intros id k.
  - replace (id <? length (@nil A)) with false by (destruct id; reflexivity).
    rewrite andb_false_r. now destruct id.
  - destruct id as [|id], k as [|k]; simpl; auto.
Qed.

Lemma at_loc_update_same (id : nat) (f : pset -> pset) (v : psets) :
  id < length v -> at_loc (update id f v) id = f (at_loc v id).
Proof.
  intros H. unfold at_loc. rewrite nth_update, Nat.eqb_refl.
  apply Nat.ltb_lt in H. now rewrite H.
Qed.

Lemma at_loc_update_other (id k : nat) (f : pset -> pset) (v : psets) :
  k <> id -> at_loc (update id f v) k = at_loc v k.
Proof.
  intros H. unfold at_loc. rewrite nth_update.
  apply Nat.eqb_neq in H. now rewrite H.
Qed.

Lemma at_loc_beyond (v : psets) (k : nat) : length v <= k -> at_loc v k = [].
Proof. intros H. unfold at_loc. now apply nth_overflow. Qed.

(* ------------------------------------------------------------------ *)
(** ** [satisfies] *)

Lemma satisfies_iff (dp : datapoint) (c : pset) :
  satisfies dp c = true <-> forall i, In i c -> bit dp i <> 0%Z.
Proof.
  induction c as [|i c IH]; simpl.
  - split; [intros _ ? [] | reflexivity].
  - destruct (bit dp i =? 0)%Z eqn:Hb.
    + apply Z.eqb_eq in Hb. split; [discriminate|].
      intros H. exfalso. apply (H i); auto.
    + apply Z.eqb_neq in Hb. rewrite IH. split.
      * intros H j [<-|Hj]; auto.
      * intros H j Hj. auto.
Qed.

Lemma satisfies_false_iff (dp : datapoint) (c : pset) :
  satisfies dp c = false <-> exists i, In i c /\ bit dp i = 0%Z.
Proof.
  induction c as [|i c IH]; simpl.
  - split; [discriminate | intros [? [[] _]]].
  - destruct (bit dp i =? 0)%Z eqn:Hb.
    + apply Z.eqb_eq in Hb. split; [|reflexivity]. intros _. exists i. auto.
    + apply Z.eqb_neq in Hb. rewrite IH. split.
      * intros [j [Hj Hz]]. exists j. auto.
      * intros [j [[<-|Hj] Hz]]; [contradiction|]. exists j. auto.
Qed.

(** A data point that satisfies a conjunction satisfies every part of it. *)
Lemma satisfies_subset (dp : datapoint) (c c' : pset) :
  (forall i, In i c' -> In i c) -> satisfies dp c = true -> satisfies dp c' = true.
Proof. rewrite !satisfies_iff. auto. Qed.

(** C10.  The empty conjunction is satisfied by every data point, and a
    hypothesis whose conjunctions are all empty classifies every data point
    as positive. *)
Theorem satisfies_empty :
  (forall dp : datapoint, satisfies dp [] = true)
  /\ (forall (H : psets) (dp : datapoint),
         Forall (fun c => c = []) H -> satisfies dp (at_loc H (loc dp)) = true).
Proof.
  split; [reflexivity|].
  intros H dp Hall.
  assert (Hc : at_loc H (loc dp) = []).
  { unfold at_loc. destruct (Nat.lt_ge_cases (loc dp) (length H)) as [Hlt|Hge].
    - rewrite Forall_forall in Hall. apply Hall, nth_In, Hlt.
    - now apply nth_overflow. }
  rewrite Hc. reflexivity.
Qed.

Lemma satisfies_empty_witness :
  satisfies S4_p (at_loc [[]; []] (loc S4_p)) = true.
Proof.
  apply (proj2 satisfies_empty [[]; []] S4_p). repeat constructor.
Defined.

(* ------------------------------------------------------------------ *)
(** ** [prepare_sets] *)

Lemma prepare_walk_nil (Xi M : pset) :
  prepare_walk [] Xi M = ([], fold_left (fun acc x => insert x acc) Xi M).
Proof. destruct Xi; reflexivity. Qed.

Lemma prepare_walk_cons_nil (r : nat) (Ri M : pset) :
  prepare_walk (r :: Ri) [] M = ([], M).
Proof. reflexivity. Qed.

Lemma prepare_walk_cons_cons (r x : nat) (Ri Xi M : pset) :
  prepare_walk (r :: Ri) (x :: Xi) M
  = if r <? x then prepare_walk Ri (x :: Xi) M
    else if x <? r then prepare_walk (r :: Ri) Xi (insert x M)
    else let (R', M') := prepare_walk Ri Xi M in (r :: R', M').
Proof. reflexivity. Qed.

Lemma prepare_walk_spec (Ri Xi M : pset) :
  ordered Ri -> ordered Xi ->
  (forall y, In y (fst (prepare_walk Ri Xi M)) <-> In y Ri /\ In y Xi)
  /\ (forall y, In y (snd (prepare_walk Ri Xi M))
                <-> In y M \/ (In y Xi /\ ~ In y Ri))
  /\ ordered (fst (prepare_walk Ri Xi M))
  /\ (ordered M -> ordered (snd (prepare_walk Ri Xi M))).
Proof.
  revert Xi M. induction Ri as [|r Ri IHR]; intros Xi.
  - intros M _ _. rewrite prepare_walk_nil. simpl.
    split; [|split; [|split]].
    + intros y. tauto.
    + intros y. rewrite In_fold_insert. tauto.
    + constructor.
    + apply ordered_fold_insert.
  - induction Xi as [|x Xi IHX]; intros M HR HX.
    + rewrite prepare_walk_cons_nil. simpl.
      split; [|split; [|split]];
        [intros y; tauto | intros y; tauto | constructor | tauto].
    + rewrite prepare_walk_cons_cons.
      destruct (ordered_cons_inv _ _ HR) as [HR' Hr].
      destruct (ordered_cons_inv _ _ HX) as [HX' Hx].
      destruct (r <? x) eqn:Hrx.
      * apply Nat.ltb_lt in Hrx.
        destruct (IHR (x :: Xi) M HR' HX) as (H1 & H2 & H3 & H4).
        assert (Hnr : ~ In r (x :: Xi)).
        { intros [->|Hin]; [lia|]. specialize (Hx _ Hin). lia. }
        split; [|split; [|split]]; try assumption.
        -- intros y. rewrite H1. split; [simpl; tauto|].
           intros [[<-|Hy] Hy2]; [contradiction|tauto].
        -- intros y. rewrite H2. split.
           ++ intros [Hy|[Hy Hn]]; [tauto|].
              right. split; [assumption|]. intros [<-|Hc]; tauto.
           ++ intros [Hy|[Hy Hn]]; [tauto|]. right. split; [assumption|].
              intros Hc. apply Hn. now right.
      * apply Nat.ltb_ge in Hrx. destruct (x <? r) eqn:Hxr.
        -- apply Nat.ltb_lt in Hxr.
           destruct (IHX (insert x M) HR HX') as (H1 & H2 & H3 & H4).
           assert (Hnx : ~ In x (r :: Ri)).
           { intros [->|Hin]; [lia|]. specialize (Hr _ Hin). lia. }
           split; [|split; [|split]]; try assumption.
           ++ intros y. rewrite H1. split; [simpl; tauto|].
              intros [Hy [<-|Hy2]]; [contradiction|tauto].
           ++ intros y. rewrite H2, In_insert. split.
              ** intros [[->|Hy]|[Hy Hn]].
                 --- right. split; [now left | exact Hnx].
                 --- now left.
                 --- right. split; [now right | exact Hn].
              ** intros [Hy|[[<-|Hy] Hn]]; tauto.
           ++ intros HM. apply H4, ordered_insert, HM.
        -- apply Nat.ltb_ge in Hxr. assert (r = x) by lia. subst x.
           destruct (IHR Xi M HR' HX') as (H1 & H2 & H3 & H4).
           destruct (prepare_walk Ri Xi M) as [R' M'] eqn:Hw. simpl in *.
           assert (Hnr : ~ In r Xi) by (intros Hin; specialize (Hx _ Hin); lia).
           assert (Hnr' : ~ In r Ri) by (intros Hin; specialize (Hr _ Hin); lia).
           split; [|split; [|split]]; try assumption.
           ++ intros y. split.
              ** intros [<-|Hy]; [tauto|]. apply H1 in Hy. tauto.
              ** intros [[<-|Hy] [Hy2|Hy2]]; try tauto; subst; try tauto.
                 right. apply H1. tauto.
           ++ intros y. rewrite H2. split.
              ** intros [Hy|[Hy Hn]]; [tauto|].
                 right. split; [tauto|]. intros [<-|Hc]; tauto.
              ** intros [Hy|[[<-|Hy] Hn]]; tauto.
           ++ apply ordered_cons; [assumption|].
              intros y Hy. apply H1 in Hy. apply Hr, Hy.
Qed.

Lemma prepare_sets_length (X R M : psets) :
  length (fst (prepare_sets X R M)) = length R
  /\ length (snd (prepare_sets X R M)) = length M.
Proof.
  revert R M. induction X as [|Xi X IH]; intros R M; [now split|].
  destruct R as [|Ri R]; [now split|]. destruct M as [|Mi M]; [now split|].
  simpl. destruct (prepare_walk Ri Xi Mi) as [Ri' Mi'].
  specialize (IH R M). destruct (prepare_sets X R M) as [R'' M''].
  simpl in *. destruct IH. split; congruence.
Qed.

Lemma prepare_sets_at (X R M : psets) (k : nat) :
  length R = length X -> length M = length X ->
  at_loc (fst (prepare_sets X R M)) k
    = fst (prepare_walk (at_loc R k) (at_loc X k) (at_loc M k))
  /\ at_loc (snd (prepare_sets X R M)) k
    = snd (prepare_walk (at_loc R k) (at_loc X k) (at_loc M k)).
Proof.
  revert R M k. induction X as [|Xi X IH]; intros R M k HR HM.
  - destruct R; [|discriminate]. destruct M; [|discriminate].
    unfold at_loc. simpl. destruct k; simpl; auto.
  - destruct R as [|Ri R]; [discriminate|]. destruct M as [|Mi M]; [discriminate|].
    simpl. destruct (prepare_walk Ri Xi Mi) as [Ri' Mi'] eqn:Hw.
    injection HR as HR. injection HM as HM.
    specialize (IH R M). destruct (prepare_sets X R M) as [R'' M''].
    destruct k as [|k]; unfold at_loc in *; simpl.
    + rewrite Hw. auto.
    + apply (IH k HR HM).
Qed.

Lemma at_loc_empty_sets (n k : nat) : at_loc (empty_sets n) k = [].
Proof.
  unfold at_loc, empty_sets. revert k.
  induction n as [|n IH]; intros [|k]; simpl; auto.
Qed.

Lemma Forall_at_loc (P : pset -> Prop) (v : psets) (k : nat) :
  P [] -> Forall P v -> P (at_loc v k).
Proof.
  intros Hnil Hall. unfold at_loc.
  destruct (Nat.lt_ge_cases k (length v)) as [Hlt|Hge].
  - rewrite Forall_forall in Hall. apply Hall, nth_In, Hlt.
  - now rewrite nth_overflow.
Qed.

Lemma ordered_nil : ordered [].
Proof. constructor. Qed.

Lemma ordered_at_loc (v : psets) (k : nat) : Forall ordered v -> ordered (at_loc v k).
Proof. apply Forall_at_loc, ordered_nil. Qed.

(** What the reducers know after their call of [prepare_sets]. *)
Lemma prepare_sets_fresh (X R : psets) (k i : nat) :
  length X = length R -> Forall ordered X -> Forall ordered R ->
  let R' := fst (prepare_sets X R (empty_sets (length X))) in
  let M := snd (prepare_sets X R (empty_sets (length X))) in
  (In i (at_loc R' k) <-> In i (at_loc R k) /\ In i (at_loc X k))
  /\ (In i (at_loc M k) <-> In i (at_loc X k) /\ ~ In i (at_loc R k))
  /\ ordered (at_loc R' k) /\ ordered (at_loc M k).
Proof.
  intros Hlen HX HR R' M.
  assert (HM : length (empty_sets (length X)) = length X)
    by apply repeat_length.
  destruct (prepare_sets_at X R (empty_sets (length X)) k (eq_sym Hlen) HM)
    as [E1 E2].
  subst R' M. rewrite E1, E2, at_loc_empty_sets.
  destruct (prepare_walk_spec (at_loc R k) (at_loc X k) []
              (ordered_at_loc _ k HR) (ordered_at_loc _ k HX)) as (H1 & H2 & H3 & H4).
  split; [apply H1|]. split; [|split; [apply H3 | apply H4, ordered_nil]].
  rewrite H2. simpl. tauto.
Qed.

(** C9.  For ordered sets and vectors of equal length, [prepare_sets]
    leaves [R ∩ X] in [R] and [X \ R] in the fresh [X_minus_R], location by
    location: the new [R[k]] is a part of [X[k]], together with
    [X_minus_R[k]] it makes up [X[k]], and the two are disjoint.  [X] is
    passed by reference to [const]; it is an argument only. *)
Theorem prepare_sets_spec (X R : psets) :
  length X = length R -> Forall ordered X -> Forall ordered R ->
  forall R' X_minus_R,
    prepare_sets X R (empty_sets (length X)) = (R', X_minus_R) ->
    length R' = length X /\ length X_minus_R = length X
    /\ forall k,
        (forall i, In i (at_loc R' k) <-> In i (at_loc R k) /\ In i (at_loc X k))
        /\ (forall i, In i (at_loc X_minus_R k)
                      <-> In i (at_loc X k) /\ ~ In i (at_loc R k))
        /\ (forall i, In i (at_loc R' k) -> In i (at_loc X k))
        /\ (forall i, In i (at_loc X k)
                      <-> In i (at_loc R' k) \/ In i (at_loc X_minus_R k))
        /\ (forall i, ~ (In i (at_loc R' k) /\ In i (at_loc X_minus_R k))).
Proof.
  intros Hlen HX HR R' M Hp.
  pose proof (prepare_sets_length X R (empty_sets (length X))) as [L1 L2].
  rewrite Hp in L1, L2. simpl in L1, L2.
  unfold empty_sets in L2. rewrite repeat_length in L2.
  split; [congruence|]. split; [assumption|].
  intros k.
  assert (HF : forall i,
             (In i (at_loc R' k) <-> In i (at_loc R k) /\ In i (at_loc X k))
             /\ (In i (at_loc M k) <-> In i (at_loc X k) /\ ~ In i (at_loc R k))).
  { intros i. pose proof (prepare_sets_fresh X R k i Hlen HX HR) as HH.
    rewrite Hp in HH. simpl in HH. tauto. }
  split; [intros i; apply HF|]. split; [intros i; apply HF|].
  split; [|split].
  - intros i Hi. apply HF in Hi. tauto.
  - intros i. destruct (HF i) as [H1 H2]. rewrite H1, H2.
    destruct (in_dec Nat.eq_dec i (at_loc R k)); tauto.
  - intros i [H1 H2]. apply HF in H1. apply HF in H2. tauto.
Qed.

Lemma prepare_sets_spec_witness :
  prepare_sets [[0;1;2;3]; [4;6]] [[1;3;9]; [5]] (empty_sets 2)
  = ([[1;3]; []], [[0;2]; [4;6]])
  /\ forall i, In i (at_loc [[1;3]; []] 0) -> In i (at_loc [[0;1;2;3]; [4;6]] 0).
Proof.
  split; [reflexivity|].
  assert (HX : Forall ordered [[0;1;2;3]; [4;6]])
    by (repeat constructor; apply orderedb_spec; reflexivity).
  assert (HR : Forall ordered [[1;3;9]; [5]])
    by (repeat constructor; apply orderedb_spec; reflexivity).
  exact (proj1 (proj2 (proj2 (proj2 (proj2
           (prepare_sets_spec [[0;1;2;3]; [4;6]] [[1;3;9]; [5]]
              eq_refl HX HR [[1;3]; []] [[0;2]; [4;6]] eq_refl)) 0)))).
Defined.

(* ------------------------------------------------------------------ *)
(** ** Outcomes *)

Lemma bind_returned {A B : Type} (m : outcome A) (k : A -> outcome B) (b : B) :
  bind m k = Returned b -> exists a, m = Returned a /\ k a = Returned b.
Proof. destruct m; simpl; try discriminate. intros H. eauto. Qed.

Lemma assert_returned (b : bool) (u : unit) : assert b = Returned u -> b = true.
Proof. destruct b; [reflexivity | discriminate]. Qed.

Ltac bind_inv H :=
  let a := fresh "a" in
  let E := fresh "E" in
  apply bind_returned in H; destruct H as (a & E & H).

Ltac assert_inv H :=
  let u := fresh "u" in
  let E := fresh "E" in
  apply bind_returned in H; destruct H as (u & E & H);
  apply assert_returned in E.

(* ------------------------------------------------------------------ *)
(** ** [is_consistent] decides consistency *)

Lemma lhs_satisfied_iff (R : psets) (premises : list datapoint) :
  lhs_satisfied R premises = true
  <-> forall p, In p premises -> satisfies p (at_loc R (loc p)) = true.
Proof. unfold lhs_satisfied. apply forallb_forall. Qed.

Lemma conclusion_satisfied_iff (R : psets) (c : option datapoint) :
  conclusion_satisfied R c = true
  <-> exists d, c = Some d /\ satisfies d (at_loc R (loc d)) = true.
Proof.
  destruct c as [d|]; simpl.
  - split; [eauto|]. intros [d' [[= <-] H]]. exact H.
  - split; [discriminate|]. intros [d [[=] _]].
Qed.

Lemma datapoint_ok_iff (H : psets) (dp : datapoint) :
  datapoint_ok H dp = true
  <-> (is_positive dp = true -> satisfies dp (at_loc H (loc dp)) = true)
      /\ (is_negative dp = true -> satisfies dp (at_loc H (loc dp)) = false).
Proof.
  unfold datapoint_ok, is_positive, is_negative.
  destruct (_is_classified dp), (_classification dp),
    (satisfies dp (at_loc H (loc dp))); simpl; intuition discriminate.
Qed.

Lemma horn_ok_iff (H : psets) (hc : horn_constraint) :
  horn_ok H hc = true
  <-> (lhs_satisfied H (_premises hc) = true ->
       conclusion_satisfied H (_conclusion hc) = true).
Proof.
  unfold horn_ok.
  destruct (lhs_satisfied H (_premises hc)),
    (conclusion_satisfied H (_conclusion hc)); simpl; intuition discriminate.
Qed.

Lemma is_consistent_iff (H : psets) (dps : list datapoint)
    (hcs : list horn_constraint) :
  is_consistent H dps hcs = true <-> consistent H dps hcs.
Proof.
  unfold is_consistent, consistent.
  rewrite andb_true_iff, !forallb_forall. split.
  - intros [Hd Hh]. repeat split.
    + intros dp Hin. apply datapoint_ok_iff. auto.
    + intros dp Hin. apply datapoint_ok_iff. auto.
    + intros hc Hin Hp. apply conclusion_satisfied_iff.
      apply (proj1 (horn_ok_iff H hc) (Hh hc Hin)).
      apply lhs_satisfied_iff, Hp.
  - intros (Hp & Hn & Hh). split.
    + intros dp Hin. apply datapoint_ok_iff. split; auto.
    + intros hc Hin. apply horn_ok_iff. intros Hl.
      apply conclusion_satisfied_iff, (Hh hc Hin).
      apply lhs_satisfied_iff, Hl.
Qed.

(* ------------------------------------------------------------------ *)
(** ** The reducers only add to [R] *)

Arguments add_all : simpl never.
Arguments add_first : simpl never.
Arguments apply_relevant : simpl never.
Arguments prepare_sets : simpl never.
Arguments is_consistent : simpl never.

Lemma included_refl (R : psets) : included R R.
Proof. intros k i H. exact H. Qed.

Lemma included_trans (R1 R2 R3 : psets) :
  included R1 R2 -> included R2 R3 -> included R1 R3.
Proof. intros H1 H2 k i H. apply H2, H1, H. Qed.

Lemma included_update (R : psets) (id : nat) (f : pset -> pset) :
  (forall i, In i (at_loc R id) -> In i (f (at_loc R id))) ->
  included R (update id f R).
Proof.
  intros Hf k i Hi. unfold at_loc in *. rewrite nth_update.
  destruct (k =? id) eqn:Hk; simpl; [|assumption].
  apply Nat.eqb_eq in Hk. subst k.
  destruct (id <? length R); [|assumption]. apply Hf, Hi.
Qed.

Lemma move_zeros_grows (dp : datapoint) (M Ri : pset) (i : nat) :
  In i Ri -> In i (fst (move_zeros dp M Ri)).
Proof.
  revert Ri. induction M as [|p M IH]; simpl; intros Ri Hi; [assumption|].
  destruct (bit dp p =? 0)%Z.
  - apply IH, In_insert. now right.
  - specialize (IH Ri Hi). destruct (move_zeros dp M Ri). exact IH.
Qed.

Lemma add_all_grows (R M : psets) (dp : datapoint) :
  included R (fst (add_all (R, M) dp)).
Proof.
  unfold add_all.
  pose proof (move_zeros_grows dp (at_loc M (loc dp)) (at_loc R (loc dp))) as Hg.
  destruct (move_zeros dp (at_loc M (loc dp)) (at_loc R (loc dp))) as [r m].
  simpl in *. apply included_update. exact Hg.
Qed.

Lemma fold_add_all_grows (premises : list datapoint) (R M : psets) :
  included R (fst (fold_left add_all premises (R, M))).
Proof.
  revert R M. induction premises as [|dp l IH]; simpl; intros R M.
  - apply included_refl.
  - pose proof (add_all_grows R M dp) as H1.
    destruct (add_all (R, M) dp) as [R1 M1]. simpl in H1.
    eapply included_trans; [exact H1 | apply IH].
Qed.

Lemma negatives_all_grows (dps : list datapoint) (X R M R' M' : psets) :
  negatives_all dps X R M = Returned (R', M') -> included R R'.
Proof.
  revert R M. induction dps as [|dp dps IH]; simpl; intros R M H.
  - injection H as <- <-. apply included_refl.
  - assert_inv H.
    destruct (is_negative dp && satisfies dp (at_loc R (loc dp))).
    + assert_inv H.
      pose proof (add_all_grows R M dp) as Hg.
      destruct (add_all (R, M) dp) as [R1 M1]. simpl in Hg.
      assert_inv H. eapply included_trans; [exact Hg | eapply IH, H].
    + eapply IH, H.
Qed.

Lemma horn_walk_all_grows (hcs : list horn_constraint) (R M R' M' : psets)
    (live : list horn_constraint) (flag : bool) :
  horn_walk_all hcs R M = Returned (R', M', live, flag) -> included R R'.
Proof.
  revert R M R' M' live flag.
  induction hcs as [|hc hcs IH]; simpl; intros R M R' M' live flag H.
  - injection H as <- <- <- <-. apply included_refl.
  - bind_inv H. destruct (negb a); [eapply IH, H|].
    destruct (conclusion_satisfied R (_conclusion hc)).
    + bind_inv H. destruct a0 as [[[R1 M1] l1] f1].
      injection H as <- <- <- <-. eapply IH, E0.
    + pose proof (fold_add_all_grows (_premises hc) R M) as Hg.
      destruct (fold_left add_all (_premises hc) (R, M)) as [R1 M1]. simpl in Hg.
      bind_inv H. destruct a0 as [[[R2 M2] l2] f2].
      injection H as <- <- <- <-.
      eapply included_trans; [exact Hg | eapply IH, E0].
Qed.

Lemma horn_loop_all_grows (fuel : nat) (hcs : list horn_constraint)
    (R M R' : psets) :
  horn_loop_all fuel hcs R M = Returned R' -> included R R'.
Proof.
  revert hcs R M. induction fuel as [|fuel IH]; simpl; intros hcs R M H;
    [discriminate|].
  bind_inv H. destruct a as [[[R1 M1] live] flag].
  apply horn_walk_all_grows in E. destruct flag.
  - injection H as <-. exact E.
  - eapply included_trans; [exact E | eapply IH, H].
Qed.

Lemma move_first_zero_grows (dp : datapoint) (M Ri : pset) (i : nat) :
  In i Ri -> In i (fst (fst (move_first_zero dp M Ri))).
Proof.
  induction M as [|p M IH]; simpl; intros Hi; [assumption|].
  destruct (bit dp p =? 0)%Z; simpl.
  - apply In_insert. now right.
  - specialize (IH Hi). destruct (move_first_zero dp M Ri) as [[r m] added].
    exact IH.
Qed.

Lemma add_first_grows (R M : psets) (dp : datapoint) :
  included R (fst (fst (add_first (R, M) dp))).
Proof.
  unfold add_first.
  pose proof (move_first_zero_grows dp (at_loc M (loc dp)) (at_loc R (loc dp))) as Hg.
  destruct (move_first_zero dp (at_loc M (loc dp)) (at_loc R (loc dp)))
    as [[r m] added].
  simpl in *. apply included_update. exact Hg.
Qed.

Lemma add_first_premise_grows (premises : list datapoint) (R M : psets) :
  included R (fst (fst (add_first_premise premises R M))).
Proof.
  revert R M. induction premises as [|dp l IH]; simpl; intros R M.
  - apply included_refl.
  - pose proof (add_first_grows R M dp) as H1.
    destruct (add_first (R, M) dp) as [[R1 M1] added]. simpl in H1.
    destruct added; [exact H1|].
    eapply included_trans; [exact H1 | apply IH].
Qed.

Lemma negatives_first_grows (dps : list datapoint) (R M R' M' : psets) :
  negatives_first dps R M = Returned (R', M') -> included R R'.
Proof.
  revert R M. induction dps as [|dp dps IH]; simpl; intros R M H.
  - injection H as <- <-. apply included_refl.
  - assert_inv H.
    destruct (is_negative dp && satisfies dp (at_loc R (loc dp))).
    + pose proof (add_first_grows R M dp) as Hg.
      destruct (add_first (R, M) dp) as [[R1 M1] added]. simpl in Hg.
      assert_inv H. eapply included_trans; [exact Hg | eapply IH, H].
    + eapply IH, H.
Qed.

Lemma horn_walk_first_grows (hcs : list horn_constraint) (R M R' M' : psets)
    (live : list horn_constraint) (flag : bool) :
  horn_walk_first hcs R M = Returned (R', M', live, flag) -> included R R'.
Proof.
  revert R M R' M' live flag.
  induction hcs as [|hc hcs IH]; simpl; intros R M R' M' live flag H.
  - injection H as <- <- <- <-. apply included_refl.
  - bind_inv H. destruct (negb a); [eapply IH, H|].
    destruct (conclusion_satisfied R (_conclusion hc)).
    + bind_inv H. destruct a0 as [[[R1 M1] l1] f1].
      injection H as <- <- <- <-. eapply IH, E0.
    + pose proof (add_first_premise_grows (_premises hc) R M) as Hg.
      destruct (add_first_premise (_premises hc) R M) as [[R1 M1] added].
      simpl in Hg. assert_inv H.
      bind_inv H. destruct a0 as [[[R2 M2] l2] f2].
      injection H as <- <- <- <-.
      eapply included_trans; [exact Hg | eapply IH, E1].
Qed.

Lemma horn_loop_first_grows (fuel : nat) (hcs : list horn_constraint)
    (R M R' : psets) :
  horn_loop_first fuel hcs R M = Returned R' -> included R R'.
Proof.
  revert hcs R M. induction fuel as [|fuel IH]; simpl; intros hcs R M H;
    [discriminate|].
  bind_inv H. destruct a as [[[R1 M1] live] flag].
  apply horn_walk_first_grows in E. destruct flag.
  - injection H as <-. exact E.
  - eapply included_trans; [exact E | eapply IH, H].
Qed.

Lemma apply_relevant_grows (new_relevant : list (nat * nat)) (R M : psets) :
  included R (fst (fold_left apply_relevant new_relevant (R, M))).
Proof.
  revert R M. induction new_relevant as [|[i p] l IH]; simpl; intros R M.
  - apply included_refl.
  - eapply included_trans; [|apply IH].
    apply included_update. intros j Hj. apply In_insert. now right.
Qed.

Lemma greedy_loop_grows (fuel : nat) (dps : list datapoint)
    (hcs : list horn_constraint) (R M : psets) (ps : list pmap) (R' : psets) :
  greedy_loop fuel dps hcs R M ps = Returned R' -> included R R'.
Proof.
  revert R M ps. induction fuel as [|fuel IH]; simpl; intros R M ps H;
    [discriminate|].
  bind_inv H. destruct a as [ps1 done1].
  bind_inv H. destruct a as [[ps2 new_relevant] done].
  assert_inv H.
  pose proof (apply_relevant_grows new_relevant R M) as Hg.
  destruct (fold_left apply_relevant new_relevant (R, M)) as [R1 M1].
  simpl in Hg. destruct done.
  - injection H as <-. exact Hg.
  - eapply included_trans; [exact Hg | eapply IH, H].
Qed.

(* ------------------------------------------------------------------ *)
(** ** The four reducers *)

Lemma check_arguments_returned (X R : psets) (u : unit) :
  check_arguments X R = Returned u -> X <> [] /\ length X = length R.
Proof.
  unfold check_arguments. destruct X as [|Xi X]; [discriminate|].
  destruct (length (Xi :: X) =? length R) eqn:E; [|discriminate].
  intros _. split; [discriminate | now apply Nat.eqb_eq].
Qed.

Lemma prepared_included (X R : psets) (k i : nat) :
  length X = length R -> Forall ordered X -> Forall ordered R ->
  In i (at_loc R k) -> In i (at_loc X k) ->
  In i (at_loc (fst (prepare_sets X R (empty_sets (length X)))) k).
Proof.
  intros Hlen HX HR Hi Hx.
  apply (prepare_sets_fresh X R k i Hlen HX HR). tauto.
Qed.

Lemma reduce_all_grows (dps : list datapoint) (hcs : list horn_constraint)
    (X R R' : psets) :
  reduce_predicates_all dps hcs X R = Returned R' ->
  length X = length R
  /\ included (fst (prepare_sets X R (empty_sets (length X)))) R'.
Proof.
  unfold reduce_predicates_all. intros H. bind_inv H.
  apply check_arguments_returned in E as [_ Hlen]. split; [assumption|].
  destruct (prepare_sets X R (empty_sets (length X))) as [R0 M0]. simpl.
  bind_inv H. destruct a0 as [R1 M1]. bind_inv H. assert_inv H.
  injection H as <-.
  eapply included_trans; [eapply negatives_all_grows, E|].
  eapply horn_loop_all_grows, E0.
Qed.

Lemma reduce_first_grows (dps : list datapoint) (hcs : list horn_constraint)
    (X R R' : psets) :
  reduce_predicates_first dps hcs X R = Returned R' ->
  length X = length R
  /\ included (fst (prepare_sets X R (empty_sets (length X)))) R'.
Proof.
  unfold reduce_predicates_first. intros H. bind_inv H.
  apply check_arguments_returned in E as [_ Hlen]. split; [assumption|].
  destruct (prepare_sets X R (empty_sets (length X))) as [R0 M0]. simpl.
  bind_inv H. destruct a0 as [R1 M1]. bind_inv H. assert_inv H.
  injection H as <-.
  eapply included_trans; [eapply negatives_first_grows, E|].
  eapply horn_loop_first_grows, E0.
Qed.

Lemma reduce_greedy_grows (fuel : nat) (dps : list datapoint)
    (hcs : list horn_constraint) (X R R' : psets) :
  reduce_predicates_greedy fuel dps hcs X R = Returned R' ->
  length X = length R
  /\ included (fst (prepare_sets X R (empty_sets (length X)))) R'.
Proof.
  unfold reduce_predicates_greedy. intros H. bind_inv H.
  apply check_arguments_returned in E as [_ Hlen]. split; [assumption|].
  destruct (prepare_sets X R (empty_sets (length X))) as [R0 M0]. simpl.
  bind_inv H. bind_inv H. assert_inv H. injection H as <-.
  eapply greedy_loop_grows, E0.
Qed.

(** C6.  The reducers all, first and greedy keep what they are given: a
    predicate of the starting [R] that lies in the current [X] is in the
    returned [R], at every location. *)
Theorem sorcar_monotone (fuel : nat) (dps : list datapoint)
    (hcs : list horn_constraint) (X_curr R_prev R_new : psets) :
  Forall ordered X_curr -> Forall ordered R_prev ->
  reduce_predicates_all dps hcs X_curr R_prev = Returned R_new
  \/ reduce_predicates_first dps hcs X_curr R_prev = Returned R_new
  \/ reduce_predicates_greedy fuel dps hcs X_curr R_prev = Returned R_new ->
  forall k i, In i (at_loc R_prev k) -> In i (at_loc X_curr k) ->
              In i (at_loc R_new k).
Proof.
  intros HX HR Hrun k i Hi Hx.
  assert (Hg : length X_curr = length R_prev
               /\ included (fst (prepare_sets X_curr R_prev
                                   (empty_sets (length X_curr)))) R_new).
  { destruct Hrun as [H|[H|H]].
    - eapply reduce_all_grows, H.
    - eapply reduce_first_grows, H.
    - eapply reduce_greedy_grows, H. }
  destruct Hg as [Hlen Hinc].
  apply Hinc, prepared_included; assumption.
Qed.

Lemma sorcar_monotone_witness :
  reduce_predicates_all S6_data [] [[0; 1; 2; 3]] [[2]] = Returned [[2]]
  /\ In 2 (at_loc [[2]] 0).
Proof.
  split; [reflexivity|].
  assert (HX : Forall ordered [[0; 1; 2; 3]])
    by (repeat constructor; apply orderedb_spec; reflexivity).
  assert (HR : Forall ordered [[2]])
    by (repeat constructor; apply orderedb_spec; reflexivity).
  apply (sorcar_monotone 0 S6_data [] [[0; 1; 2; 3]] [[2]] [[2]] HX HR
           (or_introl eq_refl) 0 2); simpl; auto.
Defined.

(* ------------------------------------------------------------------ *)
(** ** Satisfied Horn constraints stay in the list *)

Lemma check_lhs_true (R : psets) (premises : list datapoint) :
  Forall (fun p => loc p < length R) premises ->
  check_lhs R premises = Returned (lhs_satisfied R premises).
Proof.
  induction premises as [|p l IH]; simpl; intros Hwf; [reflexivity|].
  inversion Hwf as [|? ? Hp Hl]; subst.
  apply Nat.ltb_lt in Hp. rewrite Hp. simpl.
  destruct (satisfies p (at_loc R (loc p))); simpl; auto.
Qed.

Lemma check_lhs_returned (R : psets) (premises : list datapoint) (b : bool) :
  check_lhs R premises = Returned b -> b = lhs_satisfied R premises.
Proof.
  induction premises as [|p l IH]; simpl; intros H.
  - now injection H.
  - assert_inv H. destruct (satisfies p (at_loc R (loc p))); simpl; auto.
    now injection H.
Qed.

(** The claim C5 fails on [K_1; K_2] from the empty [R] in
    [X = {0,1,2,3}]: [K_1] is satisfied when the first walk examines it,
    it is left in the list, and the second walk, which finds it
    unsatisfied after [K_2] made [R] grow, adds a predicate for it. *)
Lemma satisfied_horn_dropped_counterexample :
  lhs_satisfied [[]] (_premises K_1) = true
  /\ conclusion_satisfied [[]] (_conclusion K_1) = true
  /\ horn_walk_all [K_1; K_2] [[]] [[0; 1; 2; 3]]
     = Returned ([[2; 3]], [[0; 1]], [K_1], false)
  /\ horn_walk_all [K_1] [[2; 3]] [[0; 1]]
     = Returned ([[1; 2; 3]], [[0]], [], false)
  /\ horn_walk_first [K_1; K_2] [[]] [[0; 1; 2; 3]]
     = Returned ([[2]], [[0; 1; 3]], [K_1], false)
  /\ reduce_predicates_all [] [K_1; K_2] [[0; 1; 2; 3]] [[]]
     = Returned [[1; 2; 3]]
  /\ ~ (forall hc rest R M R' M' live flag,
          lhs_satisfied R (_premises hc) = true ->
          conclusion_satisfied R (_conclusion hc) = true ->
          horn_walk_all (hc :: rest) R M = Returned (R', M', live, flag) ->
          ~ In hc live).
Proof.
  repeat (split; [reflexivity|]).
  intros Hclaim.
  apply (Hclaim K_1 [K_2] [[]] [[0; 1; 2; 3]] [[2; 3]] [[0; 1]] [K_1] false);
    try reflexivity.
  now left.
Qed.

(** C5, amended.  In the Horn pass of the reducers all and first, a
    constraint whose premises all satisfy the current [R] and whose
    conclusion satisfies the current [R] changes nothing and stays in the
    list: the walk goes on with the rest, and the next walk of the pass, if
    there is one, examines the constraint again. *)
Theorem satisfied_horn_kept (hc : horn_constraint) (rest : list horn_constraint)
    (R M : psets) (fuel : nat) :
  Forall (fun p => loc p < length R) (_premises hc) ->
  lhs_satisfied R (_premises hc) = true ->
  conclusion_satisfied R (_conclusion hc) = true ->
  horn_walk_all (hc :: rest) R M
  = (' (R', M', live, flag) <- horn_walk_all rest R M ;;
     Returned (R', M', hc :: live, flag))
  /\ horn_walk_first (hc :: rest) R M
  = (' (R', M', live, flag) <- horn_walk_first rest R M ;;
     Returned (R', M', hc :: live, flag))
  /\ horn_loop_all (S fuel) (hc :: rest) R M
  = (' (R', M', live, flag) <- horn_walk_all rest R M ;;
     if flag then Returned R' else horn_loop_all fuel (hc :: live) R' M')
  /\ horn_loop_first (S fuel) (hc :: rest) R M
  = (' (R', M', live, flag) <- horn_walk_first rest R M ;;
     if flag then Returned R' else horn_loop_first fuel (hc :: live) R' M').
Proof.
  intros Hwf Hl Hc.
  assert (Ea : horn_walk_all (hc :: rest) R M
               = (' (R', M', live, flag) <- horn_walk_all rest R M ;;
                  Returned (R', M', hc :: live, flag))).
  { simpl. rewrite (check_lhs_true R _ Hwf), Hl. simpl. now rewrite Hc. }
  assert (Ef : horn_walk_first (hc :: rest) R M
               = (' (R', M', live, flag) <- horn_walk_first rest R M ;;
                  Returned (R', M', hc :: live, flag))).
  { simpl. rewrite (check_lhs_true R _ Hwf), Hl. simpl. now rewrite Hc. }
  split; [exact Ea|]. split; [exact Ef|]. split.
  - change (horn_loop_all (S fuel) (hc :: rest) R M)
      with (' (R', M', live, flag) <- horn_walk_all (hc :: rest) R M ;;
            if flag then Returned R' else horn_loop_all fuel live R' M').
    rewrite Ea. destruct (horn_walk_all rest R M) as [[[[R' M'] live] flag]| | | |];
      reflexivity.
  - change (horn_loop_first (S fuel) (hc :: rest) R M)
      with (' (R', M', live, flag) <- horn_walk_first (hc :: rest) R M ;;
            if flag then Returned R' else horn_loop_first fuel live R' M').
    rewrite Ef. destruct (horn_walk_first rest R M) as [[[[R' M'] live] flag]| | | |];
      reflexivity.
Qed.

Lemma satisfied_horn_kept_witness :
  horn_walk_all [K_1; K_2] [[]] [[0; 1; 2; 3]]
  = (' (R', M', live, flag) <- horn_walk_all [K_2] [[]] [[0; 1; 2; 3]] ;;
     Returned (R', M', K_1 :: live, flag)).
Proof.
  assert (Hwf : Forall (fun p => loc p < length [@nil nat]) (_premises K_1))
    by (repeat constructor).
  exact (proj1 (satisfied_horn_kept K_1 [K_2] [[]] [[0; 1; 2; 3]] 0
                  Hwf eq_refl eq_refl)).
Defined.

(* ------------------------------------------------------------------ *)
(** ** Scenario S1: pure positives *)

Lemma minimal_S1 (check : solver) (model : nat -> bool) :
  check (S1_query 1) = Some model ->
  reduce_predicates_minimal check S1_data [] [[0; 3]] [[]]
  = Returned [S1_selected model].
Proof.
  intros Hcheck. unfold reduce_predicates_minimal.
  assert (Hp : prepare_sets [[0; 3]] [[]] [[]] = ([[]], [[0; 3]]))
    by reflexivity.
  cbn -[is_consistent]. rewrite Hp. cbn -[is_consistent].
  change [bool_val true; bool_val true; at_most [0; 1] 1] with (S1_query 1).
  rewrite Hcheck. unfold add_model, S1_selected. cbn -[is_consistent].
  destruct (model 0), (model 1); reflexivity.
Qed.

(** The Sorcar half of the claim C4 fails: from the empty [R] the reducer
    all returns the empty conjunction, not [{0, 3}]. *)
Lemma sorcar_S1_counterexample :
  reduce_predicates_all S1_data [] [[0; 3]] [[]] = Returned [[]]
  /\ reduce_predicates_all S1_data [] [[0; 3]] [[]] <> Returned [[0; 3]].
Proof. split; [reflexivity | discriminate]. Qed.

(** C4, amended.  On S1 Horndini returns [{0, 3}].  Started from the empty
    [R] in that [X], the reducers all, first and greedy return the empty
    conjunction, since no negative example and no Horn constraint asks for a
    predicate; the reducer minimal returns the predicates whose constants
    the model of its solver makes true at the bound 1, which are not both 0
    and 3, and none when the model makes no constant true. *)
Theorem scenario_S1 :
  horndini S1_data [] [(0, 3)] = Returned [[0; 3]]
  /\ reduce_predicates_all S1_data [] [[0; 3]] [[]] = Returned [[]]
  /\ reduce_predicates_first S1_data [] [[0; 3]] [[]] = Returned [[]]
  /\ (forall fuel,
        reduce_predicates_greedy (S fuel) S1_data [] [[0; 3]] [[]] = Returned [[]])
  /\ (forall (check : solver) (model : nat -> bool),
        check (S1_query 1) = Some model ->
        forallb (eval model) (S1_query 1) = true ->
        reduce_predicates_minimal check S1_data [] [[0; 3]] [[]]
        = Returned [S1_selected model]
        /\ S1_selected model <> [0; 3]
        /\ (model 0 = false -> model 1 = false -> S1_selected model = [])).
Proof.
  split; [reflexivity|]. split; [reflexivity|]. split; [reflexivity|].
  split; [intros fuel; reflexivity|].
  intros check model Hcheck Hsound.
  split; [apply minimal_S1, Hcheck|]. split.
  - unfold S1_selected. simpl in Hsound.
    destruct (model 0), (model 1); simpl in *; discriminate.
  - intros H0 H1. unfold S1_selected. now rewrite H0, H1.
Qed.

Lemma scenario_S1_witness :
  reduce_predicates_minimal (fun _ => Some (fun _ => false)) S1_data []
    [[0; 3]] [[]] = Returned [[]].
Proof.
  exact (proj1 (proj2 (proj2 (proj2 (proj2 scenario_S1)))
                  (fun _ => Some (fun _ => false)) (fun _ => false)
                  eq_refl eq_refl)).
Defined.

(* ------------------------------------------------------------------ *)
(** ** Horndini: the knock-out *)

Lemma satisfies_filter (dp : datapoint) (s : pset) :
  satisfies dp (filter (fun p => negb (bit dp p =? 0)%Z) s) = true.
Proof.
  apply satisfies_iff. intros i Hi. apply filter_In in Hi as [_ Hb].
  apply negb_true_iff, Z.eqb_neq in Hb. exact Hb.
Qed.

Lemma knock_out_one_spec (dp : datapoint) (c c' : psets) :
  knock_out_one dp c = Returned c' ->
  loc dp < length c /\ length c' = length c /\ included c' c
  /\ satisfies dp (at_loc c' (loc dp)) = true
  /\ (forall H, included H c -> satisfies dp (at_loc H (loc dp)) = true ->
                included H c').
Proof.
  unfold knock_out_one. intros H. assert_inv H. injection H as <-.
  apply Nat.ltb_lt in E. split; [assumption|].
  split; [apply length_update|]. split; [|split].
  - intros k i Hi. unfold at_loc in *. rewrite nth_update in Hi.
    destruct ((k =? loc dp) && (loc dp <? length c)); [|assumption].
    apply filter_In in Hi. tauto.
  - rewrite at_loc_update_same by assumption. apply satisfies_filter.
  - intros H Hinc Hsat k i Hi. unfold at_loc. rewrite nth_update.
    destruct (k =? loc dp) eqn:Hk; simpl; [|apply Hinc, Hi].
    apply Nat.eqb_eq in Hk. subst k.
    destruct (loc dp <? length c); [|apply Hinc, Hi].
    apply filter_In. split; [apply Hinc, Hi|].
    apply negb_true_iff, Z.eqb_neq.
    apply (proj1 (satisfies_iff dp _) Hsat i Hi).
Qed.

Lemma knock_out_spec (positive : list datapoint) (c c' : psets) :
  knock_out positive c = Returned c' ->
  length c' = length c /\ included c' c
  /\ (forall dp, In dp positive ->
                 loc dp < length c /\ satisfies dp (at_loc c' (loc dp)) = true)
  /\ (forall H, included H c ->
                (forall dp, In dp positive ->
                            satisfies dp (at_loc H (loc dp)) = true) ->
                included H c').
Proof.
  revert c. induction positive as [|dp l IH]; simpl; intros c H.
  - injection H as <-. split; [reflexivity|]. split; [apply included_refl|].
    split; [intros ? []|]. auto.
  - bind_inv H. apply knock_out_one_spec in E as (Hloc & Hlen & Hinc & Hsat & Hgr).
    apply IH in H as (Hlen' & Hinc' & Hall & Hgr').
    split; [congruence|].
    split; [eapply included_trans; eassumption|]. split.
    + intros d [<-|Hd].
      * split; [assumption|].
        eapply satisfies_subset; [|exact Hsat]. apply Hinc'.
      * destruct (Hall d Hd). split; [congruence | assumption].
    + intros H HH Hp. apply Hgr'; [apply Hgr|]; auto.
Qed.

Lemma knock_out_valid (positive : list datapoint) (c : psets) :
  Forall (fun dp => loc dp < length c) positive ->
  exists c', knock_out positive c = Returned c'.
Proof.
  revert c. induction positive as [|dp l IH]; simpl; intros c Hv; [eauto|].
  inversion Hv as [|? ? Hd Hl]; subst.
  unfold knock_out_one. apply Nat.ltb_lt in Hd. rewrite Hd. simpl.
  apply IH. rewrite length_update. exact Hl.
Qed.

Lemma knock_out_not_thrown (positive : list datapoint) (c : psets) (w : string) :
  knock_out positive c <> Thrown w.
Proof.
  revert c. induction positive as [|dp l IH]; simpl; intros c; [discriminate|].
  unfold knock_out_one. destruct (loc dp <? length c); simpl;
    [apply IH | discriminate].
Qed.

(* ------------------------------------------------------------------ *)
(** ** Horndini: the walk over the constraints *)

Lemma remaining_nil_iff (c : psets) (premises : list datapoint) :
  remaining c premises = [] <-> lhs_satisfied c premises = true.
Proof.
  unfold remaining, lhs_satisfied.
  induction premises as [|p l IH]; simpl; [tauto|].
  destruct (satisfies p (at_loc c (loc p))); simpl; [exact IH|].
  split; discriminate.
Qed.

Lemma remaining_incl (c : psets) (premises : list datapoint) :
  incl (remaining c premises) premises.
Proof. intros p Hp. apply filter_In in Hp. tauto. Qed.

Lemma remaining_unsatisfied (c : psets) (premises : list datapoint) (p : datapoint) :
  In p (remaining c premises) -> satisfies p (at_loc c (loc p)) = false.
Proof. intros Hp. apply filter_In in Hp as [_ Hp]. now apply negb_true_iff. Qed.

Lemma discharge_returned (c : psets) (premises l : list datapoint) :
  discharge c premises = Returned l -> l = remaining c premises.
Proof.
  revert l. induction premises as [|p ps IH]; simpl; intros l H.
  - now injection H.
  - assert_inv H. destruct (satisfies p (at_loc c (loc p))); simpl.
    + apply IH, H.
    + bind_inv H. injection H as <-. f_equal. apply IH, E0.
Qed.

Lemma discharge_valid (c : psets) (premises : list datapoint) :
  Forall (fun p => loc p < length c) premises ->
  discharge c premises = Returned (remaining c premises).
Proof.
  induction premises as [|p ps IH]; simpl; intros Hv; [reflexivity|].
  inversion Hv as [|? ? Hp Hl]; subst.
  apply Nat.ltb_lt in Hp. rewrite Hp. simpl.
  destruct (satisfies p (at_loc c (loc p))); simpl; rewrite (IH Hl); reflexivity.
Qed.

Lemma discharge_not_thrown (c : psets) (premises : list datapoint) (w : string) :
  discharge c premises <> Thrown w.
Proof.
  induction premises as [|p ps IH]; simpl; [discriminate|].
  destruct (loc p <? length c); simpl; [|discriminate].
  destruct (satisfies p (at_loc c (loc p))); [exact IH|].
  destruct (discharge c ps); simpl; congruence.
Qed.

(** What a walk that returns has done with each constraint. *)
Lemma fire_returned (c : psets) (live : list horn_constraint)
    (positive' : list datapoint) (live' : list horn_constraint) :
  fire c live = Returned (positive', live') ->
  length positive' + length live' = length live
  /\ (forall hc, In hc live ->
        (remaining c (_premises hc) <> []
         /\ In (mk_horn (remaining c (_premises hc)) (_conclusion hc)) live')
        \/ (remaining c (_premises hc) = []
            /\ exists d, _conclusion hc = Some d /\ In d positive'))
  /\ (forall hc', In hc' live' ->
        exists hc, In hc live
                   /\ hc' = mk_horn (remaining c (_premises hc)) (_conclusion hc)
                   /\ remaining c (_premises hc) <> [])
  /\ (forall d, In d positive' ->
        exists hc, In hc live /\ _conclusion hc = Some d
                   /\ remaining c (_premises hc) = []).
Proof.
  revert positive' live'.
  induction live as [|hc rest IH]; simpl; intros positive' live' H.
  - injection H as <- <-. split; [reflexivity|].
    split; [intros ? []|]. split; intros ? [].
  - bind_inv H. apply discharge_returned in E. subst a.
    destruct (remaining c (_premises hc)) as [|p ps] eqn:Hrem.
    + destruct (_conclusion hc) as [d|] eqn:Hcl; [|discriminate].
      bind_inv H. destruct a as [pos1 live1]. injection H as <- <-.
      destruct (IH _ _ E) as (L & F & B & P).
      split; [simpl; lia|]. split; [|split].
      * intros h [<-|Hh].
        -- right. split; [assumption|]. exists d. split; [assumption | now left].
        -- destruct (F h Hh) as [[H1 H2]|[H1 [d' [H2 H3]]]]; [left; tauto|].
           right. split; [assumption|]. exists d'. split; [assumption | now right].
      * intros h' Hh'. destruct (B h' Hh') as (h & H1 & H2 & H3).
        exists h. split; [now right | tauto].
      * intros d' [<-|Hd'].
        -- exists hc. split; [now left | tauto].
        -- destruct (P d' Hd') as (h & H1 & H2 & H3).
           exists h. split; [now right | tauto].
    + bind_inv H. destruct a as [pos1 live1]. injection H as <- <-.
      destruct (IH _ _ E) as (L & F & B & P).
      split; [simpl; lia|]. split; [|split].
      * intros h [<-|Hh].
        -- left. rewrite Hrem. split; [discriminate | now left].
        -- destruct (F h Hh) as [[H1 H2]|[H1 [d' [H2 H3]]]].
           ++ left. split; [assumption | now right].
           ++ right. split; [assumption|]. exists d'. tauto.
      * intros h' [<-|Hh'].
        -- exists hc. rewrite Hrem. split; [now left|]. split; [reflexivity|discriminate].
        -- destruct (B h' Hh') as (h & H1 & H2 & H3).
           exists h. split; [now right | tauto].
      * intros d' Hd'. destruct (P d' Hd') as (h & H1 & H2 & H3).
        exists h. split; [now right | tauto].
Qed.

(** A walk throws because of a constraint with conclusion "false" all of
    whose premises are discharged. *)
Lemma fire_thrown (c : psets) (live : list horn_constraint) (w : string) :
  fire c live = Thrown w ->
  w = msg_inconsistent
  /\ exists hc, In hc live /\ _conclusion hc = None
                /\ lhs_satisfied c (_premises hc) = true.
Proof.
  induction live as [|hc rest IH]; simpl; intros H; [discriminate|].
  destruct (discharge c (_premises hc)) as [l| | | |] eqn:Hd; simpl in H;
    try discriminate.
  - apply discharge_returned in Hd. subst l.
    destruct (remaining c (_premises hc)) as [|p ps] eqn:Hrem.
    + destruct (_conclusion hc) as [d|] eqn:Hcl.
      * destruct (fire c rest) as [[pos1 live1]| | | |] eqn:Hf; simpl in H;
          try discriminate.
        injection H as <-. destruct (IH eq_refl) as (Hw & h & H1 & H2).
        split; [assumption|]. exists h. split; [now right | assumption].
      * injection H as <-. split; [reflexivity|]. exists hc.
        split; [now left|]. split; [assumption|].
        now apply remaining_nil_iff.
    + destruct (fire c rest) as [[pos1 live1]| | | |] eqn:Hf; simpl in H;
        try discriminate.
      injection H as <-. destruct (IH eq_refl) as (Hw & h & H1 & H2).
      split; [assumption|]. exists h. split; [now right | assumption].
  - exfalso. injection H as <-. exact (discharge_not_thrown _ _ _ Hd).
Qed.

Lemma fire_valid (c : psets) (live : list horn_constraint) :
  Forall (valid_horn (length c)) live ->
  (exists positive' live', fire c live = Returned (positive', live'))
  \/ fire c live = Thrown msg_inconsistent.
Proof.
  induction live as [|hc rest IH]; simpl; intros Hv; [left; eauto|].
  inversion Hv as [|? ? [Hp Hc] Hl]; subst.
  rewrite (discharge_valid c _ Hp). simpl.
  destruct (IH Hl) as [(pos1 & live1 & Hf)|Hf]; rewrite Hf; simpl.
  - destruct (remaining c (_premises hc)); [|left; eauto].
    destruct (_conclusion hc); [left; eauto | now right].
  - destruct (remaining c (_premises hc)); [|now right].
    destruct (_conclusion hc); now right.
Qed.

Lemma fire_valid_thrown (c : psets) (live : list horn_constraint)
    (hc : horn_constraint) :
  Forall (valid_horn (length c)) live ->
  In hc live -> _conclusion hc = None ->
  lhs_satisfied c (_premises hc) = true ->
  fire c live = Thrown msg_inconsistent.
Proof.
  intros Hv Hin Hcl Hl.
  destruct (fire_valid c live Hv) as [(pos1 & live1 & Hf)|Hf]; [|exact Hf].
  exfalso. apply fire_returned in Hf as (_ & F & _ & _).
  apply remaining_nil_iff in Hl.
  destruct (F hc Hin) as [[H1 _]|[_ [d [H2 _]]]]; congruence.
Qed.

(* ------------------------------------------------------------------ *)
(** ** Horndini: the loop *)

Arguments horndini_round : simpl never.

Lemma round_returned (positive : list datapoint) (live : list horn_constraint)
    (c : psets) (positive' : list datapoint) (live' : list horn_constraint)
    (c' : psets) :
  horndini_round (positive, live, c) = Returned (positive', live', c') ->
  knock_out positive c = Returned c' /\ fire c' live = Returned (positive', live').
Proof.
  unfold horndini_round. intros H. bind_inv H. bind_inv H.
  destruct a0 as [p l]. injection H as <- <- <-. auto.
Qed.

Lemma round_thrown (positive : list datapoint) (live : list horn_constraint)
    (c : psets) (w : string) :
  horndini_round (positive, live, c) = Thrown w ->
  exists c', knock_out positive c = Returned c' /\ fire c' live = Thrown w.
Proof.
  unfold horndini_round. intros H.
  destruct (knock_out positive c) as [c'| | | |] eqn:Hk; simpl in H;
    try discriminate.
  - exists c'. split; [reflexivity|].
    destruct (fire c' live) as [[p l]| | | |]; simpl in H; congruence.
  - exfalso. exact (knock_out_not_thrown _ _ _ Hk).
Qed.

Lemma round_shrinks (positive : list datapoint) (live : list horn_constraint)
    (c : psets) (positive' : list datapoint) (live' : list horn_constraint)
    (c' : psets) :
  horndini_round (positive, live, c) = Returned (positive', live', c') ->
  positive' <> [] -> length live' < length live.
Proof.
  intros H Hne. apply round_returned in H as [_ Hf].
  apply fire_returned in Hf as (L & _). destruct positive'; [congruence|].
  simpl in L. lia.
Qed.

Lemma knock_out_fuel (positive : list datapoint) (c : psets) :
  knock_out positive c <> OutOfFuel.
Proof.
  revert c. induction positive as [|dp l IH]; simpl; intros c; [discriminate|].
  unfold knock_out_one. destruct (loc dp <? length c); simpl;
    [apply IH | discriminate].
Qed.

Lemma discharge_fuel (c : psets) (premises : list datapoint) :
  discharge c premises <> OutOfFuel.
Proof.
  induction premises as [|p ps IH]; simpl; [discriminate|].
  destruct (loc p <? length c); simpl; [|discriminate].
  destruct (satisfies p (at_loc c (loc p))); [exact IH|].
  destruct (discharge c ps); simpl; congruence.
Qed.

Lemma fire_fuel (c : psets) (live : list horn_constraint) :
  fire c live <> OutOfFuel.
Proof.
  induction live as [|hc rest IH]; simpl; [discriminate|].
  pose proof (discharge_fuel c (_premises hc)) as Hd.
  destruct (discharge c (_premises hc)) as [l| | | |]; simpl;
    try discriminate; [|congruence].
  destruct l as [|p ps].
  - destruct (_conclusion hc); [|discriminate].
    destruct (fire c rest) as [[pos1 live1]| | | |]; simpl; congruence.
  - destruct (fire c rest) as [[pos1 live1]| | | |]; simpl; congruence.
Qed.

Lemma round_fuel (st : horndini_state) : horndini_round st <> OutOfFuel.
Proof.
  destruct st as [[positive live] c]. unfold horndini_round.
  pose proof (knock_out_fuel positive c) as Hk.
  destruct (knock_out positive c) as [c'| | | |]; simpl; try discriminate;
    [|congruence].
  pose proof (fire_fuel c' live) as Hf.
  destruct (fire c' live) as [[p l]| | | |]; simpl; congruence.
Qed.

(** The fuel of [horndini_conjunctions] is enough. *)
Lemma horndini_loop_fuel (fuel : nat) (positive : list datapoint)
    (live : list horn_constraint) (c : psets) :
  length live < fuel -> horndini_loop fuel (positive, live, c) <> OutOfFuel.
Proof.
  revert positive live c. induction fuel as [|fuel IH]; intros positive live c Hf;
    [lia|].
  simpl. pose proof (round_fuel (positive, live, c)) as Hnf.
  destruct (horndini_round (positive, live, c)) as [[[p l] c']| | | |] eqn:Hr;
    simpl; try discriminate; [|congruence].
  destruct p as [|d p]; [discriminate|].
  apply IH. apply round_shrinks in Hr; [lia | discriminate].
Qed.

(** A hypothesis that is consistent with what the state holds stays below
    the conjunctions of the state. *)
Lemma round_model (H : psets) (positive : list datapoint)
    (live : list horn_constraint) (c : psets) :
  included H c ->
  (forall dp, In dp positive -> satisfies dp (at_loc H (loc dp)) = true) ->
  (forall hc, In hc live -> respects H hc) ->
  (forall w, horndini_round (positive, live, c) <> Thrown w)
  /\ forall positive' live' c',
      horndini_round (positive, live, c) = Returned (positive', live', c') ->
      included H c'
      /\ (forall dp, In dp positive' -> satisfies dp (at_loc H (loc dp)) = true)
      /\ (forall hc, In hc live' -> respects H hc).
Proof.
  intros Hinc Hpos Hlive.
  assert (Hall : forall c' hc, knock_out positive c = Returned c' ->
                   In hc live ->
                   (forall p, In p (remaining c' (_premises hc)) ->
                              satisfies p (at_loc H (loc p)) = true) ->
                   exists d, _conclusion hc = Some d
                             /\ satisfies d (at_loc H (loc d)) = true).
  { intros c' hc Hk Hin Hrem. apply (Hlive hc Hin). intros p Hp.
    apply knock_out_spec in Hk as (_ & _ & _ & Hgr).
    specialize (Hgr H Hinc Hpos).
    destruct (satisfies p (at_loc c' (loc p))) eqn:Hs.
    - eapply satisfies_subset; [|exact Hs]. apply Hgr.
    - apply Hrem. apply filter_In. split; [assumption|]. now rewrite Hs. }
  split.
  - intros w Hw. apply round_thrown in Hw as (c' & Hk & Hf).
    apply fire_thrown in Hf as (_ & hc & Hin & Hcl & Hl).
    destruct (Hall c' hc Hk Hin) as (d & Hd & _); [|congruence].
    apply remaining_nil_iff in Hl. rewrite Hl. intros ? [].
  - intros positive' live' c' Hr. apply round_returned in Hr as [Hk Hf].
    split; [|split].
    + apply knock_out_spec in Hk as (_ & _ & _ & Hgr). now apply Hgr.
    + intros d Hd. apply fire_returned in Hf as (_ & _ & _ & P).
      destruct (P d Hd) as (hc & Hin & Hcl & Hrem).
      destruct (Hall c' hc Hk Hin) as (d' & Hd' & Hs).
      * rewrite Hrem. intros ? [].
      * congruence.
    + intros hc' Hin' Hprem. apply fire_returned in Hf as (_ & _ & B & _).
      destruct (B hc' Hin') as (hc & Hin & -> & _). simpl in *.
      apply (Hall c' hc Hk Hin Hprem).
Qed.

Lemma loop_model (H : psets) (fuel : nat) (positive : list datapoint)
    (live : list horn_constraint) (c : psets) :
  included H c ->
  (forall dp, In dp positive -> satisfies dp (at_loc H (loc dp)) = true) ->
  (forall hc, In hc live -> respects H hc) ->
  (forall w, horndini_loop fuel (positive, live, c) <> Thrown w)
  /\ forall X, horndini_loop fuel (positive, live, c) = Returned X -> included H X.
Proof.
  revert positive live c.
  induction fuel as [|fuel IH]; intros positive live c Hinc Hpos Hlive.
  - split; [discriminate|]. intros X HX. discriminate.
  - destruct (round_model H positive live c Hinc Hpos Hlive) as [Hnt Hret].
    simpl.
    destruct (horndini_round (positive, live, c)) as [[[p l] c']| | | |] eqn:Hr;
      simpl.
    + destruct (Hret p l c' eq_refl) as (Hinc' & Hpos' & Hlive').
      destruct p as [|d p].
      * split; [discriminate|]. intros X [= <-]. exact Hinc'.
      * apply IH; assumption.
    + exfalso. exact (Hnt _ eq_refl).
    + split; [discriminate|]. intros X HX. discriminate.
    + split; [discriminate|]. intros X HX. discriminate.
    + split; [discriminate|]. intros X HX. discriminate.
Qed.

(** Every constraint stays accounted for, and every data point that was
    in the list satisfies the conjunctions from then on. *)
Lemma round_settled (positive : list datapoint) (live : list horn_constraint)
    (c : psets) (positive' : list datapoint) (live' : list horn_constraint)
    (c' : psets) :
  horndini_round (positive, live, c) = Returned (positive', live', c') ->
  (forall hc, settled (positive, live, c) hc -> settled (positive', live', c') hc)
  /\ (forall dp, In dp positive \/ satisfies dp (at_loc c (loc dp)) = true ->
                 satisfies dp (at_loc c' (loc dp)) = true).
Proof.
  intros Hr. apply round_returned in Hr as [Hk Hf].
  pose proof (knock_out_spec _ _ _ Hk) as (_ & Hinc & Hall & _).
  assert (Hsat : forall dp, In dp positive \/ satisfies dp (at_loc c (loc dp)) = true ->
                            satisfies dp (at_loc c' (loc dp)) = true).
  { intros dp [Hin|Hs]; [apply Hall, Hin|].
    eapply satisfies_subset; [|exact Hs]. apply Hinc. }
  split; [|exact Hsat].
  intros hc [(hc1 & Hin & Hcl & Hp)|(d & Hcl & Hd)].
  - apply fire_returned in Hf as (_ & F & _ & _).
    destruct (F hc1 Hin) as [[_ H2]|[_ (d & H2 & H3)]].
    + left. eexists. split; [exact H2|]. simpl. split; [assumption|].
      intros p Hp'. apply Hp. eapply remaining_incl, Hp'.
    + right. exists d. split; [congruence | now left].
  - right. exists d. split; [assumption|]. right. apply Hsat, Hd.
Qed.

Lemma loop_final (fuel : nat) (st : horndini_state) (X : psets)
    (P : datapoint -> Prop) (Q : horn_constraint -> Prop) :
  horndini_loop fuel st = Returned X ->
  (forall dp, P dp -> In dp (fst (fst st))
                      \/ satisfies dp (at_loc (snd st) (loc dp)) = true) ->
  (forall hc, Q hc -> settled st hc) ->
  (forall dp, P dp -> satisfies dp (at_loc X (loc dp)) = true)
  /\ (forall hc, Q hc -> respects X hc).
Proof.
  revert st. induction fuel as [|fuel IH]; intros [[positive live] c] HX HP HQ;
    [discriminate|].
  simpl in HX. bind_inv HX. destruct a as [[p l] c'].
  destruct (round_settled _ _ _ _ _ _ E) as [Hset Hsat].
  destruct p as [|d p].
  - injection HX as <-. split.
    + intros dp Hdp. apply Hsat, (HP dp Hdp).
    + intros hc Hhc Hprem.
      destruct (Hset hc (HQ hc Hhc)) as [(hc1 & Hin & Hcl & Hp)|(d & Hcl & [[]|Hd])].
      * exfalso. apply round_returned in E as [_ Hf].
        apply fire_returned in Hf as (_ & _ & B & _).
        destruct (B hc1 Hin) as (hc0 & _ & -> & Hne). simpl in Hp.
        destruct (remaining c' (_premises hc0)) as [|q qs] eqn:Hrem; [congruence|].
        assert (Hq : In q (remaining c' (_premises hc0))) by (rewrite Hrem; now left).
        pose proof (remaining_unsatisfied _ _ _ Hq) as Hu.
        rewrite (Hprem q (Hp q (or_introl eq_refl))) in Hu.
        discriminate.
      * exists d. auto.
  - apply (IH (d :: p, l, c') HX).
    + intros dp Hdp. right. apply Hsat, (HP dp Hdp).
    + intros hc Hhc. apply Hset, HQ, Hhc.
Qed.

Lemma loop_thrown (fuel : nat) (st : horndini_state) (w : string) :
  horndini_loop fuel st = Thrown w ->
  exists st', reaches st st' /\ horndini_round st' = Thrown w.
Proof.
  revert st. induction fuel as [|fuel IH]; intros st H; [discriminate|].
  simpl in H.
  destruct (horndini_round st) as [[[p l] c']| | | |] eqn:Hr; simpl in H;
    try discriminate.
  - destruct p as [|d p]; [discriminate|].
    destruct (IH _ H) as (st' & Hreach & Hthrow).
    exists st'. split; [|assumption].
    eapply reaches_round; [exact Hr | discriminate | exact Hreach].
  - injection H as <-. exists st. split; [constructor | assumption].
Qed.

Lemma reaches_thrown (st st' : horndini_state) (w : string) (fuel : nat) :
  reaches st st' -> horndini_round st' = Thrown w ->
  length (snd (fst st)) < fuel ->
  horndini_loop fuel st = Thrown w.
Proof.
  intros Hreach. revert fuel.
  induction Hreach as [st|st p l c st' Hr Hne Hreach IH]; intros fuel Hthrow Hf.
  - destruct fuel as [|fuel]; [lia|]. simpl. now rewrite Hthrow.
  - destruct fuel as [|fuel]; [lia|]. simpl. rewrite Hr. simpl.
    destruct p as [|d p]; [congruence|].
    apply IH; [assumption|]. destruct st as [[p0 l0] c0].
    apply round_shrinks in Hr; [simpl in *; lia | discriminate].
Qed.

Lemma round_valid (n : nat) (st st' : horndini_state) :
  valid_state n st -> horndini_round st = Returned st' -> valid_state n st'.
Proof.
  destruct st as [[positive live] c], st' as [[positive' live'] c'].
  intros (Hp & Hl & Hc) Hr. apply round_returned in Hr as [Hk Hf].
  apply knock_out_spec in Hk as (Hlen & _).
  apply fire_returned in Hf as (_ & _ & B & P).
  rewrite Forall_forall in Hl. split; [|split; [|congruence]].
  - apply Forall_forall. intros d Hd.
    destruct (P d Hd) as (hc & Hin & Hcl & _). apply (Hl hc Hin), Hcl.
  - apply Forall_forall. intros hc' Hin'.
    destruct (B hc' Hin') as (hc & Hin & -> & _).
    destruct (Hl hc Hin) as [Hv1 Hv2]. split; simpl; [|exact Hv2].
    rewrite Forall_forall in *. intros p Hp'. apply Hv1.
    eapply remaining_incl, Hp'.
Qed.

Lemma reaches_valid (n : nat) (st st' : horndini_state) :
  reaches st st' -> valid_state n st -> valid_state n st'.
Proof.
  induction 1 as [st|st p l c st' Hr Hne Hreach IH]; intros Hv; [assumption|].
  apply IH. eapply round_valid; eassumption.
Qed.

(* ------------------------------------------------------------------ *)
(** ** Horndini: what it returns and when it throws *)

Lemma loop_included (fuel : nat) (st : horndini_state) (X : psets) :
  horndini_loop fuel st = Returned X ->
  included X (snd st) /\ length X = length (snd st).
Proof.
  revert st. induction fuel as [|fuel IH]; intros [[positive live] c] H;
    [discriminate|].
  simpl in H. bind_inv H. destruct a as [[p l] c'].
  apply round_returned in E as [Hk _].
  apply knock_out_spec in Hk as (Hlen & Hinc & _).
  destruct p as [|d p].
  - injection H as <-. auto.
  - apply IH in H as [H1 H2]. simpl in *. split; [|congruence].
    eapply included_trans; eassumption.
Qed.

Lemma at_loc_intervals (intervals : list (nat * nat)) (k i : nat) :
  In i (at_loc (map interval_set intervals) k)
  <-> exists iv, nth_error intervals k = Some iv /\ fst iv <= i <= snd iv.
Proof.
  unfold at_loc. revert k. induction intervals as [|iv ivs IH]; intros k.
  - destruct k; simpl; split; try tauto; intros (iv & [=] & _).
  - destruct k as [|k]; simpl.
    + unfold interval_set. rewrite in_seq. split.
      * intros Hi. exists iv. split; [reflexivity | lia].
      * intros (iv' & [= <-] & Hi). lia.
    + apply IH.
Qed.

Lemma within_included (H : psets) (intervals : list (nat * nat)) :
  within H intervals <-> included H (map interval_set intervals).
Proof.
  unfold within, included. split; intros HH k i Hi.
  - apply at_loc_intervals, HH, Hi.
  - apply at_loc_intervals, HH, Hi.
Qed.

Lemma horndini_returned (dps : list datapoint) (hcs : list horn_constraint)
    (intervals : list (nat * nat)) (X : psets) :
  horndini dps hcs intervals = Returned X ->
  intervals <> []
  /\ horndini_loop (S (length hcs))
       (filter is_positive dps, hcs, map interval_set intervals) = Returned X.
Proof.
  unfold horndini, horndini_conjunctions.
  destruct intervals as [|iv ivs]; [discriminate|].
  intros H. split; [discriminate | exact H].
Qed.

(** C2.  Horndini does not look at the negative examples, and what it
    returns need not be consistent.  On the sample with the positive
    example [1,1,0,1], the negative example [1,1,1,1] and the interval
    (0,3), for which no hypothesis within the interval is consistent, it
    returns {0,1,3}, which the negative example satisfies:
    [is_consistent] does not hold of the result, and the assertion that the
    driver makes right after the call fails, for every learner, option and
    round.  Given the same example as the only premise of a Horn constraint
    with the conclusion "false", Horndini throws "No consistent conjunction
    exists". *)
Theorem horndini_ignores_negatives :
  horndini N_data [] [(0, 3)] = Returned [[0; 1; 3]]
  /\ satisfies (neg [1; 1; 1; 1]%Z) [0; 1; 3] = true
  /\ is_consistent [[0; 1; 3]] N_data [] = false
  /\ (forall H, within H [(0, 3)] -> ~ consistent H N_data [])
  /\ (forall check fuel alg reset_R horndini_first_round alternate round R_file,
        main check fuel alg reset_R horndini_first_round alternate round R_file
          N_data [] [(0, 3)] = AssertFailed)
  /\ horndini N_data [mk_horn [neg [1; 1; 1; 1]%Z] None] [(0, 3)]
     = Thrown msg_inconsistent.
Proof.
  split; [reflexivity|]. split; [reflexivity|]. split; [reflexivity|].
  split; [|split; [reflexivity | reflexivity]].
  intros H Hw (_ & Hneg & _).
  specialize (Hneg (neg [1; 1; 1; 1]%Z) (or_intror (or_introl eq_refl)) eq_refl).
  apply satisfies_false_iff in Hneg as (i & Hi & Hb).
  destruct (Hw _ _ Hi) as (iv & Hiv & Hle).
  change (loc (neg [1; 1; 1; 1]%Z)) with 0 in Hiv. simpl in Hiv.
  injection Hiv as <-. simpl in Hle.
  assert (Hc : i = 0 \/ i = 1 \/ i = 2 \/ i = 3) by lia.
  destruct Hc as [-> | [-> | [-> | ->]]]; discriminate Hb.
Qed.

(** X24.  What Horndini returns lies within the intervals, is satisfied by
    every positive example and respects every Horn constraint, and every
    hypothesis within the intervals that is consistent with the data points
    and the Horn constraints is a part of it, location by location.  The
    negative examples play no part in it: the result is consistent exactly
    when no negative example happens to satisfy it. *)
Theorem horndini_greatest (dps : list datapoint) (hcs : list horn_constraint)
    (intervals : list (nat * nat)) (X : psets) :
  horndini dps hcs intervals = Returned X ->
  intervals <> [] /\ length X = length intervals /\ within X intervals
  /\ (forall dp, In dp dps -> is_positive dp = true ->
                 satisfies dp (at_loc X (loc dp)) = true)
  /\ (forall hc, In hc hcs -> respects X hc)
  /\ (is_consistent X dps hcs = true
      <-> forall dp, In dp dps -> is_negative dp = true ->
                     satisfies dp (at_loc X (loc dp)) = false)
  /\ (forall H, consistent H dps hcs -> within H intervals -> included H X).
Proof.
  intros Hrun. apply horndini_returned in Hrun as [Hne Hloop].
  pose proof (loop_included _ _ _ Hloop) as [Hinc Hlen]. simpl in Hinc, Hlen.
  rewrite length_map in Hlen.
  destruct (loop_final _ _ _
              (fun dp => In dp dps /\ is_positive dp = true)
              (fun hc => In hc hcs) Hloop) as [Hpos Hhorn].
  { intros dp [Hin Hp]. left. simpl. apply filter_In. auto. }
  { intros hc Hin. left. exists hc. split; [assumption|].
    split; [reflexivity | apply incl_refl]. }
  split; [assumption|]. split; [assumption|].
  split; [now apply within_included|].
  split; [intros dp Hin Hp; apply Hpos; auto|].
  split; [exact Hhorn|]. split.
  - rewrite is_consistent_iff. unfold consistent. split; [tauto|].
    intros Hneg. split; [intros dp Hin Hp; apply Hpos; auto|].
    split; [exact Hneg | exact Hhorn].
  - intros H (HP & _ & HH) Hw.
    apply (proj2 (loop_model H (S (length hcs)) (filter is_positive dps) hcs
                    (map interval_set intervals)
                    (proj1 (within_included H intervals) Hw)
                    (fun dp Hdp => HP dp (proj1 (proj1 (filter_In _ _ _) Hdp))
                                      (proj2 (proj1 (filter_In _ _ _) Hdp)))
                    HH) X Hloop).
Qed.

Lemma horndini_greatest_witness :
  horndini S3_data S3_horn [(0, 3)] = Returned [[0]]
  /\ within [[0]] [(0, 3)].
Proof.
  split; [reflexivity|].
  exact (proj1 (proj2 (proj2
           (horndini_greatest S3_data S3_horn [(0, 3)] [[0]] eq_refl)))).
Defined.

(** When a consistent hypothesis exists within the intervals, Horndini does
    not throw. *)
Lemma horndini_not_thrown (dps : list datapoint) (hcs : list horn_constraint)
    (intervals : list (nat * nat)) (H : psets) :
  intervals <> [] -> consistent H dps hcs -> within H intervals ->
  forall w, horndini dps hcs intervals <> Thrown w.
Proof.
  intros Hne (HP & _ & HH) Hw w. unfold horndini, horndini_conjunctions.
  destruct intervals as [|iv ivs]; [congruence|].
  apply (proj1 (loop_model H (S (length hcs)) (filter is_positive dps) hcs
                  (map interval_set (iv :: ivs))
                  (proj1 (within_included H (iv :: ivs)) Hw)
                  (fun dp Hdp => HP dp (proj1 (proj1 (filter_In _ _ _) Hdp))
                                    (proj2 (proj1 (filter_In _ _ _) Hdp)))
                  HH) w).
Qed.

(** C3.  For data whose locations are valid, Horndini throws "No consistent
    conjunction exists" exactly when its loop begins a round in which,
    after the knock-out, all the premises that are left in some constraint
    with conclusion "false" satisfy their conjunctions; and it does so on
    the scenario S4. *)
Theorem horndini_inconsistent_iff (dps : list datapoint)
    (hcs : list horn_constraint) (intervals : list (nat * nat)) :
  valid_locations (length intervals) dps hcs ->
  (horndini dps hcs intervals = Thrown msg_inconsistent
   <-> intervals <> []
       /\ exists positive live c c' hc,
            reaches (filter is_positive dps, hcs, map interval_set intervals)
                    (positive, live, c)
            /\ knock_out positive c = Returned c'
            /\ In hc live /\ _conclusion hc = None
            /\ lhs_satisfied c' (_premises hc) = true)
  /\ horndini [S4_p] S4_horn [(0, 3)] = Thrown msg_inconsistent.
Proof.
  intros [Hvd Hvh]. split; [|reflexivity]. split.
  - intros Hrun. unfold horndini, horndini_conjunctions in Hrun.
    destruct intervals as [|iv ivs]; [discriminate|].
    split; [discriminate|].
    apply loop_thrown in Hrun as ([[positive live] c] & Hreach & Hthrow).
    apply round_thrown in Hthrow as (c' & Hk & Hf).
    apply fire_thrown in Hf as (_ & hc & Hin & Hcl & Hl).
    exists positive, live, c, c', hc. auto.
  - intros (Hne & positive & live & c & c' & hc & Hreach & Hk & Hin & Hcl & Hl).
    unfold horndini, horndini_conjunctions.
    destruct intervals as [|iv ivs]; [congruence|].
    eapply reaches_thrown; [exact Hreach | | simpl; lia].
    assert (Hv : valid_state (length (iv :: ivs)) (positive, live, c)).
    { eapply reaches_valid; [exact Hreach|]. split; [|split].
      - apply Forall_forall. intros dp Hdp. apply filter_In in Hdp as [Hdp _].
        rewrite Forall_forall in Hvd. auto.
      - exact Hvh.
      - apply length_map. }
    destruct Hv as (_ & Hvl & Hlen).
    unfold horndini_round. rewrite Hk. simpl.
    apply knock_out_spec in Hk as (Hlen' & _).
    rewrite (fire_valid_thrown c' live hc); [reflexivity| |assumption..].
    rewrite Hlen', Hlen. exact Hvl.
Qed.

Lemma horndini_inconsistent_iff_witness :
  horndini [S4_p] S4_horn [(0, 3)] = Thrown msg_inconsistent.
Proof.
  assert (Hv : valid_locations (length [(0, 3)]) [S4_p] S4_horn).
  { split; repeat constructor. simpl. discriminate. }
  exact (proj2 (horndini_inconsistent_iff [S4_p] S4_horn [(0, 3)] Hv)).
Defined.

(* ------------------------------------------------------------------ *)
(** ** Winnow: the masking of the weights *)

Lemma mask_from_length (s : nat) (Xi : pset) (ws : list Q) :
  length (mask_from s Xi ws) = length ws.
Proof. revert s. induction ws as [|w ws IH]; simpl; intros s; auto. Qed.

Lemma mask_from_nth (s j : nat) (Xi : pset) (ws : list Q) (d : Q) :
  j < length ws ->
  nth j (mask_from s Xi ws) d = if member (s + j) Xi then nth j ws d else 0%Q.
Proof.
  revert s j. induction ws as [|w ws IH]; simpl; intros s j Hj; [lia|].
  destruct j as [|j].
  - now rewrite Nat.add_0_r.
  - rewrite IH by lia. now rewrite Nat.add_succ_r.
Qed.

Lemma mask_objs_nth_error (i k : nat) (X : psets) (w_objs : list winnow) :
  nth_error (mask_objs i X w_objs) k
  = option_map (fun w => mk_winnow (mask_from 0 (at_loc X (i + k)) (weights w))
                                   (theta w) (lr w))
               (nth_error w_objs k).
Proof.
  revert i k. induction w_objs as [|w ws IH]; intros i k.
  - now destruct k.
  - destruct k as [|k]; simpl.
    + now rewrite Nat.add_0_r.
    + rewrite IH. now rewrite Nat.add_succ_r.
Qed.

Lemma sum_masked (Xi : pset) (ws : list Q) (dp dp' : datapoint) (l : list nat)
    (a a' : Q) :
  (forall j, In j l -> j < length ws) ->
  (forall j, In j Xi -> bit dp j = bit dp' j) ->
  (a == a')%Q ->
  (fold_left (fun sum i => sum + nth i (mask_from 0 Xi ws) 0 * inject_Z (bit dp i)) l a
   == fold_left (fun sum i => sum + nth i (mask_from 0 Xi ws) 0 * inject_Z (bit dp' i)) l a')%Q.
Proof.
  revert a a'. induction l as [|i l IH]; simpl; intros a a' Hl Hx Ha; [exact Ha|].
  apply IH; [auto | assumption|].
  rewrite mask_from_nth by auto. simpl.
  destruct (member i Xi) eqn:Hm.
  - apply member_spec in Hm. rewrite (Hx i Hm), Ha. reflexivity.
  - rewrite Ha, !Qmult_0_l. reflexivity.
Qed.

(** What the masking of [execute_algorithm] does establish.  The loop
    compares the position [j] of a weight in the vector with the predicate
    indices in [X[k]]: every weight of the vector at a position that is not
    in [X[k]] becomes 0, the other weights, the threshold and the rate are
    as before, and for data points that are not longer than the vector the
    prediction does not depend on the predicates outside [X[k]]. *)
Theorem mask_spec (X : psets) (w_objs : list winnow) (k : nat) (w : winnow) :
  nth_error w_objs k = Some w ->
  exists w',
    nth_error (mask X w_objs) k = Some w'
    /\ length (weights w') = length (weights w)
    /\ theta w' = theta w /\ lr w' = lr w
    /\ (forall j, j < length (weights w) -> ~ In j (at_loc X k) ->
                  nth_error (weights w') j = Some 0%Q)
    /\ (forall j, In j (at_loc X k) ->
                  nth_error (weights w') j = nth_error (weights w) j)
    /\ (forall dp dp',
          length (_int_data dp) = length (_int_data dp') ->
          length (_int_data dp) <= length (weights w) ->
          (forall j, In j (at_loc X k) -> bit dp j = bit dp' j) ->
          predict w' dp = predict w' dp').
Proof.
  intros Hk. unfold mask. rewrite mask_objs_nth_error, Hk. simpl.
  eexists. split; [reflexivity|]. simpl.
  split; [apply mask_from_length|]. split; [reflexivity|]. split; [reflexivity|].
  split; [|split].
  - intros j Hj Hnin.
    rewrite (nth_error_nth' _ 0%Q) by (now rewrite mask_from_length).
    rewrite mask_from_nth by assumption. simpl.
    destruct (member j (at_loc X k)) eqn:Hm; [|reflexivity].
    apply member_spec in Hm. contradiction.
  - intros j Hin. destruct (Nat.lt_ge_cases j (length (weights w))) as [Hj|Hj].
    + rewrite (nth_error_nth' _ 0%Q) by (now rewrite mask_from_length).
      rewrite mask_from_nth by assumption. simpl.
      apply member_spec in Hin. rewrite Hin.
      symmetry. now apply nth_error_nth'.
    + rewrite (proj2 (nth_error_None _ _)) by (now rewrite mask_from_length).
      symmetry. now apply nth_error_None.
  - intros dp dp' Hlen Hle Hagree. unfold predict. simpl. rewrite <- Hlen.
    assert (Hs := sum_masked (at_loc X k) (weights w) dp dp'
                    (seq 0 (length (_int_data dp))) 0%Q 0%Q).
    unfold Qle_bool.
    apply Bool.eq_true_iff_eq. rewrite <- !Zle_is_le_bool.
    change (theta w <= fold_left
              (fun sum i => sum + nth i (mask_from 0 (at_loc X k) (weights w)) 0
                                  * inject_Z (bit dp i))
              (seq 0 (length (_int_data dp))) 0
            <-> theta w <= fold_left
              (fun sum i => sum + nth i (mask_from 0 (at_loc X k) (weights w)) 0
                                  * inject_Z (bit dp' i))
              (seq 0 (length (_int_data dp))) 0)%Q.
    rewrite Hs; [reflexivity | | assumption | reflexivity].
    intros j Hj. apply in_seq in Hj. lia.
Qed.

(** C8.  The masking misses its aim at a location whose interval does not
    start at 0.  With the intervals (0,1) and (2,5) the driver gives the
    second location four weights; the loop zeroes the weights at the
    positions 0 and 1, which are not in [X[1] = {2, 3}], and keeps those at
    the positions 2 and 3.  The predicates 4 and 5 are outside [X[1]], and
    no weight of theirs is set to 0: the vector has no position 4 or 5
    (where [predict] reads the weights of these predicates), and the
    positions 2 and 3, the third and fourth of the interval, keep their
    weights. *)
Theorem mask_shifted_interval :
  let X := [[0; 1]; [2; 3]] in
  let w_objs := mask X (winnow_objs [(0, 1); (2, 5)]) in
  map weights w_objs = [[4 # 5; 4 # 5]; [0; 0; 8 # 5; 8 # 5]]%Q
  /\ ~ In 4 (at_loc X 1) /\ ~ In 5 (at_loc X 1)
  /\ nth_error (nth 1 (map weights w_objs) []) 4 = None
  /\ nth_error (nth 1 (map weights w_objs) []) 5 = None
  /\ nth_error (nth 1 (map weights w_objs) []) (4 - 2) = Some (8 # 5)%Q
  /\ nth_error (nth 1 (map weights w_objs) []) (5 - 2) = Some (8 # 5)%Q
  /\ length (_int_data (mk_datapoint [1] [0; 0; 1; 1; 1; 1]%Z false true))
     > length (nth 1 (map weights w_objs) []).
Proof.
  cbv zeta. split; [reflexivity|].
  split; [simpl; intuition discriminate|].
  split; [simpl; intuition discriminate|].
  repeat (split; [reflexivity|]). simpl. lia.
Qed.

(* ------------------------------------------------------------------ *)
(** ** The lowering of a threshold function to a tree *)

Lemma nonneg_nth (ws : list Q) (j : nat) : nonneg ws -> (0 <= nth j ws 0)%Q.
Proof.
  intros H. destruct (Nat.lt_ge_cases j (length ws)) as [Hj|Hj].
  - unfold nonneg in H. rewrite Forall_forall in H. apply H, nth_In, Hj.
  - rewrite nth_overflow by assumption. apply Qle_refl.
Qed.

Lemma Qnum_nonneg (w : Q) : (0 <= w)%Q -> (0 <= Qnum w)%Z.
Proof. unfold Qle. simpl. lia. Qed.

Lemma to_int_floor (w : Q) : (0 <= w)%Q -> to_int w = Qfloor w.
Proof.
  intros H. apply Qnum_nonneg in H. destruct w as [n d]. simpl in *.
  unfold to_int. simpl. apply Z.quot_div_nonneg; lia.
Qed.

Lemma to_int_nonneg (w : Q) : (0 <= w)%Q -> (0 <= to_int w)%Z.
Proof.
  intros H. apply Qnum_nonneg in H. unfold to_int.
  apply Z.quot_pos; lia.
Qed.

Lemma to_int_add (s : Z) (w : Q) :
  (0 <= s)%Z -> (0 <= w)%Q -> to_int (inject_Z s + w) = (s + to_int w)%Z.
Proof.
  intros Hs Hw. apply Qnum_nonneg in Hw. destruct w as [n d]. simpl in Hw.
  unfold to_int, Qplus, inject_Z. simpl.
  rewrite !Z.quot_div_nonneg by nia.
  rewrite Z.mul_1_r. apply Z.div_add_l. lia.
Qed.

Lemma total_nonneg (ws : list Q) (J : pset) : nonneg ws -> (0 <= total ws J)%Z.
Proof.
  intros H. induction J as [|j J IH]; simpl; [lia|].
  pose proof (to_int_nonneg _ (nonneg_nth ws j H)). lia.
Qed.

Lemma score_bounds (ws : list Q) (J : pset) (x : nat -> bool) :
  nonneg ws -> (0 <= score ws J x <= total ws J)%Z.
Proof.
  intros H. induction J as [|j J IH]; simpl; [lia|].
  pose proof (to_int_nonneg _ (nonneg_nth ws j H)).
  destruct (x j); lia.
Qed.

Lemma score_erase (ws : list Q) (J : pset) (j : nat) (x : nat -> bool) :
  In j J ->
  score ws J x
  = ((if x j then to_int (nth j ws 0%Q) else 0) + score ws (erase j J) x)%Z.
Proof.
  induction J as [|i J IH]; simpl; intros Hin; [contradiction|].
  destruct (j =? i) eqn:Hji.
  - apply Nat.eqb_eq in Hji. now subst.
  - apply Nat.eqb_neq in Hji. destruct Hin as [->|Hin]; [congruence|].
    simpl. rewrite (IH Hin). lia.
Qed.

Lemma length_erase (J : pset) (j : nat) :
  In j J -> S (length (erase j J)) = length J.
Proof.
  induction J as [|i J IH]; simpl; intros Hin; [contradiction|].
  destruct (j =? i) eqn:Hji; [reflexivity|].
  apply Nat.eqb_neq in Hji. destruct Hin as [->|Hin]; [congruence|].
  simpl. now rewrite IH.
Qed.

Lemma In_erase_weak (J : pset) (j i : nat) : In i (erase j J) -> In i J.
Proof.
  induction J as [|a J IH]; simpl; [tauto|].
  destruct (j =? a); simpl; tauto.
Qed.

(** The comparison [weights[j] > max] against the truncated weights. *)
Lemma compare_max (w : Q) (m : Z) :
  (0 <= w)%Q ->
  if Qle_bool w (inject_Z m) then (to_int w <= m)%Z else (m <= to_int w)%Z.
Proof.
  intros Hw. rewrite (to_int_floor w Hw).
  destruct (Qle_bool w (inject_Z m)) eqn:Hc.
  - apply Qle_bool_iff in Hc. apply Qfloor_resp_le in Hc.
    now rewrite Qfloor_Z in Hc.
  - assert (Hlt : (inject_Z m <= w)%Q).
    { apply Qnot_lt_le. intros Hlt. apply Qlt_le_weak in Hlt.
      apply Qle_bool_iff in Hlt. congruence. }
    apply Qfloor_resp_le in Hlt. now rewrite Qfloor_Z in Hlt.
Qed.

(** The loop of [ltf2bool] over [J]: the sum of the truncated weights, and
    either nothing chosen or an index of [J] together with its truncated
    weight, which no truncated weight of [J] exceeds. *)
Lemma scan_fold (ws : list Q) (l : pset) (s m i : Z) :
  nonneg ws -> (0 <= s)%Z ->
  exists m' i',
    fold_left (scan_step ws) l (s, m, i) = ((s + total ws l)%Z, m', i')
    /\ (m <= m')%Z
    /\ (forall j, In j l -> (to_int (nth j ws 0%Q) <= m')%Z)
    /\ ((m' = m /\ i' = i)
        \/ exists j, In j l /\ i' = Z.of_nat j /\ m' = to_int (nth j ws 0%Q)).
Proof.
  intros Hws. revert s m i. induction l as [|j l IH]; intros s m i Hs.
  - exists m, i. simpl. rewrite Z.add_0_r.
    split; [reflexivity|]. split; [lia|]. split; [intros ? []|now left].
  - simpl. pose proof (nonneg_nth ws j Hws) as Hw.
    rewrite (to_int_add s _ Hs Hw).
    pose proof (to_int_nonneg _ Hw) as Hn.
    pose proof (compare_max (nth j ws 0%Q) m Hw) as Hc.
    destruct (Qle_bool (nth j ws 0%Q) (inject_Z m)); simpl.
    + destruct (IH (s + to_int (nth j ws 0%Q))%Z m i ltac:(lia))
        as (m' & i' & E & Hm & Hall & Hsel).
      exists m', i'. rewrite E. split; [f_equal; f_equal; lia|].
      split; [assumption|]. split.
      * intros k [<-|Hk]; [lia | auto].
      * destruct Hsel as [Hsame|(k & Hk & Hi & Hmk)]; [now left|].
        right. exists k. auto.
    + destruct (IH (s + to_int (nth j ws 0%Q))%Z (to_int (nth j ws 0%Q))
                   (Z.of_nat j) ltac:(lia))
        as (m' & i' & E & Hm & Hall & Hsel).
      exists m', i'. rewrite E. split; [f_equal; f_equal; lia|].
      split; [lia|]. split.
      * intros k [<-|Hk]; [lia | auto].
      * right. destruct Hsel as [[-> ->]|(k & Hk & Hi & Hmk)].
        -- exists j. auto.
        -- exists k. auto.
Qed.

Lemma scan_spec (ws : list Q) (J : pset) :
  nonneg ws ->
  exists max idx,
    scan ws J = (total ws J, max, idx)
    /\ (J <> [] ->
        exists j, In j J /\ idx = Z.of_nat j /\ max = to_int (nth j ws 0%Q)
                  /\ forall k, In k J -> (to_int (nth k ws 0%Q) <= max)%Z).
Proof.
  intros Hws. unfold scan.
  destruct (scan_fold ws J 0 (-1) (-1) Hws (Z.le_refl 0))
    as (m' & i' & E & Hm & Hall & Hsel).
  exists m', i'. split; [exact E|].
  intros Hne. destruct Hsel as [[-> ->]|(j & Hj & Hi & Hmj)].
  - exfalso. destruct J as [|j J]; [congruence|].
    specialize (Hall j (or_introl eq_refl)).
    pose proof (to_int_nonneg _ (nonneg_nth ws j Hws)). lia.
  - exists j. auto.
Qed.

Lemma erase_idx_of_nat (j : nat) (J : pset) : erase_idx (Z.of_nat j) J = erase j J.
Proof.
  unfold erase_idx. destruct (Z.of_nat j <? 0)%Z eqn:E.
  - apply Z.ltb_lt in E. lia.
  - now rewrite Nat2Z.id.
Qed.

Lemma ltf2bool_rec_spec (fuel : nat) (ws : list Q) (J : pset) (theta : Z) :
  nonneg ws -> length J <= fuel ->
  exists t,
    ltf2bool_rec fuel ws J theta = Returned t
    /\ forall x, ((theta < score ws J x)%Z -> accepts t x = true)
                 /\ ((score ws J x < theta)%Z -> accepts t x = false).
Proof.
  intros Hws. revert J theta.
  induction fuel as [|fuel IH]; intros J theta Hlen.
  - destruct J; [|simpl in Hlen; lia]. simpl.
    destruct (theta <=? 0)%Z eqn:Ht.
    + exists (leaf true). split; [reflexivity|]. intros x. simpl.
      apply Z.leb_le in Ht. split; [reflexivity | lia].
    + apply Z.leb_gt in Ht.
      replace (theta <? 0)%Z with false by (symmetry; apply Z.ltb_ge; lia).
      exists (leaf false). split; [reflexivity|]. intros x. simpl.
      split; [lia | reflexivity].
  - simpl. destruct (theta <=? 0)%Z eqn:Ht.
    + exists (leaf true). split; [reflexivity|]. intros x. simpl.
      apply Z.leb_le in Ht. pose proof (score_bounds ws J x Hws).
      split; [reflexivity | lia].
    + apply Z.leb_gt in Ht.
      destruct (scan_spec ws J Hws) as (max & idx & Es & Hsel). rewrite Es.
      destruct (theta <? total ws J)%Z eqn:Hsum.
      * apply Z.ltb_lt in Hsum.
        assert (Hne : J <> []) by (intros ->; simpl in Hsum; lia).
        destruct (Hsel Hne) as (j & Hj & -> & -> & _).
        rewrite erase_idx_of_nat, Nat2Z.id.
        pose proof (length_erase J j Hj) as Hl.
        destruct (IH (erase j J) theta ltac:(lia)) as (t1 & E1 & H1).
        destruct (IH (erase j J) (theta - to_int (nth j ws 0%Q))%Z ltac:(lia))
          as (t2 & E2 & H2).
        rewrite E1, E2. simpl. eexists. split; [reflexivity|].
        intros x. simpl. rewrite (score_erase ws J j x Hj).
        destruct (x j).
        -- destruct (H2 x) as [Ha Hr]. split; intros Hx; [apply Ha | apply Hr]; lia.
        -- destruct (H1 x) as [Ha Hr]. split; intros Hx; [apply Ha | apply Hr]; lia.
      * apply Z.ltb_ge in Hsum.
        exists (leaf false). split; [reflexivity|]. intros x. simpl.
        pose proof (score_bounds ws J x Hws). split; [lia | reflexivity].
Qed.

Lemma fold_total (ws : list Q) (l : list Q) (s : Z) :
  nonneg l -> (0 <= s)%Z ->
  fold_left (fun sum w => to_int (inject_Z sum + w)) l s
  = (s + fold_right (fun w t => (to_int w + t)%Z) 0%Z l)%Z.
Proof.
  intros Hl. revert s. induction l as [|w l IH]; simpl; intros s Hs; [lia|].
  inversion Hl as [|? ? Hw Hl']; subst.
  rewrite (to_int_add s w Hs Hw), (IH Hl').
  - lia.
  - pose proof (to_int_nonneg w Hw). lia.
Qed.

Lemma total_seq (ws : list Q) :
  total ws (seq 0 (length ws)) = fold_right (fun w t => (to_int w + t)%Z) 0%Z ws.
Proof.
  assert (H : forall pre, total (pre ++ ws) (seq (length pre) (length ws))
                          = fold_right (fun w t => (to_int w + t)%Z) 0%Z ws).
  { induction ws as [|w ws IH]; intros pre; [reflexivity|].
    simpl. rewrite app_nth2 by lia. rewrite Nat.sub_diag. simpl.
    f_equal. specialize (IH (pre ++ [w])).
    rewrite <- app_assoc, length_app in IH. simpl in IH.
    rewrite Nat.add_1_r in IH. exact IH. }
  exact (H []).
Qed.

Lemma ltf2bool_leaf_true (w : winnow) (J : pset) (theta0 : Z) :
  (theta0 <= 0)%Z -> ltf2bool w J theta0 = Returned (leaf true).
Proof.
  intros Ht. unfold ltf2bool. apply Z.leb_le in Ht.
  destruct (length J); simpl; now rewrite Ht.
Qed.

Lemma ltf2bool_leaf_false (w : winnow) (J : pset) (theta0 : Z) :
  nonneg (weights w) -> (0 < theta0)%Z -> (total (weights w) J <= theta0)%Z ->
  ltf2bool w J theta0 = Returned (leaf false).
Proof.
  intros Hws Ht Hsum. unfold ltf2bool.
  destruct (scan_spec (weights w) J Hws) as (max & idx & Es & _).
  apply Z.leb_gt in Ht. apply Z.ltb_ge in Hsum.
  destruct (length J); simpl; now rewrite Ht, Es, Hsum.
Qed.

Lemma ltf2bool_node (w : winnow) (J : pset) (theta0 : Z) :
  nonneg (weights w) -> (0 < theta0 < total (weights w) J)%Z ->
  exists j,
    In j J
    /\ (forall k, In k J ->
                  (to_int (nth k (weights w) 0%Q) <= to_int (nth j (weights w) 0%Q))%Z)
    /\ ltf2bool w J theta0
       = (first <- ltf2bool w (erase j J) theta0 ;;
          second <- ltf2bool w (erase j J)
                      (theta0 - to_int (nth j (weights w) 0%Q)) ;;
          Returned (node j first second)).
Proof.
  intros Hws [Ht Hsum]. unfold ltf2bool.
  destruct (scan_spec (weights w) J Hws) as (max & idx & Es & Hsel).
  assert (Hne : J <> []) by (intros ->; simpl in Hsum; lia).
  destruct (Hsel Hne) as (j & Hj & -> & -> & Hmax).
  exists j. split; [assumption|]. split; [assumption|].
  pose proof (length_erase J j Hj) as Hl. rewrite <- Hl.
  apply Z.leb_gt in Ht. apply Z.ltb_lt in Hsum.
  simpl. rewrite Ht, Es, Hsum, erase_idx_of_nat, Nat2Z.id. reflexivity.
Qed.

(** The claim C7 fails.  With the weights 1 and 1 and the threshold of the
    constructor the emitted tree rejects the input (0, 1), whose weighted
    sum reaches the threshold, and accepts (1, 0); and [ltf2bool] itself,
    given the weight 1 and the residual threshold 1, emits the leaf
    [false], although the input (1) reaches the threshold.  With the
    weights 1, 1 and 1 and the threshold 1, where no conversion changes a
    number, the emitted tree is the one for the threshold [3 - 1], and
    rejects the input (1, 0, 0), whose weighted sum 1 reaches the
    threshold 1. *)
Lemma lowering_counterexample :
  lower (mk_winnow [1; 1]%Q theta_init lr_init)
  = Returned (node 0 (leaf false) (leaf true))
  /\ accepts (node 0 (leaf false) (leaf true)) (fun j => j =? 1) = false
  /\ Qle theta_init (weighted_sum [1; 1]%Q [0; 1] (fun j => j =? 1))
  /\ ltf2bool (mk_winnow [1]%Q theta_init lr_init) [0] 1 = Returned (leaf false)
  /\ Qle (inject_Z 1) (weighted_sum [1]%Q [0] (fun _ => true))
  /\ (exists t,
        lower (mk_winnow [1; 1; 1]%Q 1 lr_init) = Returned t
        /\ ltf2bool (mk_winnow [1; 1; 1]%Q 1 lr_init) [0; 1; 2] (3 - 1) = Returned t
        /\ accepts t (fun j => j =? 0) = false
        /\ Qle 1 (weighted_sum [1; 1; 1]%Q [0; 1; 2] (fun j => j =? 0)))
  /\ ~ (forall w t x,
          lower w = Returned t ->
          (accepts t x = true
           <-> Qle (theta w) (weighted_sum (weights w)
                                (seq 0 (length (weights w))) x))).
Proof.
  split; [reflexivity|]. split; [reflexivity|].
  split; [vm_compute; discriminate|]. split; [reflexivity|].
  split; [vm_compute; discriminate|].
  split.
  { eexists. split; [reflexivity|]. split; [reflexivity|].
    split; [reflexivity | vm_compute; discriminate]. }
  intros Hclaim.
  specialize (Hclaim (mk_winnow [1; 1]%Q theta_init lr_init)
                (node 0 (leaf false) (leaf true)) (fun j => j =? 1) eq_refl).
  destruct Hclaim as [_ Hc].
  assert (Habs : false = true); [|discriminate].
  apply Hc. vm_compute. discriminate.
Qed.

(** What [ltf2bool] and [write_ltf2bool_json] do with the weights as they
    read them, each converted to an [int]: [total] and [score] are the sums
    of the converted weights. *)
Lemma ltf2bool_as_read (w : winnow) (J : pset) (theta0 : Z) :
  nonneg (weights w) ->
  (exists t,
     ltf2bool w J theta0 = Returned t
     /\ ((theta0 <= 0)%Z -> t = leaf true)
     /\ ((0 < theta0)%Z -> (total (weights w) J <= theta0)%Z -> t = leaf false)
     /\ ((0 < theta0 < total (weights w) J)%Z ->
         exists j t1 t2,
           In j J
           /\ (forall k, In k J ->
                 (to_int (nth k (weights w) 0%Q) <= to_int (nth j (weights w) 0%Q))%Z)
           /\ ltf2bool w (erase j J) theta0 = Returned t1
           /\ ltf2bool w (erase j J) (theta0 - to_int (nth j (weights w) 0%Q))
              = Returned t2
           /\ t = node j t1 t2)
     /\ forall x, ((theta0 < score (weights w) J x)%Z -> accepts t x = true)
                  /\ ((score (weights w) J x < theta0)%Z -> accepts t x = false))
  /\ (exists t,
        lower w = Returned t
        /\ let all := seq 0 (length (weights w)) in
           let T := to_int (inject_Z (total (weights w) all) - theta w) in
           ltf2bool w all T = Returned t
           /\ forall x, ((T < score (weights w) all x)%Z -> accepts t x = true)
                        /\ ((score (weights w) all x < T)%Z -> accepts t x = false)).
Proof.
  intros Hws. split.
  - destruct (ltf2bool_rec_spec (length J) (weights w) J theta0 Hws (le_n _))
      as (t & Et & Hacc).
    change (ltf2bool w J theta0 = Returned t) in Et.
    exists t. split; [exact Et|].
    split; [|split; [|split; [|exact Hacc]]].
    + intros Ht. rewrite (ltf2bool_leaf_true w J theta0 Ht) in Et. congruence.
    + intros Ht Hsum.
      rewrite (ltf2bool_leaf_false w J theta0 Hws Ht Hsum) in Et. congruence.
    + intros Hnode.
      destruct (ltf2bool_node w J theta0 Hws Hnode) as (j & Hj & Hmax & E).
      destruct (ltf2bool_rec_spec (length (erase j J)) (weights w) (erase j J)
                  theta0 Hws (le_n _)) as (t1 & E1 & _).
      destruct (ltf2bool_rec_spec (length (erase j J)) (weights w) (erase j J)
                  (theta0 - to_int (nth j (weights w) 0%Q)) Hws (le_n _))
        as (t2 & E2 & _).
      change (ltf2bool w (erase j J) theta0 = Returned t1) in E1.
      change (ltf2bool w (erase j J) (theta0 - to_int (nth j (weights w) 0%Q))
              = Returned t2) in E2.
      exists j, t1, t2. split; [assumption|]. split; [assumption|].
      split; [exact E1|]. split; [exact E2|].
      rewrite E1, E2 in E. simpl in E. congruence.
  - unfold lower.
    rewrite (fold_total (weights w) (weights w) 0 Hws (Z.le_refl 0)).
    rewrite Z.add_0_l, <- total_seq.
    destruct (ltf2bool_rec_spec (length (seq 0 (length (weights w))))
                (weights w) (seq 0 (length (weights w)))
                (to_int (inject_Z (total (weights w) (seq 0 (length (weights w))))
                         - theta w)) Hws (le_n _))
      as (t & Et & Hacc).
    exists t. split; [exact Et|]. split; [exact Et | exact Hacc].
Qed.

(* ------------------------------------------------------------------ *)
(** ** The lowering on weights that it reads without loss *)

Lemma to_int_whole (q : Q) (n : Z) : (q == inject_Z n)%Q -> to_int q = n.
Proof.
  unfold Qeq, to_int. simpl. intros H. rewrite Z.mul_1_r in H. rewrite H.
  apply Z.quot_mul. discriminate.
Qed.

Lemma exact_nth (ws : list Q) (j : nat) :
  Forall exact ws ->
  exists n : Z, (0 <= n)%Z /\ (nth j ws 0 == inject_Z n)%Q.
Proof.
  intros Hws. destruct (Nat.lt_ge_cases j (length ws)) as [Hj|Hj].
  - rewrite Forall_forall in Hws.
    destruct (Hws _ (nth_In ws 0%Q Hj)) as (n & Hn & E).
    exists n. split; [lia | exact E].
  - rewrite nth_overflow by assumption. exists 0%Z. split; [lia | reflexivity].
Qed.

Lemma exact_nonneg (ws : list Q) : Forall exact ws -> nonneg ws.
Proof.
  unfold nonneg. apply Forall_impl. intros w (n & Hn & E). rewrite E.
  change 0%Q with (inject_Z 0). rewrite <- Zle_Qle. lia.
Qed.

Lemma score_whole (ws : list Q) (J : pset) (x : nat -> bool) :
  Forall exact ws -> (inject_Z (score ws J x) == weighted_sum ws J x)%Q.
Proof.
  intros Hws. induction J as [|j J IH]; simpl; [reflexivity|].
  rewrite inject_Z_plus, IH. apply Qplus_inj_r.
  destruct (x j); [|reflexivity].
  destruct (exact_nth ws j Hws) as (n & _ & E).
  rewrite (to_int_whole _ n E). now rewrite E.
Qed.

Lemma total_whole (ws : list Q) (J : pset) :
  Forall exact ws -> (inject_Z (total ws J) == live_sum ws J)%Q.
Proof. intros Hws. exact (score_whole ws J (fun _ => true) Hws). Qed.

Lemma to_int_le_whole (ws : list Q) (k j : nat) :
  Forall exact ws ->
  (to_int (nth k ws 0%Q) <= to_int (nth j ws 0%Q))%Z ->
  (nth k ws 0 <= nth j ws 0)%Q.
Proof.
  intros Hws Hle.
  destruct (exact_nth ws k Hws) as (n & _ & En).
  destruct (exact_nth ws j Hws) as (m & _ & Em).
  rewrite (to_int_whole _ n En), (to_int_whole _ m Em) in Hle.
  rewrite En, Em. now rewrite <- Zle_Qle.
Qed.

(** C7, amended.  On weights that the conversions to [int] leave as they
    are (whole numbers from 0 on whose sum is at most 2^24), [ltf2bool]
    emits, for a set [J] of live attributes and a residual threshold
    [theta0]: the leaf [true] when the threshold is at most 0; the leaf
    [false] when the sum of the live weights does not exceed the threshold;
    and otherwise a node on a live attribute of largest weight, whose first
    child (attribute 0) keeps the threshold and whose second child
    (attribute 1) subtracts the weight.  The tree accepts every input whose
    weighted sum is above the threshold and rejects every input whose
    weighted sum is below it.  The tree that [write_ltf2bool_json] emits is
    the one for all attributes and the threshold [sum - theta], where [sum]
    is the sum of the weights and [theta] the threshold of the object: it
    accepts the inputs whose weighted sum is above [sum - theta] and
    rejects those whose weighted sum is below. *)
Theorem lowering_spec (w : winnow) (J : pset) (theta0 : Z) :
  Forall exact (weights w) ->
  (Forall (fun j => j < length (weights w)) J ->
   exact (live_sum (weights w) J) ->
   (- 2147483648 <= theta0 <= 2147483647)%Z ->
   exists t,
     ltf2bool w J theta0 = Returned t
     /\ ((theta0 <= 0)%Z -> t = leaf true)
     /\ ((0 < theta0)%Z -> (live_sum (weights w) J <= inject_Z theta0)%Q ->
         t = leaf false)
     /\ ((0 < theta0)%Z -> (inject_Z theta0 < live_sum (weights w) J)%Q ->
         exists j m t1 t2,
           In j J
           /\ (forall k, In k J ->
                         (nth k (weights w) 0 <= nth j (weights w) 0)%Q)
           /\ (nth j (weights w) 0 == inject_Z m)%Q
           /\ ltf2bool w (erase j J) theta0 = Returned t1
           /\ ltf2bool w (erase j J) (theta0 - m) = Returned t2
           /\ t = node j t1 t2)
     /\ forall x,
          ((inject_Z theta0 < weighted_sum (weights w) J x)%Q ->
           accepts t x = true)
          /\ ((weighted_sum (weights w) J x < inject_Z theta0)%Q ->
              accepts t x = false))
  /\ (let all := seq 0 (length (weights w)) in
      exact (live_sum (weights w) all) -> exact (theta w) ->
      exists T t,
        (inject_Z T == live_sum (weights w) all - theta w)%Q
        /\ lower w = Returned t
        /\ ltf2bool w all T = Returned t
        /\ forall x,
             ((live_sum (weights w) all - theta w
               < weighted_sum (weights w) all x)%Q -> accepts t x = true)
             /\ ((weighted_sum (weights w) all x
                  < live_sum (weights w) all - theta w)%Q ->
                 accepts t x = false)).
Proof.
  intros Hws. pose proof (exact_nonneg (weights w) Hws) as Hnn. split.
  - intros _ _ _.
    destruct (proj1 (ltf2bool_as_read w J theta0 Hnn))
      as (t & Et & Htrue & Hfalse & Hnode & Hacc).
    exists t. split; [exact Et|]. split; [exact Htrue|].
    split; [|split].
    + intros Ht Hsum. apply (Hfalse Ht).
      rewrite <- (total_whole (weights w) J Hws) in Hsum.
      now rewrite Zle_Qle.
    + intros Ht Hsum.
      rewrite <- (total_whole (weights w) J Hws), <- Zlt_Qlt in Hsum.
      destruct (Hnode (conj Ht Hsum)) as (j & t1 & t2 & Hj & Hmax & E1 & E2 & E).
      destruct (exact_nth (weights w) j Hws) as (m & _ & Em).
      rewrite (to_int_whole _ m Em) in E2.
      exists j, m, t1, t2. split; [assumption|].
      split; [intros k Hk; apply to_int_le_whole; auto|]. auto.
    + intros x. destruct (Hacc x) as [Ha Hr].
      rewrite <- (score_whole (weights w) J x Hws), <- !Zlt_Qlt. auto.
  - cbv zeta. intros _ (n & Hn & En).
    destruct (proj2 (ltf2bool_as_read w J theta0 Hnn)) as (t & Et & El & Hacc).
    cbv zeta in El, Hacc.
    set (all := seq 0 (length (weights w))) in *.
    assert (ET : (inject_Z (total (weights w) all) - theta w
                  == inject_Z (total (weights w) all - n))%Q)
      by (rewrite En; unfold Zminus; now rewrite inject_Z_plus, inject_Z_opp).
    rewrite (to_int_whole _ _ ET) in El, Hacc.
    exists (total (weights w) all - n)%Z, t.
    split; [now rewrite <- ET, (total_whole (weights w) all Hws)|].
    split; [exact Et|]. split; [exact El|].
    intros x. destruct (Hacc x) as [Ha Hr].
    rewrite <- (total_whole (weights w) all Hws), ET,
      <- (score_whole (weights w) all x Hws), <- !Zlt_Qlt. auto.
Qed.

Lemma lowering_spec_witness :
  (exists t,
     ltf2bool (mk_winnow [2; 1]%Q 1 lr_init) [0; 1] 2 = Returned t
     /\ accepts t (fun _ => true) = true
     /\ accepts t (fun j => j =? 1) = false)
  /\ exists t,
       lower (mk_winnow [2; 1]%Q 1 lr_init) = Returned t
       /\ accepts t (fun _ => true) = true
       /\ accepts t (fun _ => false) = false.
Proof.
  assert (Hws : Forall exact (weights (mk_winnow [2; 1]%Q 1 lr_init))).
  { repeat constructor; [exists 2%Z | exists 1%Z]; split; try lia; reflexivity. }
  assert (Hsum : exact (live_sum (weights (mk_winnow [2; 1]%Q 1 lr_init))
                          (seq 0 (length (weights (mk_winnow [2; 1]%Q 1 lr_init)))))).
  { exists 3%Z. split; [lia | reflexivity]. }
  assert (Hth : exact (theta (mk_winnow [2; 1]%Q 1 lr_init))).
  { exists 1%Z. split; [lia | reflexivity]. }
  assert (HJ : Forall (fun j => j < length (weights (mk_winnow [2; 1]%Q 1 lr_init)))
                 [0; 1]).
  { repeat constructor. }
  destruct (lowering_spec (mk_winnow [2; 1]%Q 1 lr_init) [0; 1] 2 Hws)
    as [Hltf Hlower].
  split.
  - destruct (Hltf HJ Hsum ltac:(lia)) as (t & Et & _ & _ & _ & Hacc).
    exists t. split; [exact Et|]. split.
    + apply (proj1 (Hacc (fun _ => true))). reflexivity.
    + apply (proj2 (Hacc (fun j => j =? 1))). reflexivity.
  - destruct (Hlower Hsum Hth) as (T & t & _ & Et & _ & Hacc).
    exists t. split; [exact Et|]. split.
    + apply (proj1 (Hacc (fun _ => true))). reflexivity.
    + apply (proj2 (Hacc (fun _ => false))). reflexivity.
Defined.

(** Scenario S5.  The weights of the constructor for two predicates are
    0.8 and 0.8; [write_ltf2bool_json] adds them into an [int], which stays
    0, and hands [ltf2bool] the threshold [0 - 0.441] as an [int], which is
    0: the emitted tree is the leaf [true], and accepts the negative
    example [1,0]. *)
Example lowering_S5 :
  lower (winnow_init 2) = Returned (leaf true)
  /\ accepts (leaf true) (fun j => j =? 0) = true.
Proof. split; reflexivity. Qed.

(* ------------------------------------------------------------------ *)
(** ** The reducer all returns when [X] is consistent *)

Lemma length_insert_new (x : nat) (s : pset) :
  ~ In x s -> length (insert x s) = S (length s).
Proof.
  induction s as [|y s IH]; simpl; intros Hn; [reflexivity|].
  destruct (x <? y) eqn:Hxy; [reflexivity|].
  destruct (y <? x) eqn:Hyx.
  - simpl. rewrite IH; [reflexivity | tauto].
  - apply Nat.ltb_ge in Hxy, Hyx. exfalso. apply Hn. left. lia.
Qed.

Lemma length_insert_le (x : nat) (s : pset) : length s <= length (insert x s).
Proof.
  induction s as [|y s IH]; simpl; [lia|].
  destruct (x <? y); [simpl; lia|]. destruct (y <? x); simpl; lia.
Qed.

Lemma ordered_filter (f : nat -> bool) (s : pset) : ordered s -> ordered (filter f s).
Proof.
  induction s as [|y s IH]; simpl; intros Hs; [assumption|].
  destruct (ordered_cons_inv _ _ Hs) as [Hs' Hy].
  destruct (f y); [|auto]. apply ordered_cons; [auto|].
  intros z Hz. apply filter_In in Hz. apply Hy, Hz.
Qed.

Lemma move_zeros_spec (dp : datapoint) (Mi Ri : pset) :
  (forall i, In i (fst (move_zeros dp Mi Ri))
             <-> In i Ri \/ (In i Mi /\ bit dp i = 0%Z))
  /\ snd (move_zeros dp Mi Ri) = filter (fun p => negb (bit dp p =? 0)%Z) Mi
  /\ (ordered Ri -> ordered (fst (move_zeros dp Mi Ri)))
  /\ length Ri <= length (fst (move_zeros dp Mi Ri)).
Proof.
  revert Ri. induction Mi as [|p Mi IH]; simpl; intros Ri.
  - split; [intros i; tauto|]. split; [reflexivity|]. split; [auto | lia].
  - destruct (bit dp p =? 0)%Z eqn:Hb; simpl.
    + apply Z.eqb_eq in Hb. destruct (IH (insert p Ri)) as (H1 & H2 & H3 & H4).
      split; [|split; [assumption|split]].
      * intros i. rewrite H1, In_insert. split.
        -- intros [[->|Hi]|[Hi Hz]]; auto.
        -- intros [Hi|[[<-|Hi] Hz]]; auto.
      * intros HR. apply H3, ordered_insert, HR.
      * pose proof (length_insert_le p Ri). lia.
    + apply Z.eqb_neq in Hb. destruct (IH Ri) as (H1 & H2 & H3 & H4).
      destruct (move_zeros dp Mi Ri) as [r m]. simpl in *.
      split; [|split; [now rewrite H2|split; assumption]].
      intros i. rewrite H1. split.
      * intros [Hi|[Hi Hz]]; auto.
      * intros [Hi|[[<-|Hi] Hz]]; auto. contradiction.
Qed.

Lemma move_zeros_longer (dp : datapoint) (Mi Ri : pset) :
  (forall i, In i Mi -> ~ In i Ri) ->
  (exists i, In i Mi /\ bit dp i = 0%Z) ->
  length Ri < length (fst (move_zeros dp Mi Ri)).
Proof.
  revert Ri. induction Mi as [|p Mi IH]; simpl; intros Ri Hd [i [Hi Hz]];
    [contradiction|].
  destruct (bit dp p =? 0)%Z eqn:Hb.
  - destruct (move_zeros_spec dp Mi (insert p Ri)) as (_ & _ & _ & Hl).
    rewrite length_insert_new in Hl by (apply Hd; now left). lia.
  - apply Z.eqb_neq in Hb. destruct Hi as [<-|Hi]; [contradiction|].
    specialize (IH Ri (fun j Hj => Hd j (or_intror Hj))
                  (ex_intro _ i (conj Hi Hz))).
    destruct (move_zeros dp Mi Ri) as [r m]. exact IH.
Qed.

Lemma unsatisfied_grows (R R' : psets) (dp : datapoint) :
  included R R' ->
  satisfies dp (at_loc R (loc dp)) = false ->
  satisfies dp (at_loc R' (loc dp)) = false.
Proof.
  intros Hinc Hu. destruct (satisfies dp (at_loc R' (loc dp))) eqn:Hs;
    [|reflexivity].
  rewrite (satisfies_subset dp _ _ (Hinc (loc dp)) Hs) in Hu. discriminate.
Qed.

Lemma lhs_unsatisfied_grows (R R' : psets) (premises : list datapoint) :
  included R R' ->
  lhs_satisfied R premises = false -> lhs_satisfied R' premises = false.
Proof.
  intros Hinc Hu. destruct (lhs_satisfied R' premises) eqn:Hs; [|reflexivity].
  rewrite lhs_satisfied_iff in Hs.
  assert (Ht : lhs_satisfied R premises = true); [|congruence].
  apply lhs_satisfied_iff. intros p Hp.
  eapply satisfies_subset; [apply Hinc | apply Hs, Hp].
Qed.

Lemma split_of_included (X R M : psets) : split_of X R M -> included R X.
Proof. intros (_ & _ & H) k i Hi. apply (H k). now left. Qed.

(** [add_all] keeps the invariant and falsifies the data point when [X]
    does. *)
Lemma add_all_spec (X R M : psets) (dp : datapoint) :
  split_of X R M -> loc dp < length X ->
  split_of X (fst (add_all (R, M) dp)) (snd (add_all (R, M) dp))
  /\ included R (fst (add_all (R, M) dp))
  /\ (satisfies dp (at_loc X (loc dp)) = false ->
      satisfies dp (at_loc (fst (add_all (R, M) dp)) (loc dp)) = false)
  /\ (satisfies dp (at_loc X (loc dp)) = false ->
      satisfies dp (at_loc R (loc dp)) = true ->
      length (at_loc R (loc dp))
      < length (at_loc (fst (add_all (R, M) dp)) (loc dp))).
Proof.
  intros (LR & LM & Hk) Hloc.
  pose proof (add_all_grows R M dp) as Hg.
  unfold add_all in *.
  destruct (move_zeros_spec dp (at_loc M (loc dp)) (at_loc R (loc dp)))
    as (H1 & H2 & H3 & _).
  pose proof (move_zeros_longer dp (at_loc M (loc dp)) (at_loc R (loc dp))) as H4.
  destruct (move_zeros dp (at_loc M (loc dp)) (at_loc R (loc dp))) as [r m].
  simpl in *. subst m.
  assert (Er : at_loc (update (loc dp) (fun _ => r) R) (loc dp) = r)
    by (apply (at_loc_update_same (loc dp) (fun _ => r)); lia).
  split; [|split; [exact Hg|split]].
  - split; [now rewrite length_update|]. split; [now rewrite length_update|].
    intros k. destruct (Hk k) as (O1 & O2 & U & D).
    destruct (Nat.eq_dec k (loc dp)) as [->|Hne].
    + rewrite Er.
      rewrite (at_loc_update_same (loc dp)
                 (fun _ => filter (fun p => negb (bit dp p =? 0)%Z)
                                  (at_loc M (loc dp)))) by lia.
      split; [auto|]. split; [now apply ordered_filter|]. split.
      * intros i. rewrite U, H1, filter_In, negb_true_iff, Z.eqb_neq.
        destruct (Z.eq_dec (bit dp i) 0); tauto.
      * intros i. rewrite H1, filter_In, negb_true_iff, Z.eqb_neq.
        specialize (D i). tauto.
    + rewrite !at_loc_update_other by assumption. auto.
  - intros Hu. rewrite Er. apply satisfies_false_iff.
    apply satisfies_false_iff in Hu as (i & Hi & Hz).
    exists i. split; [|assumption]. apply H1.
    apply (Hk (loc dp)) in Hi. tauto.
  - intros Hu Hs. rewrite Er. apply H4.
    + intros i Hi Hr. apply (proj2 (proj2 (proj2 (Hk (loc dp)))) i). auto.
    + apply satisfies_false_iff in Hu as (i & Hi & Hz).
      exists i. split; [|assumption].
      apply (Hk (loc dp)) in Hi. destruct Hi as [Hi|Hi]; [|assumption].
      exfalso. apply (proj1 (satisfies_iff dp _) Hs i Hi Hz).
Qed.

Lemma negatives_all_total (dps : list datapoint) (X R M : psets) :
  split_of X R M ->
  Forall (fun dp => loc dp < length X) dps ->
  (forall dp, In dp dps -> is_negative dp = true ->
              satisfies dp (at_loc X (loc dp)) = false) ->
  exists R' M',
    negatives_all dps X R M = Returned (R', M')
    /\ split_of X R' M' /\ included R R'
    /\ (forall dp, In dp dps -> is_negative dp = true ->
                   satisfies dp (at_loc R' (loc dp)) = false).
Proof.
  revert R M. induction dps as [|dp dps IH]; intros R M Hsp Hv Hneg.
  - exists R, M. simpl. split; [reflexivity|]. split; [assumption|].
    split; [apply included_refl | intros ? []].
  - inversion Hv as [|? ? Hd Hv']; subst.
    assert (Hneg' : forall d, In d dps -> is_negative d = true ->
                              satisfies d (at_loc X (loc d)) = false)
      by (intros d Hin; apply Hneg; now right).
    simpl. destruct Hsp as (LR & LM & Hk).
    replace (loc dp <? length R) with true
      by (symmetry; apply Nat.ltb_lt; lia).
    simpl.
    destruct (is_negative dp && satisfies dp (at_loc R (loc dp))) eqn:Hc.
    + apply andb_true_iff in Hc as [Hn Hs].
      rewrite (Hneg dp (or_introl eq_refl) Hn). simpl.
      destruct (add_all_spec X R M dp (conj LR (conj LM Hk)) Hd)
        as (Hsp1 & Hg1 & Hu1 & Hl1).
      destruct (add_all (R, M) dp) as [R1 M1]. simpl in *.
      specialize (Hu1 (Hneg dp (or_introl eq_refl) Hn)).
      specialize (Hl1 (Hneg dp (or_introl eq_refl) Hn) Hs).
      apply Nat.ltb_lt in Hl1. rewrite Hl1. simpl.
      destruct (IH R1 M1 Hsp1 Hv' Hneg') as (R' & M' & E & Hsp' & Hg' & Hu').
      exists R', M'. split; [exact E|]. split; [assumption|].
      split; [eapply included_trans; eassumption|].
      intros d [<-|Hin] Hdn; [|auto].
      eapply unsatisfied_grows; eassumption.
    + destruct (IH R M (conj LR (conj LM Hk)) Hv' Hneg')
        as (R' & M' & E & Hsp' & Hg' & Hu').
      exists R', M'. split; [exact E|]. split; [assumption|].
      split; [assumption|].
      intros d [<-|Hin] Hdn; [|auto].
      rewrite Hdn in Hc. simpl in Hc.
      eapply unsatisfied_grows; eassumption.
Qed.

Lemma forallb_false_exists {A : Type} (f : A -> bool) (l : list A) :
  forallb f l = false -> exists x, In x l /\ f x = false.
Proof.
  induction l as [|a l IH]; simpl; [discriminate|].
  destruct (f a) eqn:Ha; simpl.
  - intros H. destruct (IH H) as (x & Hx & Hf). exists x. auto.
  - intros _. exists a. auto.
Qed.

Lemma fold_add_all_spec (X : psets) (premises : list datapoint) (R M : psets) :
  split_of X R M ->
  Forall (fun p => loc p < length X) premises ->
  split_of X (fst (fold_left add_all premises (R, M)))
             (snd (fold_left add_all premises (R, M)))
  /\ included R (fst (fold_left add_all premises (R, M)))
  /\ (forall p, In p premises ->
                satisfies p (at_loc X (loc p)) = false ->
                satisfies p (at_loc (fst (fold_left add_all premises (R, M)))
                               (loc p)) = false).
Proof.
  revert R M. induction premises as [|p l IH]; intros R M Hsp Hv.
  - simpl. split; [assumption|]. split; [apply included_refl | intros ? []].
  - inversion Hv as [|? ? Hp Hv']; subst.
    change (fold_left add_all (p :: l) (R, M))
      with (fold_left add_all l (add_all (R, M) p)).
    destruct (add_all_spec X R M p Hsp Hp) as (Hsp1 & Hg1 & Hu1 & _).
    destruct (add_all (R, M) p) as [R1 M1]. simpl in Hsp1, Hg1, Hu1.
    destruct (IH R1 M1 Hsp1 Hv') as (Hsp2 & Hg2 & Hu2).
    split; [assumption|]. split; [eapply included_trans; eassumption|].
    intros q [<-|Hq] Hu; [|auto].
    eapply unsatisfied_grows; [exact Hg2 | auto].
Qed.

(** A constraint that [X] respects and [R], a part of [X], does not must
    have a premise that does not satisfy [X]. *)
Lemma active_has_failing_premise (X R : psets) (hc : horn_constraint) :
  included R X -> respects X hc ->
  conclusion_satisfied R (_conclusion hc) = false ->
  exists p, In p (_premises hc) /\ satisfies p (at_loc X (loc p)) = false.
Proof.
  intros Hinc Hres Hc.
  destruct (lhs_satisfied X (_premises hc)) eqn:Hl.
  - exfalso. rewrite lhs_satisfied_iff in Hl.
    destruct (Hres Hl) as (d & Hd & Hs).
    rewrite Hd in Hc. simpl in Hc.
    rewrite (satisfies_subset d _ _ (Hinc (loc d)) Hs) in Hc. discriminate.
  - apply forallb_false_exists in Hl. exact Hl.
Qed.

Lemma horn_walk_all_total (X : psets) (hcs : list horn_constraint) (R M : psets) :
  split_of X R M ->
  Forall (valid_horn (length X)) hcs ->
  (forall hc, In hc hcs -> respects X hc) ->
  exists R' M' live flag,
    horn_walk_all hcs R M = Returned (R', M', live, flag)
    /\ split_of X R' M' /\ included R R'
    /\ (forall hc, In hc live -> In hc hcs)
    /\ (forall hc, In hc hcs ->
                   In hc live \/ lhs_satisfied R' (_premises hc) = false)
    /\ (if flag
        then R' = R /\ M' = M /\ forall hc, In hc hcs -> horn_ok R hc = true
        else length live < length hcs)
    /\ length live <= length hcs.
Proof.
  revert R M. induction hcs as [|hc rest IH]; intros R M Hsp Hv Hres.
  - exists R, M, [], true. simpl. split; [reflexivity|].
    split; [assumption|]. split; [apply included_refl|].
    split; [auto|]. split; [intros ? []|]. split; [|lia].
    split; [reflexivity|]. split; [reflexivity | intros ? []].
  - inversion Hv as [|? ? [Hvp Hvc] Hv']; subst.
    assert (Hres' : forall h, In h rest -> respects X h)
      by (intros h Hh; apply Hres; now right).
    assert (LR : length R = length X) by apply Hsp.
    simpl. rewrite check_lhs_true by (now rewrite LR). simpl.
    destruct (lhs_satisfied R (_premises hc)) eqn:Hl; simpl.
    + destruct (conclusion_satisfied R (_conclusion hc)) eqn:Hc.
      * destruct (IH R M Hsp Hv' Hres')
          as (R' & M' & live & flag & E & Hsp' & Hg & Hsub & Hdead & Hflag & Hlen).
        rewrite E. simpl. exists R', M', (hc :: live), flag.
        split; [reflexivity|]. split; [assumption|]. split; [assumption|].
        split; [|split; [|split]].
        -- intros h [<-|Hh]; [now left | right; auto].
        -- intros h [<-|Hh]; [left; now left|].
           destruct (Hdead h Hh); [left; now right | now right].
        -- destruct flag.
           ++ destruct Hflag as (-> & -> & Hok). split; [reflexivity|].
              split; [reflexivity|]. intros h [<-|Hh]; [|auto].
              unfold horn_ok. now rewrite Hl, Hc.
           ++ simpl. lia.
        -- simpl. lia.
      * destruct (fold_add_all_spec X (_premises hc) R M Hsp Hvp)
          as (Hsp1 & Hg1 & Hu1).
        destruct (fold_left add_all (_premises hc) (R, M)) as [R1 M1].
        simpl in Hsp1, Hg1, Hu1.
        destruct (IH R1 M1 Hsp1 Hv' Hres')
          as (R' & M' & live & flag & E & Hsp' & Hg & Hsub & Hdead & Hflag & Hlen).
        rewrite E. simpl. exists R', M', live, false.
        split; [reflexivity|]. split; [assumption|].
        split; [eapply included_trans; eassumption|].
        split; [|split; [|split]].
        -- intros h Hh. right. auto.
        -- intros h [<-|Hh]; [|auto]. right.
           destruct (active_has_failing_premise X R hc (split_of_included _ _ _ Hsp)
                       (Hres hc (or_introl eq_refl)) Hc) as (p & Hp & Hu).
           apply (lhs_unsatisfied_grows R1 R' _ Hg).
           destruct (lhs_satisfied R1 (_premises hc)) eqn:Hl1; [|reflexivity].
           rewrite lhs_satisfied_iff in Hl1. specialize (Hu1 p Hp Hu).
           rewrite (Hl1 p Hp) in Hu1. discriminate.
        -- simpl. lia.
        -- simpl. lia.
    + destruct (IH R M Hsp Hv' Hres')
        as (R' & M' & live & flag & E & Hsp' & Hg & Hsub & Hdead & Hflag & Hlen).
      rewrite E. exists R', M', live, flag.
      split; [reflexivity|]. split; [assumption|]. split; [assumption|].
      split; [|split; [|split]].
      * intros h Hh. right. auto.
      * intros h [<-|Hh]; [|auto]. right.
        eapply lhs_unsatisfied_grows; eassumption.
      * destruct flag.
        -- destruct Hflag as (-> & -> & Hok). split; [reflexivity|].
           split; [reflexivity|]. intros h [<-|Hh]; [|auto].
           unfold horn_ok. now rewrite Hl.
        -- simpl. lia.
      * simpl. lia.
Qed.

Lemma horn_loop_all_total (X : psets) (fuel : nat) (pointers : list horn_constraint)
    (R M : psets) :
  split_of X R M ->
  Forall (valid_horn (length X)) pointers ->
  (forall hc, In hc pointers -> respects X hc) ->
  length pointers < fuel ->
  exists R',
    horn_loop_all fuel pointers R M = Returned R'
    /\ included R R' /\ included R' X
    /\ forall hc, In hc pointers -> horn_ok R' hc = true.
Proof.
  revert pointers R M.
  induction fuel as [|fuel IH]; intros pointers R M Hsp Hv Hres Hf; [lia|].
  destruct (horn_walk_all_total X pointers R M Hsp Hv Hres)
    as (R1 & M1 & live & flag & E & Hsp1 & Hg & Hsub & Hdead & Hflag & Hlen).
  simpl. rewrite E. simpl. destruct flag.
  - destruct Hflag as (-> & -> & Hok). exists R.
    split; [reflexivity|]. split; [apply included_refl|].
    split; [eapply split_of_included; eassumption | exact Hok].
  - destruct (IH live R1 M1 Hsp1) as (R' & E' & Hg' & Hinc' & Hok').
    + rewrite Forall_forall in *. auto.
    + auto.
    + lia.
    + exists R'. split; [exact E'|].
      split; [eapply included_trans; eassumption|]. split; [assumption|].
      intros hc Hin. destruct (Hdead hc Hin) as [Hl|Hl]; [auto|].
      unfold horn_ok. now rewrite (lhs_unsatisfied_grows R1 R' _ Hg' Hl).
Qed.

Lemma prepare_sets_split (X R : psets) :
  length X = length R -> Forall ordered X -> Forall ordered R ->
  split_of X (fst (prepare_sets X R (empty_sets (length X))))
             (snd (prepare_sets X R (empty_sets (length X)))).
Proof.
  intros Hlen HX HR.
  pose proof (prepare_sets_length X R (empty_sets (length X))) as [L1 L2].
  unfold empty_sets in L2 at 2. rewrite repeat_length in L2.
  split; [congruence|]. split; [assumption|].
  intros k.
  assert (HF := fun i => prepare_sets_fresh X R k i Hlen HX HR). simpl in HF.
  split; [apply (HF 0)|]. split; [apply (HF 0)|]. split.
  - intros i. destruct (HF i) as (H1 & H2 & _). rewrite H1, H2.
    destruct (in_dec Nat.eq_dec i (at_loc R k)); tauto.
  - intros i [H1 H2]. apply HF in H1. apply HF in H2. tauto.
Qed.

Lemma check_arguments_ok (X R : psets) :
  X <> [] -> length X = length R -> check_arguments X R = Returned tt.
Proof.
  intros Hne Hlen. unfold check_arguments. destruct X; [congruence|].
  apply Nat.eqb_eq in Hlen. now rewrite Hlen.
Qed.

(** The reducer all is total on the inputs of the pipeline: when [X] is
    consistent with the data points and the Horn constraints (as the output
    of Horndini is, once the driver has asserted it), no assertion fails,
    and the reducer returns a consistent part of [X]. *)
Theorem reduce_predicates_all_total (dps : list datapoint)
    (hcs : list horn_constraint) (X R : psets) :
  X <> [] -> length X = length R ->
  Forall ordered X -> Forall ordered R ->
  valid_locations (length X) dps hcs ->
  consistent X dps hcs ->
  exists R',
    reduce_predicates_all dps hcs X R = Returned R'
    /\ included R' X /\ consistent R' dps hcs.
Proof.
  intros Hne Hlen HX HR [Hvd Hvh] (Hpos & Hneg & Hhorn).
  unfold reduce_predicates_all.
  rewrite (check_arguments_ok X R Hne Hlen). cbn [bind].
  pose proof (prepare_sets_split X R Hlen HX HR) as Hsp.
  destruct (prepare_sets X R (empty_sets (length X))) as [R0 M0].
  simpl in Hsp.
  destruct (negatives_all_total dps X R0 M0 Hsp Hvd Hneg)
    as (R1 & M1 & E1 & Hsp1 & Hg1 & Hu1).
  rewrite E1. cbn [bind].
  destruct (horn_loop_all_total X (S (length hcs)) hcs R1 M1 Hsp1 Hvh Hhorn
              (Nat.lt_succ_diag_r _)) as (R2 & E2 & Hg2 & Hinc2 & Hok2).
  rewrite E2. cbn [bind].
  assert (Hcons : consistent R2 dps hcs).
  { split; [|split].
    - intros dp Hin Hp. eapply satisfies_subset; [apply Hinc2 | auto].
    - intros dp Hin Hn. eapply unsatisfied_grows; [exact Hg2 | auto].
    - intros hc Hin Hp. apply conclusion_satisfied_iff.
      apply (proj1 (horn_ok_iff R2 hc) (Hok2 hc Hin)).
      apply lhs_satisfied_iff, Hp. }
  rewrite (proj2 (is_consistent_iff R2 dps hcs) Hcons). simpl.
  exists R2. auto.
Qed.

(* ------------------------------------------------------------------ *)
(** ** The reducer first returns when [X] is consistent *)

Lemma update_same (id : nat) (v : psets) :
  update id (fun _ => at_loc v id) v = v.
Proof.
  unfold at_loc. revert id. induction v as [|c v IH]; intros [|id]; simpl; auto.
  now rewrite IH.
Qed.

Lemma move_first_zero_spec (dp : datapoint) (Mi Ri : pset) :
  ordered Mi ->
  let '(r, m, added) := move_first_zero dp Mi Ri in
  if added
  then exists i, In i Mi /\ bit dp i = 0%Z /\ r = insert i Ri
                 /\ ordered m /\ forall j, In j m <-> In j Mi /\ j <> i
  else r = Ri /\ m = Mi /\ forall i, In i Mi -> bit dp i <> 0%Z.
Proof.
  induction Mi as [|p Mi IH]; simpl; intros HM.
  - split; [reflexivity|]. split; [reflexivity | intros ? []].
  - destruct (ordered_cons_inv _ _ HM) as [HM' Hp].
    destruct (bit dp p =? 0)%Z eqn:Hb.
    + apply Z.eqb_eq in Hb. exists p. split; [now left|]. split; [assumption|].
      split; [reflexivity|]. split; [assumption|].
      intros j. split.
      * intros Hj. split; [now right|]. specialize (Hp j Hj). lia.
      * intros [[<-|Hj] Hne]; [congruence | assumption].
    + apply Z.eqb_neq in Hb. specialize (IH HM').
      destruct (move_first_zero dp Mi Ri) as [[r m] added]. destruct added.
      * destruct IH as (i & Hi & Hz & -> & Hom & Hm).
        exists i. split; [now right|]. split; [assumption|].
        split; [reflexivity|]. split.
        -- apply ordered_cons; [assumption|].
           intros j Hj. apply Hm in Hj. apply Hp, Hj.
        -- intros j. simpl. rewrite Hm. split.
           ++ intros [<-|[Hj Hne]]; [|tauto].
              split; [now left|]. intros ->. contradiction.
           ++ intros [[<-|Hj] Hne]; tauto.
      * destruct IH as (-> & -> & Hnz). split; [reflexivity|].
        split; [reflexivity|]. intros i [<-|Hi]; auto.
Qed.

Lemma add_first_spec (X R M : psets) (dp : datapoint) :
  split_of X R M -> loc dp < length X ->
  let '(R', M', added) := add_first (R, M) dp in
  split_of X R' M' /\ included R R'
  /\ if added
     then satisfies dp (at_loc R' (loc dp)) = false
          /\ length (at_loc R (loc dp)) < length (at_loc R' (loc dp))
     else R' = R /\ M' = M
          /\ forall i, In i (at_loc M (loc dp)) -> bit dp i <> 0%Z.
Proof.
  intros (LR & LM & Hk) Hloc.
  pose proof (add_first_grows R M dp) as Hg. unfold add_first in *.
  destruct (Hk (loc dp)) as (O1 & O2 & U & D).
  pose proof (move_first_zero_spec dp (at_loc M (loc dp)) (at_loc R (loc dp)) O2)
    as Hs.
  destruct (move_first_zero dp (at_loc M (loc dp)) (at_loc R (loc dp)))
    as [[r m] added].
  simpl in Hg. destruct added.
  - destruct Hs as (i & Hi & Hz & -> & Hom & Hm).
    assert (Er : at_loc (update (loc dp) (fun _ => insert i (at_loc R (loc dp))) R)
                   (loc dp) = insert i (at_loc R (loc dp)))
      by (apply (at_loc_update_same (loc dp)
                   (fun _ => insert i (at_loc R (loc dp)))); lia).
    split; [|split; [exact Hg|split]].
    + split; [now rewrite length_update|]. split; [now rewrite length_update|].
      intros k. destruct (Nat.eq_dec k (loc dp)) as [->|Hne].
      * rewrite Er.
        rewrite (at_loc_update_same (loc dp) (fun _ => m)) by lia.
        split; [now apply ordered_insert|]. split; [assumption|]. split.
        -- intros j. rewrite U, In_insert, Hm.
           destruct (Nat.eq_dec j i) as [->|Hji]; tauto.
        -- intros j. rewrite In_insert, Hm. specialize (D j).
           intros [[->|Hj] [Hj' Hne]]; tauto.
      * rewrite !at_loc_update_other by assumption. apply Hk.
    + rewrite Er. apply satisfies_false_iff. exists i.
      split; [apply In_insert; now left | assumption].
    + rewrite Er. rewrite length_insert_new; [lia|].
      intros Hr. apply (D i). auto.
  - destruct Hs as (-> & -> & Hnz). rewrite !update_same.
    split; [repeat split; auto; apply Hk|]. split; [apply included_refl|].
    auto.
Qed.

Lemma has_zero_in_rest (X R M : psets) (dp : datapoint) :
  split_of X R M ->
  satisfies dp (at_loc X (loc dp)) = false ->
  satisfies dp (at_loc R (loc dp)) = true ->
  exists i, In i (at_loc M (loc dp)) /\ bit dp i = 0%Z.
Proof.
  intros (_ & _ & Hk) Hu Hs.
  apply satisfies_false_iff in Hu as (i & Hi & Hz).
  exists i. split; [|assumption].
  apply (Hk (loc dp)) in Hi. destruct Hi as [Hi|Hi]; [|assumption].
  exfalso. apply (proj1 (satisfies_iff dp _) Hs i Hi Hz).
Qed.

Lemma negatives_first_total (dps : list datapoint) (X R M : psets) :
  split_of X R M ->
  Forall (fun dp => loc dp < length X) dps ->
  (forall dp, In dp dps -> is_negative dp = true ->
              satisfies dp (at_loc X (loc dp)) = false) ->
  exists R' M',
    negatives_first dps R M = Returned (R', M')
    /\ split_of X R' M' /\ included R R'
    /\ (forall dp, In dp dps -> is_negative dp = true ->
                   satisfies dp (at_loc R' (loc dp)) = false).
Proof.
  revert R M. induction dps as [|dp dps IH]; intros R M Hsp Hv Hneg.
  - exists R, M. simpl. split; [reflexivity|]. split; [assumption|].
    split; [apply included_refl | intros ? []].
  - inversion Hv as [|? ? Hd Hv']; subst.
    assert (Hneg' : forall d, In d dps -> is_negative d = true ->
                              satisfies d (at_loc X (loc d)) = false)
      by (intros d Hin; apply Hneg; now right).
    assert (LR : length R = length X) by apply Hsp.
    simpl.
    replace (loc dp <? length R) with true
      by (symmetry; apply Nat.ltb_lt; lia).
    simpl.
    destruct (is_negative dp && satisfies dp (at_loc R (loc dp))) eqn:Hc.
    + apply andb_true_iff in Hc as [Hn Hs].
      pose proof (add_first_spec X R M dp Hsp Hd) as Hspec.
      destruct (add_first (R, M) dp) as [[R1 M1] added].
      destruct Hspec as (Hsp1 & Hg1 & Hadd). destruct added.
      * destruct Hadd as [Hu1 Hl1].
        apply Nat.ltb_lt in Hl1. rewrite Hl1. simpl.
        destruct (IH R1 M1 Hsp1 Hv' Hneg') as (R' & M' & E & Hsp' & Hg' & Hu').
        exists R', M'. split; [exact E|]. split; [assumption|].
        split; [eapply included_trans; eassumption|].
        intros d [<-|Hin] Hdn; [|auto].
        eapply unsatisfied_grows; eassumption.
      * exfalso. destruct Hadd as (_ & _ & Hnz).
        destruct (has_zero_in_rest X R M dp Hsp
                    (Hneg dp (or_introl eq_refl) Hn) Hs) as (i & Hi & Hz).
        exact (Hnz i Hi Hz).
    + destruct (IH R M Hsp Hv' Hneg') as (R' & M' & E & Hsp' & Hg' & Hu').
      exists R', M'. split; [exact E|]. split; [assumption|].
      split; [assumption|].
      intros d [<-|Hin] Hdn; [|auto].
      rewrite Hdn in Hc. simpl in Hc.
      eapply unsatisfied_grows; eassumption.
Qed.

Lemma add_first_premise_spec (X : psets) (premises : list datapoint) (R M : psets) :
  split_of X R M ->
  Forall (fun p => loc p < length X) premises ->
  let '(R', M', added) := add_first_premise premises R M in
  split_of X R' M' /\ included R R'
  /\ ((exists p i, In p premises /\ In i (at_loc M (loc p)) /\ bit p i = 0%Z) ->
      added = true /\ lhs_satisfied R' premises = false).
Proof.
  induction premises as [|p l IH]; intros Hsp Hv.
  - simpl. split; [assumption|]. split; [apply included_refl|].
    intros (p & i & [] & _).
  - inversion Hv as [|? ? Hp Hv']; subst. simpl.
    pose proof (add_first_spec X R M p Hsp Hp) as Hspec.
    destruct (add_first (R, M) p) as [[R1 M1] added].
    destruct Hspec as (Hsp1 & Hg1 & Hadd). destruct added.
    + destruct Hadd as [Hu _]. split; [assumption|]. split; [assumption|].
      intros _. split; [reflexivity|]. simpl. now rewrite Hu.
    + destruct Hadd as (-> & -> & Hnz). specialize (IH Hsp Hv').
      destruct (add_first_premise l R M) as [[R2 M2] added2].
      destruct IH as (Hsp2 & Hg2 & Hex). split; [assumption|].
      split; [assumption|].
      intros (q & i & [<-|Hq] & Hi & Hz); [exfalso; exact (Hnz i Hi Hz)|].
      destruct (Hex (ex_intro _ q (ex_intro _ i (conj Hq (conj Hi Hz)))))
        as [-> Hl].
      split; [reflexivity|]. simpl. rewrite Hl. apply andb_false_r.
Qed.

Lemma horn_walk_first_total (X : psets) (hcs : list horn_constraint) (R M : psets) :
  split_of X R M ->
  Forall (valid_horn (length X)) hcs ->
  (forall hc, In hc hcs -> respects X hc) ->
  exists R' M' live flag,
    horn_walk_first hcs R M = Returned (R', M', live, flag)
    /\ split_of X R' M' /\ included R R'
    /\ (forall hc, In hc live -> In hc hcs)
    /\ (forall hc, In hc hcs ->
                   In hc live \/ lhs_satisfied R' (_premises hc) = false)
    /\ (if flag
        then R' = R /\ M' = M /\ forall hc, In hc hcs -> horn_ok R hc = true
        else length live < length hcs)
    /\ length live <= length hcs.
Proof.
  revert R M. induction hcs as [|hc rest IH]; intros R M Hsp Hv Hres.
  - exists R, M, [], true. simpl. split; [reflexivity|].
    split; [assumption|]. split; [apply included_refl|].
    split; [auto|]. split; [intros ? []|]. split; [|lia].
    split; [reflexivity|]. split; [reflexivity | intros ? []].
  - inversion Hv as [|? ? [Hvp Hvc] Hv']; subst.
    assert (Hres' : forall h, In h rest -> respects X h)
      by (intros h Hh; apply Hres; now right).
    assert (LR : length R = length X) by apply Hsp.
    simpl. rewrite check_lhs_true by (now rewrite LR). simpl.
    destruct (lhs_satisfied R (_premises hc)) eqn:Hl; simpl.
    + destruct (conclusion_satisfied R (_conclusion hc)) eqn:Hc.
      * destruct (IH R M Hsp Hv' Hres')
          as (R' & M' & live & flag & E & Hsp' & Hg & Hsub & Hdead & Hflag & Hlen).
        rewrite E. simpl. exists R', M', (hc :: live), flag.
        split; [reflexivity|]. split; [assumption|]. split; [assumption|].
        split; [|split; [|split]].
        -- intros h [<-|Hh]; [now left | right; auto].
        -- intros h [<-|Hh]; [left; now left|].
           destruct (Hdead h Hh); [left; now right | now right].
        -- destruct flag.
           ++ destruct Hflag as (-> & -> & Hok). split; [reflexivity|].
              split; [reflexivity|]. intros h [<-|Hh]; [|auto].
              unfold horn_ok. now rewrite Hl, Hc.
           ++ simpl. lia.
        -- simpl. lia.
      * pose proof (add_first_premise_spec X (_premises hc) R M Hsp Hvp) as Hspec.
        destruct (add_first_premise (_premises hc) R M) as [[R1 M1] added].
        destruct Hspec as (Hsp1 & Hg1 & Hex).
        destruct Hex as [-> Hl1].
        { destruct (active_has_failing_premise X R hc
                      (split_of_included _ _ _ Hsp)
                      (Hres hc (or_introl eq_refl)) Hc) as (p & Hp & Hu).
          rewrite lhs_satisfied_iff in Hl.
          destruct (has_zero_in_rest X R M p Hsp Hu (Hl p Hp)) as (i & Hi & Hz).
          exists p, i. auto. }
        simpl.
        destruct (IH R1 M1 Hsp1 Hv' Hres')
          as (R' & M' & live & flag & E & Hsp' & Hg & Hsub & Hdead & Hflag & Hlen).
        rewrite E. simpl. exists R', M', live, false.
        split; [reflexivity|]. split; [assumption|].
        split; [eapply included_trans; eassumption|].
        split; [|split; [|split]].
        -- intros h Hh. right. auto.
        -- intros h [<-|Hh]; [|auto]. right.
           eapply lhs_unsatisfied_grows; eassumption.
        -- simpl. lia.
        -- simpl. lia.
    + destruct (IH R M Hsp Hv' Hres')
        as (R' & M' & live & flag & E & Hsp' & Hg & Hsub & Hdead & Hflag & Hlen).
      rewrite E. exists R', M', live, flag.
      split; [reflexivity|]. split; [assumption|]. split; [assumption|].
      split; [|split; [|split]].
      * intros h Hh. right. auto.
      * intros h [<-|Hh]; [|auto]. right.
        eapply lhs_unsatisfied_grows; eassumption.
      * destruct flag.
        -- destruct Hflag as (-> & -> & Hok). split; [reflexivity|].
           split; [reflexivity|]. intros h [<-|Hh]; [|auto].
           unfold horn_ok. now rewrite Hl.
        -- simpl. lia.
      * simpl. lia.
Qed.

Lemma horn_loop_first_total (X : psets) (fuel : nat)
    (pointers : list horn_constraint) (R M : psets) :
  split_of X R M ->
  Forall (valid_horn (length X)) pointers ->
  (forall hc, In hc pointers -> respects X hc) ->
  length pointers < fuel ->
  exists R',
    horn_loop_first fuel pointers R M = Returned R'
    /\ included R R' /\ included R' X
    /\ forall hc, In hc pointers -> horn_ok R' hc = true.
Proof.
  revert pointers R M.
  induction fuel as [|fuel IH]; intros pointers R M Hsp Hv Hres Hf; [lia|].
  destruct (horn_walk_first_total X pointers R M Hsp Hv Hres)
    as (R1 & M1 & live & flag & E & Hsp1 & Hg & Hsub & Hdead & Hflag & Hlen).
  simpl. rewrite E. simpl. destruct flag.
  - destruct Hflag as (-> & -> & Hok). exists R.
    split; [reflexivity|]. split; [apply included_refl|].
    split; [eapply split_of_included; eassumption | exact Hok].
  - destruct (IH live R1 M1 Hsp1) as (R' & E' & Hg' & Hinc' & Hok').
    + rewrite Forall_forall in *. auto.
    + auto.
    + lia.
    + exists R'. split; [exact E'|].
      split; [eapply included_trans; eassumption|]. split; [assumption|].
      intros hc Hin. destruct (Hdead hc Hin) as [Hl|Hl]; [auto|].
      unfold horn_ok. now rewrite (lhs_unsatisfied_grows R1 R' _ Hg' Hl).
Qed.

(** The reducer first is total on the inputs of the pipeline as well. *)
Theorem reduce_predicates_first_total (dps : list datapoint)
    (hcs : list horn_constraint) (X R : psets) :
  X <> [] -> length X = length R ->
  Forall ordered X -> Forall ordered R ->
  valid_locations (length X) dps hcs ->
  consistent X dps hcs ->
  exists R',
    reduce_predicates_first dps hcs X R = Returned R'
    /\ included R' X /\ consistent R' dps hcs.
Proof.
  intros Hne Hlen HX HR [Hvd Hvh] (Hpos & Hneg & Hhorn).
  unfold reduce_predicates_first.
  rewrite (check_arguments_ok X R Hne Hlen). cbn [bind].
  pose proof (prepare_sets_split X R Hlen HX HR) as Hsp.
  destruct (prepare_sets X R (empty_sets (length X))) as [R0 M0].
  simpl in Hsp.
  destruct (negatives_first_total dps X R0 M0 Hsp Hvd Hneg)
    as (R1 & M1 & E1 & Hsp1 & Hg1 & Hu1).
  rewrite E1. cbn [bind].
  destruct (horn_loop_first_total X (S (length hcs)) hcs R1 M1 Hsp1 Hvh Hhorn
              (Nat.lt_succ_diag_r _)) as (R2 & E2 & Hg2 & Hinc2 & Hok2).
  rewrite E2. cbn [bind].
  assert (Hcons : consistent R2 dps hcs).
  { split; [|split].
    - intros dp Hin Hp. eapply satisfies_subset; [apply Hinc2 | auto].
    - intros dp Hin Hn. eapply unsatisfied_grows; [exact Hg2 | auto].
    - intros hc Hin Hp. apply conclusion_satisfied_iff.
      apply (proj1 (horn_ok_iff R2 hc) (Hok2 hc Hin)).
      apply lhs_satisfied_iff, Hp. }
  rewrite (proj2 (is_consistent_iff R2 dps hcs) Hcons). simpl.
  exists R2. auto.
Qed.

(* ------------------------------------------------------------------ *)
(** ** The post-condition of the reducers *)

Lemma reducers_checked (check : solver) (fuel : nat) (dps : list datapoint)
    (hcs : list horn_constraint) (X R0 R : psets) :
  reduce_predicates_all dps hcs X R0 = Returned R
  \/ reduce_predicates_first dps hcs X R0 = Returned R
  \/ reduce_predicates_greedy fuel dps hcs X R0 = Returned R
  \/ reduce_predicates_minimal check dps hcs X R0 = Returned R ->
  is_consistent R dps hcs = true.
Proof.
  intros [H|[H|[H|H]]].
  - unfold reduce_predicates_all in H. bind_inv H.
    destruct (prepare_sets X R0 (empty_sets (length X))) as [R1 M1].
    bind_inv H. destruct a0 as [R2 M2]. bind_inv H. assert_inv H.
    injection H as <-. exact E2.
  - unfold reduce_predicates_first in H. bind_inv H.
    destruct (prepare_sets X R0 (empty_sets (length X))) as [R1 M1].
    bind_inv H. destruct a0 as [R2 M2]. bind_inv H. assert_inv H.
    injection H as <-. exact E2.
  - unfold reduce_predicates_greedy in H. bind_inv H.
    destruct (prepare_sets X R0 (empty_sets (length X))) as [R1 M1].
    bind_inv H. bind_inv H. assert_inv H.
    injection H as <-. exact E2.
  - unfold reduce_predicates_minimal in H. bind_inv H.
    destruct (prepare_sets X R0 (empty_sets (length X))) as [R1 M1].
    destruct (make_variables 0 M1) as [attr2expr var_count].
    bind_inv H. bind_inv H. bind_inv H. assert_inv H.
    injection H as <-. exact E3.
Qed.


(* ------------------------------------------------------------------ *)
(** ** The fuel of the loops is enough *)

Lemma horndini_fuel (dps : list datapoint) (hcs : list horn_constraint)
    (intervals : list (nat * nat)) :
  horndini dps hcs intervals <> OutOfFuel.
Proof.
  unfold horndini, horndini_conjunctions.
  destruct intervals; [discriminate|]. apply horndini_loop_fuel. lia.
Qed.

Lemma check_lhs_fuel (R : psets) (premises : list datapoint) :
  check_lhs R premises <> OutOfFuel.
Proof.
  induction premises as [|p l IH]; simpl; [discriminate|].
  destruct (loc p <? length R); simpl; [|discriminate].
  destruct (satisfies p (at_loc R (loc p))); [exact IH | discriminate].
Qed.

Lemma horn_walk_all_shrinks (hcs : list horn_constraint) (R M : psets) :
  horn_walk_all hcs R M <> OutOfFuel
  /\ forall R' M' live flag,
      horn_walk_all hcs R M = Returned (R', M', live, flag) ->
      length live <= length hcs /\ (flag = false -> length live < length hcs).
Proof.
  revert R M. induction hcs as [|hc rest IH]; intros R M; simpl.
  - split; [discriminate|]. intros R' M' live flag [= <- <- <- <-].
    simpl. split; [lia | discriminate].
  - pose proof (check_lhs_fuel R (_premises hc)) as Hc.
    destruct (check_lhs R (_premises hc)) as [lhs| | | |]; simpl;
      try (split; [discriminate | intros; discriminate]); [|congruence].
    destruct (negb lhs).
    + destruct (IH R M) as [Hf Hs]. split; [assumption|].
      intros R' M' live flag E. destruct (Hs _ _ _ _ E) as [H1 H2].
      simpl. split; [lia|]. intros Hflag. specialize (H2 Hflag). lia.
    + destruct (conclusion_satisfied R (_conclusion hc)).
      * destruct (IH R M) as [Hf Hs].
        destruct (horn_walk_all rest R M) as [[[[R1 M1] l1] f1]| | | |]; simpl;
          try (split; [discriminate | intros; discriminate]); [|congruence].
        split; [discriminate|]. intros R' M' live flag [= <- <- <- <-].
        destruct (Hs _ _ _ _ eq_refl) as [H1 H2]. simpl. split; [lia|].
        intros Hflag. specialize (H2 Hflag). lia.
      * destruct (fold_left add_all (_premises hc) (R, M)) as [R1 M1].
        destruct (IH R1 M1) as [Hf Hs].
        destruct (horn_walk_all rest R1 M1) as [[[[R2 M2] l2] f2]| | | |]; simpl;
          try (split; [discriminate | intros; discriminate]); [|congruence].
        split; [discriminate|]. intros R' M' live flag [= <- <- <- <-].
        destruct (Hs _ _ _ _ eq_refl) as [H1 H2]. simpl. split; lia.
Qed.

Lemma horn_loop_all_fuel (fuel : nat) (pointers : list horn_constraint)
    (R M : psets) :
  length pointers < fuel -> horn_loop_all fuel pointers R M <> OutOfFuel.
Proof.
  revert pointers R M. induction fuel as [|fuel IH]; intros pointers R M Hf;
    [lia|].
  simpl. destruct (horn_walk_all_shrinks pointers R M) as [Hnf Hs].
  destruct (horn_walk_all pointers R M) as [[[[R1 M1] live] flag]| | | |]; simpl;
    try discriminate; [|congruence].
  destruct (Hs _ _ _ _ eq_refl) as [_ Hlt].
  destruct flag; [discriminate|]. apply IH. specialize (Hlt eq_refl). lia.
Qed.

Lemma horn_walk_first_shrinks (hcs : list horn_constraint) (R M : psets) :
  horn_walk_first hcs R M <> OutOfFuel
  /\ forall R' M' live flag,
      horn_walk_first hcs R M = Returned (R', M', live, flag) ->
      length live <= length hcs /\ (flag = false -> length live < length hcs).
Proof.
  revert R M. induction hcs as [|hc rest IH]; intros R M; simpl.
  - split; [discriminate|]. intros R' M' live flag [= <- <- <- <-].
    simpl. split; [lia | discriminate].
  - pose proof (check_lhs_fuel R (_premises hc)) as Hc.
    destruct (check_lhs R (_premises hc)) as [lhs| | | |]; simpl;
      try (split; [discriminate | intros; discriminate]); [|congruence].
    destruct (negb lhs).
    + destruct (IH R M) as [Hf Hs]. split; [assumption|].
      intros R' M' live flag E. destruct (Hs _ _ _ _ E) as [H1 H2].
      simpl. split; [lia|]. intros Hflag. specialize (H2 Hflag). lia.
    + destruct (conclusion_satisfied R (_conclusion hc)).
      * destruct (IH R M) as [Hf Hs].
        destruct (horn_walk_first rest R M) as [[[[R1 M1] l1] f1]| | | |]; simpl;
          try (split; [discriminate | intros; discriminate]); [|congruence].
        split; [discriminate|]. intros R' M' live flag [= <- <- <- <-].
        destruct (Hs _ _ _ _ eq_refl) as [H1 H2]. simpl. split; [lia|].
        intros Hflag. specialize (H2 Hflag). lia.
      * destruct (add_first_premise (_premises hc) R M) as [[R1 M1] added].
        destruct added; simpl;
          [|split; [discriminate | intros; discriminate]].
        destruct (IH R1 M1) as [Hf Hs].
        destruct (horn_walk_first rest R1 M1) as [[[[R2 M2] l2] f2]| | | |]; simpl;
          try (split; [discriminate | intros; discriminate]); [|congruence].
        split; [discriminate|]. intros R' M' live flag [= <- <- <- <-].
        destruct (Hs _ _ _ _ eq_refl) as [H1 H2]. simpl. split; lia.
Qed.

Lemma horn_loop_first_fuel (fuel : nat) (pointers : list horn_constraint)
    (R M : psets) :
  length pointers < fuel -> horn_loop_first fuel pointers R M <> OutOfFuel.
Proof.
  revert pointers R M. induction fuel as [|fuel IH]; intros pointers R M Hf;
    [lia|].
  simpl. destruct (horn_walk_first_shrinks pointers R M) as [Hnf Hs].
  destruct (horn_walk_first pointers R M) as [[[[R1 M1] live] flag]| | | |]; simpl;
    try discriminate; [|congruence].
  destruct (Hs _ _ _ _ eq_refl) as [_ Hlt].
  destruct flag; [discriminate|]. apply IH. specialize (Hlt eq_refl). lia.
Qed.

Lemma solve_fuel (fuel : nat) (check : solver) (k var_count : nat)
    (neg_expr horn_expr : expr) (attr2expr : list (list (nat * nat))) (R : psets) :
  var_count <= fuel + k ->
  solve (S fuel) check k var_count neg_expr horn_expr attr2expr R <> OutOfFuel.
Proof.
  revert k. induction fuel as [|fuel IH]; intros k Hf;
    cbn [solve]; destruct (check _); try discriminate.
  - replace (var_count <=? k) with true by (symmetry; apply Nat.leb_le; lia).
    discriminate.
  - destruct (var_count <=? k) eqn:Hk; [discriminate|].
    apply IH. lia.
Qed.

(* ------------------------------------------------------------------ *)
(** ** The inner loop of the greedy reducer uses up no fuel *)

Lemma keys_map_upd (p : nat) (f : entry -> entry) (m : pmap) :
  keys (map_upd p f m) = insert p (keys m).
Proof.
  induction m as [|[q e] m IH]; simpl; [reflexivity|].
  destruct (p <? q); [reflexivity|].
  destruct (q <? p); simpl; [now rewrite IH | reflexivity].
Qed.

Lemma keys_map_erase (p : nat) (m : pmap) :
  keys (map_erase p m) = erase p (keys m).
Proof.
  induction m as [|[q e] m IH]; simpl; [reflexivity|].
  destruct (p =? q); simpl; [reflexivity | now rewrite IH].
Qed.

Lemma map_at_keys (p : nat) (m : pmap) :
  map_at p m <> None <-> In p (keys m).
Proof.
  induction m as [|[q e] m IH]; simpl; [tauto|].
  destruct (p =? q) eqn:Hpq.
  - apply Nat.eqb_eq in Hpq. subst. split; [now left | discriminate].
  - apply Nat.eqb_neq in Hpq. rewrite IH. split; [tauto|].
    intros [Hq|Hin]; [congruence | assumption].
Qed.

Lemma insert_present (p : nat) (s : pset) :
  ordered s -> In p s -> insert p s = s.
Proof.
  induction s as [|q s IH]; simpl; intros Hs Hin; [contradiction|].
  destruct (ordered_cons_inv _ _ Hs) as [Hs' Hq].
  destruct (p <? q) eqn:Hpq.
  - apply Nat.ltb_lt in Hpq. destruct Hin as [->|Hin]; [lia|].
    specialize (Hq _ Hin). lia.
  - destruct (q <? p) eqn:Hqp; [|reflexivity].
    apply Nat.ltb_lt in Hqp. destruct Hin as [->|Hin]; [lia|].
    now rewrite IH.
Qed.

Lemma forget_zeros_keys (f : entry -> entry) (walked : nat -> entry -> bool)
    (dp : datapoint) (l : pset) (m m' : pmap) :
  keys_ordered m -> forget_zeros f walked dp l m = Returned m' -> keys m' = keys m.
Proof.
  revert m. induction l as [|p l IH]; simpl; intros m Hm H.
  - now injection H as <-.
  - destruct (bit dp p =? 0)%Z; [|now apply IH].
    destruct (map_at p m) as [e|] eqn:Hat; [|discriminate].
    destruct (walked p e); [discriminate|].
    assert (Hk : keys (map_upd p f m) = keys m).
    { rewrite keys_map_upd. apply insert_present; [exact Hm|].
      apply map_at_keys. congruence. }
    rewrite <- Hk. apply IH; [|exact H]. unfold keys_ordered. now rewrite Hk.
Qed.

Lemma forget_zeros_fuel (f : entry -> entry) (walked : nat -> entry -> bool)
    (dp : datapoint) (l : pset) (m : pmap) :
  forget_zeros f walked dp l m <> OutOfFuel.
Proof.
  revert m. induction l as [|p l IH]; simpl; intros m; [discriminate|].
  destruct (bit dp p =? 0)%Z; [|apply IH].
  destruct (map_at p m) as [e|]; [|discriminate].
  destruct (walked p e); [discriminate | apply IH].
Qed.

Lemma map_keys_update (id : nat) (m' : pmap) (ps : list pmap) :
  keys m' = keys (nth id ps []) ->
  map keys (update id (fun _ => m') ps) = map keys ps.
Proof.
  revert id. induction ps as [|m ps IH]; intros [|id] Hk; simpl in *; auto.
  - now rewrite Hk.
  - now rewrite IH.
Qed.

Lemma forget_keys (f : entry -> entry) (walked : nat -> nat -> entry -> bool)
    (X_minus_R : psets) (ps ps' : list pmap) (dp : datapoint) :
  Forall keys_ordered ps ->
  forget f walked X_minus_R ps dp = Returned ps' -> map keys ps' = map keys ps.
Proof.
  unfold forget. intros Hps H.
  destruct (nth_error ps (loc dp)) as [m|] eqn:Hm; [|discriminate].
  bind_inv H. injection H as <-.
  apply map_keys_update.
  rewrite (nth_error_nth _ _ _ Hm).
  eapply forget_zeros_keys; [|exact E].
  rewrite Forall_forall in Hps. eapply Hps, nth_error_In, Hm.
Qed.

Lemma forget_fuel (f : entry -> entry) (walked : nat -> nat -> entry -> bool)
    (X_minus_R : psets) (ps : list pmap) (dp : datapoint) :
  forget f walked X_minus_R ps dp <> OutOfFuel.
Proof.
  unfold forget. destruct (nth_error ps (loc dp)) as [m|]; [|discriminate].
  pose proof (forget_zeros_fuel f (walked (loc dp)) dp
                (at_loc X_minus_R (loc dp)) m) as Hf.
  destruct (forget_zeros f (walked (loc dp)) dp (at_loc X_minus_R (loc dp)) m);
    simpl; congruence.
Qed.

Lemma keys_ordered_same (ps ps' : list pmap) :
  map keys ps' = map keys ps -> Forall keys_ordered ps -> Forall keys_ordered ps'.
Proof.
  revert ps'. induction ps as [|m ps IH]; intros [|m' ps'] Hk Hps;
    try discriminate; [constructor|].
  injection Hk as Hm Hk. inversion Hps; subst.
  constructor; [unfold keys_ordered; now rewrite Hm | auto].
Qed.

(** A fold of steps that keep the keys keeps the keys and uses no fuel. *)
Lemma foldM_keys {B : Type} (f : list pmap -> B -> outcome (list pmap))
    (l : list B) (ps : list pmap) :
  (forall a b a', Forall keys_ordered a -> f a b = Returned a' ->
                  map keys a' = map keys a) ->
  (forall a b, f a b <> OutOfFuel) ->
  Forall keys_ordered ps ->
  foldM f l ps <> OutOfFuel
  /\ forall ps', foldM f l ps = Returned ps' -> map keys ps' = map keys ps.
Proof.
  intros Hk Hf. revert ps. induction l as [|b l IH]; simpl; intros ps Hps.
  - split; [discriminate|]. now intros ps' [= <-].
  - pose proof (Hf ps b) as Hfb. pose proof (Hk ps b) as Hkb.
    destruct (f ps b) as [a'| | | |]; simpl;
      try (split; [discriminate | intros; discriminate]); [|congruence].
    specialize (Hkb a' Hps eq_refl).
    destruct (IH a' (keys_ordered_same _ _ Hkb Hps)) as [H1 H2].
    split; [assumption|]. intros ps' E. rewrite (H2 ps' E). exact Hkb.
Qed.

Lemma entries_keys (ps ps' : list pmap) :
  map keys ps' = map keys ps -> entries ps' = entries ps.
Proof.
  revert ps'. induction ps as [|m ps IH]; intros [|m' ps'] Hk;
    try discriminate; [reflexivity|].
  injection Hk as Hm Hk. simpl. rewrite (IH ps' Hk).
  f_equal. unfold keys in Hm.
  rewrite <- (length_map fst m'), <- (length_map fst m). now rewrite Hm.
Qed.

Lemma entries_erase (id p : nat) (ps : list pmap) :
  In p (keys (nth id ps [])) ->
  S (entries (update id (map_erase p) ps)) = entries ps.
Proof.
  revert id. induction ps as [|m ps IH]; intros [|id] Hin; simpl in *;
    try contradiction.
  - assert (Hl : S (length (map_erase p m)) = length m).
    { rewrite <- (length_map fst (map_erase p m)), <- (length_map fst m).
      change (map fst (map_erase p m)) with (keys (map_erase p m)).
      rewrite keys_map_erase. apply length_erase, Hin. }
    lia.
  - specialize (IH id Hin). lia.
Qed.

Lemma keys_ordered_erase (id p : nat) (ps : list pmap) :
  Forall keys_ordered ps -> Forall keys_ordered (update id (map_erase p) ps).
Proof.
  revert id. induction ps as [|m ps IH]; intros [|id] Hps; simpl; auto;
    inversion Hps; subst; constructor; auto.
  unfold keys_ordered. rewrite keys_map_erase. now apply ordered_erase.
Qed.

(** With more fuel than entries the inner loop comes to its end, as the
    fuel that [greedy_loop] gives it is. *)
Theorem greedy_pick_fuel (fuel : nat) (dps : list datapoint)
    (hcs : list horn_constraint) (X_minus_R : psets) (predicates : list pmap)
    (new_relevant : list (nat * nat)) (done : bool) :
  Forall keys_ordered predicates -> entries predicates < fuel ->
  greedy_pick fuel dps hcs X_minus_R predicates new_relevant done <> OutOfFuel.
Proof.
  revert predicates new_relevant done.
  induction fuel as [|fuel IH]; intros predicates new_relevant done Hps Hf; [lia|].
  cbn [greedy_pick].
  destruct (find_best 0 predicates (0, 0, 0, false)) as [[[v best_id] best_p] found].
  destruct found; [|discriminate].
  destruct (map_at best_p (nth best_id predicates [])) as [[negs horns]|] eqn:Hat;
    [|discriminate].
  destruct (foldM_keys
              (fun ps n => forget (del_first_component n)
                             (stands fst best_id best_p n) X_minus_R ps
                             (nth n dps no_datapoint))
              negs predicates) as [F1 K1].
  { intros a b a' Ha E. eapply forget_keys; eassumption. }
  { intros a b. apply forget_fuel. }
  { exact Hps. }
  destruct (foldM _ negs predicates) as [ps1| | | |]; simpl;
    try discriminate; [|congruence].
  specialize (K1 ps1 eq_refl).
  pose proof (keys_ordered_same _ _ K1 Hps) as Hps1.
  destruct (foldM_keys
              (fun ps h => foldM (forget (del_second_component h)
                                    (stands snd best_id best_p h) X_minus_R)
                             (_premises (nth h hcs no_horn)) ps)
              horns ps1) as [F2 K2].
  { intros a b a' Ha E.
    refine (proj2 (foldM_keys (forget (del_second_component b)
                                 (stands snd best_id best_p b) X_minus_R)
                     (_premises (nth b hcs no_horn)) a _ _ Ha) a' E).
    - intros a0 b0 a0' Ha0 E0. eapply forget_keys; eassumption.
    - intros a0 b0. apply forget_fuel. }
  { intros a b.
    assert (G : forall l ps,
               foldM (forget (del_second_component b)
                        (stands snd best_id best_p b) X_minus_R) l ps <> OutOfFuel).
    { induction l as [|d l IHl]; simpl; intros ps; [discriminate|].
      pose proof (forget_fuel (del_second_component b)
                    (stands snd best_id best_p b) X_minus_R ps d) as Hd.
      destruct (forget (del_second_component b) (stands snd best_id best_p b)
                  X_minus_R ps d); simpl;
        try discriminate; [apply IHl | congruence]. }
    apply G. }
  { exact Hps1. }
  destruct (foldM _ horns ps1) as [ps2| | | |]; simpl;
    try discriminate; [|congruence].
  specialize (K2 ps2 eq_refl).
  pose proof (keys_ordered_same _ _ K2 Hps1) as Hps2.
  apply IH; [now apply keys_ordered_erase|].
  assert (Hin : In best_p (keys (nth best_id ps2 []))).
  { assert (Hk : keys (nth best_id ps2 []) = keys (nth best_id predicates [])).
    { change (@nil pset) with (keys []) in *.
      rewrite <- !(map_nth keys). simpl. now rewrite K2, K1. }
    rewrite Hk. apply map_at_keys. congruence. }
  pose proof (entries_erase best_id best_p ps2 Hin) as He.
  rewrite (entries_keys _ _ K2), (entries_keys _ _ K1) in He. lia.
Qed.

Lemma Forall_update {A : Type} (P : A -> Prop) (id : nat) (g : A -> A) (v : list A) :
  (forall a, P a -> P (g a)) -> Forall P v -> Forall P (update id g v).
Proof.
  intros Hg. revert id. induction v as [|a v IH]; intros [|id] Hv; simpl; auto;
    inversion Hv; subst; constructor; auto.
Qed.

Lemma record_keys_ordered (f : entry -> entry) (X_minus_R : psets)
    (ps : list pmap) (dp : datapoint) :
  Forall keys_ordered ps -> Forall keys_ordered (record f X_minus_R ps dp).
Proof.
  unfold record. apply Forall_update.
  induction (at_loc X_minus_R (loc dp)) as [|p l IH]; simpl; intros m Hm;
    [assumption|].
  apply IH. destruct (bit dp p =? 0)%Z; [|assumption].
  unfold keys_ordered. rewrite keys_map_upd. now apply ordered_insert.
Qed.

Lemma negatives_greedy_keys (n : nat) (dps : list datapoint) (R M : psets)
    (ps ps' : list pmap) :
  Forall keys_ordered ps ->
  negatives_greedy n dps R M ps = Returned ps' -> Forall keys_ordered ps'.
Proof.
  revert n ps. induction dps as [|dp dps IH]; simpl; intros n ps Hps H.
  - now injection H as <-.
  - assert_inv H.
    destruct (is_negative dp && satisfies dp (at_loc R (loc dp)));
      eapply IH; try exact H; [now apply record_keys_ordered | assumption].
Qed.

Lemma scan_horn_keys (h : nat) (hcs : list horn_constraint) (R M : psets)
    (ps : list pmap) (done : bool) (ps' : list pmap) (done' : bool) :
  Forall keys_ordered ps ->
  scan_horn h hcs R M ps done = Returned (ps', done') -> Forall keys_ordered ps'.
Proof.
  revert h ps done. induction hcs as [|hc hcs IH]; simpl; intros h ps done Hps H.
  - now injection H as <- _.
  - bind_inv H.
    destruct (a && negb (conclusion_satisfied R (_conclusion hc)));
      eapply IH; try exact H; [|assumption].
    clear H E. revert ps Hps.
    induction (_premises hc) as [|p l IHl]; simpl; intros ps Hps; [assumption|].
    apply IHl. now apply record_keys_ordered.
Qed.

(** The maps that the greedy reducer starts from are ordered, and so are
    those it scans into: its inner loop never lacks fuel. *)
Corollary greedy_inner_fuel (dps : list datapoint) (hcs : list horn_constraint)
    (R M : psets) (n : nat) (ps ps1 : list pmap) (done1 : bool) :
  negatives_greedy 0 dps R M (repeat [] n) = Returned ps ->
  scan_horn 0 hcs R M ps true = Returned (ps1, done1) ->
  greedy_pick (S (entries ps1)) dps hcs M ps1 [] done1 <> OutOfFuel.
Proof.
  intros Hn Hs. apply greedy_pick_fuel; [|lia].
  eapply scan_horn_keys; [|exact Hs].
  eapply negatives_greedy_keys; [|exact Hn].
  apply Forall_forall. intros m Hm. apply repeat_spec in Hm. subst.
  apply ordered_nil.
Qed.

(* ------------------------------------------------------------------ *)
(** ** The scenarios of the specification *)

Example prepare_sets_example :
  prepare_sets [[0; 1; 2; 3]; [4; 6]] [[1; 3; 9]; [5]] (empty_sets 2)
  = ([[1; 3]; []], [[0; 2]; [4; 6]]).
Proof. reflexivity. Qed.

Example horndini_S2 : horndini S2_data [] [(0, 3)] = Returned [[0; 1; 2; 3]].
Proof. reflexivity. Qed.

Example horndini_S3 :
  horndini S3_data S3_horn [(0, 3)] = Returned [[0]]
  /\ is_consistent [[0]] S3_data S3_horn = true.
Proof. split; reflexivity. Qed.

(** Scenario S2.  The reducers all, first and minimal add the predicate 2;
    the reducer greedy picks it too, and then erases the negative example
    from the set of that predicate while its range-[for] stands on it. *)
Example sorcar_S2 :
  reduce_predicates_all S2_data [] [[0; 1; 2; 3]] [[]] = Returned [[2]]
  /\ reduce_predicates_first S2_data [] [[0; 1; 2; 3]] [[]] = Returned [[2]]
  /\ reduce_predicates_greedy 2 S2_data [] [[0; 1; 2; 3]] [[]] = Undefined
  /\ reduce_predicates_minimal (fun _ => Some (fun n => n =? 2)) S2_data []
       [[0; 1; 2; 3]] [[]] = Returned [[2]].
Proof. repeat split; reflexivity. Qed.

(** A solver whose model does not falsify the negative example makes the
    reducer minimal fail its last assertion. *)
Example minimal_S2_wrong_model :
  reduce_predicates_minimal (fun _ => Some (fun n => n =? 1)) S2_data []
    [[0; 1; 2; 3]] [[]] = AssertFailed.
Proof. reflexivity. Qed.

(** The greedy reducer goes round for ever on a constraint that no
    predicate of [X] can fix: whatever the fuel, it is used up. *)
Example greedy_diverges (fuel : nat) :
  reduce_predicates_greedy fuel [] [mk_horn [] None] [[0]] [[]] = OutOfFuel.
Proof. induction fuel as [|fuel IH]; [reflexivity|]. exact IH. Qed.

Example to_json_example :
  to_json ["a"; "b"]%string (node 0 (leaf false) (leaf true))
  = json_node "a" "true"
      ("[" ++ json_node EmptyString "false" "null" ++ ","
           ++ json_node EmptyString "true" "null" ++ "]")%string.
Proof. reflexivity. Qed.

(* ================================================================== *)
(** * Further properties of the code *)

(* ------------------------------------------------------------------ *)
(** ** Horndini on valid data *)

Lemma loop_valid (n fuel : nat) (st : horndini_state) :
  valid_state n st -> length (snd (fst st)) < fuel ->
  (exists X, horndini_loop fuel st = Returned X)
  \/ horndini_loop fuel st = Thrown msg_inconsistent.
Proof.
  revert st. induction fuel as [|fuel IH]; intros [[positive live] c] Hv Hf;
    [simpl in Hf; lia|].
  destruct Hv as (Hp & Hl & Hc). simpl in Hf.
  assert (Hk : exists c', knock_out positive c = Returned c')
    by (apply knock_out_valid; now rewrite Hc).
  destruct Hk as (c' & Hk).
  pose proof (knock_out_spec _ _ _ Hk) as (Hlen & _).
  assert (Hl' : Forall (valid_horn (length c')) live) by (now rewrite Hlen, Hc).
  cbn [horndini_loop].
  destruct (fire_valid c' live Hl') as [(p & l & Hf')|Hf'].
  - assert (Hr : horndini_round (positive, live, c) = Returned (p, l, c'))
      by (unfold horndini_round; cbv beta iota; rewrite Hk; cbn [bind]; now rewrite Hf').
    rewrite Hr. cbn [bind].
    destruct p as [|d p]; [left; eauto|].
    apply IH.
    + apply (round_valid n (positive, live, c)); [now repeat split | exact Hr].
    + apply fire_returned in Hf' as (L & _). simpl in *. lia.
  - assert (Hr : horndini_round (positive, live, c) = Thrown msg_inconsistent)
      by (unfold horndini_round; cbv beta iota; rewrite Hk; cbn [bind]; now rewrite Hf').
    rewrite Hr. now right.
Qed.

Lemma horndini_valid (dps : list datapoint) (hcs : list horn_constraint)
    (intervals : list (nat * nat)) :
  valid_locations (length intervals) dps hcs -> intervals <> [] ->
  (exists X, horndini dps hcs intervals = Returned X)
  \/ horndini dps hcs intervals = Thrown msg_inconsistent.
Proof.
  intros [Hvd Hvh] Hne. unfold horndini, horndini_conjunctions.
  destruct intervals as [|iv ivs] eqn:E; [congruence|]. rewrite <- E in *.
  apply (loop_valid (length intervals)); [|simpl; lia].
  split; [|split; [assumption | apply length_map]].
  apply Forall_forall. intros dp Hdp. apply filter_In in Hdp as [Hdp _].
  rewrite Forall_forall in Hvd. auto.
Qed.

Lemma horndini_admissible (dps : list datapoint) (hcs : list horn_constraint)
    (intervals : list (nat * nat)) (X : psets) :
  horndini dps hcs intervals = Returned X ->
  within X intervals /\ admissible X dps hcs /\ length X = length intervals.
Proof.
  intros Hrun. apply horndini_returned in Hrun as [Hne Hloop].
  pose proof (loop_included _ _ _ Hloop) as [Hinc Hlen]. simpl in Hinc, Hlen.
  rewrite length_map in Hlen.
  destruct (loop_final _ _ _
              (fun dp => In dp dps /\ is_positive dp = true)
              (fun hc => In hc hcs) Hloop) as [Hpos Hhorn].
  { intros dp [Hin Hp]. left. simpl. apply filter_In. auto. }
  { intros hc Hin. left. exists hc. split; [assumption|].
    split; [reflexivity | apply incl_refl]. }
  split; [now apply within_included|]. split; [|assumption].
  split; [intros dp Hin Hp; apply Hpos; auto | exact Hhorn].
Qed.

Lemma horndini_admissible_not_thrown (dps : list datapoint)
    (hcs : list horn_constraint) (intervals : list (nat * nat)) (H : psets) :
  within H intervals -> admissible H dps hcs ->
  forall w, horndini dps hcs intervals = Thrown w -> w = msg_intervals_empty.
Proof.
  intros Hw [HP HH] w. unfold horndini, horndini_conjunctions.
  destruct intervals as [|iv ivs]; [now intros [= <-]|].
  intros Hthrow. exfalso.
  apply (proj1 (loop_model H (S (length hcs)) (filter is_positive dps) hcs
                  (map interval_set (iv :: ivs))
                  (proj1 (within_included H (iv :: ivs)) Hw)
                  (fun dp Hdp => HP dp (proj1 (proj1 (filter_In _ _ _) Hdp))
                                    (proj2 (proj1 (filter_In _ _ _) Hdp)))
                  HH) w Hthrow).
Qed.

(** X1.  On data whose locations are valid and with at least one interval,
    Horndini fails no assertion: it returns a vector of conjunctions or
    throws "No consistent conjunction exists". *)
Theorem horndini_total (dps : list datapoint) (hcs : list horn_constraint)
    (intervals : list (nat * nat)) :
  valid_locations (length intervals) dps hcs -> intervals <> [] ->
  (exists X, horndini dps hcs intervals = Returned X
             /\ length X = length intervals)
  \/ horndini dps hcs intervals = Thrown msg_inconsistent.
Proof.
  intros Hv Hne. destruct (horndini_valid dps hcs intervals Hv Hne) as [[X HX]|Ht];
    [left | now right].
  exists X. split; [assumption|]. now apply horndini_admissible in HX.
Qed.

Lemma horndini_total_witness :
  exists X, horndini S3_data S3_horn [(0, 3)] = Returned X
            /\ length X = length [(0, 3)].
Proof.
  assert (Hv : valid_locations (length [(0, 3)]) S3_data S3_horn).
  { split; [repeat constructor|]. constructor; [|constructor].
    split; [repeat constructor|]. intros d0 [= <-]. repeat constructor. }
  destruct (horndini_total S3_data S3_horn [(0, 3)] Hv ltac:(discriminate))
    as [HX|Ht]; [exact HX | discriminate Ht].
Defined.

(** X2.  On data whose locations are valid, Horndini throws "No consistent
    conjunction exists" exactly when no vector of conjunctions within the
    intervals is satisfied by every positive example and respects every
    Horn constraint. *)
Theorem horndini_throws_iff_unsolvable (dps : list datapoint)
    (hcs : list horn_constraint) (intervals : list (nat * nat)) :
  valid_locations (length intervals) dps hcs -> intervals <> [] ->
  (horndini dps hcs intervals = Thrown msg_inconsistent
   <-> ~ exists H, within H intervals /\ admissible H dps hcs).
Proof.
  intros Hv Hne. split.
  - intros Ht (H & Hw & Ha).
    pose proof (horndini_admissible_not_thrown dps hcs intervals H Hw Ha _ Ht).
    discriminate.
  - intros Hno. destruct (horndini_valid dps hcs intervals Hv Hne) as [[X HX]|Ht];
      [|assumption].
    exfalso. apply Hno. exists X. apply horndini_admissible in HX. tauto.
Qed.

Lemma horndini_throws_iff_unsolvable_witness :
  ~ exists H, within H [(0, 3)] /\ admissible H [S4_p] S4_horn.
Proof.
  assert (Hv : valid_locations (length [(0, 3)]) [S4_p] S4_horn).
  { split; repeat constructor. simpl. discriminate. }
  apply (proj1 (horndini_throws_iff_unsolvable [S4_p] S4_horn [(0, 3)] Hv
                  ltac:(discriminate))).
  reflexivity.
Defined.

(* ------------------------------------------------------------------ *)
(** ** What Horndini returns is a fixed point of its loop *)

Lemma filter_all {A : Type} (f : A -> bool) (l : list A) :
  (forall x, In x l -> f x = true) -> filter f l = l.
Proof.
  induction l as [|a l IH]; simpl; intros H; [reflexivity|].
  rewrite (H a (or_introl eq_refl)). f_equal. apply IH. auto.
Qed.

Lemma update_fix {A : Type} (id : nat) (f : A -> A) (v : list A) :
  (forall a, nth_error v id = Some a -> f a = a) -> update id f v = v.
Proof.
  revert id. induction v as [|a v IH]; intros [|id] H; simpl; auto.
  - now rewrite (H a eq_refl).
  - now rewrite IH.
Qed.

Lemma knock_out_satisfied (positive : list datapoint) (c : psets) :
  (forall dp, In dp positive ->
              loc dp < length c /\ satisfies dp (at_loc c (loc dp)) = true) ->
  knock_out positive c = Returned c.
Proof.
  induction positive as [|dp l IH]; simpl; intros H; [reflexivity|].
  destruct (H dp (or_introl eq_refl)) as [Hloc Hs].
  unfold knock_out_one. apply Nat.ltb_lt in Hloc as Hb. rewrite Hb. cbn [assert bind].
  rewrite update_fix; [apply IH; auto|].
  intros a Ha. apply filter_all. intros i Hi.
  apply negb_true_iff, Z.eqb_neq.
  apply (proj1 (satisfies_iff dp _) Hs i).
  unfold at_loc. now rewrite (nth_error_nth _ _ _ Ha).
Qed.

Lemma loop_fixed (fuel : nat) (positive : list datapoint)
    (live : list horn_constraint) (c : psets) :
  (forall dp, In dp positive ->
              loc dp < length c /\ satisfies dp (at_loc c (loc dp)) = true) ->
  Forall (valid_horn (length c)) live ->
  (forall hc, In hc live -> lhs_satisfied c (_premises hc) = true ->
              exists d, _conclusion hc = Some d
                        /\ satisfies d (at_loc c (loc d)) = true) ->
  length live < fuel ->
  horndini_loop fuel (positive, live, c) = Returned c.
Proof.
  revert positive live.
  induction fuel as [|fuel IH]; intros positive live Hp Hv Hh Hf; [lia|].
  pose proof (knock_out_satisfied positive c Hp) as Hk.
  assert (Hfire : exists p l, fire c live = Returned (p, l)).
  { destruct (fire_valid c live Hv) as [Hr|Ht]; [exact Hr|].
    exfalso. apply fire_thrown in Ht as (_ & hc & Hin & Hcl & Hl).
    destruct (Hh hc Hin Hl) as (d & Hd & _). congruence. }
  destruct Hfire as (p & l & Hfire).
  assert (Hr : horndini_round (positive, live, c) = Returned (p, l, c))
    by (unfold horndini_round; cbv beta iota; rewrite Hk; cbn [bind];
        now rewrite Hfire).
  cbn [horndini_loop]. rewrite Hr. cbn [bind].
  destruct p as [|d p]; [reflexivity|].
  pose proof (fire_returned _ _ _ _ Hfire) as (L & _ & B & P).
  rewrite Forall_forall in Hv.
  apply IH.
  - intros d' Hd'. destruct (P d' Hd') as (hc & Hin & Hcl & Hrem).
    split; [apply (Hv hc Hin), Hcl|].
    destruct (Hh hc Hin (proj1 (remaining_nil_iff _ _) Hrem)) as (d0 & Hd0 & Hs).
    congruence.
  - apply Forall_forall. intros hc' Hin'.
    destruct (B hc' Hin') as (hc & Hin & -> & _).
    destruct (Hv hc Hin) as [Hv1 Hv2]. split; simpl; [|exact Hv2].
    rewrite Forall_forall in *. intros q Hq. apply Hv1.
    eapply remaining_incl, Hq.
  - intros hc' Hin' Hl. exfalso.
    destruct (B hc' Hin') as (hc & Hin & -> & Hne). simpl in Hl.
    destruct (remaining c (_premises hc)) as [|q qs] eqn:Hrem; [congruence|].
    assert (Hq : In q (remaining c (_premises hc))) by (rewrite Hrem; now left).
    pose proof (remaining_unsatisfied _ _ _ Hq) as Hu.
    rewrite lhs_satisfied_iff in Hl.
    rewrite (Hl q (or_introl eq_refl)) in Hu. discriminate.
  - simpl in L. lia.
Qed.

(** X3.  What Horndini returns is a fixed point: the overload of [horndini]
    that works on given conjunctions, started on the result, knocks
    nothing out and returns the same conjunctions. *)
Theorem horndini_fixed_point (dps : list datapoint) (hcs : list horn_constraint)
    (intervals : list (nat * nat)) (X : psets) :
  valid_locations (length intervals) dps hcs ->
  horndini dps hcs intervals = Returned X ->
  horndini_conjunctions dps hcs X = Returned X.
Proof.
  intros [Hvd Hvh] Hrun.
  apply horndini_admissible in Hrun as (_ & [Hpos Hhorn] & Hlen).
  unfold horndini_conjunctions. apply loop_fixed.
  - intros dp Hdp. apply filter_In in Hdp as [Hin Hp]. split; [|auto].
    rewrite Hlen. rewrite Forall_forall in Hvd. auto.
  - now rewrite Hlen.
  - intros hc Hin Hl. apply (Hhorn hc Hin). now apply lhs_satisfied_iff.
  - lia.
Qed.

Lemma horndini_fixed_point_witness :
  horndini_conjunctions S3_data S3_horn [[0]] = Returned [[0]].
Proof.
  assert (Hv : valid_locations (length [(0, 3)]) S3_data S3_horn).
  { split; [repeat constructor|]. constructor; [|constructor].
    split; [repeat constructor|]. intros d0 [= <-]. repeat constructor. }
  exact (horndini_fixed_point S3_data S3_horn [(0, 3)] [[0]] Hv eq_refl).
Defined.

(* ------------------------------------------------------------------ *)
(** ** The reducers throw for bad arguments only *)

Lemma check_lhs_not_thrown (R : psets) (premises : list datapoint) (w : string) :
  check_lhs R premises <> Thrown w.
Proof.
  induction premises as [|p l IH]; simpl; [discriminate|].
  destruct (loc p <? length R); simpl; [|discriminate].
  destruct (satisfies p (at_loc R (loc p))); [exact IH | discriminate].
Qed.

Lemma negatives_all_not_thrown (dps : list datapoint) (X R M : psets) (w : string) :
  negatives_all dps X R M <> Thrown w.
Proof.
  revert R M. induction dps as [|dp dps IH]; simpl; intros R M; [discriminate|].
  destruct (loc dp <? length R); simpl; [|discriminate].
  destruct (is_negative dp && satisfies dp (at_loc R (loc dp))); [|apply IH].
  destruct (negb (satisfies dp (at_loc X (loc dp)))); simpl; [|discriminate].
  destruct (add_all (R, M) dp) as [R1 M1].
  destruct (length (at_loc R (loc dp)) <? length (at_loc R1 (loc dp))); simpl;
    [apply IH | discriminate].
Qed.

Lemma negatives_first_not_thrown (dps : list datapoint) (R M : psets) (w : string) :
  negatives_first dps R M <> Thrown w.
Proof.
  revert R M. induction dps as [|dp dps IH]; simpl; intros R M; [discriminate|].
  destruct (loc dp <? length R); simpl; [|discriminate].
  destruct (is_negative dp && satisfies dp (at_loc R (loc dp))); [|apply IH].
  destruct (add_first (R, M) dp) as [[R1 M1] added].
  destruct (length (at_loc R (loc dp)) <? length (at_loc R1 (loc dp))); simpl;
    [apply IH | discriminate].
Qed.

Lemma horn_walk_all_not_thrown (hcs : list horn_constraint) (R M : psets)
    (w : string) :
  horn_walk_all hcs R M <> Thrown w.
Proof.
  revert R M. induction hcs as [|hc rest IH]; simpl; intros R M; [discriminate|].
  pose proof (check_lhs_not_thrown R (_premises hc) w) as Hc.
  destruct (check_lhs R (_premises hc)) as [lhs|w'| | |]; simpl; try discriminate.
  - destruct (negb lhs); [apply IH|].
    destruct (conclusion_satisfied R (_conclusion hc)).
    + specialize (IH R M).
      destruct (horn_walk_all rest R M) as [[[[R1 M1] l1] f1]| | | |]; simpl;
        congruence.
    + destruct (fold_left add_all (_premises hc) (R, M)) as [R1 M1].
      specialize (IH R1 M1).
      destruct (horn_walk_all rest R1 M1) as [[[[R2 M2] l2] f2]| | | |]; simpl;
        congruence.
  - congruence.
Qed.

Lemma horn_walk_first_not_thrown (hcs : list horn_constraint) (R M : psets)
    (w : string) :
  horn_walk_first hcs R M <> Thrown w.
Proof.
  revert R M. induction hcs as [|hc rest IH]; simpl; intros R M; [discriminate|].
  pose proof (check_lhs_not_thrown R (_premises hc) w) as Hc.
  destruct (check_lhs R (_premises hc)) as [lhs|w'| | |]; simpl; try discriminate.
  - destruct (negb lhs); [apply IH|].
    destruct (conclusion_satisfied R (_conclusion hc)).
    + specialize (IH R M).
      destruct (horn_walk_first rest R M) as [[[[R1 M1] l1] f1]| | | |]; simpl;
        congruence.
    + destruct (add_first_premise (_premises hc) R M) as [[R1 M1] added].
      destruct added; simpl; [|discriminate].
      specialize (IH R1 M1).
      destruct (horn_walk_first rest R1 M1) as [[[[R2 M2] l2] f2]| | | |]; simpl;
        congruence.
  - congruence.
Qed.

Lemma horn_loop_all_not_thrown (fuel : nat) (hcs : list horn_constraint)
    (R M : psets) (w : string) :
  horn_loop_all fuel hcs R M <> Thrown w.
Proof.
  revert hcs R M. induction fuel as [|fuel IH]; simpl; intros hcs R M;
    [discriminate|].
  pose proof (horn_walk_all_not_thrown hcs R M w) as Hw.
  destruct (horn_walk_all hcs R M) as [[[[R1 M1] live] flag]| | | |]; simpl;
    try discriminate; [|congruence].
  destruct flag; [discriminate | apply IH].
Qed.

Lemma horn_loop_first_not_thrown (fuel : nat) (hcs : list horn_constraint)
    (R M : psets) (w : string) :
  horn_loop_first fuel hcs R M <> Thrown w.
Proof.
  revert hcs R M. induction fuel as [|fuel IH]; simpl; intros hcs R M;
    [discriminate|].
  pose proof (horn_walk_first_not_thrown hcs R M w) as Hw.
  destruct (horn_walk_first hcs R M) as [[[[R1 M1] live] flag]| | | |]; simpl;
    try discriminate; [|congruence].
  destruct flag; [discriminate | apply IH].
Qed.

Lemma check_arguments_cases (X R : psets) :
  (X = [] /\ check_arguments X R = Thrown msg_X_empty)
  \/ (X <> [] /\ length X <> length R /\ check_arguments X R = Thrown msg_sizes)
  \/ (X <> [] /\ length X = length R /\ check_arguments X R = Returned tt).
Proof.
  unfold check_arguments. destruct X as [|Xi X]; [left; auto|]. right.
  destruct (length (Xi :: X) =? length R) eqn:E.
  - right. apply Nat.eqb_eq in E. split; [discriminate | auto].
  - left. apply Nat.eqb_neq in E. split; [discriminate | auto].
Qed.

(** X4.  The four reducers throw "X must not be empty" for an empty [X] and
    "R and X must be of same size" for an [R] of another length than [X],
    before they look at the data; the reducers all and first throw in no
    other case. *)
Theorem reducers_argument_errors (check : solver) (fuel : nat)
    (dps : list datapoint) (hcs : list horn_constraint) (X R : psets) :
  (X = [] ->
   reduce_predicates_all dps hcs X R = Thrown msg_X_empty
   /\ reduce_predicates_first dps hcs X R = Thrown msg_X_empty
   /\ reduce_predicates_greedy fuel dps hcs X R = Thrown msg_X_empty
   /\ reduce_predicates_minimal check dps hcs X R = Thrown msg_X_empty)
  /\ (X <> [] -> length X <> length R ->
      reduce_predicates_all dps hcs X R = Thrown msg_sizes
      /\ reduce_predicates_first dps hcs X R = Thrown msg_sizes
      /\ reduce_predicates_greedy fuel dps hcs X R = Thrown msg_sizes
      /\ reduce_predicates_minimal check dps hcs X R = Thrown msg_sizes)
  /\ (forall w,
        reduce_predicates_all dps hcs X R = Thrown w
        \/ reduce_predicates_first dps hcs X R = Thrown w ->
        X = [] \/ length X <> length R).
Proof.
  unfold reduce_predicates_all, reduce_predicates_first,
    reduce_predicates_greedy, reduce_predicates_minimal.
  destruct (check_arguments_cases X R) as [[HX E]|[(HX & HL & E)|(HX & HL & E)]];
    rewrite E; cbn [bind].
  - split; [auto|]. split; [congruence | auto].
  - split; [congruence|]. split; [auto | auto].
  - split; [congruence|]. split; [congruence|].
    intros w Hw. exfalso.
    destruct (prepare_sets X R (empty_sets (length X))) as [R0 M0].
    destruct Hw as [Hw|Hw].
    + pose proof (negatives_all_not_thrown dps X R0 M0 w) as H1.
      destruct (negatives_all dps X R0 M0) as [[R1 M1]| | | |]; cbn [bind] in Hw;
        try discriminate; [|congruence].
      pose proof (horn_loop_all_not_thrown (S (length hcs)) hcs R1 M1 w) as H2.
      destruct (horn_loop_all (S (length hcs)) hcs R1 M1) as [R2| | | |];
        cbn [bind] in Hw; try discriminate; [|congruence].
      destruct (is_consistent R2 dps hcs); discriminate.
    + pose proof (negatives_first_not_thrown dps R0 M0 w) as H1.
      destruct (negatives_first dps R0 M0) as [[R1 M1]| | | |]; cbn [bind] in Hw;
        try discriminate; [|congruence].
      pose proof (horn_loop_first_not_thrown (S (length hcs)) hcs R1 M1 w) as H2.
      destruct (horn_loop_first (S (length hcs)) hcs R1 M1) as [R2| | | |];
        cbn [bind] in Hw; try discriminate; [|congruence].
      destruct (is_consistent R2 dps hcs); discriminate.
Qed.

Lemma reducers_argument_errors_witness :
  reduce_predicates_all S2_data [] [[0; 1; 2; 3]] [[]; []] = Thrown msg_sizes
  /\ reduce_predicates_minimal (fun _ => None) S2_data [] [] [] = Thrown msg_X_empty.
Proof.
  pose proof (reducers_argument_errors (fun _ => None) 0 S2_data []
                [[0; 1; 2; 3]] [[]; []]) as (_ & H2 & _).
  pose proof (reducers_argument_errors (fun _ => None) 0 S2_data []
                [] []) as (H1 & _ & _).
  split.
  - apply H2; simpl; [discriminate | lia].
  - apply H1. reflexivity.
Defined.

(* ------------------------------------------------------------------ *)
(** ** What a reducer returns lies within [X] *)

Lemma prepare_walk_within (Ri Xi Mi : pset) (y : nat) :
  (In y (fst (prepare_walk Ri Xi Mi)) -> In y Xi)
  /\ (In y (snd (prepare_walk Ri Xi Mi)) -> In y Mi \/ In y Xi).
Proof.
  revert Xi Mi. induction Ri as [|r Ri IHR]; intros Xi.
  - intros Mi. rewrite prepare_walk_nil. simpl. split; [tauto|].
    rewrite In_fold_insert. tauto.
  - induction Xi as [|x Xi IHX]; intros Mi.
    + rewrite prepare_walk_cons_nil. simpl. tauto.
    + rewrite prepare_walk_cons_cons. destruct (r <? x) eqn:Hrx.
      * apply IHR.
      * apply Nat.ltb_ge in Hrx. destruct (x <? r) eqn:Hxr.
        -- specialize (IHX (insert x Mi)). rewrite In_insert in IHX.
           destruct IHX as [I1 I2]. split; intros Hy.
           ++ right. now apply I1.
           ++ destruct (I2 Hy) as [[->|Hm]|Hx]; [right; now left|now left|].
              right. now right.
        -- apply Nat.ltb_ge in Hxr. assert (r = x) by lia. subst x.
           specialize (IHR Xi Mi).
           destruct (prepare_walk Ri Xi Mi) as [R' M']. simpl in *. tauto.
Qed.

Lemma prepare_sets_within (X R M : psets) :
  length X = length R -> length M = length X -> included M X ->
  included (fst (prepare_sets X R M)) X
  /\ included (snd (prepare_sets X R M)) X.
Proof.
  revert R M. induction X as [|Xi X IH]; intros R M HR HM HMX.
  - destruct R; [|discriminate]. simpl. split; [|assumption].
    intros k i Hi. unfold at_loc in Hi. now destruct k.
  - destruct R as [|Ri R]; [discriminate|].
    destruct M as [|Mi M]; [discriminate|].
    change (prepare_sets (Xi :: X) (Ri :: R) (Mi :: M))
      with (let (Ri', Mi') := prepare_walk Ri Xi Mi in
            let (R'', M'') := prepare_sets X R M in
            (Ri' :: R'', Mi' :: M'')).
    pose proof (prepare_walk_within Ri Xi Mi) as Hw.
    destruct (prepare_walk Ri Xi Mi) as [Ri' Mi'].
    destruct (IH R M) as [H1 H2].
    { simpl in HR. lia. }
    { simpl in HM. lia. }
    { intros k i Hi. apply (HMX (S k) i Hi). }
    destruct (prepare_sets X R M) as [R' M']. simpl in *.
    split; intros [|k] i Hi; unfold at_loc in *; simpl in *.
    + now apply (Hw i).
    + apply (H1 k i Hi).
    + destruct (proj2 (Hw i) Hi) as [Hm|Hx]; [|assumption].
      apply (HMX 0 i Hm).
    + apply (H2 k i Hi).
Qed.

Lemma prepared_within (X R : psets) :
  length X = length R ->
  included (fst (prepare_sets X R (empty_sets (length X)))) X
  /\ included (snd (prepare_sets X R (empty_sets (length X)))) X.
Proof.
  intros HL. apply prepare_sets_within; [assumption| |].
  - unfold empty_sets. apply repeat_length.
  - intros k i Hi. rewrite at_loc_empty_sets in Hi. destruct Hi.
Qed.

Lemma included_into_update (R X : psets) (id : nat) (r : pset) :
  included R X -> (forall i, In i r -> In i (at_loc X id)) ->
  included (update id (fun _ => r) R) X.
Proof.
  intros HR Hr k i Hi. unfold at_loc in Hi. rewrite nth_update in Hi.
  destruct (k =? id) eqn:Hk; simpl in Hi; [|now apply HR].
  apply Nat.eqb_eq in Hk. subst k.
  destruct (id <? length R); [now apply Hr | now apply HR].
Qed.

Lemma add_all_within (X R M : psets) (dp : datapoint) :
  included R X -> included M X ->
  included (fst (add_all (R, M) dp)) X /\ included (snd (add_all (R, M) dp)) X.
Proof.
  intros HR HM. unfold add_all.
  destruct (move_zeros_spec dp (at_loc M (loc dp)) (at_loc R (loc dp)))
    as (H1 & H2 & _).
  destruct (move_zeros dp (at_loc M (loc dp)) (at_loc R (loc dp))) as [r m].
  simpl in *. split; apply included_into_update; try assumption.
  - intros i Hi. apply H1 in Hi as [Hi|[Hi _]]; [now apply HR | now apply HM].
  - intros i Hi. subst m. apply filter_In in Hi as [Hi _]. now apply HM.
Qed.

Lemma fold_add_all_within (X : psets) (premises : list datapoint) (R M : psets) :
  included R X -> included M X ->
  included (fst (fold_left add_all premises (R, M))) X
  /\ included (snd (fold_left add_all premises (R, M))) X.
Proof.
  revert R M. induction premises as [|p l IH]; simpl; intros R M HR HM;
    [now split|].
  destruct (add_all_within X R M p HR HM) as [H1 H2].
  destruct (add_all (R, M) p) as [R1 M1]. now apply IH.
Qed.

Lemma negatives_all_within (dps : list datapoint) (X0 X R M R' M' : psets) :
  included R X -> included M X ->
  negatives_all dps X0 R M = Returned (R', M') ->
  included R' X /\ included M' X.
Proof.
  revert R M. induction dps as [|dp dps IH]; simpl; intros R M HR HM H.
  - injection H as <- <-. now split.
  - assert_inv H.
    destruct (is_negative dp && satisfies dp (at_loc R (loc dp)));
      [|now apply (IH R M)].
    assert_inv H.
    destruct (add_all_within X R M dp HR HM) as [H1 H2].
    destruct (add_all (R, M) dp) as [R1 M1]. assert_inv H.
    now apply (IH R1 M1).
Qed.

Lemma horn_walk_all_within (hcs : list horn_constraint) (X R M R' M' : psets)
    (live : list horn_constraint) (flag : bool) :
  included R X -> included M X ->
  horn_walk_all hcs R M = Returned (R', M', live, flag) ->
  included R' X /\ included M' X.
Proof.
  revert R M live flag.
  induction hcs as [|hc rest IH]; simpl; intros R M live flag HR HM H.
  - injection H as <- <- _ _. now split.
  - bind_inv H. destruct (negb a); [now apply (IH R M live flag)|].
    destruct (conclusion_satisfied R (_conclusion hc)).
    + bind_inv H. destruct a0 as [[[R1 M1] l1] f1]. injection H as <- <- _ _.
      now apply (IH R M l1 f1).
    + destruct (fold_add_all_within X (_premises hc) R M HR HM) as [H1 H2].
      destruct (fold_left add_all (_premises hc) (R, M)) as [R1 M1].
      bind_inv H. destruct a0 as [[[R2 M2] l2] f2]. injection H as <- <- _ _.
      now apply (IH R1 M1 l2 f2).
Qed.

Lemma horn_loop_all_within (fuel : nat) (hcs : list horn_constraint)
    (X R M R' : psets) :
  included R X -> included M X ->
  horn_loop_all fuel hcs R M = Returned R' -> included R' X.
Proof.
  revert hcs R M. induction fuel as [|fuel IH]; simpl; intros hcs R M HR HM H;
    [discriminate|].
  bind_inv H. destruct a as [[[R1 M1] live] flag].
  destruct (horn_walk_all_within hcs X R M R1 M1 live flag HR HM E) as [H1 H2].
  destruct flag; [injection H as <-; assumption | now apply (IH live R1 M1)].
Qed.

Lemma move_first_zero_within (dp : datapoint) (Mi Ri : pset) (i : nat) :
  (In i (fst (fst (move_first_zero dp Mi Ri))) -> In i Ri \/ In i Mi)
  /\ (In i (snd (fst (move_first_zero dp Mi Ri))) -> In i Mi).
Proof.
  induction Mi as [|p Mi IH]; simpl; [tauto|].
  destruct (bit dp p =? 0)%Z; simpl.
  - rewrite In_insert. split; [|tauto].
    intros [->|Hi]; [right; now left | now left].
  - destruct (move_first_zero dp Mi Ri) as [[r m] added]. simpl in *. tauto.
Qed.

Lemma add_first_within (X R M : psets) (dp : datapoint) :
  included R X -> included M X ->
  included (fst (fst (add_first (R, M) dp))) X
  /\ included (snd (fst (add_first (R, M) dp))) X.
Proof.
  intros HR HM. unfold add_first.
  pose proof (move_first_zero_within dp (at_loc M (loc dp)) (at_loc R (loc dp)))
    as Hm.
  destruct (move_first_zero dp (at_loc M (loc dp)) (at_loc R (loc dp)))
    as [[r m] added].
  simpl in *. split; apply included_into_update; try assumption.
  - intros i Hi. apply Hm in Hi as [Hi|Hi]; [now apply HR | now apply HM].
  - intros i Hi. apply Hm in Hi. now apply HM.
Qed.

Lemma add_first_premise_within (X : psets) (premises : list datapoint)
    (R M : psets) :
  included R X -> included M X ->
  included (fst (fst (add_first_premise premises R M))) X
  /\ included (snd (fst (add_first_premise premises R M))) X.
Proof.
  revert R M. induction premises as [|p l IH]; simpl; intros R M HR HM;
    [now split|].
  destruct (add_first_within X R M p HR HM) as [H1 H2].
  destruct (add_first (R, M) p) as [[R1 M1] added]. simpl in *.
  destruct added; [now split | now apply IH].
Qed.

Lemma negatives_first_within (dps : list datapoint) (X R M R' M' : psets) :
  included R X -> included M X ->
  negatives_first dps R M = Returned (R', M') ->
  included R' X /\ included M' X.
Proof.
  revert R M. induction dps as [|dp dps IH]; simpl; intros R M HR HM H.
  - injection H as <- <-. now split.
  - assert_inv H.
    destruct (is_negative dp && satisfies dp (at_loc R (loc dp)));
      [|now apply (IH R M)].
    destruct (add_first_within X R M dp HR HM) as [H1 H2].
    destruct (add_first (R, M) dp) as [[R1 M1] added]. assert_inv H.
    now apply (IH R1 M1).
Qed.

Lemma horn_walk_first_within (hcs : list horn_constraint) (X R M R' M' : psets)
    (live : list horn_constraint) (flag : bool) :
  included R X -> included M X ->
  horn_walk_first hcs R M = Returned (R', M', live, flag) ->
  included R' X /\ included M' X.
Proof.
  revert R M live flag.
  induction hcs as [|hc rest IH]; simpl; intros R M live flag HR HM H.
  - injection H as <- <- _ _. now split.
  - bind_inv H. destruct (negb a); [now apply (IH R M live flag)|].
    destruct (conclusion_satisfied R (_conclusion hc)).
    + bind_inv H. destruct a0 as [[[R1 M1] l1] f1]. injection H as <- <- _ _.
      now apply (IH R M l1 f1).
    + destruct (add_first_premise_within X (_premises hc) R M HR HM) as [H1 H2].
      destruct (add_first_premise (_premises hc) R M) as [[R1 M1] added].
      assert_inv H.
      bind_inv H. destruct a0 as [[[R2 M2] l2] f2]. injection H as <- <- _ _.
      now apply (IH R1 M1 l2 f2).
Qed.

Lemma horn_loop_first_within (fuel : nat) (hcs : list horn_constraint)
    (X R M R' : psets) :
  included R X -> included M X ->
  horn_loop_first fuel hcs R M = Returned R' -> included R' X.
Proof.
  revert hcs R M. induction fuel as [|fuel IH]; simpl; intros hcs R M HR HM H;
    [discriminate|].
  bind_inv H. destruct a as [[[R1 M1] live] flag].
  destruct (horn_walk_first_within hcs X R M R1 M1 live flag HR HM E) as [H1 H2].
  destruct flag; [injection H as <-; assumption | now apply (IH live R1 M1)].
Qed.

Lemma reduce_all_within (dps : list datapoint) (hcs : list horn_constraint)
    (X R R' : psets) :
  reduce_predicates_all dps hcs X R = Returned R' -> included R' X.
Proof.
  unfold reduce_predicates_all. intros H. bind_inv H.
  apply check_arguments_returned in E as [_ Hlen].
  destruct (prepared_within X R Hlen) as [H1 H2].
  destruct (prepare_sets X R (empty_sets (length X))) as [R0 M0]. simpl in *.
  bind_inv H. destruct a0 as [R1 M1].
  destruct (negatives_all_within dps X X R0 M0 R1 M1 H1 H2 E) as [H3 H4].
  bind_inv H. assert_inv H. injection H as <-.
  now apply (horn_loop_all_within (S (length hcs)) hcs X R1 M1).
Qed.

Lemma reduce_first_within (dps : list datapoint) (hcs : list horn_constraint)
    (X R R' : psets) :
  reduce_predicates_first dps hcs X R = Returned R' -> included R' X.
Proof.
  unfold reduce_predicates_first. intros H. bind_inv H.
  apply check_arguments_returned in E as [_ Hlen].
  destruct (prepared_within X R Hlen) as [H1 H2].
  destruct (prepare_sets X R (empty_sets (length X))) as [R0 M0]. simpl in *.
  bind_inv H. destruct a0 as [R1 M1].
  destruct (negatives_first_within dps X R0 M0 R1 M1 H1 H2 E) as [H3 H4].
  bind_inv H. assert_inv H. injection H as <-.
  now apply (horn_loop_first_within (S (length hcs)) hcs X R1 M1).
Qed.

(* ------------------------------------------------------------------ *)
(** ** [reduce_predicates_minimal] stays within [X] *)

Lemma make_variables_keys (X_minus_R : psets) (var_count k p v : nat) :
  In (p, v) (nth k (fst (make_variables var_count X_minus_R)) []) ->
  In p (at_loc X_minus_R k).
Proof.
  revert var_count k.
  induction X_minus_R as [|s rest IH]; simpl; intros n k H.
  - destruct k; destruct H.
  - specialize (IH (n + length s)).
    destruct (make_variables (n + length s) rest) as [ms n']. simpl in *.
    destruct k as [|k]; unfold at_loc; simpl.
    + now apply in_combine_l in H.
    + now apply IH.
Qed.

Lemma fold_model_within (model : nat -> bool) (m : list (nat * nat)) (r : pset)
    (i : nat) :
  In i (fold_left (fun r pair => if model (snd pair : nat)
                                 then insert (fst pair) r else r) m r) ->
  In i r \/ exists v, In (i, v) m.
Proof.
  revert r. induction m as [|[p v] m IH]; simpl; intros r H; [now left|].
  apply IH in H as [H|[v' H]]; [|right; eauto].
  destruct (model v); [|now left].
  apply In_insert in H as [->|H]; [right; eauto | now left].
Qed.

Lemma add_model_within (model : nat -> bool) (attr2expr : list (list (nat * nat)))
    (X R : psets) (j : nat) :
  (forall k p v, In (p, v) (nth k attr2expr []) -> In p (at_loc X (j + k))) ->
  included R X ->
  included (fst (fold_left
                   (fun (st : psets * nat) m =>
                      (update (snd st)
                         (fun r => fold_left (fun r pair => if model (snd pair : nat)
                                                            then insert (fst pair) r
                                                            else r) m r)
                         (fst st),
                       S (snd st)))
                   attr2expr (R, j))) X.
Proof.
  revert R j. induction attr2expr as [|m rest IH]; simpl; intros R j Hk HR;
    [assumption|].
  apply IH.
  - intros k p v H. replace (S j + k) with (j + S k) by lia. now apply (Hk (S k) p v).
  - intros k i Hi. unfold at_loc in Hi. rewrite nth_update in Hi.
    destruct (k =? j) eqn:Hkj; simpl in Hi; [|now apply HR].
    apply Nat.eqb_eq in Hkj. subst k.
    destruct (j <? length R); [|now apply HR].
    apply fold_model_within in Hi as [Hi|[v Hi]]; [now apply HR|].
    specialize (Hk 0 i v Hi). now rewrite Nat.add_0_r in Hk.
Qed.

Lemma solve_within (fuel : nat) (check : solver) (k var_count : nat)
    (neg_expr horn_expr : expr) (M X R R' : psets) (n : nat) :
  included M X -> included R X ->
  solve fuel check k var_count neg_expr horn_expr
    (fst (make_variables n M)) R = Returned R' ->
  included R' X.
Proof.
  intros HM HR. revert k. induction fuel as [|fuel IH]; simpl; intros k H;
    [discriminate|].
  destruct (check _) as [model|].
  - injection H as <-. unfold add_model. apply add_model_within; [|assumption].
    intros k' p v Hin. simpl. apply HM. now apply make_variables_keys in Hin.
  - destruct (var_count <=? k); [discriminate|]. now apply (IH (S k)).
Qed.

Lemma reduce_minimal_within (check : solver) (dps : list datapoint)
    (hcs : list horn_constraint) (X R R' : psets) :
  reduce_predicates_minimal check dps hcs X R = Returned R' -> included R' X.
Proof.
  unfold reduce_predicates_minimal. intros H. bind_inv H.
  apply check_arguments_returned in E as [_ Hlen].
  destruct (prepared_within X R Hlen) as [H1 H2].
  destruct (prepare_sets X R (empty_sets (length X))) as [R0 M0]. simpl in *.
  pose proof (solve_within) as Hs. specialize (Hs) with (M := M0) (n := 0).
  destruct (make_variables 0 M0) as [attr2expr var_count]. simpl in Hs.
  bind_inv H. bind_inv H. bind_inv H. assert_inv H. injection H as <-.
  now apply (Hs (S var_count) check 1 var_count a0 a1 X R0 a2 H2 H1).
Qed.

(* ------------------------------------------------------------------ *)
(** ** [reduce_predicates_greedy] stays within [X] *)

(** Every entry of the scratch map of location [i] that still names a data
    point or a constraint is keyed by a predicate of [S]. *)
Lemma map_upd_In (p : nat) (f : entry -> entry) (m : pmap) (q : nat) (e : entry) :
  In (q, e) (map_upd p f m) ->
  In (q, e) m
  \/ (q = p /\ exists e0, e = f e0 /\ (In (p, e0) m \/ e0 = ([], []))).
Proof.
  induction m as [|[q' e'] m IH]; simpl.
  - intros [[= <- <-]|[]]. right. split; [reflexivity|]. eauto.
  - destruct (p <? q') eqn:H1.
    + intros [[= <- <-]|H]; [|now left]. right. split; [reflexivity|]. eauto.
    + destruct (q' <? p) eqn:H2.
      * intros [H|H]; [now left; left|].
        apply IH in H as [H|(-> & e0 & -> & [H|H])]; [now left; right| |].
        -- right. split; [reflexivity|]. exists e0. split; [reflexivity|].
           left. now right.
        -- right. split; [reflexivity|]. eauto.
      * apply Nat.ltb_ge in H1, H2. assert (q' = p) by lia. subst q'.
        intros [[= <- <-]|H]; [|now left; right].
        right. split; [reflexivity|]. exists e'. split; [reflexivity|].
        left. now left.
Qed.

Lemma map_upd_live (S : pset) (p : nat) (f : entry -> entry) (m : pmap) :
  (forall q e, In (q, e) m -> e <> ([], []) -> In q S) ->
  In p S \/ (forall e, f e <> ([], []) -> e <> ([], [])) ->
  forall q e, In (q, e) (map_upd p f m) -> e <> ([], []) -> In q S.
Proof.
  intros Hm Hp q e Hin He.
  apply map_upd_In in Hin as [Hin|(-> & e0 & -> & Hin)]; [now apply (Hm q e)|].
  destruct Hp as [Hp|Hf]; [assumption|].
  specialize (Hf e0 He). destruct Hin as [Hin | ->]; [|contradiction].
  now apply (Hm p e0).
Qed.

Lemma record_zeros_live (S : pset) (f : entry -> entry) (dp : datapoint)
    (XmRi : pset) (m : pmap) :
  (forall p, In p XmRi -> In p S) ->
  (forall q e, In (q, e) m -> e <> ([], []) -> In q S) ->
  forall q e, In (q, e) (record_zeros f dp XmRi m) -> e <> ([], []) -> In q S.
Proof.
  revert m. induction XmRi as [|p rest IH]; simpl; intros m HS Hm; [assumption|].
  apply IH; [intros p' Hp'; apply HS; now right|].
  destruct (bit dp p =? 0)%Z; [|assumption].
  apply map_upd_live; [assumption|]. left. apply HS. now left.
Qed.

Lemma record_live (f : entry -> entry) (M : psets) (ps : list pmap)
    (dp : datapoint) :
  (forall i q e, In (q, e) (nth i ps []) -> e <> ([], []) -> In q (at_loc M i)) ->
  forall i q e, In (q, e) (nth i (record f M ps dp) []) -> e <> ([], []) ->
                In q (at_loc M i).
Proof.
  intros Hl i q e Hin He. unfold record in Hin. rewrite nth_update in Hin.
  destruct ((i =? loc dp) && (loc dp <? length ps)) eqn:Hc;
    [|now apply (Hl i q e)].
  apply andb_true_iff in Hc as [Hc _]. apply Nat.eqb_eq in Hc. subst i.
  revert Hin He. apply record_zeros_live; [auto|]. apply Hl.
Qed.

Lemma fold_record_live (f : entry -> entry) (M : psets) (l : list datapoint)
    (ps : list pmap) :
  (forall i q e, In (q, e) (nth i ps []) -> e <> ([], []) -> In q (at_loc M i)) ->
  forall i q e, In (q, e) (nth i (fold_left (record f M) l ps) []) ->
                e <> ([], []) -> In q (at_loc M i).
Proof.
  revert ps. induction l as [|dp l IH]; simpl; intros ps Hl; [assumption|].
  apply IH. now apply record_live.
Qed.

Lemma negatives_greedy_live (dps : list datapoint) (n : nat) (R M : psets)
    (ps ps' : list pmap) :
  (forall i q e, In (q, e) (nth i ps []) -> e <> ([], []) -> In q (at_loc M i)) ->
  negatives_greedy n dps R M ps = Returned ps' ->
  forall i q e, In (q, e) (nth i ps' []) -> e <> ([], []) -> In q (at_loc M i).
Proof.
  revert n ps. induction dps as [|dp dps IH]; simpl; intros n ps Hl H.
  - now injection H as <-.
  - assert_inv H.
    destruct (is_negative dp && satisfies dp (at_loc R (loc dp)));
      [|now apply (IH (S n) ps)].
    apply (IH (S n) _ (record_live _ M ps dp Hl) H).
Qed.

Lemma scan_horn_live (hcs : list horn_constraint) (h : nat) (R M : psets)
    (ps ps' : list pmap) (done done' : bool) :
  (forall i q e, In (q, e) (nth i ps []) -> e <> ([], []) -> In q (at_loc M i)) ->
  scan_horn h hcs R M ps done = Returned (ps', done') ->
  forall i q e, In (q, e) (nth i ps' []) -> e <> ([], []) -> In q (at_loc M i).
Proof.
  revert h ps done. induction hcs as [|hc hcs IH]; simpl; intros h ps done Hl H.
  - now injection H as <- _.
  - bind_inv H.
    destruct (a && negb (conclusion_satisfied R (_conclusion hc)));
      [|now apply (IH (S h) ps done)].
    apply (IH (S h) _ false (fold_record_live _ M (_premises hc) ps Hl) H).
Qed.

Lemma del_first_live (n : nat) (e : entry) :
  del_first_component n e <> ([], []) -> e <> ([], []).
Proof. intros H ->. now apply H. Qed.

Lemma del_second_live (h : nat) (e : entry) :
  del_second_component h e <> ([], []) -> e <> ([], []).
Proof. intros H ->. now apply H. Qed.

Lemma forget_zeros_live (S : pset) (f : entry -> entry)
    (walked : nat -> entry -> bool) (dp : datapoint)
    (XmRi : pset) (m m' : pmap) :
  (forall e, f e <> ([], []) -> e <> ([], [])) ->
  (forall q e, In (q, e) m -> e <> ([], []) -> In q S) ->
  forget_zeros f walked dp XmRi m = Returned m' ->
  forall q e, In (q, e) m' -> e <> ([], []) -> In q S.
Proof.
  intros Hf. revert m. induction XmRi as [|p rest IH]; simpl; intros m Hm H.
  - now injection H as <-.
  - destruct (bit dp p =? 0)%Z; [|now apply (IH m)].
    destruct (map_at p m) as [e0|]; [|discriminate].
    destruct (walked p e0); [discriminate|].
    apply (IH (map_upd p f m)); [|assumption].
    apply map_upd_live; [assumption | now right].
Qed.

Lemma forget_live (f : entry -> entry) (walked : nat -> nat -> entry -> bool)
    (M : psets) (ps ps' : list pmap) (dp : datapoint) :
  (forall e, f e <> ([], []) -> e <> ([], [])) ->
  (forall i q e, In (q, e) (nth i ps []) -> e <> ([], []) -> In q (at_loc M i)) ->
  forget f walked M ps dp = Returned ps' ->
  forall i q e, In (q, e) (nth i ps' []) -> e <> ([], []) -> In q (at_loc M i).
Proof.
  intros Hf Hl H. unfold forget in H.
  destruct (nth_error ps (loc dp)) as [m|] eqn:Hn; [|discriminate].
  bind_inv H. injection H as <-. intros i q e Hin He.
  rewrite nth_update in Hin.
  destruct ((i =? loc dp) && (loc dp <? length ps)) eqn:Hc;
    [|now apply (Hl i q e)].
  apply andb_true_iff in Hc as [Hc _]. apply Nat.eqb_eq in Hc. subst i.
  apply (forget_zeros_live (at_loc M (loc dp)) f (walked (loc dp)) dp
           (at_loc M (loc dp)) m a Hf) with (e := e); try assumption.
  intros q' e' Hin' He'. apply (Hl (loc dp) q' e'); [|assumption].
  now rewrite (nth_error_nth _ _ _ Hn).
Qed.

Lemma foldM_live {B : Type} (M : psets) (step : list pmap -> B -> outcome (list pmap))
    (l : list B) (ps ps' : list pmap) :
  (forall ps1 b ps2,
     (forall i q e, In (q, e) (nth i ps1 []) -> e <> ([], []) -> In q (at_loc M i)) ->
     step ps1 b = Returned ps2 ->
     forall i q e, In (q, e) (nth i ps2 []) -> e <> ([], []) -> In q (at_loc M i)) ->
  (forall i q e, In (q, e) (nth i ps []) -> e <> ([], []) -> In q (at_loc M i)) ->
  foldM step l ps = Returned ps' ->
  forall i q e, In (q, e) (nth i ps' []) -> e <> ([], []) -> In q (at_loc M i).
Proof.
  intros Hstep. revert ps. induction l as [|b l IH]; simpl; intros ps Hl H.
  - now injection H as <-.
  - bind_inv H. apply (IH a); [|assumption]. now apply (Hstep ps b a).
Qed.

Lemma map_erase_In (p : nat) (m : pmap) (x : nat * entry) :
  In x (map_erase p m) -> In x m.
Proof.
  induction m as [|[q e] m IH]; simpl; [tauto|].
  destruct (p =? q); simpl; tauto.
Qed.

Lemma better_spec (i : nat) (m : pmap) (best : nat * nat * nat * bool)
    (v id p : nat) :
  fold_left (better i) m best = (v, id, p, true) ->
  best = (v, id, p, true)
  \/ (id = i /\ exists e, In (p, e) m /\ e <> ([], [])).
Proof.
  revert best. induction m as [|[q e] m IH]; simpl; intros best H; [now left|].
  apply IH in H as [H|(-> & e' & Hin & He)].
  - unfold better in H. destruct best as [[[bv bi] bp] bf]. simpl in H.
    destruct (bv <? length (fst e) + length (snd e)) eqn:Hlt; [|now left].
    injection H as <- <- <-. right. split; [reflexivity|].
    exists e. split; [now left|].
    apply Nat.ltb_lt in Hlt. intros ->. simpl in Hlt. lia.
  - right. split; [reflexivity|]. exists e'. split; [now right | assumption].
Qed.

Lemma find_best_spec (ps : list pmap) (i : nat) (best : nat * nat * nat * bool)
    (v id p : nat) :
  find_best i ps best = (v, id, p, true) ->
  best = (v, id, p, true)
  \/ (i <= id /\ exists e, In (p, e) (nth (id - i) ps []) /\ e <> ([], [])).
Proof.
  revert i best. induction ps as [|m ps IH]; simpl; intros i best H; [now left|].
  apply IH in H as [H|(Hle & e & Hin & He)].
  - apply better_spec in H as [H|(-> & e & Hin & He)]; [now left|].
    right. split; [lia|]. exists e. rewrite Nat.sub_diag. now split.
  - right. split; [lia|]. exists e. split; [|assumption].
    replace (id - i) with (S (id - S i)) by lia. exact Hin.
Qed.

Lemma greedy_pick_within (fuel : nat) (dps : list datapoint)
    (hcs : list horn_constraint) (M : psets) (ps : list pmap)
    (nr : list (nat * nat)) (done : bool)
    (ps' : list pmap) (nr' : list (nat * nat)) (done' : bool) :
  (forall i q e, In (q, e) (nth i ps []) -> e <> ([], []) -> In q (at_loc M i)) ->
  (forall pair, In pair nr -> In (snd pair) (at_loc M (fst pair))) ->
  greedy_pick fuel dps hcs M ps nr done = Returned (ps', nr', done') ->
  forall pair, In pair nr' -> In (snd pair) (at_loc M (fst pair)).
Proof.
  revert ps nr done. induction fuel as [|fuel IH]; simpl; intros ps nr done Hl Hn H;
    [discriminate|].
  destruct (find_best 0 ps (0, 0, 0, false)) as [[[bv best_id] best_p] found] eqn:Hb.
  destruct found; [|now injection H as _ <- _].
  apply find_best_spec in Hb as [Hb|(_ & e & Hin & He)]; [discriminate|].
  rewrite Nat.sub_0_r in Hin.
  destruct (map_at best_p (nth best_id ps [])) as [[negs horns]|]; [|discriminate].
  bind_inv H. bind_inv H.
  assert (L1 : forall i q e, In (q, e) (nth i a []) -> e <> ([], []) ->
                             In q (at_loc M i)).
  { revert E. apply foldM_live; [|assumption].
    intros ps1 n ps2 Hl1. apply forget_live; [apply del_first_live | assumption]. }
  assert (L2 : forall i q e, In (q, e) (nth i a0 []) -> e <> ([], []) ->
                             In q (at_loc M i)).
  { revert E0. apply foldM_live; [|assumption].
    intros ps1 h ps2 Hl1. apply foldM_live; [|assumption].
    intros ps3 d ps4 Hl3. apply forget_live; [apply del_second_live | assumption]. }
  refine (IH _ _ _ _ _ H).
  - intros i q e' Hin' He'. rewrite nth_update in Hin'.
    destruct ((i =? best_id) && (best_id <? length a0));
      [apply map_erase_In in Hin'|]; now apply (L2 i q e').
  - intros pair Hp. apply in_app_or in Hp as [Hp|[<-|[]]]; [now apply Hn|].
    simpl. now apply (Hl best_id best_p e).
Qed.

Lemma apply_relevant_within (X : psets) (nr : list (nat * nat)) (R M : psets) :
  included R X -> included M X ->
  (forall pair, In pair nr -> In (snd pair) (at_loc X (fst pair))) ->
  included (fst (fold_left apply_relevant nr (R, M))) X
  /\ included (snd (fold_left apply_relevant nr (R, M))) X.
Proof.
  revert R M. induction nr as [|[id p] nr IH]; simpl; intros R M HR HM Hn;
    [now split|].
  unfold apply_relevant at 2. simpl. apply IH.
  - intros k i Hi. unfold at_loc in Hi. rewrite nth_update in Hi.
    destruct ((k =? id) && (id <? length R)) eqn:Hc; [|now apply HR].
    apply andb_true_iff in Hc as [Hc _]. apply Nat.eqb_eq in Hc. subst k.
    apply In_insert in Hi as [->|Hi]; [|now apply HR].
    apply (Hn (id, p)). now left.
  - intros k i Hi. unfold at_loc in Hi. rewrite nth_update in Hi.
    destruct ((k =? id) && (id <? length M)); [|now apply HM].
    apply In_erase_weak in Hi. now apply HM.
  - intros pair Hp. apply Hn. now right.
Qed.

Lemma all_processed_live (ps : list pmap) (S : nat -> pset) :
  all_processed ps = true ->
  forall i q e, In (q, e) (nth i ps []) -> e <> ([], []) -> In q (S i).
Proof.
  intros H i q e Hin He. exfalso. apply He.
  unfold all_processed in H. rewrite forallb_forall in H.
  destruct (Nat.lt_ge_cases i (length ps)) as [Hi|Hi].
  - specialize (H _ (nth_In ps [] Hi)). rewrite forallb_forall in H.
    specialize (H _ Hin). simpl in H.
    destruct e as [[|? ?] [|? ?]]; [reflexivity|discriminate..].
  - rewrite nth_overflow in Hin by assumption. destruct Hin.
Qed.

Lemma greedy_loop_within (fuel : nat) (dps : list datapoint)
    (hcs : list horn_constraint) (X R M : psets) (ps : list pmap) (R' : psets) :
  included R X -> included M X ->
  (forall i q e, In (q, e) (nth i ps []) -> e <> ([], []) -> In q (at_loc M i)) ->
  greedy_loop fuel dps hcs R M ps = Returned R' -> included R' X.
Proof.
  revert R M ps. induction fuel as [|fuel IH]; cbn [greedy_loop];
    intros R M ps HR HM Hl H; [discriminate|].
  bind_inv H. destruct a as [ps1 done1].
  pose proof (scan_horn_live hcs 0 R M ps ps1 true done1 Hl E) as L1.
  bind_inv H. destruct a as [[ps2 nr] done].
  assert (Hn : forall pair, In pair nr -> In (snd pair) (at_loc M (fst pair))).
  { revert E0. apply greedy_pick_within; [assumption|]. intros pair []. }
  assert_inv H.
  destruct (apply_relevant_within X nr R M HR HM) as [H1 H2].
  { intros pair Hp. apply HM. now apply Hn. }
  destruct (fold_left apply_relevant nr (R, M)) as [R1 M1]. simpl in *.
  destruct done; [now injection H as <-|].
  apply (IH R1 M1 ps2); try assumption.
  apply (all_processed_live ps2 (at_loc M1) E1).
Qed.

Lemma reduce_greedy_within (fuel : nat) (dps : list datapoint)
    (hcs : list horn_constraint) (X R R' : psets) :
  reduce_predicates_greedy fuel dps hcs X R = Returned R' -> included R' X.
Proof.
  unfold reduce_predicates_greedy. intros H. bind_inv H.
  apply check_arguments_returned in E as [_ Hlen].
  destruct (prepared_within X R Hlen) as [H1 H2].
  destruct (prepare_sets X R (empty_sets (length X))) as [R0 M0]. simpl in *.
  bind_inv H. bind_inv H. assert_inv H. injection H as <-.
  apply (greedy_loop_within fuel dps hcs X R0 M0 a0); try assumption.
  revert E. apply negatives_greedy_live.
  intros i q e Hin. exfalso. revert Hin.
  generalize (length X). intros n. revert i.
  induction n as [|n IH]; intros [|i]; simpl; try tauto. apply IH.
Qed.

(** X5.  Whatever a reducer returns lies within the candidate set [X], at
    every location, for any [R] it is given: what [prepare_sets] keeps of
    [R] is in [X], and every predicate added comes from [X \ R]. *)
Theorem reducers_within_X (check : solver) (fuel : nat) (dps : list datapoint)
    (hcs : list horn_constraint) (X R0 R : psets) :
  reduce_predicates_all dps hcs X R0 = Returned R
  \/ reduce_predicates_first dps hcs X R0 = Returned R
  \/ reduce_predicates_greedy fuel dps hcs X R0 = Returned R
  \/ reduce_predicates_minimal check dps hcs X R0 = Returned R ->
  included R X.
Proof.
  intros [H|[H|[H|H]]].
  - now apply (reduce_all_within dps hcs X R0).
  - now apply (reduce_first_within dps hcs X R0).
  - now apply (reduce_greedy_within fuel dps hcs X R0).
  - now apply (reduce_minimal_within check dps hcs X R0).
Qed.

Lemma reducers_within_X_witness : included [[2]] [[0; 1; 2; 3]].
Proof.
  apply (reducers_within_X (fun _ => None) 0 S2_data [] [[0; 1; 2; 3]]
           [[2; 7]] [[2]]).
  left. reflexivity.
Defined.

(* ------------------------------------------------------------------ *)
(** ** A consistent [R] within [X] is returned as it is *)

Lemma ordered_ext (a b : pset) :
  ordered a -> ordered b -> (forall i, In i a <-> In i b) -> a = b.
Proof.
  revert b. induction a as [|x a IH]; intros b Ha Hb Hab.
  - destruct b as [|y b]; [reflexivity|].
    exfalso. apply (proj2 (Hab y)). now left.
  - destruct b as [|y b]; [exfalso; apply (proj1 (Hab x)); now left|].
    destruct (ordered_cons_inv _ _ Ha) as [Ha' Hx].
    destruct (ordered_cons_inv _ _ Hb) as [Hb' Hy].
    assert (x = y).
    { destruct (proj1 (Hab x) (or_introl eq_refl)) as [E|Hin]; [auto|].
      destruct (proj2 (Hab y) (or_introl eq_refl)) as [E|Hin']; [auto|].
      specialize (Hx _ Hin'). specialize (Hy _ Hin). lia. }
    subst y. f_equal. apply IH; try assumption.
    intros i. split; intros Hi.
    + destruct (proj1 (Hab i) (or_intror Hi)) as [E|Hin]; [|assumption].
      subst i. specialize (Hx _ Hi). lia.
    + destruct (proj2 (Hab i) (or_intror Hi)) as [E|Hin]; [|assumption].
      subst i. specialize (Hy _ Hi). lia.
Qed.

Lemma prepare_sets_keeps (X R : psets) :
  length X = length R -> Forall ordered X -> Forall ordered R ->
  included R X ->
  fst (prepare_sets X R (empty_sets (length X))) = R.
Proof.
  intros Hlen HX HR Hinc.
  pose proof (prepare_sets_length X R (empty_sets (length X))) as [L _].
  apply (nth_ext _ _ [] [] L). intros k _.
  destruct (prepare_sets_fresh X R k 0 Hlen HX HR) as (_ & _ & Ho & _).
  apply ordered_ext; [assumption | now apply ordered_at_loc|].
  intros i. destruct (prepare_sets_fresh X R k i Hlen HX HR) as (H1 & _).
  fold (at_loc (fst (prepare_sets X R (empty_sets (length X)))) k).
  fold (at_loc R k). rewrite H1. split; [tauto|]. intros Hi. split; [assumption|].
  now apply Hinc.
Qed.

Lemma negatives_all_quiet (dps : list datapoint) (X R M : psets) :
  Forall (fun dp => loc dp < length R) dps ->
  (forall dp, In dp dps -> is_negative dp = true ->
              satisfies dp (at_loc R (loc dp)) = false) ->
  negatives_all dps X R M = Returned (R, M).
Proof.
  induction dps as [|dp dps IH]; simpl; intros Hv Hneg; [reflexivity|].
  inversion Hv as [|? ? Hd Hv']; subst.
  apply Nat.ltb_lt in Hd. rewrite Hd. cbn [assert bind].
  replace (is_negative dp && satisfies dp (at_loc R (loc dp))) with false.
  - apply IH; [assumption|]. intros d Hin. apply Hneg. now right.
  - symmetry. destruct (is_negative dp) eqn:E; [|reflexivity].
    simpl. apply Hneg; [now left | assumption].
Qed.

Lemma negatives_first_quiet (dps : list datapoint) (R M : psets) :
  Forall (fun dp => loc dp < length R) dps ->
  (forall dp, In dp dps -> is_negative dp = true ->
              satisfies dp (at_loc R (loc dp)) = false) ->
  negatives_first dps R M = Returned (R, M).
Proof.
  induction dps as [|dp dps IH]; simpl; intros Hv Hneg; [reflexivity|].
  inversion Hv as [|? ? Hd Hv']; subst.
  apply Nat.ltb_lt in Hd. rewrite Hd. cbn [assert bind].
  replace (is_negative dp && satisfies dp (at_loc R (loc dp))) with false.
  - apply IH; [assumption|]. intros d Hin. apply Hneg. now right.
  - symmetry. destruct (is_negative dp) eqn:E; [|reflexivity].
    simpl. apply Hneg; [now left | assumption].
Qed.

Lemma horn_walk_all_quiet (hcs : list horn_constraint) (R M : psets) :
  Forall (valid_horn (length R)) hcs ->
  (forall hc, In hc hcs -> horn_ok R hc = true) ->
  exists live, horn_walk_all hcs R M = Returned (R, M, live, true).
Proof.
  induction hcs as [|hc rest IH]; simpl; intros Hv Hok; [eauto|].
  inversion Hv as [|? ? [Hvp _] Hv']; subst.
  rewrite (check_lhs_true R (_premises hc) Hvp). cbn [bind].
  destruct IH as [live E]; [assumption | intros h Hh; apply Hok; now right|].
  destruct (lhs_satisfied R (_premises hc)) eqn:Hl; simpl; [|eauto].
  assert (Hc : conclusion_satisfied R (_conclusion hc) = true).
  { apply (proj1 (horn_ok_iff R hc)); [apply Hok; now left | assumption]. }
  rewrite Hc, E. cbn [bind]. eauto.
Qed.

Lemma horn_walk_first_quiet (hcs : list horn_constraint) (R M : psets) :
  Forall (valid_horn (length R)) hcs ->
  (forall hc, In hc hcs -> horn_ok R hc = true) ->
  exists live, horn_walk_first hcs R M = Returned (R, M, live, true).
Proof.
  induction hcs as [|hc rest IH]; simpl; intros Hv Hok; [eauto|].
  inversion Hv as [|? ? [Hvp _] Hv']; subst.
  rewrite (check_lhs_true R (_premises hc) Hvp). cbn [bind].
  destruct IH as [live E]; [assumption | intros h Hh; apply Hok; now right|].
  destruct (lhs_satisfied R (_premises hc)) eqn:Hl; simpl; [|eauto].
  assert (Hc : conclusion_satisfied R (_conclusion hc) = true).
  { apply (proj1 (horn_ok_iff R hc)); [apply Hok; now left | assumption]. }
  rewrite Hc, E. cbn [bind]. eauto.
Qed.

(** X6.  The reducers all and first return a consistent [R] as it is: when
    [R] lies within [X], is consistent with the data points and the Horn
    constraints, and all locations are valid, nothing is added and nothing
    is dropped. *)
Theorem reducers_keep_consistent (dps : list datapoint)
    (hcs : list horn_constraint) (X R : psets) :
  X <> [] -> length X = length R ->
  Forall ordered X -> Forall ordered R ->
  included R X ->
  valid_locations (length X) dps hcs ->
  is_consistent R dps hcs = true ->
  reduce_predicates_all dps hcs X R = Returned R
  /\ reduce_predicates_first dps hcs X R = Returned R.
Proof.
  intros Hne Hlen HX HR Hinc [Hvd Hvh] Hc.
  pose proof (prepare_sets_keeps X R Hlen HX HR Hinc) as Hk.
  unfold reduce_predicates_all, reduce_predicates_first.
  rewrite (check_arguments_ok X R Hne Hlen). cbn [bind].
  destruct (prepare_sets X R (empty_sets (length X))) as [R0 M0].
  simpl in Hk. subst R0. rewrite Hlen in Hvd, Hvh.
  pose proof Hc as Hc'. unfold is_consistent in Hc'.
  apply andb_true_iff in Hc' as [Hd Hh]. rewrite forallb_forall in Hd, Hh.
  assert (Hneg : forall dp, In dp dps -> is_negative dp = true ->
                            satisfies dp (at_loc R (loc dp)) = false).
  { intros dp Hin. apply (proj1 (datapoint_ok_iff R dp)). now apply Hd. }
  rewrite (negatives_all_quiet dps X R M0 Hvd Hneg).
  rewrite (negatives_first_quiet dps R M0 Hvd Hneg). cbn [bind].
  destruct (horn_walk_all_quiet hcs R M0 Hvh Hh) as [l1 E1].
  destruct (horn_walk_first_quiet hcs R M0 Hvh Hh) as [l2 E2].
  cbn [horn_loop_all horn_loop_first]. rewrite E1, E2. cbn [bind].
  rewrite Hc. split; reflexivity.
Qed.

Lemma reducers_keep_consistent_witness :
  reduce_predicates_all S2_data [] [[0; 1; 2; 3]] [[2]] = Returned [[2]]
  /\ reduce_predicates_first S2_data [] [[0; 1; 2; 3]] [[2]] = Returned [[2]].
Proof.
  apply (reducers_keep_consistent S2_data [] [[0; 1; 2; 3]] [[2]]).
  - discriminate.
  - reflexivity.
  - repeat constructor.
  - repeat constructor.
  - intros [|k] i Hi; [|now destruct k].
    unfold at_loc in *. simpl in *. destruct Hi as [<-|[]]. auto.
  - split; repeat constructor.
  - reflexivity.
Defined.

(* ------------------------------------------------------------------ *)
(** ** The driver *)

Lemma ordered_seq (a n : nat) : ordered (seq a n).
Proof.
  revert a. induction n as [|n IH]; intros a; simpl; [constructor|].
  apply ordered_cons; [apply IH|]. intros y Hy. apply in_seq in Hy. lia.
Qed.

Lemma knock_out_ordered (positive : list datapoint) (c c' : psets) :
  Forall ordered c -> knock_out positive c = Returned c' -> Forall ordered c'.
Proof.
  revert c. induction positive as [|dp rest IH]; simpl; intros c Hc H.
  - now injection H as <-.
  - bind_inv H. unfold knock_out_one in E. assert_inv E. injection E as <-.
    apply (IH _ (Forall_update ordered _ _ c (ordered_filter _) Hc) H).
Qed.

Lemma loop_ordered (fuel : nat) (st : horndini_state) (X : psets) :
  Forall ordered (snd st) -> horndini_loop fuel st = Returned X ->
  Forall ordered X.
Proof.
  revert st. induction fuel as [|fuel IH]; intros [[positive live] c] Hc H;
    [discriminate|].
  cbn [horndini_loop] in H. bind_inv H. destruct a as [[positive' live'] c'].
  unfold horndini_round in E. bind_inv E. bind_inv E.
  destruct a0 as [p l]. injection E as <- <- <-.
  pose proof (knock_out_ordered positive c a Hc E0) as Ha.
  destruct p as [|d p]; [now injection H as <-|].
  apply (IH (d :: p, l, a) Ha H).
Qed.

Lemma horndini_ordered (dps : list datapoint) (hcs : list horn_constraint)
    (intervals : list (nat * nat)) (X : psets) :
  horndini dps hcs intervals = Returned X -> Forall ordered X.
Proof.
  intros H. apply horndini_returned in H as [_ H].
  apply loop_ordered in H; [assumption|]. simpl.
  apply Forall_forall. intros s Hs. apply in_map_iff in Hs as (iv & <- & _).
  apply ordered_seq.
Qed.

Lemma empty_sets_ordered (n : nat) : Forall ordered (empty_sets n).
Proof.
  unfold empty_sets. apply Forall_forall. intros s Hs.
  apply repeat_spec in Hs. subst s. constructor.
Qed.

Lemma within_of_included (H X : psets) (intervals : list (nat * nat)) :
  included H X -> within X intervals -> within H intervals.
Proof. intros HX Hw k i Hi. apply Hw, HX, Hi. Qed.

(** X8.  Once the hypothesis [X] of Horndini has passed the assertion of
    the driver, the learners Horndini, Sorcar and Sorcar-first always write
    a result, which is a part of [X]: no assertion of a reducer fails and
    nothing is thrown, in every round and for every option, provided the R
    file, in the rounds that read it, holds one set per interval. *)
Theorem main_returns (check : solver) (fuel : nat) (alg : algorithm)
    (reset_R horndini_first_round alternate : bool) (round : nat)
    (R_file : psets) (dps : list datapoint) (hcs : list horn_constraint)
    (intervals : list (nat * nat)) (X : psets) :
  alg <> SORCAR_GREEDY -> alg <> SORCAR_MINIMAL ->
  valid_locations (length intervals) dps hcs ->
  (reset_R = false -> round <> 1 ->
   length R_file = length intervals /\ Forall ordered R_file) ->
  horndini dps hcs intervals = Returned X ->
  is_consistent X dps hcs = true ->
  exists H,
    main check fuel alg reset_R horndini_first_round alternate round R_file
      dps hcs intervals = Returned H
    /\ included H X.
Proof.
  intros Hg Hm Hv HR HX Hc. unfold main. rewrite HX. cbn [bind].
  rewrite Hc. cbn [assert bind].
  destruct (horndini_admissible dps hcs intervals X HX) as (_ & _ & HL).
  pose proof (horndini_ordered dps hcs intervals X HX) as Ho.
  assert (Hne : X <> []).
  { apply horndini_returned in HX as [Hne _]. intros ->.
    destruct intervals; [congruence | discriminate]. }
  rewrite <- HL in Hv.
  apply is_consistent_iff in Hc.
  set (R := if reset_R || (round =? 1) then empty_sets (length X) else R_file).
  assert (HRl : length X = length R /\ Forall ordered R).
  { unfold R. destruct reset_R; simpl.
    - split; [unfold empty_sets; now rewrite repeat_length|].
      apply empty_sets_ordered.
    - destruct (round =? 1) eqn:E.
      + split; [unfold empty_sets; now rewrite repeat_length|].
        apply empty_sets_ordered.
      + apply Nat.eqb_neq in E. destruct (HR eq_refl E) as [H1 H2].
        split; [congruence | assumption]. }
  destruct HRl as [HRl HRo].
  destruct (reduce_predicates_all_total dps hcs X R Hne HRl Ho HRo Hv Hc)
    as (R1 & E1 & I1 & _).
  destruct (reduce_predicates_first_total dps hcs X R Hne HRl Ho HRo Hv Hc)
    as (R2 & E2 & I2 & _).
  destruct (negb (horndini_first_round && (round =? 1))
            && negb (alternate && (round mod 2 =? 1)));
    destruct alg; try congruence;
    first [ exists X; split; [reflexivity | apply included_refl]
          | exists R1; split; assumption
          | exists R2; split; assumption ].
Qed.

Lemma main_returns_witness :
  exists H,
    main (fun _ => None) 0 SORCAR_FIRST false true true 2 [[0]]
      S3_data S3_horn [(0, 3)] = Returned H
    /\ included H [[0]].
Proof.
  apply (main_returns (fun _ => None) 0 SORCAR_FIRST false true true 2 [[0]]
           S3_data S3_horn [(0, 3)] [[0]]).
  - discriminate.
  - discriminate.
  - split; [repeat constructor|]. constructor; [|constructor].
    split; [repeat constructor|]. intros d0 [= <-]. repeat constructor.
  - intros _ _. split; [reflexivity | repeat constructor].
  - reflexivity.
  - reflexivity.
Defined.

(* ------------------------------------------------------------------ *)
(** ** Winnow: what training keeps *)

Section Training.

(** A relation between a weight before and after, which a division and a
    multiplication by a rate that is [good] keep. *)
Variable good : Q -> Prop.
Variable keeps : Q -> Q -> Prop.
Hypothesis keeps_refl : forall a, keeps a a.
Hypothesis keeps_trans : forall a b c, keeps a b -> keeps b c -> keeps a c.
Hypothesis keeps_div : forall r a, good r -> keeps a (a / r)%Q.
Hypothesis keeps_mul : forall r a, good r -> keeps a (a * r)%Q.

Lemma Forall2_keeps_refl (ws : list Q) : Forall2 keeps ws ws.
Proof. induction ws; constructor; auto. Qed.

Lemma Forall2_keeps_trans (l1 l2 l3 : list Q) :
  Forall2 keeps l1 l2 -> Forall2 keeps l2 l3 -> Forall2 keeps l1 l3.
Proof.
  intros H. revert l3. induction H as [|a b l1 l2 Hab H IH]; intros l3 H3;
    inversion H3; subst; constructor; eauto.
Qed.

Lemma kept_refl (w : winnow) : kept keeps w w.
Proof. split; [apply Forall2_keeps_refl | auto]. Qed.

Lemma Forall2_kept_refl (ws : list winnow) : Forall2 (kept keeps) ws ws.
Proof. induction ws; constructor; [apply kept_refl | assumption]. Qed.

Lemma kept_trans (w1 w2 w3 : winnow) : kept keeps w1 w2 -> kept keeps w2 w3 -> kept keeps w1 w3.
Proof.
  intros (H1 & T1 & L1) (H2 & T2 & L2).
  split; [eapply Forall2_keeps_trans; eassumption|]. split; congruence.
Qed.

Lemma update_loop_keeps (f : nat -> Q -> Q) (s n : nat) (ws : list Q) :
  (forall i a, keeps a (f i a)) ->
  Forall2 keeps (firstn n ws)
    (map (fun iw : nat * Q => let (i, wi) := iw in f i wi) (combine (seq s n) ws)).
Proof.
  intros Hf. revert s ws. induction n as [|n IH]; intros s ws; simpl;
    [constructor|].
  destruct ws as [|a ws]; simpl; constructor; auto.
Qed.

Lemma update_weights_kept (w : winnow) (dp : datapoint) (prediction : bool) :
  good (lr w) -> kept keeps w (update_weights w dp prediction).
Proof.
  intros Hr. unfold kept, update_weights. simpl. split; [|auto].
  rewrite <- (firstn_skipn (length (_int_data dp)) (weights w)) at 1.
  apply Forall2_app; [|apply Forall2_keeps_refl].
  apply (update_loop_keeps
           (fun i wi =>
              let wi1 := if negb (_classification dp) && prediction
                            && negb (bit dp i =? 0)%Z
                         then (wi / lr w)%Q else wi in
              if _classification dp && negb prediction && negb (bit dp i =? 0)%Z
              then (wi1 * lr w)%Q else wi1)).
  intros i a. cbv zeta.
  destruct (_classification dp), prediction, (bit dp i =? 0)%Z; simpl; auto.
Qed.

Lemma train_once_kept (dps : list datapoint) (w : winnow) :
  good (lr w) -> kept keeps w (train_once w dps).
Proof.
  unfold train_once. revert w. induction dps as [|dp dps IH]; simpl; intros w Hr;
    [apply kept_refl|].
  pose proof (update_weights_kept w dp (predict w dp) Hr) as Hk.
  eapply kept_trans; [exact Hk|]. apply IH.
  destruct Hk as (_ & _ & ->). exact Hr.
Qed.

Lemma train_kept (fuel : nat) (dps : list datapoint) (w w' : winnow) :
  good (lr w) -> train fuel w dps = Returned w' -> kept keeps w w'.
Proof.
  revert w. induction fuel as [|fuel IH]; simpl; intros w Hr H.
  - destruct (check_acc w dps); [|discriminate]. injection H as <-.
    apply kept_refl.
  - destruct (check_acc w dps); [injection H as <-; apply kept_refl|].
    pose proof (train_once_kept dps w Hr) as Hk.
    eapply kept_trans; [exact Hk|]. apply IH; [|assumption].
    destruct Hk as (_ & _ & ->). exact Hr.
Qed.

Lemma train_all_kept (fuel : nat) (w_objs : list winnow)
    (winnow_dps : list (list datapoint)) (objs : list winnow) :
  Forall (fun w => good (lr w)) w_objs ->
  train_all fuel w_objs winnow_dps = Returned objs ->
  Forall2 (kept keeps) w_objs objs.
Proof.
  revert winnow_dps objs.
  induction w_objs as [|w ws IH]; intros winnow_dps objs Hr H.
  - simpl in H. injection H as <-. constructor.
  - destruct winnow_dps as [|dps rest].
    + simpl in H. injection H as <-. apply Forall2_kept_refl.
    + simpl in H. apply Forall_cons_iff in Hr as [Hw Hws].
      bind_inv H. bind_inv H.
      injection H as <-. constructor; [|eapply IH; eassumption].
      eapply train_kept; eassumption.
Qed.

End Training.

Lemma train_accurate (fuel : nat) (dps : list datapoint) (w w' : winnow) :
  train fuel w dps = Returned w' -> check_acc w' dps = true.
Proof.
  revert w. induction fuel as [|fuel IH]; simpl; intros w H.
  - destruct (check_acc w dps) eqn:E; [|discriminate]. now injection H as <-.
  - destruct (check_acc w dps) eqn:E; [now injection H as <-|]. now apply (IH _ H).
Qed.

Lemma Forall2_length_eq {A B : Type} (P : A -> B -> Prop) (l : list A) (l' : list B) :
  Forall2 P l l' -> length l = length l'.
Proof. induction 1; simpl; auto. Qed.

Lemma Forall2_nth_error {A B : Type} (P : A -> B -> Prop) (l : list A) (l' : list B)
    (k : nat) (a : A) (b : B) :
  Forall2 P l l' -> nth_error l k = Some a -> nth_error l' k = Some b -> P a b.
Proof.
  intros H. revert k. induction H as [|x y l l' Hxy H IH]; intros [|k] Ha Hb;
    simpl in *; try discriminate.
  - injection Ha as <-. injection Hb as <-. exact Hxy.
  - eapply IH; eassumption.
Qed.

Lemma Forall2_nth {A : Type} (P : A -> A -> Prop) (l l' : list A) (d : A) (j : nat) :
  Forall2 P l l' -> j < length l -> P (nth j l d) (nth j l' d).
Proof.
  intros H. revert j. induction H as [|x y l l' Hxy H IH]; intros [|j] Hj;
    simpl in *; try lia; [exact Hxy|]. apply IH. lia.
Qed.

(** X9.  Training stops only on perfect accuracy and touches nothing but
    the weights: when [train] returns, the object classifies every data
    point of the list as labelled, and its threshold, its rate and the
    number of its weights are those it started with. *)
Theorem train_stops_accurate (fuel : nat) (dps : list datapoint) (w w' : winnow) :
  train fuel w dps = Returned w' ->
  check_acc w' dps = true
  /\ theta w' = theta w /\ lr w' = lr w
  /\ length (weights w') = length (weights w).
Proof.
  intros H. split; [now apply (train_accurate fuel dps w)|].
  destruct (train_kept (fun _ => True) (fun _ _ => True)) with (fuel := fuel)
    (dps := dps) (w := w) (w' := w') as (Hf & Ht & Hl); auto.
  split; [assumption|]. split; [assumption|].
  symmetry. eapply Forall2_length_eq. exact Hf.
Qed.

Lemma train_stops_accurate_witness :
  check_acc (train_once (winnow_init 1) [pos [1%Z]]) [pos [1%Z]] = true
  /\ theta (train_once (winnow_init 1) [pos [1%Z]]) = theta (winnow_init 1)
  /\ lr (train_once (winnow_init 1) [pos [1%Z]]) = lr (winnow_init 1)
  /\ length (weights (train_once (winnow_init 1) [pos [1%Z]]))
     = length (weights (winnow_init 1)).
Proof.
  apply (train_stops_accurate 1 [pos [1%Z]] (winnow_init 1)). reflexivity.
Defined.

(* ------------------------------------------------------------------ *)
(** ** [execute_algorithm]: the mask survives the training *)

Lemma train_all_length (fuel : nat) (w_objs : list winnow)
    (winnow_dps : list (list datapoint)) (objs : list winnow) :
  train_all fuel w_objs winnow_dps = Returned objs ->
  length objs = length w_objs.
Proof.
  intros H. symmetry.
  apply (Forall2_length_eq (kept (fun _ _ => True))).
  apply (train_all_kept (fun _ => True) (fun _ _ => True)
           (fun _ => I) (fun _ _ _ _ _ => I) (fun _ _ _ => I) (fun _ _ _ => I)
           fuel w_objs winnow_dps objs); [|assumption].
  apply Forall_forall. auto.
Qed.

Lemma mask_length (X : psets) (w_objs : list winnow) :
  length (mask X w_objs) = length w_objs.
Proof.
  unfold mask. generalize 0.
  induction w_objs as [|w ws IH]; simpl; intros i; auto.
Qed.

Lemma zero_div (r a : Q) : (a == 0)%Q -> (a / r == 0)%Q.
Proof. intros H. rewrite H. unfold Qdiv. apply Qmult_0_l. Qed.

Lemma zero_mul (r a : Q) : (a == 0)%Q -> (a * r == 0)%Q.
Proof. intros H. rewrite H. apply Qmult_0_l. Qed.

(** X10.  The weights that the heuristic of [execute_algorithm] sets to 0
    are 0 when it returns: training does not revive the weight of a
    position that is not in [X[i]].  The objects keep their number, their
    thresholds, their rates and the number of their weights. *)
Theorem execute_algorithm_keeps_mask (fuel : nat) (w_objs : list winnow)
    (dps : list datapoint) (X R : psets) (objs : list winnow) :
  execute_algorithm fuel w_objs dps X R = Returned objs ->
  length objs = length w_objs
  /\ forall k w w',
       nth_error w_objs k = Some w -> nth_error objs k = Some w' ->
       theta w' = theta w /\ lr w' = lr w
       /\ length (weights w') = length (weights w)
       /\ forall j, j < length (weights w) -> ~ In j (at_loc X k) ->
                    (nth j (weights w') 0 == 0)%Q.
Proof.
  unfold execute_algorithm. intros H. split.
  - rewrite (train_all_length _ _ _ _ H). apply mask_length.
  - intros k w w' Hw Hw'.
    assert (Hk : Forall2 (kept (fun a b => (a == 0)%Q -> (b == 0)%Q))
                   (mask X w_objs) objs).
    { apply (train_all_kept (fun _ => True)
               (fun a b => (a == 0)%Q -> (b == 0)%Q)
               (fun a Ha => Ha)
               (fun a b c Hab Hbc Ha => Hbc (Hab Ha))
               (fun r a _ => zero_div r a)
               (fun r a _ => zero_mul r a)
               fuel (mask X w_objs) (segregate (length w_objs) X dps) objs);
        [|assumption].
      apply Forall_forall. auto. }
    pose proof (mask_objs_nth_error 0 k X w_objs) as Hm. rewrite Hw in Hm.
    simpl in Hm. fold (mask X w_objs) in Hm.
    destruct (Forall2_nth_error _ _ _ k _ w' Hk Hm Hw') as (Hf & Ht & Hl).
    simpl in *. split; [assumption|]. split; [assumption|].
    pose proof (Forall2_length_eq _ _ _ Hf) as HL.
    rewrite mask_from_length in HL. split; [congruence|].
    intros j Hj Hnot.
    apply (Forall2_nth _ _ _ 0%Q j) in Hf; [|now rewrite mask_from_length].
    apply Hf. rewrite mask_from_nth by assumption. simpl.
    destruct (member j (at_loc X k)) eqn:E; [|reflexivity].
    apply member_spec in E. contradiction.
Qed.

Lemma execute_algorithm_keeps_mask_witness :
  exists objs,
    execute_algorithm 1 (winnow_objs [(0, 1)]) [pos [1; 0]%Z] [[1]] []
    = Returned objs
    /\ length objs = length (winnow_objs [(0, 1)]).
Proof.
  exists [train_once (mk_winnow [0; 4 # 5]%Q theta_init lr_init)
            [mk_datapoint [0] [0; 1]%Z false true]].
  split; [reflexivity|].
  apply (execute_algorithm_keeps_mask 1 (winnow_objs [(0, 1)])
           [pos [1; 0]%Z] [[1]] []).
  reflexivity.
Defined.

(* ------------------------------------------------------------------ *)
(** ** Winnow never makes a weight negative *)

Lemma nonneg_div (r a : Q) : (0 <= r)%Q -> (0 <= a)%Q -> (0 <= a / r)%Q.
Proof.
  intros Hr Ha. unfold Qdiv. apply Qmult_le_0_compat; [assumption|].
  now apply Qinv_le_0_compat.
Qed.

Lemma mask_from_nonneg (s : nat) (Xi : pset) (ws : list Q) :
  nonneg ws -> nonneg (mask_from s Xi ws).
Proof.
  unfold nonneg. intros H. revert s.
  induction H as [|w ws Hw H IH]; simpl; intros s; constructor; auto.
  destruct (member s Xi); [assumption | apply Qle_refl].
Qed.

Lemma Forall2_nonneg (l l' : list Q) :
  Forall2 (fun a b => (0 <= a)%Q -> (0 <= b)%Q) l l' -> nonneg l -> nonneg l'.
Proof.
  unfold nonneg. induction 1 as [|a b l l' Hab H IH]; intros Hl; constructor;
    inversion Hl; subst; auto.
Qed.

Lemma lower_returns (w : winnow) :
  nonneg (weights w) -> exists t, lower w = Returned t.
Proof.
  intros Hw. unfold lower, ltf2bool.
  destruct (ltf2bool_rec_spec (length (seq 0 (length (weights w)))) (weights w)
              (seq 0 (length (weights w)))
              (to_int (inject_Z (fold_left (fun sum w0 => to_int (inject_Z sum + w0))
                                           (weights w) 0%Z) - theta w))
              Hw (le_n _)) as (t & E & _).
  exists t. exact E.
Qed.

(** X11.  Winnow never makes a weight negative: when the objects given to
    [execute_algorithm] have no negative weight and no negative rate, as
    those that the driver constructs, the trained objects have no negative
    weight either, and [ltf2bool] lowers each of them to a tree without
    running out of attributes. *)
Theorem execute_algorithm_nonneg (fuel : nat) (w_objs : list winnow)
    (dps : list datapoint) (X R : psets) (objs : list winnow) :
  Forall (fun w => nonneg (weights w) /\ (0 <= lr w)%Q) w_objs ->
  execute_algorithm fuel w_objs dps X R = Returned objs ->
  Forall (fun w' => nonneg (weights w') /\ exists t, lower w' = Returned t) objs.
Proof.
  unfold execute_algorithm. intros Hw H.
  assert (Hm : Forall (fun w => nonneg (weights w) /\ (0 <= lr w)%Q)
                 (mask X w_objs)).
  { clear H. unfold mask. generalize 0.
    induction Hw as [|w ws [Hn Hr] Hws IH]; simpl; intros i; constructor.
    - simpl. split; [now apply mask_from_nonneg | assumption].
    - apply IH. }
  assert (Hk : Forall2 (kept (fun a b => (0 <= a)%Q -> (0 <= b)%Q))
                 (mask X w_objs) objs).
  { apply (train_all_kept (fun r => (0 <= r)%Q)
             (fun a b => (0 <= a)%Q -> (0 <= b)%Q)
             (fun a Ha => Ha)
             (fun a b c Hab Hbc Ha => Hbc (Hab Ha))
             (fun r a Hr Ha => nonneg_div r a Hr Ha)
             (fun r a Hr Ha => Qmult_le_0_compat a r Ha Hr)
             fuel (mask X w_objs) (segregate (length w_objs) X dps) objs);
      [|assumption].
    revert Hm. apply Forall_impl. tauto. }
  clear H Hw. induction Hk as [|w w' l l' (Hf & _ & _) Hk IH]; constructor.
  - apply Forall_cons_iff in Hm as [[Hn _] _].
    pose proof (Forall2_nonneg _ _ Hf Hn) as Hn'.
    split; [assumption | now apply lower_returns].
  - apply IH. now apply Forall_cons_iff in Hm as [_ Hm].
Qed.

Lemma execute_algorithm_nonneg_witness :
  Forall (fun w' => nonneg (weights w') /\ exists t, lower w' = Returned t)
    [train_once (mk_winnow [0; 4 # 5]%Q theta_init lr_init)
       [mk_datapoint [0] [0; 1]%Z false true]].
Proof.
  apply (execute_algorithm_nonneg 1 (winnow_objs [(0, 1)])
           [pos [1; 0]%Z] [[1]] []).
  - constructor; [|constructor]. split; [|discriminate].
    repeat constructor; discriminate.
  - reflexivity.
Defined.

(* ------------------------------------------------------------------ *)
(** ** Winnow is driven by mistakes *)

Lemma update_loop_id (f : nat -> Q -> Q) (s n : nat) (ws : list Q) :
  (forall i a, f i a = a) ->
  map (fun iw : nat * Q => let (i, wi) := iw in f i wi) (combine (seq s n) ws)
  = firstn n ws.
Proof.
  intros Hf. revert s ws. induction n as [|n IH]; intros s ws; simpl;
    [reflexivity|].
  destruct ws as [|a ws]; simpl; [reflexivity|]. now rewrite Hf, IH.
Qed.

Lemma update_weights_correct (w : winnow) (dp : datapoint) :
  update_weights w dp (_classification dp) = w.
Proof.
  unfold update_weights.
  rewrite (update_loop_id
             (fun i wi =>
                let wi1 := if negb (_classification dp) && _classification dp
                              && negb (bit dp i =? 0)%Z
                           then (wi / lr w)%Q else wi in
                if _classification dp && negb (_classification dp)
                   && negb (bit dp i =? 0)%Z
                then (wi1 * lr w)%Q else wi1)).
  - rewrite firstn_skipn. now destruct w.
  - intros i a. cbv zeta. now destruct (_classification dp).
Qed.

(** X12.  Winnow is driven by mistakes: a pass of [train_once] over data
    points that the object classifies as labelled leaves the object as it
    is, weights included. *)
Theorem train_once_accurate (w : winnow) (dps : list datapoint) :
  check_acc w dps = true -> train_once w dps = w.
Proof.
  unfold check_acc, train_once. induction dps as [|dp dps IH]; simpl;
    [reflexivity|].
  intros H. apply andb_true_iff in H as [Hd H].
  apply eqb_prop in Hd. rewrite Hd, update_weights_correct. now apply IH.
Qed.

Lemma train_once_accurate_witness :
  train_once (winnow_init 2) [pos [1; 0]%Z; neg [0; 0]%Z] = winnow_init 2.
Proof.
  apply (train_once_accurate (winnow_init 2) [pos [1; 0]%Z; neg [0; 0]%Z]).
  reflexivity.
Defined.

(* ------------------------------------------------------------------ *)
(** ** The training lists of [execute_algorithm] *)

Lemma segregate_fold (X : psets) (dps : list datapoint)
    (acc : list (list datapoint)) (k : nat) :
  k < length acc ->
  length (fold_left (fun winnow_dps dp =>
                       update (loc dp) (fun l => l ++ [invert X dp]) winnow_dps)
                    dps acc) = length acc
  /\ nth k (fold_left (fun winnow_dps dp =>
                         update (loc dp) (fun l => l ++ [invert X dp]) winnow_dps)
                      dps acc) []
     = nth k acc [] ++ map (invert X) (filter (fun dp => loc dp =? k) dps).
Proof.
  revert acc. induction dps as [|dp dps IH]; simpl; intros acc Hk.
  - split; [reflexivity | now rewrite app_nil_r].
  - destruct (IH (update (loc dp) (fun l => l ++ [invert X dp]) acc)) as [L E].
    { now rewrite length_update. }
    rewrite L, E, length_update. split; [reflexivity|].
    rewrite nth_update. rewrite (Nat.eqb_sym (loc dp) k).
    destruct (k =? loc dp) eqn:Ek; simpl; [|reflexivity].
    apply Nat.eqb_eq in Ek. subst k. apply Nat.ltb_lt in Hk. rewrite Hk.
    now rewrite <- app_assoc.
Qed.

(** X13.  [execute_algorithm] hands every object the data points of its
    own location, in the order of the sample, each with the data inverted
    and the label negated; no data point is lost or handed out twice. *)
Theorem segregate_spec (n : nat) (X : psets) (dps : list datapoint) (k : nat) :
  Forall (fun dp => loc dp < n) dps -> k < n ->
  length (segregate n X dps) = n
  /\ nth k (segregate n X dps) []
     = map (invert X) (filter (fun dp => loc dp =? k) dps).
Proof.
  intros _ Hk. unfold segregate.
  destruct (segregate_fold X dps (repeat [] n) k) as [L E].
  { now rewrite repeat_length. }
  rewrite L, E, repeat_length. split; [reflexivity|].
  replace (nth k (repeat (@nil datapoint) n) []) with (@nil datapoint);
    [reflexivity|].
  symmetry. apply nth_repeat.
Qed.

Lemma segregate_spec_witness :
  length (segregate 2 [[0]; [1]]
            [mk_datapoint [1] [1; 0]%Z true true; mk_datapoint [0] [0; 1]%Z false false])
  = 2
  /\ nth 1 (segregate 2 [[0]; [1]]
              [mk_datapoint [1] [1; 0]%Z true true;
               mk_datapoint [0] [0; 1]%Z false false]) []
     = map (invert [[0]; [1]])
         (filter (fun dp => loc dp =? 1)
            [mk_datapoint [1] [1; 0]%Z true true;
             mk_datapoint [0] [0; 1]%Z false false]).
Proof.
  apply (segregate_spec 2 [[0]; [1]]
           [mk_datapoint [1] [1; 0]%Z true true;
            mk_datapoint [0] [0; 1]%Z false false] 1).
  - repeat constructor.
  - lia.
Defined.

(* ------------------------------------------------------------------ *)
(** ** The R file *)

Example write_R_file_example :
  write_R_file "f.R" true [[0; 12]; []; [7]]
  = Returned ("0 12 " ++ String endl "e" ++ String endl "7 ")%string
  /\ read_R_file "f.R" (Some ("0 12 " ++ String endl "e" ++ String endl "7 ")%string)
     = Returned [[0; 12]; []; [7]]
  /\ read_R_file "f.R" (Some (" 3  +1 x 9" ++ String endl EmptyString
                              ++ String endl "-4294967294 5 4294967296 6")%string)
     = Returned [[1; 3]; [2; 5]].
Proof. repeat split; vm_compute; reflexivity. Qed.

Lemma unorm_not_nil (d : Decimal.uint) : Decimal.unorm d <> Decimal.Nil.
Proof. unfold Decimal.unorm. destruct (Decimal.nzhead d); discriminate. Qed.

Lemma to_uint_not_nil (p : nat) : Nat.to_uint p <> Decimal.Nil.
Proof.
  rewrite <- (DecimalNat.Unsigned.of_to p) at 1.
  rewrite DecimalNat.Unsigned.to_of. apply unorm_not_nil.
Qed.

Lemma digits_show (d : Decimal.uint) (a : nat) (seen : bool) (rest : string) :
  (forall acc b, digits rest acc b = (acc, b, rest)) ->
  digits (DecimalString.NilEmpty.string_of_uint d ++ rest) (N.of_nat a) seen
  = (N.of_nat (Nat.of_uint_acc d a),
     seen || match d with Decimal.Nil => false | _ => true end, rest).
Proof.
  intros Hrest. revert a seen.
  induction d as [|d IH|d IH|d IH|d IH|d IH|d IH|d IH|d IH|d IH|d IH];
    intros a seen;
    [ cbn [DecimalString.NilEmpty.string_of_uint append Nat.of_uint_acc];
      now rewrite Hrest, orb_false_r | .. ];
    cbn [DecimalString.NilEmpty.string_of_uint append Nat.of_uint_acc digits];
    match goal with
    | |- context [digit ?c] =>
        let v := eval vm_compute in (digit c) in
        change (digit c) with v
    end;
    cbv iota beta;
    match goal with
    | |- digits _ ?acc true = (N.of_nat (Nat.of_uint_acc _ ?n), _, _) =>
        replace acc with (N.of_nat n) by (rewrite Nat.tail_mul_spec; lia)
    end;
    rewrite IH, orb_true_r; reflexivity.
Qed.

Lemma show_head (p : nat) :
  exists c t,
    show_unsigned p = String c t
    /\ isspace c = false
    /\ Ascii.eqb c minus_sign = false /\ Ascii.eqb c plus_sign = false
    /\ Ascii.eqb c endl = false
    /\ Ascii.eqb c (Ascii.ascii_of_nat 101) = false.
Proof.
  unfold show_unsigned. pose proof (to_uint_not_nil p) as Hn.
  destruct (Nat.to_uint p); [contradiction|..];
    cbn [DecimalString.NilEmpty.string_of_uint];
    do 2 eexists; (split; [reflexivity|]); repeat split; reflexivity.
Qed.

Lemma digits_show_unsigned (p : nat) (r : string) :
  digits (show_unsigned p ++ " " ++ r) 0%N false
  = (N.of_nat p, true, (" " ++ r)%string).
Proof.
  unfold show_unsigned. change 0%N with (N.of_nat 0).
  rewrite digits_show by reflexivity.
  fold (Nat.of_uint (Nat.to_uint p)). rewrite DecimalNat.Unsigned.of_to.
  pose proof (to_uint_not_nil p) as Hn.
  destruct (Nat.to_uint p); [contradiction | reflexivity..].
Qed.

Lemma extract_show (p : nat) (r : string) :
  fits_unsigned p ->
  extract (show_unsigned p ++ " " ++ r)%string = Some (p, (" " ++ r)%string).
Proof.
  intros Hp. unfold extract.
  pose proof (digits_show_unsigned p r) as D.
  destruct (show_head p) as (c & t & Hs & Hsp & Hm & Hpl & _).
  rewrite Hs in *. cbn [append skip_ws] in *. rewrite Hsp, Hm, Hpl, D.
  unfold fits_unsigned in Hp. apply N.leb_le in Hp. rewrite Hp.
  cbn [andb]. now rewrite Nnat.Nat2N.id.
Qed.

Lemma extract_space (s : string) : extract (" " ++ s)%string = extract s.
Proof. reflexivity. Qed.

Lemma read_predicates_spaced (s : pset) (cur : pset) (fuel : nat) :
  Forall fits_unsigned s -> length s <= fuel ->
  read_predicates fuel (" " ++ write_predicates s)%string cur
  = Returned (fold_left (fun acc x => insert x acc) s cur).
Proof.
  revert cur fuel. induction s as [|p s IH]; intros cur fuel Hs Hf.
  - destruct fuel; reflexivity.
  - apply Forall_cons_iff in Hs as [Hp Hs].
    destruct fuel as [|fuel]; [simpl in Hf; lia|].
    cbn [read_predicates write_predicates]. rewrite extract_space.
    rewrite (extract_show p _ Hp). cbn [fold_left].
    apply IH; [assumption | simpl in Hf; lia].
Qed.

Lemma read_predicates_written (s : pset) (cur : pset) (fuel : nat) :
  Forall fits_unsigned s -> length s <= fuel ->
  read_predicates fuel (write_predicates s) cur
  = Returned (fold_left (fun acc x => insert x acc) s cur).
Proof.
  intros Hs Hf. destruct s as [|p s].
  - destruct fuel; reflexivity.
  - apply Forall_cons_iff in Hs as [Hp Hs].
    destruct fuel as [|fuel]; [simpl in Hf; lia|].
    cbn [read_predicates write_predicates].
    rewrite (extract_show p _ Hp). cbn [fold_left].
    apply read_predicates_spaced; [assumption | simpl in Hf; lia].
Qed.

Lemma length_append_r (a b : string) :
  String.length (a ++ b) = String.length a + String.length b.
Proof. induction a as [|c a IH]; simpl; [reflexivity | now rewrite IH]. Qed.

Lemma write_predicates_length (s : pset) :
  length s <= String.length (write_predicates s).
Proof.
  induction s as [|p s IH]; simpl; [lia|].
  rewrite length_append_r. simpl. lia.
Qed.

Lemma ordered_app (a b : pset) :
  ordered (a ++ b) -> forall y z, In y a -> In z b -> y < z.
Proof.
  induction a as [|x a IH]; simpl; intros H y z Hy Hz; [destruct Hy|].
  destruct (ordered_cons_inv _ _ H) as [H' Hx]. destruct Hy as [<-|Hy].
  - apply Hx, in_or_app. now right.
  - now apply IH.
Qed.

Lemma insert_last (x : nat) (s : pset) :
  (forall y, In y s -> y < x) -> insert x s = s ++ [x].
Proof.
  induction s as [|z s IH]; simpl; intros H; [reflexivity|].
  assert (Hz : z < x) by (apply H; now left).
  replace (x <? z) with false by (symmetry; apply Nat.ltb_ge; lia).
  apply Nat.ltb_lt in Hz. rewrite Hz, IH; [reflexivity|].
  intros y Hy. apply H. now right.
Qed.

Lemma fold_insert_ordered (s cur : pset) :
  ordered (cur ++ s) -> fold_left (fun acc x => insert x acc) s cur = cur ++ s.
Proof.
  revert cur. induction s as [|x s IH]; simpl; intros cur H;
    [now rewrite app_nil_r|].
  rewrite insert_last.
  - rewrite IH; rewrite <- app_assoc; [reflexivity | exact H].
  - intros y Hy. apply (ordered_app cur (x :: s) H); [assumption | now left].
Qed.

Lemma one_line_append (a b : string) :
  one_line (a ++ b) = one_line a && one_line b.
Proof.
  induction a as [|c a IH]; simpl; [reflexivity|]. now rewrite IH, andb_assoc.
Qed.

Lemma one_line_uint (d : Decimal.uint) :
  one_line (DecimalString.NilEmpty.string_of_uint d) = true.
Proof. induction d; simpl; auto. Qed.

Lemma one_line_predicates (s : pset) : one_line (write_predicates s) = true.
Proof.
  induction s as [|p s IH]; simpl; [reflexivity|].
  rewrite one_line_append. unfold show_unsigned. rewrite one_line_uint.
  simpl. exact IH.
Qed.

Lemma one_line_conjunction (s : pset) : one_line (write_conjunction s) = true.
Proof. destruct s; [reflexivity | apply one_line_predicates]. Qed.

Lemma getlines_one (l : string) :
  one_line l = true -> l <> EmptyString -> getlines l = [l].
Proof.
  induction l as [|c l IH]; simpl; intros H Hne; [congruence|].
  apply andb_true_iff in H as [Hc Hl]. apply negb_true_iff in Hc. rewrite Hc.
  destruct l as [|c' l]; [reflexivity|].
  rewrite IH; [reflexivity | assumption | discriminate].
Qed.

Lemma getlines_cut (l rest : string) :
  one_line l = true ->
  getlines (l ++ String endl rest) = l :: getlines rest.
Proof.
  induction l as [|c l IH]; simpl; intros H.
  - reflexivity.
  - apply andb_true_iff in H as [Hc Hl]. apply negb_true_iff in Hc. rewrite Hc.
    now rewrite IH.
Qed.

Lemma append_empty_r_local (a : string) : (a ++ EmptyString)%string = a.
Proof. induction a as [|c a IH]; simpl; [reflexivity | now rewrite IH]. Qed.

Lemma write_conjunction_not_empty (s : pset) : write_conjunction s <> EmptyString.
Proof.
  destruct s as [|p s]; [discriminate|]. simpl.
  destruct (show_head p) as (c & t & Hs & _). rewrite Hs. discriminate.
Qed.

Lemma getlines_written (s : pset) (rest : psets) :
  getlines (write_conjunction s ++ write_conjunctions false rest)
  = write_conjunction s :: map write_conjunction rest.
Proof.
  revert s. induction rest as [|s' rest IH]; intros s.
  - simpl. rewrite append_empty_r_local.
    apply getlines_one;
      [apply one_line_conjunction | apply write_conjunction_not_empty].
  - cbn [write_conjunctions map]. cbn [append].
    rewrite getlines_cut by apply one_line_conjunction. now rewrite IH.
Qed.

Lemma read_lines_written (R acc : psets) :
  Forall ordered R -> Forall (Forall fits_unsigned) R ->
  read_lines (map write_conjunction R) acc = Returned (acc ++ R).
Proof.
  revert acc. induction R as [|s R IH]; intros acc Ho Hf; simpl.
  - now rewrite app_nil_r.
  - apply Forall_cons_iff in Ho as [Hs Ho].
    apply Forall_cons_iff in Hf as [Hfs Hf].
    replace (acc ++ s :: R) with ((acc ++ [s]) ++ R)
      by (now rewrite <- app_assoc).
    destruct s as [|p s]; [now apply IH|].
    assert (Hline : read_predicates (String.length (write_predicates (p :: s)))
                      (write_predicates (p :: s)) [] = Returned (p :: s)).
    { rewrite read_predicates_written;
        [|assumption | apply write_predicates_length].
      now rewrite fold_insert_ordered. }
    cbn [write_conjunction]. rewrite Hline. cbn [bind].
    cbn [write_predicates].
    destruct (show_head p) as (c & t & E & _ & _ & _ & _ & He). rewrite E.
    change (Ascii.ascii_of_nat 101)
      with (Ascii.Ascii true false true false false true true false) in He.
    cbn [append String.eqb]. rewrite He. now apply IH.
Qed.

(** X14.  An R file that is written is read back as it was: for sets
    whose predicates fit an [unsigned], [read_R_file] on the text that
    [write_R_file] wrote returns the vector that was written, empty
    conjunctions and the empty vector included. *)
Theorem R_file_round_trip (filename filename' : string) (R : psets) (text : string) :
  Forall ordered R -> Forall (Forall fits_unsigned) R ->
  write_R_file filename true R = Returned text ->
  read_R_file filename' (Some text) = Returned R.
Proof.
  intros Ho Hf [= <-]. unfold read_R_file.
  destruct R as [|s R]; [reflexivity|].
  cbn [write_conjunctions append]. rewrite getlines_written.
  apply (read_lines_written (s :: R) [] Ho Hf).
Qed.

Lemma R_file_round_trip_witness :
  read_R_file "next.R" (Some ("0 12 " ++ String endl "e" ++ String endl "7 ")%string)
  = Returned [[0; 12]; []; [7]].
Proof.
  apply (R_file_round_trip "this.R" "next.R" [[0; 12]; []; [7]]).
  - repeat constructor.
  - repeat constructor; unfold fits_unsigned; vm_compute; discriminate.
  - reflexivity.
Defined.

Lemma skip_ws_length (s : string) : String.length (skip_ws s) <= String.length s.
Proof.
  induction s as [|c s IH]; simpl; [lia|]. destruct (isspace c); simpl; lia.
Qed.

Lemma digits_length (s : string) (acc : N) (seen : bool) :
  String.length (snd (digits s acc seen)) <= String.length s
  /\ (seen = false -> snd (fst (digits s acc seen)) = true ->
      String.length (snd (digits s acc seen)) < String.length s).
Proof.
  revert acc seen. induction s as [|c s IH]; simpl; intros acc seen.
  - split; [lia|]. intros -> H. discriminate.
  - destruct (digit c) as [d|]; simpl.
    + destruct (IH (acc * 10 + d)%N true) as [H1 _]. split; [lia|]. intros _ _. lia.
    + split; [lia|]. intros -> H. discriminate.
Qed.

Lemma extract_shorter (s : string) (p : nat) (rest : string) :
  extract s = Some (p, rest) -> String.length rest < String.length s.
Proof.
  unfold extract. pose proof (skip_ws_length s) as Hw.
  set (s1 := skip_ws s) in *.
  assert (Hs2 : forall negative s2,
             (match s1 with
              | EmptyString => (false, s1)
              | String c r =>
                  if Ascii.eqb c minus_sign then (true, r)
                  else if Ascii.eqb c plus_sign then (false, r)
                  else (false, s1)
              end) = (negative, s2) -> String.length s2 <= String.length s1).
  { intros negative s2. destruct s1 as [|c r]; [intros [= _ <-]; lia|].
    destruct (Ascii.eqb c minus_sign); [intros [= _ <-]; simpl; lia|].
    destruct (Ascii.eqb c plus_sign); intros [= _ <-]; simpl; lia. }
  destruct (match s1 with
            | EmptyString => (false, s1)
            | String c r =>
                if Ascii.eqb c minus_sign then (true, r)
                else if Ascii.eqb c plus_sign then (false, r)
                else (false, s1)
            end) as [negative s2].
  specialize (Hs2 negative s2 eq_refl).
  pose proof (digits_length s2 0%N false) as [_ Hd].
  destruct (digits s2 0%N false) as [[v seen] s3]. simpl in Hd.
  destruct seen; [|discriminate]. specialize (Hd eq_refl eq_refl).
  destruct (v <=? UINT_MAX)%N; [|discriminate]. intros [= _ <-]. lia.
Qed.

Lemma read_predicates_returns (fuel : nat) (s : string) (cur : pset) :
  String.length s <= fuel -> ordered cur ->
  exists r, read_predicates fuel s cur = Returned r /\ ordered r.
Proof.
  revert s cur. induction fuel as [|fuel IH]; intros s cur Hf Hc.
  - destruct s; [|simpl in Hf; lia]. exists cur. now split.
  - cbn [read_predicates]. destruct (extract s) as [[p rest]|] eqn:E.
    + apply extract_shorter in E. apply IH; [lia | now apply ordered_insert].
    + exists cur. now split.
Qed.

Lemma read_lines_returns (lines : list string) (R : psets) :
  Forall ordered R ->
  exists R',
    read_lines lines R = Returned R' /\ Forall ordered R'
    /\ length R'
       = length R
         + length (filter (fun line => negb (String.eqb line EmptyString)) lines).
Proof.
  revert R. induction lines as [|line lines IH]; intros R HR; simpl.
  - exists R. split; [reflexivity|]. split; [assumption | lia].
  - destruct (String.eqb line EmptyString); simpl; [now apply IH|].
    destruct (String.eqb line "e").
    + destruct (IH (R ++ [[]])) as (R' & E & Ho & L).
      { apply Forall_app. split; [assumption | repeat constructor]. }
      exists R'. split; [assumption|]. split; [assumption|].
      rewrite L, length_app. simpl. lia.
    + destruct (read_predicates_returns (String.length line) line [] (le_n _))
        as (r & E & Hr); [constructor|].
      rewrite E. cbn [bind].
      destruct (IH (R ++ [r])) as (R' & E' & Ho & L).
      { apply Forall_app. split; [assumption | now constructor]. }
      exists R'. split; [assumption|]. split; [assumption|].
      rewrite L, length_app. simpl. lia.
Qed.

(** X15.  Reading an R file that could be opened never fails, whatever the
    text: no exception and no extraction loop that goes on for ever; every
    line that is not empty gives one set, an empty line gives none. *)
Theorem read_R_file_returns (filename : string) (text : string) :
  exists R,
    read_R_file filename (Some text) = Returned R
    /\ Forall ordered R
    /\ length R
       = length (filter (fun line => negb (String.eqb line EmptyString))
                   (getlines text)).
Proof.
  unfold read_R_file.
  destruct (read_lines_returns (getlines text) []) as (R & E & Ho & L);
    [constructor|].
  exists R. split; [assumption|]. split; [assumption | exact L].
Qed.

(* ------------------------------------------------------------------ *)
(** ** Horndini on a growing sample *)

(** X16.  A growing sample makes the hypothesis of Horndini shrink: when
    Horndini returns [X'] on a sample, then on every part of the sample
    (fewer data points, fewer Horn constraints, the same intervals) it does
    not throw, and what it returns has [X'] as a part. *)
Theorem horndini_antitone (dps dps' : list datapoint)
    (hcs hcs' : list horn_constraint) (intervals : list (nat * nat))
    (X' : psets) :
  incl dps dps' -> incl hcs hcs' ->
  horndini dps' hcs' intervals = Returned X' ->
  (forall w, horndini dps hcs intervals <> Thrown w)
  /\ forall X, horndini dps hcs intervals = Returned X -> included X' X.
Proof.
  intros Hd Hh H'.
  destruct (horndini_admissible dps' hcs' intervals X' H') as (Hw & [HP HH] & _).
  apply horndini_returned in H' as [Hne _].
  assert (HP' : forall dp, In dp (filter is_positive dps) ->
                           satisfies dp (at_loc X' (loc dp)) = true).
  { intros dp Hin. apply filter_In in Hin as [Hin Hp]. apply HP; auto. }
  assert (HH' : forall hc, In hc hcs -> respects X' hc) by auto.
  destruct (loop_model X' (S (length hcs)) (filter is_positive dps) hcs
              (map interval_set intervals)
              (proj1 (within_included X' intervals) Hw) HP' HH') as [Hnt Hret].
  unfold horndini, horndini_conjunctions.
  destruct intervals as [|iv ivs]; [congruence|]. split; [exact Hnt | exact Hret].
Qed.

Lemma horndini_antitone_witness :
  (forall w, horndini [S3_a] [] [(0, 3)] <> Thrown w)
  /\ forall X, horndini [S3_a] [] [(0, 3)] = Returned X -> included [[0]] X.
Proof.
  apply (horndini_antitone [S3_a] S3_data [] S3_horn [(0, 3)] [[0]]).
  - intros dp [<-|[]]. now left.
  - intros hc [].
  - reflexivity.
Defined.

(* ------------------------------------------------------------------ *)
(** ** The shape of the tree of [ltf2bool] *)

Lemma ltf2bool_rec_within (fuel : nat) (ws : list Q) (J : pset) (theta0 : Z)
    (t : tree) :
  nonneg ws -> ltf2bool_rec fuel ws J theta0 = Returned t ->
  tree_within J t /\ depth t <= length J.
Proof.
  intros Hws. revert fuel J theta0 t.
  assert (Hstep : forall fuel J theta0 t,
             (forall J' theta' t', ltf2bool_rec fuel ws J' theta' = Returned t' ->
                                   tree_within J' t' /\ depth t' <= length J') ->
             ltf2bool_rec (S fuel) ws J theta0 = Returned t ->
             tree_within J t /\ depth t <= length J).
  { intros fuel J theta0 t IH H. cbn [ltf2bool_rec] in H.
    destruct (theta0 <=? 0)%Z eqn:Ht.
    { injection H as <-. simpl. split; [exact I | lia]. }
    destruct (scan_spec ws J Hws) as (max & idx & Es & Hsel). rewrite Es in H.
    destruct (theta0 <? total ws J)%Z eqn:Hsum.
    - apply Z.leb_gt in Ht. apply Z.ltb_lt in Hsum.
      assert (Hne : J <> []) by (intros ->; simpl in Hsum; lia).
      destruct (Hsel Hne) as (j & Hj & -> & -> & _).
      rewrite erase_idx_of_nat, Nat2Z.id in H.
      bind_inv H. bind_inv H. injection H as <-.
      destruct (IH _ _ _ E) as [W1 D1]. destruct (IH _ _ _ E0) as [W2 D2].
      pose proof (length_erase J j Hj) as HL. simpl.
      split; [auto|]. lia.
    - injection H as <-. simpl. split; [exact I | lia]. }
  induction fuel as [|fuel IH]; intros J theta0 t H.
  - cbn [ltf2bool_rec] in H.
    destruct (theta0 <=? 0)%Z; [injection H as <-; simpl; split; [exact I | lia]|].
    destruct (scan ws J) as [[sum max] idx].
    destruct (theta0 <? sum)%Z; [discriminate|].
    injection H as <-. simpl. split; [exact I | lia].
  - apply (Hstep fuel J theta0 t IH H).
Qed.

(** X17.  The tree that [ltf2bool] builds for weights that are not
    negative tests attributes of [J] only and no attribute twice on a path;
    it is at most as deep as [J] has attributes. *)
Theorem ltf2bool_tree_shape (w : winnow) (J : pset) (theta0 : Z) (t : tree) :
  nonneg (weights w) -> ltf2bool w J theta0 = Returned t ->
  tree_within J t /\ depth t <= length J.
Proof. intros Hw H. apply (ltf2bool_rec_within _ _ _ _ _ Hw H). Qed.

Lemma ltf2bool_tree_shape_witness :
  tree_within [0; 1] (node 1 (leaf false) (leaf true))
  /\ depth (node 1 (leaf false) (leaf true)) <= length [0; 1].
Proof.
  apply (ltf2bool_tree_shape (mk_winnow [1; 2]%Q 0 1) [0; 1] 2).
  - repeat constructor; discriminate.
  - reflexivity.
Defined.

(* ------------------------------------------------------------------ *)
(** ** [satisfies] and the order of conjunctions *)

(** X18.  A larger conjunction is satisfied by fewer data points: a data
    point that satisfies a conjunction satisfies every part of it, and a
    data point that fails a conjunction fails whatever it is a part of, in
    whatever order and however often the predicates are listed. *)
Theorem satisfies_antitone (dp : datapoint) (c c' : pset) :
  (forall i, In i c -> In i c') ->
  (satisfies dp c' = true -> satisfies dp c = true)
  /\ (satisfies dp c = false -> satisfies dp c' = false).
Proof.
  intros Hsub.
  assert (H : satisfies dp c' = true -> satisfies dp c = true).
  { rewrite !satisfies_iff. auto. }
  split; [exact H|]. intros Hc.
  destruct (satisfies dp c'); [|reflexivity]. rewrite H in Hc; auto.
Qed.

Lemma satisfies_antitone_witness :
  (satisfies S3_b [3; 0; 1] = true -> satisfies S3_b [0; 1] = true)
  /\ (satisfies S3_b [0; 1] = false -> satisfies S3_b [3; 0; 1] = false).
Proof.
  apply (satisfies_antitone S3_b [0; 1] [3; 0; 1]).
  intros i [<-|[<-|[]]]; simpl; auto.
Defined.

(* ------------------------------------------------------------------ *)
(** ** [reduce_predicates_minimal]: the constraints it hands to the solver *)

Lemma map_fst_combine_seq (s : pset) (a : nat) :
  map fst (combine s (seq a (length s))) = s.
Proof.
  revert a. induction s as [|x s IH]; simpl; intros a; [reflexivity|].
  now rewrite IH.
Qed.

Lemma make_variables_spec (X_minus_R : psets) (var_count : nat) :
  length (fst (make_variables var_count X_minus_R)) = length X_minus_R
  /\ forall i, map fst (nth i (fst (make_variables var_count X_minus_R)) [])
               = at_loc X_minus_R i.
Proof.
  revert var_count. induction X_minus_R as [|s rest IH]; simpl; intros n.
  - split; [reflexivity|]. intros i. unfold at_loc. now destruct i.
  - destruct (IH (n + length s)) as [L K].
    destruct (make_variables (n + length s) rest) as [ms n']. simpl in *.
    split; [now rewrite L|]. intros [|i]; unfold at_loc; simpl.
    + apply map_fst_combine_seq.
    + apply K.
Qed.

Lemma expr_at_spec (p : nat) (m : list (nat * nat)) :
  (forall e, expr_at p m = Some e -> exists v, e = constant v /\ In (p, v) m)
  /\ (In p (map fst m) -> exists e, expr_at p m = Some e).
Proof.
  induction m as [|[q v] m [IH1 IH2]]; simpl.
  - split; [discriminate | tauto].
  - destruct (p =? q) eqn:E.
    + apply Nat.eqb_eq in E. subst q. split; [|eauto].
      intros e [= <-]. exists v. auto.
    + apply Nat.eqb_neq in E. split.
      * intros e He. destruct (IH1 e He) as (v' & -> & Hin). eauto.
      * intros [Hq|Hin]; [congruence | auto].
Qed.

Lemma negative_clause_spec (dp : datapoint) (XmRi : pset) (m : list (nat * nat))
    (clause : expr) :
  (forall p, In p XmRi -> In p (map fst m)) ->
  exists c,
    negative_clause dp XmRi m clause = Returned c
    /\ forall model, eval model c = true ->
         eval model clause = true
         \/ exists p v, bit dp p = 0%Z /\ In (p, v) m /\ model v = true.
Proof.
  revert clause. induction XmRi as [|p rest IH]; simpl; intros clause Hk.
  - exists clause. split; [reflexivity | auto].
  - assert (Hk' : forall q, In q rest -> In q (map fst m)) by auto.
    destruct (bit dp p =? 0)%Z eqn:Hb; [|now apply IH].
    apply Z.eqb_eq in Hb.
    destruct (proj2 (expr_at_spec p m) (Hk p (or_introl eq_refl))) as [e He].
    rewrite He. destruct (proj1 (expr_at_spec p m) e He) as (v & -> & Hin).
    destruct (IH (or_ clause (constant v)) Hk') as (c & Ec & Hc).
    exists c. split; [assumption|]. intros model Hm.
    destruct (Hc model Hm) as [Ho|Hex]; [|now right].
    simpl in Ho. apply orb_true_iff in Ho as [Ho|Ho]; [now left|].
    right. exists p, v. auto.
Qed.

Lemma negatives_minimal_spec (dps : list datapoint) (R M : psets)
    (attr2expr : list (list (nat * nat))) (neg_expr : expr) :
  (forall i, map fst (nth i attr2expr []) = at_loc M i) ->
  exists e,
    negatives_minimal dps R M attr2expr neg_expr = Returned e
    /\ forall model, eval model e = true ->
         eval model neg_expr = true
         /\ forall dp, In dp dps -> is_negative dp = true ->
                       satisfies dp (at_loc R (loc dp)) = true ->
                       falsified model attr2expr dp.
Proof.
  intros Hk. revert neg_expr. induction dps as [|dp dps IH]; simpl; intros neg_expr.
  - exists neg_expr. split; [reflexivity|]. intros model Hm.
    split; [assumption | intros ? []].
  - destruct (is_negative dp && satisfies dp (at_loc R (loc dp))) eqn:Hc.
    + destruct (negative_clause_spec dp (at_loc M (loc dp))
                  (nth (loc dp) attr2expr []) (bool_val false))
        as (c & Ec & Hcl).
      { intros p Hp. now rewrite Hk. }
      rewrite Ec. cbn [bind].
      destruct (IH (and_ neg_expr c)) as (e & Ee & He).
      exists e. split; [assumption|]. intros model Hm.
      destruct (He model Hm) as [Ha Hrest]. simpl in Ha.
      apply andb_true_iff in Ha as [Hn Hcc]. split; [assumption|].
      intros d [<-|Hin] Hneg Hsat; [|now apply Hrest].
      destruct (Hcl model Hcc) as [Hf|(p & v & Hb & Hin & Hv)];
        [discriminate|].
      exists p. split; [assumption|]. exists v. auto.
    + destruct (IH neg_expr) as (e & Ee & He).
      exists e. split; [assumption|]. intros model Hm.
      destruct (He model Hm) as [Ha Hrest]. split; [assumption|].
      intros d [<-|Hin] Hneg Hsat; [|now apply Hrest].
      rewrite Hneg, Hsat in Hc. discriminate.
Qed.

Lemma pair_clause_spec (model : nat -> bool) (dp : datapoint)
    (l : list (nat * nat)) (clause : expr) :
  eval model (fold_left (fun c pair => if (bit dp (fst pair) =? 0)%Z
                                       then or_ c (constant (snd pair)) else c)
                        l clause) = true ->
  eval model clause = true
  \/ exists p v, In (p, v) l /\ bit dp p = 0%Z /\ model v = true.
Proof.
  revert clause. induction l as [|[p v] l IH]; simpl; intros clause H; [now left|].
  apply IH in H as [H|(p' & v' & Hin & Hb & Hv)].
  - destruct (bit dp p =? 0)%Z eqn:Hb; [|now left].
    apply Z.eqb_eq in Hb. simpl in H. apply orb_true_iff in H as [H|H];
      [now left|]. right. exists p, v. auto.
  - right. exists p', v'. auto.
Qed.

Lemma premise_clause_spec (model : nat -> bool)
    (attr2expr : list (list (nat * nat))) (premises : list datapoint)
    (clause : expr) :
  eval model (fold_left (premise_clause attr2expr) premises clause) = true ->
  eval model clause = true
  \/ exists dp, In dp premises /\ falsified model attr2expr dp.
Proof.
  revert clause. induction premises as [|dp l IH]; simpl; intros clause H;
    [now left|].
  apply IH in H as [H|(d & Hin & Hf)].
  - unfold premise_clause in H.
    apply pair_clause_spec in H as [H|(p & v & Hin & Hb & Hv)]; [now left|].
    right. exists dp. split; [now left|]. exists p. split; [assumption|].
    exists v. auto.
  - right. exists d. auto.
Qed.

Lemma conclusion_guard_fold (model : nat -> bool) (d : datapoint)
    (l : list (nat * nat)) (e : expr) :
  eval model (fold_left (fun e pair => if (bit d (fst pair) =? 0)%Z
                                       then and_ e (not_ (constant (snd pair)))
                                       else e) l e) = true ->
  eval model e = true
  /\ forall p v, In (p, v) l -> bit d p = 0%Z -> model v = false.
Proof.
  revert e. induction l as [|[p v] l IH]; simpl; intros e H.
  - split; [assumption | intros ? ? []].
  - apply IH in H as [H Hrest]. destruct (bit d p =? 0)%Z eqn:Hb.
    + simpl in H. apply andb_true_iff in H as [He Hv].
      apply negb_true_iff in Hv. split; [assumption|].
      intros p' v' [[= <- <-]|Hin] Hb'; [assumption | eauto].
    + apply Z.eqb_neq in Hb. split; [assumption|].
      intros p' v' [[= <- <-]|Hin] Hb'; [contradiction | eauto].
Qed.

Lemma conclusion_guard_spec (model : nat -> bool)
    (attr2expr : list (list (nat * nat))) (d : datapoint) :
  eval model (conclusion_guard attr2expr d) = true ->
  ~ falsified model attr2expr d.
Proof.
  unfold conclusion_guard. intros H (p & Hb & v & Hin & Hv).
  apply conclusion_guard_fold in H as [_ H].
  rewrite (H p v Hin Hb) in Hv. discriminate.
Qed.

Lemma horn_minimal_spec (hcs : list horn_constraint) (R : psets)
    (attr2expr : list (list (nat * nat))) (horn_expr : expr) :
  Forall (valid_horn (length R)) hcs ->
  exists e,
    horn_minimal hcs R attr2expr horn_expr = Returned e
    /\ forall model, eval model e = true ->
         eval model horn_expr = true
         /\ forall hc, In hc hcs ->
              lhs_satisfied R (_premises hc) = true ->
              (exists dp, In dp (_premises hc) /\ falsified model attr2expr dp)
              \/ exists d, _conclusion hc = Some d
                           /\ satisfies d (at_loc R (loc d)) = true
                           /\ ~ falsified model attr2expr d.
Proof.
  intros Hv. revert horn_expr.
  induction Hv as [|hc hcs [Hvp _] Hv IH]; intros horn_expr.
  - exists horn_expr. split; [reflexivity|]. intros model Hm.
    split; [assumption | intros ? []].
  - cbn [horn_minimal]. rewrite (check_lhs_true R (_premises hc) Hvp).
    cbn [bind].
    destruct (lhs_satisfied R (_premises hc)) eqn:Hl.
    + destruct (conclusion_satisfied R (_conclusion hc)) eqn:Hc; cbn [andb negb].
      * apply conclusion_satisfied_iff in Hc as (d & Hd & Hsat). rewrite Hd.
        destruct (IH (and_ horn_expr
                        (or_ (fold_left (premise_clause attr2expr) (_premises hc)
                                (bool_val false))
                             (conclusion_guard attr2expr d))))
          as (e & Ee & He).
        exists e. split; [assumption|]. intros model Hm.
        destruct (He model Hm) as [Ha Hrest]. simpl in Ha.
        apply andb_true_iff in Ha as [Hh Hcl]. split; [assumption|].
        intros h [<-|Hin] Hlh; [|now apply Hrest].
        apply orb_true_iff in Hcl as [Hcl|Hg].
        -- apply premise_clause_spec in Hcl as [Hf|Hex]; [discriminate|].
           now left.
        -- right. exists d. split; [assumption|]. split; [assumption|].
           now apply conclusion_guard_spec.
      * destruct (IH (and_ horn_expr
                        (fold_left (premise_clause attr2expr) (_premises hc)
                           (bool_val false))))
          as (e & Ee & He).
        exists e. split; [assumption|]. intros model Hm.
        destruct (He model Hm) as [Ha Hrest]. simpl in Ha.
        apply andb_true_iff in Ha as [Hh Hcl]. split; [assumption|].
        intros h [<-|Hin] Hlh; [|now apply Hrest].
        apply premise_clause_spec in Hcl as [Hf|Hex]; [discriminate|].
        now left.
    + cbn [andb]. destruct (IH horn_expr) as (e & Ee & He).
      exists e. split; [assumption|]. intros model Hm.
      destruct (He model Hm) as [Ha Hrest]. split; [assumption|].
      intros h [<-|Hin] Hlh; [congruence | now apply Hrest].
Qed.

Lemma fold_model_spec (model : nat -> bool) (m : list (nat * nat)) (r : pset)
    (i : nat) :
  In i (fold_left (fun r pair => if model (snd pair : nat)
                                 then insert (fst pair) r else r) m r)
  <-> In i r \/ exists v, In (i, v) m /\ model v = true.
Proof.
  revert r. induction m as [|[p v] m IH]; simpl; intros r.
  - split; [auto | intros [H|(v & [] & _)]; exact H].
  - rewrite IH. destruct (model v) eqn:Hv.
    + rewrite In_insert. split.
      * intros [[->|H]|(v' & Hin & Hv')]; eauto.
      * intros [H|(v' & [[= <- <-]|Hin] & Hv')]; eauto.
    + split.
      * intros [H|(v' & Hin & Hv')]; eauto.
      * intros [H|(v' & [[= <- <-]|Hin] & Hv')]; [auto | congruence | eauto].
Qed.

Lemma add_model_fold (model : nat -> bool) (attr2expr : list (list (nat * nat)))
    (R : psets) (j i p : nat) :
  In p (at_loc (fst (fold_left
                       (fun (st : psets * nat) m =>
                          (update (snd st)
                             (fun r => fold_left
                                         (fun r pair => if model (snd pair : nat)
                                                        then insert (fst pair) r
                                                        else r) m r)
                             (fst st),
                           S (snd st)))
                       attr2expr (R, j))) i)
  <-> In p (at_loc R i)
      \/ (j <= i /\ i < length R
          /\ exists v, In (p, v) (nth (i - j) attr2expr []) /\ model v = true).
Proof.
  revert R j. induction attr2expr as [|m rest IH]; intros R j; cbn [fold_left fst snd].
  - split; [auto|]. intros [H|(_ & _ & v & Hin & _)]; [exact H|].
    now destruct (i - j).
  - rewrite IH. rewrite length_update. unfold at_loc at 1. rewrite nth_update.
    destruct (Nat.eq_dec i j) as [->|Hne].
    + rewrite Nat.eqb_refl. cbn [andb].
      destruct (j <? length R) eqn:Hj.
      * apply Nat.ltb_lt in Hj. rewrite fold_model_spec, Nat.sub_diag. cbn [nth].
        fold (at_loc R j). split.
        -- intros [[H|H]|(Hlt & _)]; [auto | | lia].
           right. split; [lia|]. split; [assumption | exact H].
        -- intros [H|(_ & _ & H)]; auto.
      * apply Nat.ltb_ge in Hj. fold (at_loc R j). split.
        -- intros [H|(Hlt & _)]; [auto | lia].
        -- intros [H|(_ & Hlt & _)]; [auto | lia].
    + apply Nat.eqb_neq in Hne. rewrite Hne. cbn [andb]. fold (at_loc R i).
      apply Nat.eqb_neq in Hne. split.
      * intros [H|(Hle & Hlt & v & Hin & Hv)]; [auto|].
        right. split; [lia|]. split; [assumption|]. exists v.
        replace (i - j) with (S (i - S j)) by lia. auto.
      * intros [H|(Hle & Hlt & v & Hin & Hv)]; [auto|].
        right. split; [lia|]. split; [assumption|]. exists v.
        replace (i - j) with (S (i - S j)) in Hin by lia. auto.
Qed.

Lemma add_model_spec (model : nat -> bool) (attr2expr : list (list (nat * nat)))
    (R : psets) (i p : nat) :
  In p (at_loc (add_model model attr2expr R) i)
  <-> In p (at_loc R i) \/ (i < length R /\ selected model attr2expr i p).
Proof.
  unfold add_model, selected. rewrite add_model_fold, Nat.sub_0_r. split.
  - intros [H|(_ & Hlt & H)]; auto.
  - intros [H|(Hlt & H)]; [auto|]. right. split; [lia | auto].
Qed.

Lemma solve_cases (fuel : nat) (check : solver) (k var_count : nat)
    (neg_expr horn_expr : expr) (attr2expr : list (list (nat * nat))) (R : psets) :
  sound check -> var_count <= fuel + k ->
  solve (S fuel) check k var_count neg_expr horn_expr attr2expr R
  = Thrown msg_bound
  \/ exists model,
       eval model neg_expr = true /\ eval model horn_expr = true
       /\ solve (S fuel) check k var_count neg_expr horn_expr attr2expr R
          = Returned (add_model model attr2expr R).
Proof.
  intros Hs. revert k. induction fuel as [|fuel IH]; intros k Hf; cbn [solve].
  - destruct (check _) as [model|] eqn:E.
    + right. exists model. apply Hs in E.
      inversion E as [|? ? H1 E1]; subst. inversion E1 as [|? ? H2 E2]; subst.
      auto.
    + replace (var_count <=? k) with true by (symmetry; apply Nat.leb_le; lia).
      now left.
  - destruct (check _) as [model|] eqn:E.
    + right. exists model. apply Hs in E.
      inversion E as [|? ? H1 E1]; subst. inversion E1 as [|? ? H2 E2]; subst.
      auto.
    + destruct (var_count <=? k); [now left|]. apply IH. lia.
Qed.

Lemma falsified_fails (model : nat -> bool) (attr2expr : list (list (nat * nat)))
    (R : psets) (dp : datapoint) :
  falsified model attr2expr dp -> loc dp < length R ->
  satisfies dp (at_loc (add_model model attr2expr R) (loc dp)) = false.
Proof.
  intros (p & Hb & Hsel) Hl. apply satisfies_false_iff. exists p.
  split; [|assumption]. apply add_model_spec. auto.
Qed.

Lemma add_model_grows (model : nat -> bool) (attr2expr : list (list (nat * nat)))
    (R : psets) :
  included R (add_model model attr2expr R).
Proof. intros k i Hi. apply add_model_spec. now left. Qed.

(** What a call of the reducer minimal comes to with a sound solver. *)
Lemma reduce_minimal_cases (check : solver) (dps : list datapoint)
    (hcs : list horn_constraint) (X R : psets) :
  sound check ->
  X <> [] -> length X = length R ->
  Forall ordered X -> Forall ordered R ->
  valid_locations (length X) dps hcs ->
  (forall dp, In dp dps -> is_positive dp = true ->
              satisfies dp (at_loc X (loc dp)) = true) ->
  reduce_predicates_minimal check dps hcs X R = Thrown msg_bound
  \/ exists R',
       reduce_predicates_minimal check dps hcs X R = Returned R'
       /\ consistent R' dps hcs /\ included R' X.
Proof.
  intros Hs Hne Hlen HX HR [Hvd Hvh] Hpos.
  unfold reduce_predicates_minimal.
  rewrite (check_arguments_ok X R Hne Hlen). cbn [bind].
  pose proof (prepare_sets_split X R Hlen HX HR) as Hsp.
  destruct (prepare_sets X R (empty_sets (length X))) as [R0 M0].
  cbn [fst snd] in Hsp. destruct Hsp as (LR & LM & Hk).
  destruct (make_variables_spec M0 0) as [La Ka].
  destruct (make_variables 0 M0) as [attr2expr var_count]. cbn [fst] in La, Ka.
  destruct (negatives_minimal_spec dps R0 M0 attr2expr (bool_val true) Ka)
    as (ne & En & Hn).
  rewrite En. cbn [bind].
  rewrite <- LR in Hvh, Hvd.
  destruct (horn_minimal_spec hcs R0 attr2expr (bool_val true) Hvh)
    as (he & Eh & Hh).
  rewrite Eh. cbn [bind].
  destruct (solve_cases var_count check 1 var_count ne he attr2expr R0 Hs)
    as [Et|(model & Mn & Mh & Er)]; [lia | left; now rewrite Et|].
  right. rewrite Er. cbn [bind].
  set (R' := add_model model attr2expr R0).
  destruct (Hn model Mn) as [_ Hneg]. destruct (Hh model Mh) as [_ Hhorn].
  assert (Hinc : included R' X).
  { intros k i Hi. apply add_model_spec in Hi as [Hi|(_ & v & Hin & _)].
    - apply (Hk k). now left.
    - apply (Hk k). right. rewrite <- Ka. apply in_map_iff.
      exists (i, v). split; [reflexivity | assumption]. }
  assert (Hc : consistent R' dps hcs).
  { split; [|split].
    - intros dp Hin Hp.
      apply (satisfies_subset dp (at_loc X (loc dp))); [apply Hinc | auto].
    - intros dp Hin Hng.
      rewrite Forall_forall in Hvd. specialize (Hvd dp Hin).
      destruct (satisfies dp (at_loc R0 (loc dp))) eqn:Hsat.
      + apply falsified_fails; [now apply Hneg | assumption].
      + apply satisfies_false_iff in Hsat as (i & Hi & Hb).
        apply satisfies_false_iff. exists i. split; [|assumption].
        now apply add_model_grows.
    - intros hc Hin Hprem.
      rewrite Forall_forall in Hvh. destruct (Hvh hc Hin) as [Hvp _].
      rewrite Forall_forall in Hvp.
      assert (Hl : lhs_satisfied R0 (_premises hc) = true).
      { apply lhs_satisfied_iff. intros p Hp.
        apply (satisfies_subset p (at_loc R' (loc p)));
          [apply add_model_grows | auto]. }
      destruct (Hhorn hc Hin Hl) as [(dp & Hdp & Hf)|(d & Hd & Hsat & Hnf)].
      + pose proof (falsified_fails model attr2expr R0 dp Hf (Hvp dp Hdp)) as Hx.
        fold R' in Hx. rewrite (Hprem dp Hdp) in Hx. discriminate.
      + exists d. split; [assumption|]. apply satisfies_iff.
        intros i Hi Hb. apply add_model_spec in Hi as [Hi|(_ & Hsel)].
        * apply (proj1 (satisfies_iff d _) Hsat i Hi Hb).
        * apply Hnf. exists i. auto. }
  replace (is_consistent R' dps hcs) with true
    by (symmetry; now apply is_consistent_iff).
  cbn [assert bind]. exists R'. auto.
Qed.

(** X19.  The constraints that [reduce_predicates_minimal] hands to the
    solver are right: with a sound solver (the model of an answer sat makes
    the assertions true), valid locations and an [X] that every positive
    data point satisfies, the reducer either throws "k >= var_count" or
    returns an [R] within [X] that is consistent with the data points and
    the Horn constraints; its last assertion does not fail and no lookup of
    a constant is out of range. *)
Theorem minimal_sound (check : solver) (dps : list datapoint)
    (hcs : list horn_constraint) (X R : psets) :
  sound check ->
  X <> [] -> length X = length R ->
  Forall ordered X -> Forall ordered R ->
  valid_locations (length X) dps hcs ->
  (forall dp, In dp dps -> is_positive dp = true ->
              satisfies dp (at_loc X (loc dp)) = true) ->
  reduce_predicates_minimal check dps hcs X R = Thrown msg_bound
  \/ exists R',
       reduce_predicates_minimal check dps hcs X R = Returned R'
       /\ consistent R' dps hcs /\ included R' X.
Proof. apply reduce_minimal_cases. Qed.

Lemma minimal_sound_witness :
  reduce_predicates_minimal
    (fun q => if forallb (eval (fun n => n =? 2)) q
              then Some (fun n => n =? 2) else None)
    S2_data [] [[0; 1; 2; 3]] [[]] = Thrown msg_bound
  \/ exists R',
       reduce_predicates_minimal
         (fun q => if forallb (eval (fun n => n =? 2)) q
                   then Some (fun n => n =? 2) else None)
         S2_data [] [[0; 1; 2; 3]] [[]] = Returned R'
       /\ consistent R' S2_data [] /\ included R' [[0; 1; 2; 3]].
Proof.
  apply (minimal_sound
           (fun q => if forallb (eval (fun n => n =? 2)) q
                     then Some (fun n => n =? 2) else None)
           S2_data [] [[0; 1; 2; 3]] [[]]).
  - intros q m H. destruct (forallb (eval (fun n => n =? 2)) q) eqn:E;
      [|discriminate].
    injection H as <-. apply Forall_forall. now apply forallb_forall.
  - discriminate.
  - reflexivity.
  - repeat constructor.
  - repeat constructor.
  - split; repeat constructor.
  - intros dp [<-|[<-|[]]] Hp; [reflexivity | discriminate].
Defined.

(* ------------------------------------------------------------------ *)
(** ** The perceptron *)

Lemma perceptron_update_step_length (rate : Q) (dp : datapoint) (p : bool)
    (l : list nat) (ws : list Q) :
  length (fold_left (perceptron.update_step rate dp p) l ws) = length ws.
Proof.
  revert ws. induction l as [|i l IH]; simpl; intros ws; [reflexivity|].
  rewrite IH. unfold perceptron.update_step. now rewrite !length_update.
Qed.

Lemma perceptron_train_once_frame (dps : list datapoint) (w : perceptron.perceptron) :
  perceptron.theta (perceptron.train_once w dps) = perceptron.theta w
  /\ perceptron.lr (perceptron.train_once w dps) = perceptron.lr w
  /\ length (perceptron.weights (perceptron.train_once w dps))
     = length (perceptron.weights w).
Proof.
  unfold perceptron.train_once. revert w.
  induction dps as [|dp dps IH]; simpl; intros w; [auto|].
  destruct (IH (perceptron.update_weights w dp (perceptron.predict w dp)))
    as (T & L & N).
  rewrite T, L, N. simpl. rewrite perceptron_update_step_length. auto.
Qed.

(** X20.  Perceptron training stops only on perfect accuracy and touches
    nothing but the weights: when [train] returns, the object classifies
    every data point of the list as it is labelled, and its threshold, its
    rate and the number of its weights are those it started with. *)
Theorem perceptron_train_stops_accurate (fuel : nat) (dps : list datapoint)
    (w w' : perceptron.perceptron) :
  perceptron.train fuel w dps = Returned w' ->
  perceptron.check_acc w' dps = true
  /\ perceptron.theta w' = perceptron.theta w
  /\ perceptron.lr w' = perceptron.lr w
  /\ length (perceptron.weights w') = length (perceptron.weights w).
Proof.
  revert w. induction fuel as [|fuel IH]; simpl; intros w H.
  - destruct (perceptron.check_acc w dps) eqn:E; [|discriminate].
    injection H as <-. auto.
  - destruct (perceptron.check_acc w dps) eqn:E; [injection H as <-; auto|].
    destruct (IH _ H) as (A & T & L & N).
    destruct (perceptron_train_once_frame dps w) as (T' & L' & N').
    split; [assumption|]. split; [congruence|]. split; congruence.
Qed.

Lemma perceptron_train_stops_accurate_witness :
  perceptron.check_acc
    (perceptron.train_once (perceptron.mk_perceptron [1; 1]%Q 0 2) [neg [1%Z]])
    [neg [1%Z]] = true
  /\ perceptron.theta
       (perceptron.train_once (perceptron.mk_perceptron [1; 1]%Q 0 2) [neg [1%Z]])
     = perceptron.theta (perceptron.mk_perceptron [1; 1]%Q 0 2)
  /\ perceptron.lr
       (perceptron.train_once (perceptron.mk_perceptron [1; 1]%Q 0 2) [neg [1%Z]])
     = perceptron.lr (perceptron.mk_perceptron [1; 1]%Q 0 2)
  /\ length (perceptron.weights
               (perceptron.train_once (perceptron.mk_perceptron [1; 1]%Q 0 2)
                  [neg [1%Z]]))
     = length (perceptron.weights (perceptron.mk_perceptron [1; 1]%Q 0 2)).
Proof.
  apply (perceptron_train_stops_accurate 1 [neg [1%Z]]
           (perceptron.mk_perceptron [1; 1]%Q 0 2)).
  reflexivity.
Defined.

Lemma Forall2_Qeq_refl (ws : list Q) : Forall2 Qeq ws ws.
Proof. induction ws; constructor; [apply Qeq_refl | assumption]. Qed.

Lemma Forall2_Qeq_trans (l1 l2 l3 : list Q) :
  Forall2 Qeq l1 l2 -> Forall2 Qeq l2 l3 -> Forall2 Qeq l1 l3.
Proof.
  intros H. revert l3. induction H as [|a b l1 l2 Hab H IH]; intros l3 H3;
    inversion H3; subst; constructor; [eapply Qeq_trans; eassumption | auto].
Qed.

Lemma Forall2_Qeq_update (i : nat) (f : Q -> Q) (ws : list Q) :
  (forall a, (a == f a)%Q) -> Forall2 Qeq ws (update i f ws).
Proof.
  intros Hf. revert i. induction ws as [|a ws IH]; intros [|i]; simpl;
    constructor; auto using Qeq_refl, Forall2_Qeq_refl.
Qed.

Lemma Forall2_Qeq_nth (l l' : list Q) (i : nat) :
  Forall2 Qeq l l' -> (nth i l 0 == nth i l' 0)%Q.
Proof.
  intros H. revert i. induction H as [|a b l l' Hab H IH]; intros [|i]; simpl;
    auto using Qeq_refl.
Qed.

Lemma perceptron_sum_same (dp : datapoint) (ws ws' : list Q) (l : list nat)
    (a a' : Q) :
  Forall2 Qeq ws ws' -> (a == a')%Q ->
  (fold_left (fun sum i => sum + nth (i + 1) ws 0 * inject_Z (bit dp i)) l a
   == fold_left (fun sum i => sum + nth (i + 1) ws' 0 * inject_Z (bit dp i)) l a')%Q.
Proof.
  intros Hw. revert a a'. induction l as [|i l IH]; simpl; intros a a' Ha;
    [assumption|].
  apply IH. rewrite Ha, (Forall2_Qeq_nth ws ws' (i + 1) Hw). reflexivity.
Qed.

Lemma perceptron_predict_same (w w' : perceptron.perceptron) (dp : datapoint) :
  perceptron.same w w' -> perceptron.predict w' dp = perceptron.predict w dp.
Proof.
  intros (Hw & Ht & _). unfold perceptron.predict. rewrite Ht.
  pose proof (perceptron_sum_same dp _ _ (seq 0 (length (_int_data dp))) _ _ Hw
                (Forall2_Qeq_nth _ _ 0 Hw)) as Hs.
  apply eq_true_iff_eq. rewrite !Qle_bool_iff. now rewrite Hs.
Qed.

Lemma perceptron_update_correct (w : perceptron.perceptron) (dp : datapoint) :
  perceptron.same w (perceptron.update_weights w dp (_classification dp)).
Proof.
  unfold perceptron.same, perceptron.update_weights. simpl.
  split; [|auto].
  assert (He : perceptron.error dp (_classification dp) = 0%Z)
    by (unfold perceptron.error; destruct (_classification dp); reflexivity).
  generalize (seq 0 (length (_int_data dp))). intros l.
  generalize (perceptron.weights w). induction l as [|i l IH]; simpl; intros ws;
    [apply Forall2_Qeq_refl|].
  eapply Forall2_Qeq_trans; [|apply IH].
  unfold perceptron.update_step. rewrite He.
  eapply Forall2_Qeq_trans; apply Forall2_Qeq_update; intros a; simpl; ring.
Qed.

(** X21.  The perceptron is driven by mistakes: a pass of [train_once] over
    data points that the object already classifies as labelled leaves the
    threshold and the rate as they are and every weight equal, as a number,
    to what it was. *)
Theorem perceptron_train_once_accurate (w : perceptron.perceptron)
    (dps : list datapoint) :
  perceptron.check_acc w dps = true ->
  perceptron.same w (perceptron.train_once w dps).
Proof.
  unfold perceptron.check_acc, perceptron.train_once.
  assert (H : forall w',
             perceptron.same w w' ->
             forallb (fun dp => Bool.eqb (perceptron.predict w dp)
                                         (_classification dp)) dps = true ->
             perceptron.same w
               (fold_left (fun w0 dp => perceptron.update_weights w0 dp
                                          (perceptron.predict w0 dp)) dps w')).
  { induction dps as [|dp dps IH]; simpl; intros w' Hs Hacc; [assumption|].
    apply andb_true_iff in Hacc as [Hd Hacc]. apply eqb_prop in Hd.
    apply IH; [|assumption].
    rewrite (perceptron_predict_same w w' dp Hs), Hd.
    destruct Hs as (H1 & H2 & H3).
    destruct (perceptron_update_correct w' dp) as (U1 & U2 & U3).
    split; [eapply Forall2_Qeq_trans; eassumption|]. split; congruence. }
  apply H. split; [apply Forall2_Qeq_refl | auto].
Qed.

Lemma perceptron_train_once_accurate_witness :
  perceptron.same (perceptron.init 2)
    (perceptron.train_once (perceptron.init 2) [pos [1; 0]%Z; pos [0; 0]%Z]).
Proof.
  apply (perceptron_train_once_accurate (perceptron.init 2)
           [pos [1; 0]%Z; pos [0; 0]%Z]).
  reflexivity.
Defined.

(* ------------------------------------------------------------------ *)
(** ** From one round of the driver to the next *)

Lemma ordered_update (id : nat) (g : pset -> pset) (v : psets) :
  Forall ordered v -> ordered (g (at_loc v id)) -> Forall ordered (update id g v).
Proof.
  revert id. induction v as [|a v IH]; intros [|id] Hv Hg; simpl; auto;
    inversion Hv; subst; constructor; auto.
Qed.

Lemma Forall_of_at_loc (P : pset -> Prop) (v : psets) :
  (forall k, P (at_loc v k)) -> Forall P v.
Proof.
  intros H. apply Forall_forall. intros s Hs.
  destruct (In_nth v s [] Hs) as (k & _ & <-). apply H.
Qed.

Lemma prepared_shape (X R : psets) :
  length X = length R -> Forall ordered X -> Forall ordered R ->
  length (fst (prepare_sets X R (empty_sets (length X)))) = length X
  /\ Forall ordered (fst (prepare_sets X R (empty_sets (length X)))).
Proof.
  intros Hlen HX HR. split.
  - rewrite (proj1 (prepare_sets_length X R (empty_sets (length X)))). auto.
  - apply Forall_of_at_loc. intros k.
    apply (prepare_sets_fresh X R k 0 Hlen HX HR).
Qed.

Lemma add_all_shape (R M : psets) (dp : datapoint) :
  Forall ordered R ->
  length (fst (add_all (R, M) dp)) = length R
  /\ Forall ordered (fst (add_all (R, M) dp)).
Proof.
  intros HR. unfold add_all.
  destruct (move_zeros_spec dp (at_loc M (loc dp)) (at_loc R (loc dp)))
    as (_ & _ & Ho & _).
  destruct (move_zeros dp (at_loc M (loc dp)) (at_loc R (loc dp))) as [r m].
  simpl in *. split; [apply length_update|].
  apply ordered_update; [assumption|]. apply Ho. now apply ordered_at_loc.
Qed.

Lemma fold_add_all_shape (premises : list datapoint) (R M : psets) :
  Forall ordered R ->
  length (fst (fold_left add_all premises (R, M))) = length R
  /\ Forall ordered (fst (fold_left add_all premises (R, M))).
Proof.
  revert R M. induction premises as [|p l IH]; simpl; intros R M HR; [auto|].
  destruct (add_all_shape R M p HR) as [L O].
  destruct (add_all (R, M) p) as [R1 M1]. simpl in *.
  destruct (IH R1 M1 O) as [L' O']. split; [congruence | assumption].
Qed.

Lemma negatives_all_shape (dps : list datapoint) (X R M R' M' : psets) :
  Forall ordered R -> negatives_all dps X R M = Returned (R', M') ->
  length R' = length R /\ Forall ordered R'.
Proof.
  revert R M. induction dps as [|dp dps IH]; simpl; intros R M HR H.
  - injection H as <- <-. auto.
  - assert_inv H.
    destruct (is_negative dp && satisfies dp (at_loc R (loc dp)));
      [|now apply (IH R M)].
    assert_inv H. destruct (add_all_shape R M dp HR) as [L O].
    destruct (add_all (R, M) dp) as [R1 M1]. assert_inv H. simpl in *.
    destruct (IH R1 M1 O H) as [L' O']. split; [congruence | assumption].
Qed.

Lemma horn_walk_all_shape (hcs : list horn_constraint) (R M R' M' : psets)
    (live : list horn_constraint) (flag : bool) :
  Forall ordered R ->
  horn_walk_all hcs R M = Returned (R', M', live, flag) ->
  length R' = length R /\ Forall ordered R'.
Proof.
  revert R M live flag.
  induction hcs as [|hc rest IH]; simpl; intros R M live flag HR H.
  - injection H as <- <- _ _. auto.
  - bind_inv H. destruct (negb a); [now apply (IH R M live flag)|].
    destruct (conclusion_satisfied R (_conclusion hc)).
    + bind_inv H. destruct a0 as [[[R1 M1] l1] f1]. injection H as <- <- _ _.
      now apply (IH R M l1 f1).
    + destruct (fold_add_all_shape (_premises hc) R M HR) as [L O].
      destruct (fold_left add_all (_premises hc) (R, M)) as [R1 M1].
      bind_inv H. destruct a0 as [[[R2 M2] l2] f2]. injection H as <- <- _ _.
      simpl in *. destruct (IH R1 M1 l2 f2 O E0) as [L' O'].
      split; [congruence | assumption].
Qed.

Lemma horn_loop_all_shape (fuel : nat) (hcs : list horn_constraint)
    (R M R' : psets) :
  Forall ordered R -> horn_loop_all fuel hcs R M = Returned R' ->
  length R' = length R /\ Forall ordered R'.
Proof.
  revert hcs R M. induction fuel as [|fuel IH]; simpl; intros hcs R M HR H;
    [discriminate|].
  bind_inv H. destruct a as [[[R1 M1] live] flag].
  destruct (horn_walk_all_shape hcs R M R1 M1 live flag HR E) as [L O].
  destruct flag; [injection H as <-; auto|].
  destruct (IH live R1 M1 O H) as [L' O']. split; [congruence | assumption].
Qed.

Lemma move_first_zero_ordered (dp : datapoint) (Mi Ri : pset) :
  ordered Ri -> ordered (fst (fst (move_first_zero dp Mi Ri))).
Proof.
  intros HR. induction Mi as [|p Mi IH]; simpl; [assumption|].
  destruct (bit dp p =? 0)%Z; simpl; [now apply ordered_insert|].
  destruct (move_first_zero dp Mi Ri) as [[r m] added]. exact IH.
Qed.

Lemma add_first_shape (R M : psets) (dp : datapoint) :
  Forall ordered R ->
  length (fst (fst (add_first (R, M) dp))) = length R
  /\ Forall ordered (fst (fst (add_first (R, M) dp))).
Proof.
  intros HR. unfold add_first.
  pose proof (move_first_zero_ordered dp (at_loc M (loc dp)) (at_loc R (loc dp))
                (ordered_at_loc R (loc dp) HR)) as Ho.
  destruct (move_first_zero dp (at_loc M (loc dp)) (at_loc R (loc dp)))
    as [[r m] added].
  simpl in *. split; [apply length_update|]. now apply ordered_update.
Qed.

Lemma add_first_premise_shape (premises : list datapoint) (R M : psets) :
  Forall ordered R ->
  length (fst (fst (add_first_premise premises R M))) = length R
  /\ Forall ordered (fst (fst (add_first_premise premises R M))).
Proof.
  revert R M. induction premises as [|p l IH]; simpl; intros R M HR; [auto|].
  destruct (add_first_shape R M p HR) as [L O].
  destruct (add_first (R, M) p) as [[R1 M1] added]. simpl in *.
  destruct added; [auto|].
  destruct (IH R1 M1 O) as [L' O']. split; [congruence | assumption].
Qed.

Lemma negatives_first_shape (dps : list datapoint) (R M R' M' : psets) :
  Forall ordered R -> negatives_first dps R M = Returned (R', M') ->
  length R' = length R /\ Forall ordered R'.
Proof.
  revert R M. induction dps as [|dp dps IH]; simpl; intros R M HR H.
  - injection H as <- <-. auto.
  - assert_inv H.
    destruct (is_negative dp && satisfies dp (at_loc R (loc dp)));
      [|now apply (IH R M)].
    destruct (add_first_shape R M dp HR) as [L O].
    destruct (add_first (R, M) dp) as [[R1 M1] added]. assert_inv H. simpl in *.
    destruct (IH R1 M1 O H) as [L' O']. split; [congruence | assumption].
Qed.

Lemma horn_walk_first_shape (hcs : list horn_constraint) (R M R' M' : psets)
    (live : list horn_constraint) (flag : bool) :
  Forall ordered R ->
  horn_walk_first hcs R M = Returned (R', M', live, flag) ->
  length R' = length R /\ Forall ordered R'.
Proof.
  revert R M live flag.
  induction hcs as [|hc rest IH]; simpl; intros R M live flag HR H.
  - injection H as <- <- _ _. auto.
  - bind_inv H. destruct (negb a); [now apply (IH R M live flag)|].
    destruct (conclusion_satisfied R (_conclusion hc)).
    + bind_inv H. destruct a0 as [[[R1 M1] l1] f1]. injection H as <- <- _ _.
      now apply (IH R M l1 f1).
    + destruct (add_first_premise_shape (_premises hc) R M HR) as [L O].
      destruct (add_first_premise (_premises hc) R M) as [[R1 M1] added].
      assert_inv H.
      bind_inv H. destruct a0 as [[[R2 M2] l2] f2]. injection H as <- <- _ _.
      simpl in *. destruct (IH R1 M1 l2 f2 O E1) as [L' O'].
      split; [congruence | assumption].
Qed.

Lemma horn_loop_first_shape (fuel : nat) (hcs : list horn_constraint)
    (R M R' : psets) :
  Forall ordered R -> horn_loop_first fuel hcs R M = Returned R' ->
  length R' = length R /\ Forall ordered R'.
Proof.
  revert hcs R M. induction fuel as [|fuel IH]; simpl; intros hcs R M HR H;
    [discriminate|].
  bind_inv H. destruct a as [[[R1 M1] live] flag].
  destruct (horn_walk_first_shape hcs R M R1 M1 live flag HR E) as [L O].
  destruct flag; [injection H as <-; auto|].
  destruct (IH live R1 M1 O H) as [L' O']. split; [congruence | assumption].
Qed.

Lemma apply_relevant_shape (nr : list (nat * nat)) (R M : psets) :
  Forall ordered R ->
  length (fst (fold_left apply_relevant nr (R, M))) = length R
  /\ Forall ordered (fst (fold_left apply_relevant nr (R, M))).
Proof.
  revert R M. induction nr as [|[id p] nr IH]; simpl; intros R M HR; [auto|].
  unfold apply_relevant at 2 4. simpl.
  destruct (IH (update id (insert p) R) (update id (erase p) M)) as [L O].
  { apply ordered_update; [assumption|].
    apply ordered_insert. now apply ordered_at_loc. }
  rewrite length_update in L. auto.
Qed.

Lemma greedy_loop_shape (fuel : nat) (dps : list datapoint)
    (hcs : list horn_constraint) (R M : psets) (ps : list pmap) (R' : psets) :
  Forall ordered R -> greedy_loop fuel dps hcs R M ps = Returned R' ->
  length R' = length R /\ Forall ordered R'.
Proof.
  revert R M ps. induction fuel as [|fuel IH]; cbn [greedy_loop];
    intros R M ps HR H; [discriminate|].
  bind_inv H. destruct a as [ps1 done1].
  bind_inv H. destruct a as [[ps2 nr] done]. assert_inv H.
  destruct (apply_relevant_shape nr R M HR) as [L O].
  destruct (fold_left apply_relevant nr (R, M)) as [R1 M1]. simpl in *.
  destruct done; [injection H as <-; auto|].
  destruct (IH R1 M1 ps2 O H) as [L' O']. split; [congruence | assumption].
Qed.

Lemma add_model_shape (model : nat -> bool) (attr2expr : list (list (nat * nat)))
    (R : psets) :
  Forall ordered R ->
  length (add_model model attr2expr R) = length R
  /\ Forall ordered (add_model model attr2expr R).
Proof.
  unfold add_model. generalize 0. revert R.
  induction attr2expr as [|m rest IH]; cbn [fold_left fst snd]; intros R j HR;
    [auto|].
  destruct (IH (update j (fun r => fold_left
                                     (fun r pair => if model (snd pair : nat)
                                                    then insert (fst pair) r
                                                    else r) m r) R) (S j))
    as [L O].
  { apply ordered_update; [assumption|].
    generalize (ordered_at_loc R j HR). generalize (at_loc R j).
    induction m as [|[p v] m IHm]; simpl; intros r Hr; [assumption|].
    apply IHm. destruct (model v); [now apply ordered_insert | assumption]. }
  rewrite length_update in L. auto.
Qed.

Lemma solve_shape (fuel : nat) (check : solver) (k var_count : nat)
    (neg_expr horn_expr : expr) (attr2expr : list (list (nat * nat)))
    (R R' : psets) :
  Forall ordered R ->
  solve fuel check k var_count neg_expr horn_expr attr2expr R = Returned R' ->
  length R' = length R /\ Forall ordered R'.
Proof.
  intros HR. revert k. induction fuel as [|fuel IH]; simpl; intros k H;
    [discriminate|].
  destruct (check _) as [model|].
  - injection H as <-. now apply add_model_shape.
  - destruct (var_count <=? k); [discriminate|]. now apply (IH (S k)).
Qed.

Lemma reducers_shape (check : solver) (fuel : nat) (dps : list datapoint)
    (hcs : list horn_constraint) (X R0 R : psets) :
  Forall ordered X -> Forall ordered R0 ->
  reduce_predicates_all dps hcs X R0 = Returned R
  \/ reduce_predicates_first dps hcs X R0 = Returned R
  \/ reduce_predicates_greedy fuel dps hcs X R0 = Returned R
  \/ reduce_predicates_minimal check dps hcs X R0 = Returned R ->
  length R = length X /\ Forall ordered R.
Proof.
  intros HX HR0 H.
  assert (Hlen : length X = length R0).
  { destruct H as [H|[H|[H|H]]];
      [unfold reduce_predicates_all in H | unfold reduce_predicates_first in H
       | unfold reduce_predicates_greedy in H
       | unfold reduce_predicates_minimal in H];
      bind_inv H; now apply check_arguments_returned in E as [_ Hlen]. }
  destruct (prepared_shape X R0 Hlen HX HR0) as [L O].
  destruct H as [H|[H|[H|H]]].
  - unfold reduce_predicates_all in H. bind_inv H.
    destruct (prepare_sets X R0 (empty_sets (length X))) as [R1 M1]. simpl in *.
    bind_inv H. destruct a0 as [R2 M2].
    destruct (negatives_all_shape dps X R1 M1 R2 M2 O E0) as [L2 O2].
    bind_inv H. assert_inv H. injection H as <-.
    destruct (horn_loop_all_shape (S (length hcs)) hcs R2 M2 a0 O2 E1) as [L3 O3].
    split; [congruence | assumption].
  - unfold reduce_predicates_first in H. bind_inv H.
    destruct (prepare_sets X R0 (empty_sets (length X))) as [R1 M1]. simpl in *.
    bind_inv H. destruct a0 as [R2 M2].
    destruct (negatives_first_shape dps R1 M1 R2 M2 O E0) as [L2 O2].
    bind_inv H. assert_inv H. injection H as <-.
    destruct (horn_loop_first_shape (S (length hcs)) hcs R2 M2 a0 O2 E1)
      as [L3 O3].
    split; [congruence | assumption].
  - unfold reduce_predicates_greedy in H. bind_inv H.
    destruct (prepare_sets X R0 (empty_sets (length X))) as [R1 M1]. simpl in *.
    bind_inv H. bind_inv H. assert_inv H. injection H as <-.
    destruct (greedy_loop_shape fuel dps hcs R1 M1 a0 a1 O E1) as [L3 O3].
    split; [congruence | assumption].
  - unfold reduce_predicates_minimal in H. bind_inv H.
    destruct (prepare_sets X R0 (empty_sets (length X))) as [R1 M1]. simpl in *.
    destruct (make_variables 0 M1) as [attr2expr var_count].
    bind_inv H. bind_inv H. bind_inv H. assert_inv H. injection H as <-.
    destruct (solve_shape (S var_count) check 1 var_count a0 a1 attr2expr R1 a2 O)
      as [L3 O3]; [assumption|].
    split; [congruence | assumption].
Qed.

Lemma main_cases (check : solver) (fuel : nat) (alg : algorithm)
    (reset_R horndini_first_round alternate : bool) (round : nat)
    (R_file : psets) (dps : list datapoint) (hcs : list horn_constraint)
    (intervals : list (nat * nat)) (H : psets) :
  main check fuel alg reset_R horndini_first_round alternate round R_file
    dps hcs intervals = Returned H ->
  exists X,
    horndini dps hcs intervals = Returned X
    /\ (H = X
        \/ exists R,
             (R = empty_sets (length X)
              \/ (R = R_file /\ reset_R = false /\ round <> 1))
             /\ (reduce_predicates_all dps hcs X R = Returned H
                 \/ reduce_predicates_first dps hcs X R = Returned H
                 \/ reduce_predicates_greedy fuel dps hcs X R = Returned H
                 \/ reduce_predicates_minimal check dps hcs X R = Returned H)).
Proof.
  unfold main. intros Hm. bind_inv Hm. rename a into X. assert_inv Hm.
  exists X. split; [assumption|].
  set (R := if reset_R || (round =? 1) then empty_sets (length X) else R_file)
    in Hm.
  assert (HR : R = empty_sets (length X)
               \/ (R = R_file /\ reset_R = false /\ round <> 1)).
  { unfold R. destruct reset_R; [now left|]. simpl.
    destruct (round =? 1) eqn:Er; [now left|].
    apply Nat.eqb_neq in Er. right. auto. }
  destruct (negb (horndini_first_round && (round =? 1))
            && negb (alternate && (round mod 2 =? 1)));
    destruct alg;
    try (left; now injection Hm as <-);
    right; exists R; (split; [exact HR|]); auto.
Qed.

(** X22.  What a round of the driver writes to the R file is what the next
    round reads: the vector written has one ordered set per interval, and
    when the upper ends of the intervals fit a 32-bit unsigned,
    [read_R_file] on the text that [write_R_file] wrote returns the vector
    itself. *)
Theorem main_R_file_next_round (check : solver) (fuel : nat) (alg : algorithm)
    (reset_R horndini_first_round alternate : bool) (round : nat)
    (R_file : psets) (dps : list datapoint) (hcs : list horn_constraint)
    (intervals : list (nat * nat)) (H : psets) (filename : string) :
  main check fuel alg reset_R horndini_first_round alternate round R_file
    dps hcs intervals = Returned H ->
  (reset_R = false -> round <> 1 -> Forall ordered R_file) ->
  Forall (fun iv => fits_unsigned (snd iv)) intervals ->
  length H = length intervals /\ Forall ordered H
  /\ exists text,
       write_R_file filename true H = Returned text
       /\ read_R_file filename (Some text) = Returned H.
Proof.
  intros Hm HRf Hiv.
  destruct (main_cases _ _ _ _ _ _ _ _ _ _ _ _ Hm) as (X & HX & Hcase).
  destruct (horndini_admissible dps hcs intervals X HX) as (Hw & _ & HL).
  pose proof (horndini_ordered dps hcs intervals X HX) as Ho.
  assert (Hshape : length H = length X /\ Forall ordered H /\ included H X).
  { destruct Hcase as [->|(R & HR & Hred)].
    - split; [reflexivity|]. split; [assumption | apply included_refl].
    - assert (HRo : Forall ordered R).
      { destruct HR as [->|(-> & Hr & Hn)];
          [apply empty_sets_ordered | now apply HRf]. }
      destruct (reducers_shape check fuel dps hcs X R H Ho HRo Hred) as [L O].
      split; [assumption|]. split; [assumption|].
      destruct Hred as [Hred|[Hred|[Hred|Hred]]].
      + now apply (reduce_all_within dps hcs X R).
      + now apply (reduce_first_within dps hcs X R).
      + now apply (reduce_greedy_within fuel dps hcs X R).
      + now apply (reduce_minimal_within check dps hcs X R). }
  destruct Hshape as (L & O & Hinc).
  split; [congruence|]. split; [assumption|].
  exists (write_conjunctions true H). split; [reflexivity|].
  assert (Hfit : Forall (Forall fits_unsigned) H).
  { apply Forall_of_at_loc. intros k. apply Forall_forall. intros p Hp.
    destruct (Hw k p (Hinc k p Hp)) as (iv & Hn & Hb).
    apply nth_error_In in Hn. rewrite Forall_forall in Hiv.
    specialize (Hiv iv Hn). unfold fits_unsigned in *. lia. }
  unfold read_R_file. destruct H as [|s H]; [reflexivity|].
  cbn [write_conjunctions append]. rewrite getlines_written.
  apply (read_lines_written (s :: H) [] O Hfit).
Qed.

Lemma main_R_file_next_round_witness :
  length [[2]] = length [(0, 3)] /\ Forall ordered [[2]]
  /\ exists text,
       write_R_file "sample.R" true [[2]] = Returned text
       /\ read_R_file "sample.R" (Some text) = Returned [[2]].
Proof.
  apply (main_R_file_next_round (fun _ => None) 0 SORCAR false false false 1 []
           S2_data [] [(0, 3)] [[2]] "sample.R").
  - reflexivity.
  - intros _ Hr. congruence.
  - repeat constructor. unfold fits_unsigned. vm_compute. discriminate.
Defined.

(* ------------------------------------------------------------------ *)
(** ** The debug check of [reduce_predicates_greedy] *)

Lemma better_flag (i : nat) (m : pmap) (x y z : nat) :
  snd (fold_left (better i) m (x, y, z, true)) = true.
Proof.
  revert x y z. induction m as [|pair m IH]; simpl; intros x y z; [reflexivity|].
  destruct (x <? length (fst (snd pair)) + length (snd (snd pair))); apply IH.
Qed.

Lemma find_best_flag (ps : list pmap) (i x y z : nat) :
  snd (find_best i ps (x, y, z, true)) = true.
Proof.
  revert i x y z. induction ps as [|m ps IH]; simpl; intros i x y z;
    [reflexivity|].
  pose proof (better_flag i m x y z) as Hf.
  destruct (fold_left (better i) m (x, y, z, true)) as [[[x1 y1] z1] g].
  simpl in Hf. subst g. apply IH.
Qed.

Lemma better_none (i : nat) (m : pmap) (v a b v' a' b' : nat) :
  fold_left (better i) m (v, a, b, false) = (v', a', b', false) ->
  v' = v
  /\ forall pair, In pair m ->
                  length (fst (snd pair)) + length (snd (snd pair)) <= v.
Proof.
  revert v a b. induction m as [|pair m IH]; simpl; intros v a b H.
  - injection H as <- _ _. split; [reflexivity | intros ? []].
  - destruct (v <? length (fst (snd pair)) + length (snd (snd pair))) eqn:E.
    + pose proof (better_flag i m
                    (length (fst (snd pair)) + length (snd (snd pair)))
                    i (fst pair)) as Hf.
      rewrite H in Hf. discriminate.
    + apply Nat.ltb_ge in E. destruct (IH v a b H) as [-> Hall].
      split; [reflexivity|]. intros pr [<-|Hin]; auto.
Qed.

Lemma find_best_none (ps : list pmap) (i v a b v' a' b' : nat) :
  find_best i ps (v, a, b, false) = (v', a', b', false) ->
  forall m pair, In m ps -> In pair m ->
                 length (fst (snd pair)) + length (snd (snd pair)) <= v.
Proof.
  revert i v a b. induction ps as [|m ps IH]; simpl; intros i v a b H;
    [intros ? ? []|].
  destruct (fold_left (better i) m (v, a, b, false)) as [[[v1 a1] b1] f1] eqn:E.
  destruct f1.
  - pose proof (find_best_flag ps (S i) v1 a1 b1) as Hf.
    rewrite H in Hf. discriminate.
  - apply better_none in E as [-> Hm].
    intros m0 pair [<-|Hin] Hp; [now apply Hm|].
    apply (IH _ _ _ _ H m0 pair Hin Hp).
Qed.


(* ------------------------------------------------------------------ *)
(** ** The greedy reducer: what its recording loops file *)

Lemma map_at_upd_other (p q : nat) (f : entry -> entry) (m : pmap) :
  q <> p -> map_at q (map_upd p f m) = map_at q m.
Proof.
  intros Hne. induction m as [|[k e] m IH]; simpl.
  - apply Nat.eqb_neq in Hne. now rewrite Hne.
  - destruct (p <? k) eqn:Hpk; simpl.
    + apply Nat.eqb_neq in Hne. now rewrite Hne.
    + destruct (k <? p) eqn:Hkp; simpl.
      * now rewrite IH.
      * apply Nat.ltb_ge in Hpk, Hkp. assert (p = k) by lia. subst k.
        apply Nat.eqb_neq in Hne. now rewrite Hne.
Qed.

Lemma map_at_below (p : nat) (m : pmap) :
  keys_ordered m -> (forall k, In k (keys m) -> p < k) -> map_at p m = None.
Proof.
  intros _ Hlt. destruct (map_at p m) eqn:E; [|reflexivity].
  assert (Hin : In p (keys m)) by (apply map_at_keys; congruence).
  specialize (Hlt p Hin). lia.
Qed.

Lemma map_at_upd_same (p : nat) (f : entry -> entry) (m : pmap) :
  keys_ordered m ->
  map_at p (map_upd p f m)
  = Some (f (match map_at p m with Some e => e | None => ([], []) end)).
Proof.
  induction m as [|[k e] m IH]; simpl; intros Hm.
  - now rewrite Nat.eqb_refl.
  - unfold keys_ordered in Hm. simpl in Hm.
    destruct (ordered_cons_inv _ _ Hm) as [Hm' Hk].
    destruct (p <? k) eqn:Hpk; simpl.
    + rewrite Nat.eqb_refl. apply Nat.ltb_lt in Hpk.
      replace (p =? k) with false by (symmetry; apply Nat.eqb_neq; lia).
      rewrite (map_at_below p m Hm'); [reflexivity|].
      intros j Hj. specialize (Hk j Hj). lia.
    + destruct (k <? p) eqn:Hkp; simpl.
      * apply Nat.ltb_lt in Hkp.
        replace (p =? k) with false by (symmetry; apply Nat.eqb_neq; lia).
        now apply IH.
      * apply Nat.ltb_ge in Hpk, Hkp. assert (p = k) by lia. subst k.
        now rewrite Nat.eqb_refl.
Qed.

Lemma map_at_In (p : nat) (e : entry) (m : pmap) :
  map_at p m = Some e -> In (p, e) m.
Proof.
  induction m as [|[k e'] m IH]; simpl; [discriminate|].
  destruct (p =? k) eqn:Hpk.
  - apply Nat.eqb_eq in Hpk. subst k. intros [= ->]. now left.
  - intros H. right. now apply IH.
Qed.

Lemma map_at_In_ordered (p : nat) (e : entry) (m : pmap) :
  keys_ordered m -> In (p, e) m -> map_at p m = Some e.
Proof.
  induction m as [|[k e'] m IH]; simpl; intros Hm; [contradiction|].
  unfold keys_ordered in Hm. simpl in Hm.
  destruct (ordered_cons_inv _ _ Hm) as [Hm' Hk].
  intros [[= -> ->]|Hin].
  - now rewrite Nat.eqb_refl.
  - assert (Hlt : k < p) by (apply Hk, (in_map fst m (p, e) Hin)).
    replace (p =? k) with false by (symmetry; apply Nat.eqb_neq; lia).
    now apply IH.
Qed.

Lemma keys_ordered_upd (p : nat) (f : entry -> entry) (m : pmap) :
  keys_ordered m -> keys_ordered (map_upd p f m).
Proof.
  intros Hm. unfold keys_ordered. rewrite keys_map_upd. now apply ordered_insert.
Qed.

Lemma keys_ordered_record_zeros (f : entry -> entry) (dp : datapoint) (l : pset)
    (m : pmap) :
  keys_ordered m -> keys_ordered (record_zeros f dp l m).
Proof.
  revert m. induction l as [|p l IH]; simpl; intros m Hm; [assumption|].
  apply IH. destruct (bit dp p =? 0)%Z; [now apply keys_ordered_upd | assumption].
Qed.

Lemma keys_record_zeros (f : entry -> entry) (dp : datapoint) (l : pset)
    (m : pmap) (q : nat) :
  In q (keys (record_zeros f dp l m))
  <-> In q (keys m) \/ (In q l /\ bit dp q = 0%Z).
Proof.
  revert m. induction l as [|p l IH]; simpl; intros m; [tauto|].
  rewrite IH. destruct (bit dp p =? 0)%Z eqn:Hb.
  - apply Z.eqb_eq in Hb. rewrite keys_map_upd, In_insert.
    split; [intros [[->|H]|[H1 H2]]; auto | intros [H|[[->|H1] H2]]; auto].
  - apply Z.eqb_neq in Hb.
    split; [intros [H|[H1 H2]]; auto | intros [H|[[->|H1] H2]]; auto].
    contradiction.
Qed.

Lemma keys_ordered_nth (ps : list pmap) (id : nat) :
  Forall keys_ordered ps -> keys_ordered (nth id ps []).
Proof.
  intros Hps. destruct (Nat.lt_ge_cases id (length ps)) as [Hi|Hi].
  - rewrite Forall_forall in Hps. apply Hps, nth_In, Hi.
  - rewrite nth_overflow by assumption. constructor.
Qed.

Section Recording.

(** A step [f] of a recording loop adds to one of the two sets
    ([component]) the elements that [A] holds of. *)
Variable component : entry -> pset.
Variable f : entry -> entry.
Variable A : nat -> Prop.
Hypothesis Hf : forall e x, In x (component (f e)) <-> In x (component e) \/ A x.

Lemma entry_upd (p q x : nat) (m : pmap) :
  keys_ordered m ->
  In x (component (match map_at q (map_upd p f m) with
                   | Some e => e | None => ([], []) end))
  <-> In x (component (match map_at q m with
                       | Some e => e | None => ([], []) end))
      \/ (q = p /\ A x).
Proof.
  intros Hm. destruct (Nat.eq_dec q p) as [->|Hne].
  - rewrite (map_at_upd_same p f m Hm), Hf. tauto.
  - rewrite (map_at_upd_other p q f m Hne). tauto.
Qed.

Lemma entry_record_zeros (dp : datapoint) (l : pset) (m : pmap) (q x : nat) :
  keys_ordered m ->
  In x (component (match map_at q (record_zeros f dp l m) with
                   | Some e => e | None => ([], []) end))
  <-> In x (component (match map_at q m with
                       | Some e => e | None => ([], []) end))
      \/ (In q l /\ bit dp q = 0%Z /\ A x).
Proof.
  revert m. induction l as [|p l IH]; simpl; intros m Hm; [tauto|].
  destruct (bit dp p =? 0)%Z eqn:Hb.
  - apply Z.eqb_eq in Hb. rewrite IH by now apply keys_ordered_upd.
    rewrite (entry_upd p q x m Hm).
    split.
    + intros [[H|[-> H]]|(H1 & H2 & H3)]; auto 6.
    + intros [H|([->|H1] & H2 & H3)]; auto 6.
  - apply Z.eqb_neq in Hb. rewrite IH by assumption.
    split.
    + intros [H|(H1 & H2 & H3)]; auto 6.
    + intros [H|([->|H1] & H2 & H3)]; auto 6. contradiction.
Qed.

Lemma entry_record (M : psets) (ps : list pmap) (dp : datapoint) (id q x : nat) :
  Forall keys_ordered ps -> loc dp < length ps ->
  In x (component (entry_at (record f M ps dp) id q))
  <-> In x (component (entry_at ps id q)) \/ (zero_at M id q dp /\ A x).
Proof.
  intros Hps Hloc. unfold entry_at, record, zero_at. rewrite nth_update.
  apply Nat.ltb_lt in Hloc. rewrite Hloc, andb_true_r.
  destruct (id =? loc dp) eqn:Hid.
  - apply Nat.eqb_eq in Hid. subst id.
    rewrite entry_record_zeros by now apply keys_ordered_nth.
    tauto.
  - apply Nat.eqb_neq in Hid. split; [auto|].
    intros [H|[(He & _) _]]; [assumption | congruence].
Qed.

Lemma entry_fold_record (M : psets) (l : list datapoint) (ps : list pmap)
    (id q x : nat) :
  Forall keys_ordered ps -> Forall (fun d => loc d < length ps) l ->
  In x (component (entry_at (fold_left (record f M) l ps) id q))
  <-> In x (component (entry_at ps id q))
      \/ ((exists dp, In dp l /\ zero_at M id q dp) /\ A x).
Proof.
  revert ps. induction l as [|d l IH]; simpl; intros ps Hps Hl.
  - split; [auto|]. intros [H|[(dp & [] & _) _]]. exact H.
  - apply Forall_cons_iff in Hl as [Hd Hl].
    rewrite IH.
    + rewrite (entry_record M ps d id q x Hps Hd). split.
      * intros [[H|[H1 H2]]|[(dp & H1 & H2) H3]]; eauto 8.
      * intros [H|[(dp & [<-|H1] & H2) H3]]; eauto 8.
    + now apply record_keys_ordered.
    + unfold record. rewrite length_update. exact Hl.
Qed.

End Recording.

Lemma add_first_fst (n : nat) (e : entry) (x : nat) :
  In x (fst (add_first_component n e)) <-> In x (fst e) \/ x = n.
Proof. unfold add_first_component. simpl. rewrite In_insert. tauto. Qed.

Lemma add_first_snd (n : nat) (e : entry) (x : nat) :
  In x (snd (add_first_component n e)) <-> In x (snd e) \/ False.
Proof. unfold add_first_component. simpl. tauto. Qed.

Lemma add_second_fst (h : nat) (e : entry) (x : nat) :
  In x (fst (add_second_component h e)) <-> In x (fst e) \/ False.
Proof. unfold add_second_component. simpl. tauto. Qed.

Lemma add_second_snd (h : nat) (e : entry) (x : nat) :
  In x (snd (add_second_component h e)) <-> In x (snd e) \/ x = h.
Proof. unfold add_second_component. simpl. rewrite In_insert. tauto. Qed.

Lemma filed_record (f : entry -> entry) (M : psets) (ps : list pmap)
    (dp d : datapoint) :
  filed M ps d -> filed M (record f M ps dp) d.
Proof.
  intros [Hl Hq]. unfold record. split; [now rewrite length_update|].
  intros q Hin Hb. specialize (Hq q Hin Hb). rewrite nth_update.
  destruct ((loc d =? loc dp) && (loc dp <? length ps)); [|assumption].
  apply map_at_keys, keys_record_zeros. left. now apply map_at_keys.
Qed.

Lemma filed_record_new (f : entry -> entry) (M : psets) (ps : list pmap)
    (dp : datapoint) :
  loc dp < length ps -> filed M (record f M ps dp) dp.
Proof.
  intros Hl. unfold record. split; [now rewrite length_update|].
  intros q Hin Hb. rewrite nth_update, Nat.eqb_refl.
  apply Nat.ltb_lt in Hl. rewrite Hl. simpl.
  apply map_at_keys, keys_record_zeros. now right.
Qed.

Lemma filed_fold_record (f : entry -> entry) (M : psets) (l : list datapoint)
    (ps : list pmap) :
  Forall (fun d => loc d < length ps) l ->
  length (fold_left (record f M) l ps) = length ps
  /\ (forall d, filed M ps d -> filed M (fold_left (record f M) l ps) d)
  /\ (forall d, In d l -> filed M (fold_left (record f M) l ps) d).
Proof.
  revert ps. induction l as [|d l IH]; simpl; intros ps Hl.
  - split; [reflexivity|]. split; [auto | intros ? []].
  - apply Forall_cons_iff in Hl as [Hd Hl].
    assert (Hlen : length (record f M ps d) = length ps)
      by (unfold record; apply length_update).
    destruct (IH (record f M ps d)) as (L & Hm & Hn).
    { now rewrite Hlen. }
    split; [congruence|]. split.
    + intros d' Hd'. apply Hm. now apply filed_record.
    + intros d' [<-|Hin]; [|now apply Hn].
      apply Hm. now apply filed_record_new.
Qed.

Lemma keys_ordered_fold_record (f : entry -> entry) (M : psets)
    (l : list datapoint) (ps : list pmap) :
  Forall keys_ordered ps -> Forall keys_ordered (fold_left (record f M) l ps).
Proof.
  revert ps. induction l as [|d l IH]; simpl; intros ps Hps; [assumption|].
  apply IH. now apply record_keys_ordered.
Qed.

Lemma recorded_next_datapoint (dps : list datapoint) (hcs : list horn_constraint)
    (R M : psets) (n h : nat) (ps : list pmap) :
  recorded dps hcs R M n h ps ->
  loc (nth n dps no_datapoint) < length ps ->
  recorded dps hcs R M (S n) h
    (if violating R (nth n dps no_datapoint)
     then record (add_first_component n) M ps (nth n dps no_datapoint)
     else ps).
Proof.
  intros (Hps & H1 & H2 & H3 & H4) Hloc.
  destruct (violating R (nth n dps no_datapoint)) eqn:Ev.
  - split; [now apply record_keys_ordered|]. split; [|split; [|split]].
    + intros id p x.
      rewrite (entry_record fst (add_first_component n) (fun x => x = n)
                 (add_first_fst n) M ps _ id p x Hps Hloc), (H1 id p x).
      split.
      * intros [(Hx & Hv & Hz)|[Hz ->]]; [split; [lia | auto]|].
        split; [lia | auto].
      * intros (Hx & Hv & Hz). destruct (Nat.eq_dec x n) as [->|Hne];
          [right; auto | left; split; [lia | auto]].
    + intros id p y.
      rewrite (entry_record snd (add_first_component n) (fun _ => False)
                 (add_first_snd n) M ps _ id p y Hps Hloc), (H2 id p y).
      tauto.
    + intros x Hx Hv. destruct (Nat.eq_dec x n) as [->|Hne].
      * now apply filed_record_new.
      * apply filed_record, H3; [lia | assumption].
    + intros y dp Hy Hu Hin. apply filed_record. eauto.
  - split; [assumption|]. split; [|split; [|split]].
    + intros id p x. rewrite (H1 id p x). split.
      * intros (Hx & Hv & Hz). split; [lia | auto].
      * intros (Hx & Hv & Hz). destruct (Nat.eq_dec x n) as [->|Hne];
          [congruence | split; [lia | auto]].
    + assumption.
    + intros x Hx Hv. destruct (Nat.eq_dec x n) as [->|Hne];
        [congruence | apply H3; [lia | assumption]].
    + assumption.
Qed.

Lemma negatives_greedy_recorded (dps : list datapoint) (hcs : list horn_constraint)
    (R M : psets) (suf pre : list datapoint) (ps : list pmap) :
  dps = pre ++ suf ->
  Forall (fun dp => loc dp < length R) suf ->
  length ps = length R ->
  recorded dps hcs R M (length pre) 0 ps ->
  exists ps',
    negatives_greedy (length pre) suf R M ps = Returned ps'
    /\ length ps' = length R
    /\ recorded dps hcs R M (length dps) 0 ps'.
Proof.
  revert pre ps. induction suf as [|dp suf IH]; intros pre ps Hd Hv Hlen Hrec.
  - exists ps. rewrite app_nil_r in Hd. subst pre. simpl. auto.
  - apply Forall_cons_iff in Hv as [Hdp Hv].
    assert (Hn : nth (length pre) dps no_datapoint = dp)
      by (subst dps; apply nth_middle).
    pose proof (recorded_next_datapoint dps hcs R M (length pre) 0 ps Hrec) as Hnext.
    rewrite Hn in Hnext. specialize (Hnext ltac:(lia)).
    simpl. apply Nat.ltb_lt in Hdp. rewrite Hdp. simpl.
    change (is_negative dp && satisfies dp (at_loc R (loc dp)))
      with (violating R dp).
    assert (Hd' : dps = (pre ++ [dp]) ++ suf) by (now rewrite <- app_assoc).
    assert (Hl' : length (pre ++ [dp]) = S (length pre)) by apply last_length.
    rewrite <- Hl' in Hnext |- *.
    destruct (violating R dp).
    + apply (IH (pre ++ [dp])); try assumption.
      unfold record. now rewrite length_update.
    + now apply (IH (pre ++ [dp])).
Qed.

Lemma recorded_next_horn (dps : list datapoint) (hcs : list horn_constraint)
    (R M : psets) (n h : nat) (ps : list pmap) :
  recorded dps hcs R M n h ps ->
  Forall (fun d => loc d < length ps) (_premises (nth h hcs no_horn)) ->
  recorded dps hcs R M n (S h)
    (if unsatisfied R (nth h hcs no_horn)
     then fold_left (record (add_second_component h) M)
            (_premises (nth h hcs no_horn)) ps
     else ps).
Proof.
  intros (Hps & H1 & H2 & H3 & H4) Hloc.
  destruct (unsatisfied R (nth h hcs no_horn)) eqn:Eu.
  - destruct (filed_fold_record (add_second_component h) M _ ps Hloc)
      as (_ & Hmono & Hnew).
    split; [now apply keys_ordered_fold_record|]. split; [|split; [|split]].
    + intros id p x.
      rewrite (entry_fold_record fst (add_second_component h) (fun _ => False)
                 (add_second_fst h) M _ ps id p x Hps Hloc), (H1 id p x).
      tauto.
    + intros id p y.
      rewrite (entry_fold_record snd (add_second_component h) (fun y => y = h)
                 (add_second_snd h) M _ ps id p y Hps Hloc), (H2 id p y).
      split.
      * intros [(Hy & Hu & Hz)|[Hz ->]]; [split; [lia | auto]|].
        split; [lia | auto].
      * intros (Hy & Hu & Hz). destruct (Nat.eq_dec y h) as [->|Hne];
          [right; auto | left; split; [lia | auto]].
    + intros x Hx Hv. apply Hmono. auto.
    + intros y dp Hy Hu Hin. destruct (Nat.eq_dec y h) as [->|Hne].
      * now apply Hnew.
      * apply Hmono, (H4 y); [lia | assumption..].
  - split; [assumption|]. split; [assumption|]. split; [|split].
    + intros id p y. rewrite (H2 id p y). split.
      * intros (Hy & Hu & Hz). split; [lia | auto].
      * intros (Hy & Hu & Hz). destruct (Nat.eq_dec y h) as [->|Hne];
          [congruence | split; [lia | auto]].
    + assumption.
    + intros y dp Hy Hu Hin. destruct (Nat.eq_dec y h) as [->|Hne];
        [congruence | apply (H4 y); [lia | assumption..]].
Qed.

Lemma scan_horn_recorded (dps : list datapoint) (hcs : list horn_constraint)
    (R M : psets) (n : nat) (suf pre : list horn_constraint) (ps : list pmap)
    (done : bool) :
  hcs = pre ++ suf ->
  Forall (valid_horn (length R)) suf ->
  length ps = length R ->
  recorded dps hcs R M n (length pre) ps ->
  (done = true
   <-> forall y, y < length pre -> unsatisfied R (nth y hcs no_horn) = false) ->
  exists ps' done',
    scan_horn (length pre) suf R M ps done = Returned (ps', done')
    /\ length ps' = length R
    /\ recorded dps hcs R M n (length hcs) ps'
    /\ (done' = true
        <-> forall y, y < length hcs -> unsatisfied R (nth y hcs no_horn) = false).
Proof.
  revert pre ps done.
  induction suf as [|hc suf IH]; intros pre ps done Hd Hv Hlen Hrec Hdone.
  - exists ps, done. rewrite app_nil_r in Hd. subst pre. simpl. auto.
  - apply Forall_cons_iff in Hv as [[Hp _] Hv].
    assert (Hn : nth (length pre) hcs no_horn = hc)
      by (subst hcs; apply nth_middle).
    pose proof (recorded_next_horn dps hcs R M n (length pre) ps Hrec) as Hnext.
    rewrite Hn in Hnext. rewrite Hlen in Hnext. specialize (Hnext Hp).
    simpl. rewrite (check_lhs_true R (_premises hc) Hp). cbn [bind].
    change (lhs_satisfied R (_premises hc)
            && negb (conclusion_satisfied R (_conclusion hc)))
      with (unsatisfied R hc).
    assert (Hd' : hcs = (pre ++ [hc]) ++ suf) by (now rewrite <- app_assoc).
    assert (Hl' : length (pre ++ [hc]) = S (length pre)) by apply last_length.
    rewrite <- Hl' in Hnext |- *.
    destruct (unsatisfied R hc) eqn:Eu.
    + apply (IH (pre ++ [hc])); try assumption.
      * rewrite <- Hlen in Hp.
        now rewrite (proj1 (filed_fold_record _ M _ ps Hp)).
      * split; [discriminate|]. intros Hall.
        specialize (Hall (length pre)). rewrite Hn, Hl' in Hall.
        rewrite Hall in Eu; [discriminate | lia].
    + apply (IH (pre ++ [hc])); try assumption.
      rewrite Hdone, Hl'. split.
      * intros Hall y Hy. destruct (Nat.eq_dec y (length pre)) as [->|Hne];
          [now rewrite Hn | apply Hall; lia].
      * intros Hall y Hy. apply Hall. lia.
Qed.

(* ------------------------------------------------------------------ *)
(** ** The greedy reducer: a pick erases the element its walk stands on *)

Lemma forget_zeros_hit (f : entry -> entry) (walked : nat -> entry -> bool)
    (dp : datapoint) (l : pset) (m : pmap) (p : nat) :
  In p l -> bit dp p = 0%Z ->
  (forall q, In q l -> bit dp q = 0%Z -> map_at q m <> None) ->
  (forall e, map_at p m = Some e -> walked p e = true) ->
  (forall q e, q <> p -> walked q e = false) ->
  forget_zeros f walked dp l m = Undefined.
Proof.
  revert m. induction l as [|q l IH]; simpl; intros m Hin Hb Hex Hp Hq;
    [contradiction|].
  destruct (bit dp q =? 0)%Z eqn:Hbq.
  - apply Z.eqb_eq in Hbq.
    destruct (map_at q m) as [e|] eqn:Hat;
      [|exfalso; apply (Hex q); auto].
    destruct (Nat.eq_dec q p) as [->|Hne].
    + now rewrite (Hp e Hat).
    + rewrite (Hq q e Hne). apply IH.
      * destruct Hin as [->|Hin]; [contradiction | assumption].
      * assumption.
      * intros q' Hq' Hb'. apply map_at_keys. rewrite keys_map_upd.
        apply In_insert. right. apply map_at_keys. apply Hex; auto.
      * intros e' He'. rewrite map_at_upd_other in He' by congruence.
        now apply Hp.
      * assumption.
  - apply Z.eqb_neq in Hbq. apply IH; auto.
    destruct Hin as [->|Hin]; [contradiction | assumption].
Qed.

Lemma forget_zeros_miss (f : entry -> entry) (walked : nat -> entry -> bool)
    (dp : datapoint) (l : pset) (m : pmap) :
  (forall q, In q l -> bit dp q = 0%Z -> map_at q m <> None) ->
  (forall q e, In q l -> bit dp q = 0%Z -> walked q e = false) ->
  exists m',
    forget_zeros f walked dp l m = Returned m'
    /\ (forall q, map_at q m' <> None <-> map_at q m <> None)
    /\ (forall q, (In q l -> bit dp q <> 0%Z) -> map_at q m' = map_at q m).
Proof.
  revert m. induction l as [|q l IH]; simpl; intros m Hex Hw.
  - exists m. split; [reflexivity|]. split; [tauto | reflexivity].
  - destruct (bit dp q =? 0)%Z eqn:Hbq.
    + apply Z.eqb_eq in Hbq.
      destruct (map_at q m) as [e|] eqn:Hat;
        [|exfalso; apply (Hex q); auto].
      rewrite (Hw q e (or_introl eq_refl) Hbq).
      assert (Hk : forall k, map_at k (map_upd q f m) <> None
                             <-> map_at k m <> None).
      { intros k. rewrite !map_at_keys, keys_map_upd, In_insert.
        split; [intros [->|H]; [apply map_at_keys; congruence | exact H]
               | auto]. }
      destruct (IH (map_upd q f m)) as (m' & E & H1 & H2).
      { intros k Hk1 Hk2. apply Hk. apply Hex; auto. }
      { intros k e' Hk1 Hk2. apply Hw; auto. }
      exists m'. split; [exact E|]. split.
      * intros k. rewrite H1. apply Hk.
      * intros k Hn. rewrite H2 by auto.
        apply map_at_upd_other. intros ->. apply (Hn (or_introl eq_refl) Hbq).
    + apply Z.eqb_neq in Hbq.
      destruct (IH m) as (m' & E & H1 & H2).
      { intros k Hk1 Hk2. apply Hex; auto. }
      { intros k e' Hk1 Hk2. apply Hw; auto. }
      exists m'. split; [exact E|]. split; [exact H1|].
      intros k Hn. apply H2. auto.
Qed.

Lemma filed_nth_error (M : psets) (ps : list pmap) (dp : datapoint) :
  filed M ps dp -> nth_error ps (loc dp) = Some (nth (loc dp) ps []).
Proof. intros [Hl _]. now apply nth_error_nth'. Qed.

Lemma forget_hit (f : entry -> entry) (walked : nat -> nat -> entry -> bool)
    (M : psets) (ps : list pmap) (dp : datapoint) (id p : nat) :
  filed M ps dp -> zero_at M id p dp ->
  (forall e, map_at p (nth id ps []) = Some e -> walked id p e = true) ->
  (forall q e, q <> p -> walked id q e = false) ->
  forget f walked M ps dp = Undefined.
Proof.
  intros Hf (Hloc & Hin & Hb) Hp Hq. unfold forget.
  rewrite (filed_nth_error M ps dp Hf). subst id.
  rewrite (forget_zeros_hit f (walked (loc dp)) dp (at_loc M (loc dp))
             (nth (loc dp) ps []) p Hin Hb (proj2 Hf) Hp Hq).
  reflexivity.
Qed.

Lemma forget_miss (f : entry -> entry) (walked : nat -> nat -> entry -> bool)
    (M : psets) (ps : list pmap) (dp : datapoint) :
  filed M ps dp ->
  (forall q e, In q (at_loc M (loc dp)) -> bit dp q = 0%Z ->
               walked (loc dp) q e = false) ->
  exists ps',
    forget f walked M ps dp = Returned ps'
    /\ length ps' = length ps
    /\ (forall id q, map_at q (nth id ps' []) <> None
                     <-> map_at q (nth id ps []) <> None)
    /\ (forall id q, ~ zero_at M id q dp ->
                     map_at q (nth id ps' []) = map_at q (nth id ps [])).
Proof.
  intros Hf Hw. unfold forget. rewrite (filed_nth_error M ps dp Hf).
  destruct (forget_zeros_miss f (walked (loc dp)) dp (at_loc M (loc dp))
              (nth (loc dp) ps []) (proj2 Hf) Hw) as (m' & E & H1 & H2).
  rewrite E. cbn [bind].
  exists (update (loc dp) (fun _ => m') ps). split; [reflexivity|].
  split; [apply length_update|]. split.
  - intros id q. rewrite nth_update.
    destruct ((id =? loc dp) && (loc dp <? length ps)) eqn:Hc; [|tauto].
    apply andb_true_iff in Hc as [Hc _]. apply Nat.eqb_eq in Hc. subst id.
    apply H1.
  - intros id q Hz. rewrite nth_update.
    destruct ((id =? loc dp) && (loc dp <? length ps)) eqn:Hc; [|reflexivity].
    apply andb_true_iff in Hc as [Hc _]. apply Nat.eqb_eq in Hc. subst id.
    apply H2. intros Hin Hb. apply Hz. unfold zero_at. auto.
Qed.

Lemma zero_at_dec (M : psets) (id p : nat) (dp : datapoint) :
  {zero_at M id p dp} + {~ zero_at M id p dp}.
Proof.
  unfold zero_at.
  destruct (Nat.eq_dec (loc dp) id) as [H1|H1]; [|right; tauto].
  destruct (in_dec Nat.eq_dec p (at_loc M id)) as [H2|H2]; [|right; tauto].
  destruct (Z.eq_dec (bit dp p) 0) as [H3|H3]; [left; auto | right; tauto].
Qed.

Lemma stands_same (component : entry -> pset) (id p x : nat) (e : entry) :
  In x (component e) -> stands component id p x id p e = true.
Proof.
  intros Hin. unfold stands. rewrite !Nat.eqb_refl. simpl.
  now apply member_spec.
Qed.

Lemma stands_other_key (component : entry -> pset) (id p x k q : nat) (e : entry) :
  q <> p -> stands component id p x k q e = false.
Proof.
  intros Hne. unfold stands. apply Nat.eqb_neq in Hne. rewrite Hne.
  now rewrite andb_false_r.
Qed.

Lemma stands_elsewhere (component : entry -> pset) (M : psets) (id p x : nat)
    (dp : datapoint) (q : nat) (e : entry) :
  ~ zero_at M id p dp ->
  In q (at_loc M (loc dp)) -> bit dp q = 0%Z ->
  stands component id p x (loc dp) q e = false.
Proof.
  intros Hz Hin Hb. unfold stands.
  destruct (loc dp =? id) eqn:H1; [|reflexivity].
  destruct (q =? p) eqn:H2; [|reflexivity].
  apply Nat.eqb_eq in H1, H2. subst q. exfalso. apply Hz.
  unfold zero_at. rewrite <- H1. auto.
Qed.

(** The walk over the premises of a Horn constraint [h] of the second set
    of the chosen entry comes to a premise that the chosen predicate
    fixes, and erases [h] from the set it is walking. *)
Lemma walk_premises_undefined (M : psets) (id p h : nat) (l : list datapoint)
    (ps : list pmap) :
  (exists dp, In dp l /\ zero_at M id p dp) ->
  (forall dp, In dp l -> filed M ps dp) ->
  (exists e, map_at p (nth id ps []) = Some e /\ In h (snd e)) ->
  foldM (forget (del_second_component h) (stands snd id p h) M) l ps
  = Undefined.
Proof.
  revert ps. induction l as [|d l IH]; intros ps (dp & Hin & Hz) Hf (e & He & Hh);
    [contradiction|].
  cbn [foldM].
  destruct (zero_at_dec M id p d) as [Hd|Hd].
  - rewrite (forget_hit (del_second_component h) (stands snd id p h) M ps d id p
               (Hf d (or_introl eq_refl)) Hd).
    + reflexivity.
    + intros e' He'. rewrite He in He'. injection He' as <-.
      now apply stands_same.
    + intros q e' Hne. now apply stands_other_key.
  - destruct (forget_miss (del_second_component h) (stands snd id p h) M ps d
                (Hf d (or_introl eq_refl))) as (ps' & E & Hlen & Hk & Hsame).
    { intros q e' Hq Hb. now apply (stands_elsewhere snd M). }
    rewrite E. cbn [bind]. apply IH.
    + exists dp. split; [|assumption].
      destruct Hin as [->|Hin]; [contradiction | assumption].
    + intros d' Hd'. destruct (Hf d' (or_intror Hd')) as [H1 H2].
      split; [now rewrite Hlen|]. intros q Hq Hb. apply Hk. now apply H2.
    + exists e. split; [|assumption]. now rewrite (Hsame id p Hd).
Qed.

(** Whenever the inner loop of the greedy reducer finds a predicate to
    add, the walk over the first non-empty set of its entry erases the
    element it stands on. *)
Lemma greedy_pick_undefined (fuel : nat) (dps : list datapoint)
    (hcs : list horn_constraint) (R M : psets) (n h : nat) (ps : list pmap)
    (nr : list (nat * nat)) (done : bool) (v id p : nat) :
  recorded dps hcs R M n h ps ->
  find_best 0 ps (0, 0, 0, false) = (v, id, p, true) ->
  greedy_pick (S fuel) dps hcs M ps nr done = Undefined.
Proof.
  intros (Hps & H1 & H2 & H3 & H4) Hb. cbn [greedy_pick]. rewrite Hb.
  apply find_best_spec in Hb as [Hb|(_ & e & Hin & He)]; [discriminate|].
  rewrite Nat.sub_0_r in Hin.
  assert (Hat : map_at p (nth id ps []) = Some e)
    by (apply map_at_In_ordered; [now apply keys_ordered_nth | exact Hin]).
  assert (Hen : entry_at ps id p = e) by (unfold entry_at; now rewrite Hat).
  rewrite Hat. destruct e as [[|x negs] [|y horns]].
  - now contradiction He.
  - cbn [foldM bind].
    destruct (proj1 (H2 id p y)) as (Hy & Hu & Hz);
      [rewrite Hen; now left|].
    rewrite (walk_premises_undefined M id p y _ ps Hz).
    + reflexivity.
    + intros dp Hdp. now apply (H4 y).
    + exists ([], y :: horns). split; [exact Hat | now left].
  - destruct (proj1 (H1 id p x)) as (Hx & Hv & Hz);
      [rewrite Hen; now left|].
    cbn [foldM].
    rewrite (forget_hit (del_first_component x) (stands fst id p x) M ps
               (nth x dps no_datapoint) id p (H3 x Hx Hv) Hz).
    + reflexivity.
    + intros e' He'. rewrite Hat in He'. injection He' as <-.
      apply stands_same. now left.
    + intros q e' Hne. now apply stands_other_key.
  - destruct (proj1 (H1 id p x)) as (Hx & Hv & Hz);
      [rewrite Hen; now left|].
    cbn [foldM].
    rewrite (forget_hit (del_first_component x) (stands fst id p x) M ps
               (nth x dps no_datapoint) id p (H3 x Hx Hv) Hz).
    + reflexivity.
    + intros e' He'. rewrite Hat in He'. injection He' as <-.
      apply stands_same. now left.
    + intros q e' Hne. now apply stands_other_key.
Qed.

(* ------------------------------------------------------------------ *)
(** ** The greedy reducer: what a call comes to *)

Lemma recorded_start (dps : list datapoint) (hcs : list horn_constraint)
    (R M : psets) (n : nat) :
  recorded dps hcs R M 0 0 (repeat [] n).
Proof.
  assert (He : forall id p, entry_at (repeat [] n) id p = ([], [])).
  { intros id p. unfold entry_at.
    now rewrite nth_repeat. }
  split; [|split; [|split; [|split]]].
  - apply Forall_forall. intros m Hm. apply repeat_spec in Hm. subst m.
    constructor.
  - intros id p x. rewrite He. simpl. split; [contradiction | lia].
  - intros id p y. rewrite He. simpl. split; [contradiction | lia].
  - intros x Hx. lia.
  - intros y dp Hy. lia.
Qed.

Lemma find_best_found (ps : list pmap) (id p : nat) :
  entry_at ps id p <> ([], []) ->
  exists v id' p', find_best 0 ps (0, 0, 0, false) = (v, id', p', true).
Proof.
  intros He.
  destruct (find_best 0 ps (0, 0, 0, false)) as [[[v a] b] [|]] eqn:Hb; [eauto|].
  exfalso. apply He. unfold entry_at.
  destruct (map_at p (nth id ps [])) as [e|] eqn:Hat; [|reflexivity].
  apply map_at_In in Hat.
  destruct (Nat.lt_ge_cases id (length ps)) as [Hi|Hi].
  - pose proof (find_best_none ps 0 0 0 0 v a b Hb _ _ (nth_In ps [] Hi) Hat) as Hl.
    simpl in Hl. destruct e as [[|? ?] [|? ?]]; simpl in Hl; [reflexivity|lia..].
  - rewrite nth_overflow in Hat by assumption. destruct Hat.
Qed.

Lemma find_best_none_processed (ps : list pmap) (v a b : nat) :
  find_best 0 ps (0, 0, 0, false) = (v, a, b, false) -> all_processed ps = true.
Proof.
  intros Hb. pose proof (find_best_none ps 0 0 0 0 v a b Hb) as Hall.
  unfold all_processed. apply forallb_forall. intros m Hm.
  apply forallb_forall. intros [p [negs horns]] Hp.
  specialize (Hall m _ Hm Hp). simpl in Hall.
  destruct negs; [|simpl in Hall; lia]. destruct horns; [reflexivity|].
  simpl in Hall. lia.
Qed.

(** A zero of a data point that satisfies [R] without satisfying [X] lies
    in [X_minus_R]. *)
Lemma zero_in_rest (X R M : psets) (dp : datapoint) :
  split_of X R M ->
  satisfies dp (at_loc X (loc dp)) = false ->
  satisfies dp (at_loc R (loc dp)) = true ->
  exists p, zero_at M (loc dp) p dp.
Proof.
  intros (_ & _ & Hk) Hx Hr.
  apply satisfies_false_iff in Hx as (i & Hi & Hz).
  exists i. split; [reflexivity|]. split; [|assumption].
  apply (Hk (loc dp)) in Hi. destruct Hi as [Hi|Hi]; [|assumption].
  exfalso. apply (proj1 (satisfies_iff dp _) Hr i Hi Hz).
Qed.

Lemma entry_member_first (ps : list pmap) (id p x : nat) :
  In x (fst (entry_at ps id p)) -> entry_at ps id p <> ([], []).
Proof. intros H E. rewrite E in H. destruct H. Qed.

Lemma entry_member_second (ps : list pmap) (id p y : nat) :
  In y (snd (entry_at ps id p)) -> entry_at ps id p <> ([], []).
Proof. intros H E. rewrite E in H. destruct H. Qed.

(** On the inputs of the pipeline (an [X] that is consistent with the
    sample), the greedy reducer returns [R] as [prepare_sets] left it when
    that is consistent already.  Otherwise some predicate fixes a negative
    data point or a Horn constraint, the inner loop picks one, and the walk
    over the set of that predicate erases the element it stands on: the
    call has no defined result. *)
Lemma reduce_greedy_cases (fuel : nat) (dps : list datapoint)
    (hcs : list horn_constraint) (X R : psets) :
  X <> [] -> length X = length R ->
  Forall ordered X -> Forall ordered R ->
  valid_locations (length X) dps hcs ->
  consistent X dps hcs ->
  reduce_predicates_greedy (S fuel) dps hcs X R
  = if is_consistent (fst (prepare_sets X R (empty_sets (length X)))) dps hcs
    then Returned (fst (prepare_sets X R (empty_sets (length X))))
    else Undefined.
Proof.
  intros Hne Hlen HX HR [Hvd Hvh] (Hpos & Hneg & Hhorn).
  unfold reduce_predicates_greedy.
  rewrite (check_arguments_ok X R Hne Hlen). cbn [bind].
  pose proof (prepare_sets_split X R Hlen HX HR) as Hsp.
  destruct (prepare_sets X R (empty_sets (length X))) as [R0 M0].
  cbn [fst snd] in *.
  assert (LR : length R0 = length X) by apply Hsp.
  pose proof (split_of_included X R0 M0 Hsp) as Hinc.
  rewrite <- LR in Hvd, Hvh.
  destruct (negatives_greedy_recorded dps hcs R0 M0 dps [] (repeat [] (length X))
              eq_refl Hvd)
    as (ps1 & E1 & L1 & Hrec1).
  { now rewrite repeat_length. }
  { apply recorded_start. }
  change (length (@nil datapoint)) with 0 in E1. rewrite E1. cbn [bind greedy_loop].
  destruct (scan_horn_recorded dps hcs R0 M0 (length dps) hcs [] ps1 true
              eq_refl Hvh L1 Hrec1)
    as (ps2 & done & E2 & L2 & Hrec & Hdone).
  { split; [intros _ y Hy; simpl in Hy; lia | reflexivity]. }
  change (length (@nil horn_constraint)) with 0 in E2. rewrite E2. cbn [bind].
  destruct (is_consistent R0 dps hcs) eqn:Ec.
  - (* nothing is recorded *)
    pose proof Ec as Ec'. unfold is_consistent in Ec'.
    apply andb_true_iff in Ec' as [Hd Hh]. rewrite forallb_forall in Hd, Hh.
    destruct Hrec as (Hps & H1 & H2 & _).
    destruct (find_best 0 ps2 (0, 0, 0, false)) as [[[v id] p] found] eqn:Hb.
    destruct found.
    + exfalso.
      apply find_best_spec in Hb as [Hb|(_ & e & Hin & He)]; [discriminate|].
      rewrite Nat.sub_0_r in Hin.
      assert (Hat : map_at p (nth id ps2 []) = Some e)
        by (apply map_at_In_ordered; [now apply keys_ordered_nth | exact Hin]).
      assert (Hen : entry_at ps2 id p = e) by (unfold entry_at; now rewrite Hat).
      destruct e as [[|x negs] horns].
      * destruct horns as [|y horns]; [now apply He|].
        destruct (proj1 (H2 id p y)) as (Hy & Hu & _);
          [rewrite Hen; now left|].
        specialize (Hh _ (nth_In hcs no_horn Hy)).
        unfold horn_ok in Hh. unfold unsatisfied in Hu.
        rewrite Hu in Hh. discriminate.
      * destruct (proj1 (H1 id p x)) as (Hx & Hv & _);
          [rewrite Hen; now left|].
        specialize (Hd _ (nth_In dps no_datapoint Hx)).
        apply datapoint_ok_iff in Hd as [_ Hd].
        unfold violating in Hv. apply andb_true_iff in Hv as [Hn Hs].
        rewrite (Hd Hn) in Hs. discriminate.
    + cbn [greedy_pick]. rewrite Hb. cbn [bind].
      rewrite (find_best_none_processed ps2 v id p Hb). cbn [assert bind fold_left].
      assert (Hd' : done = true).
      { apply Hdone. intros y Hy.
        specialize (Hh _ (nth_In hcs no_horn Hy)).
        unfold horn_ok in Hh. unfold unsatisfied.
        now destruct (lhs_satisfied R0 (_premises (nth y hcs no_horn))
                      && negb (conclusion_satisfied R0
                                 (_conclusion (nth y hcs no_horn)))). }
      rewrite Hd'. cbn [bind]. rewrite Ec. reflexivity.
  - (* something is recorded, and picked *)
    assert (Hsome : exists id p, entry_at ps2 id p <> ([], [])).
    { destruct Hrec as (Hps & H1 & H2 & _).
      unfold is_consistent in Ec. apply andb_false_iff in Ec as [Ec|Ec];
        apply forallb_false_exists in Ec.
      - destruct Ec as (dp & Hin & Hok).
        assert (Hv : violating R0 dp = true).
        { unfold violating.
          destruct (is_negative dp) eqn:Hn.
          - destruct (satisfies dp (at_loc R0 (loc dp))) eqn:Hs; [reflexivity|].
            exfalso. assert (Ht : datapoint_ok R0 dp = true); [|congruence].
            apply datapoint_ok_iff. split; [|auto].
            intros Hp. unfold is_positive, is_negative in *.
            destruct (_is_classified dp), (_classification dp); discriminate.
          - exfalso. assert (Ht : datapoint_ok R0 dp = true); [|congruence].
            apply datapoint_ok_iff. split; [|congruence].
            intros Hp. eapply satisfies_subset; [apply Hinc | auto]. }
        pose proof Hv as Hv'. unfold violating in Hv'.
        apply andb_true_iff in Hv' as [Hn Hs].
        destruct (zero_in_rest X R0 M0 dp Hsp (Hneg dp Hin Hn) Hs) as (p & Hz).
        destruct (In_nth dps dp no_datapoint Hin) as (x & Hx & Ex).
        exists (loc dp), p. apply (entry_member_first ps2 _ _ x).
        apply H1. rewrite Ex. auto.
      - destruct Ec as (hc & Hin & Hok).
        assert (Hu : unsatisfied R0 hc = true).
        { unfold horn_ok in Hok. unfold unsatisfied.
          now destruct (lhs_satisfied R0 (_premises hc)
                        && negb (conclusion_satisfied R0 (_conclusion hc))). }
        pose proof Hu as Hu'. unfold unsatisfied in Hu'.
        apply andb_true_iff in Hu' as [Hl Hc]. apply negb_true_iff in Hc.
        destruct (active_has_failing_premise X R0 hc Hinc (Hhorn hc Hin) Hc)
          as (d & Hd & Hsx).
        rewrite lhs_satisfied_iff in Hl.
        destruct (zero_in_rest X R0 M0 d Hsp Hsx (Hl d Hd)) as (p & Hz).
        destruct (In_nth hcs hc no_horn Hin) as (y & Hy & Ey).
        exists (loc d), p. apply (entry_member_second ps2 _ _ y).
        apply H2. rewrite Ey. split; [assumption|]. split; [assumption|].
        exists d. auto. }
    destruct Hsome as (id & p & He).
    destruct (find_best_found ps2 id p He) as (v & id' & p' & Hb).
    rewrite (greedy_pick_undefined (entries ps2) dps hcs R0 M0 (length dps)
               (length hcs) ps2 [] done v id' p' Hrec Hb).
    reflexivity.
Qed.
(* ------------------------------------------------------------------ *)
(** ** The post-condition of the reducers *)

Lemma prepared_included_X (X R : psets) :
  length X = length R -> Forall ordered X -> Forall ordered R ->
  included (fst (prepare_sets X R (empty_sets (length X)))) X.
Proof.
  intros Hlen HX HR.
  exact (split_of_included X _ _ (prepare_sets_split X R Hlen HX HR)).
Qed.

(** C1.  Whatever a reducer (all, first, greedy or minimal) returns is
    consistent with the data points and the Horn constraints it was given:
    [is_consistent] holds of it, that is, every positive example satisfies
    the conjunction of its location, no negative example does, and every
    Horn constraint whose premises satisfy theirs has a conclusion that
    satisfies its own.  Every reducer asserts this before it returns, and
    on the inputs of the pipeline (an [X] that is consistent, valid
    locations) the assertion of no reducer fails:
    - the reducers all and first return a consistent part of [X];
    - the reducer minimal, with a sound solver, returns a consistent part
      of [X] or throws "k >= var_count";
    - the reducer greedy returns [R] as [prepare_sets] left it when that is
      consistent already; otherwise it picks a predicate and erases from
      the set that it is walking the element that it stands on, and the
      call has no defined result. *)
Theorem sorcar_consistent (check : solver) (fuel : nat) (dps : list datapoint)
    (hcs : list horn_constraint) (X R0 : psets) :
  (forall R,
     reduce_predicates_all dps hcs X R0 = Returned R
     \/ reduce_predicates_first dps hcs X R0 = Returned R
     \/ reduce_predicates_greedy fuel dps hcs X R0 = Returned R
     \/ reduce_predicates_minimal check dps hcs X R0 = Returned R ->
     is_consistent R dps hcs = true /\ consistent R dps hcs)
  /\ (X <> [] -> length X = length R0 ->
      Forall ordered X -> Forall ordered R0 ->
      valid_locations (length X) dps hcs ->
      consistent X dps hcs ->
      (exists R, reduce_predicates_all dps hcs X R0 = Returned R
                 /\ included R X /\ consistent R dps hcs)
      /\ (exists R, reduce_predicates_first dps hcs X R0 = Returned R
                    /\ included R X /\ consistent R dps hcs)
      /\ (let R' := fst (prepare_sets X R0 (empty_sets (length X))) in
          (consistent R' dps hcs ->
           reduce_predicates_greedy (S fuel) dps hcs X R0 = Returned R'
           /\ included R' X)
          /\ (~ consistent R' dps hcs ->
              reduce_predicates_greedy (S fuel) dps hcs X R0 = Undefined))
      /\ (sound check ->
          reduce_predicates_minimal check dps hcs X R0 = Thrown msg_bound
          \/ exists R, reduce_predicates_minimal check dps hcs X R0 = Returned R
                       /\ included R X /\ consistent R dps hcs)).
Proof.
  split.
  - intros R Hrun.
    pose proof (reducers_checked check fuel dps hcs X R0 R Hrun) as Hc.
    split; [exact Hc | apply is_consistent_iff, Hc].
  - intros Hne Hlen HX HR Hv Hc. split; [|split; [|split]].
    + now apply reduce_predicates_all_total.
    + now apply reduce_predicates_first_total.
    + pose proof (reduce_greedy_cases fuel dps hcs X R0 Hne Hlen HX HR Hv Hc) as Hg.
      cbv zeta. split.
      * intros Hc'. apply is_consistent_iff in Hc'. rewrite Hc' in Hg.
        split; [exact Hg | now apply prepared_included_X].
      * intros Hn.
        destruct (is_consistent (fst (prepare_sets X R0 (empty_sets (length X))))
                    dps hcs) eqn:E; [|exact Hg].
        exfalso. apply Hn. now apply is_consistent_iff.
    + intros Hs.
      destruct (reduce_minimal_cases check dps hcs X R0 Hs Hne Hlen HX HR Hv
                  (proj1 Hc)) as [Ht|(R & E & H1 & H2)]; [now left|].
      right. exists R. auto.
Qed.

Lemma sorcar_consistent_witness :
  (reduce_predicates_all S2_data [] [[0; 1; 2; 3]] [[]] = Returned [[2]]
   /\ is_consistent [[2]] S2_data [] = true)
  /\ (exists R, reduce_predicates_first S2_data [] [[0; 1; 2; 3]] [[]] = Returned R
                /\ included R [[0; 1; 2; 3]] /\ consistent R S2_data [])
  /\ reduce_predicates_greedy 1 S2_data [] [[0; 1; 2; 3]] [[]] = Undefined
  /\ (reduce_predicates_minimal
        (fun q => if forallb (eval (fun n => n =? 2)) q
                  then Some (fun n => n =? 2) else None)
        S2_data [] [[0; 1; 2; 3]] [[]] = Thrown msg_bound
      \/ exists R,
           reduce_predicates_minimal
             (fun q => if forallb (eval (fun n => n =? 2)) q
                       then Some (fun n => n =? 2) else None)
             S2_data [] [[0; 1; 2; 3]] [[]] = Returned R
           /\ included R [[0; 1; 2; 3]] /\ consistent R S2_data []).
Proof.
  pose proof (sorcar_consistent
                (fun q => if forallb (eval (fun n => n =? 2)) q
                          then Some (fun n => n =? 2) else None)
                0 S2_data [] [[0; 1; 2; 3]] [[]]) as [Hpart Htot].
  split.
  - split; [reflexivity|]. apply (Hpart [[2]]). left. reflexivity.
  - destruct Htot as (Hall & Hfirst & Hgreedy & Hminimal).
    + discriminate.
    + reflexivity.
    + repeat constructor; apply orderedb_spec; reflexivity.
    + repeat constructor.
    + split; repeat constructor.
    + apply is_consistent_iff. reflexivity.
    + split; [exact Hfirst|]. split.
      * apply (proj2 Hgreedy). intros Hc.
        apply is_consistent_iff in Hc. discriminate Hc.
      * apply Hminimal. intros q m H.
        destruct (forallb (eval (fun n => n =? 2)) q) eqn:E; [|discriminate].
        injection H as <-. apply Forall_forall. now apply forallb_forall.
Defined.
(* ------------------------------------------------------------------ *)
(** ** The assertions of the driver *)

Lemma not_consistent_negative (X : psets) (dps : list datapoint)
    (hcs : list horn_constraint) :
  admissible X dps hcs -> is_consistent X dps hcs = false ->
  exists dp, In dp dps /\ is_negative dp = true
             /\ satisfies dp (at_loc X (loc dp)) = true.
Proof.
  intros [Hpos Hhorn] Hc. unfold is_consistent in Hc.
  apply andb_false_iff in Hc as [Hc|Hc]; apply forallb_false_exists in Hc.
  - destruct Hc as (dp & Hin & Hok). exists dp. split; [assumption|].
    destruct (is_negative dp) eqn:Hn.
    + split; [reflexivity|].
      destruct (satisfies dp (at_loc X (loc dp))) eqn:Hs; [reflexivity|].
      exfalso. assert (Ht : datapoint_ok X dp = true); [|congruence].
      apply datapoint_ok_iff. split; [|auto].
      intros Hp. unfold is_positive, is_negative in *.
      destruct (_is_classified dp), (_classification dp); discriminate.
    + exfalso. assert (Ht : datapoint_ok X dp = true); [|congruence].
      apply datapoint_ok_iff. split; [auto | congruence].
  - destruct Hc as (hc & Hin & Hok). exfalso.
    assert (Ht : horn_ok X hc = true); [|congruence].
    apply horn_ok_iff. intros Hl. apply conclusion_satisfied_iff.
    apply (Hhorn hc Hin). now apply lhs_satisfied_iff.
Qed.

Lemma reducers_wrong_size (check : solver) (fuel : nat) (dps : list datapoint)
    (hcs : list horn_constraint) (X R : psets) :
  X <> [] -> length X <> length R ->
  reduce_predicates_all dps hcs X R = Thrown msg_sizes
  /\ reduce_predicates_first dps hcs X R = Thrown msg_sizes
  /\ reduce_predicates_greedy fuel dps hcs X R = Thrown msg_sizes
  /\ reduce_predicates_minimal check dps hcs X R = Thrown msg_sizes.
Proof.
  intros Hne Hlen.
  unfold reduce_predicates_all, reduce_predicates_first,
    reduce_predicates_greedy, reduce_predicates_minimal.
  destruct (check_arguments_cases X R) as [[HX E]|[(HX & HL & E)|(HX & HL & E)]];
    try congruence.
  rewrite E. cbn [bind]. auto.
Qed.

(** X7.  In a run of the driver for a learner of conjunctions, on a sample
    with valid locations, with a sound solver and an R file of ordered
    sets, an assertion fails in one case only: right after Horndini, when
    some negative example satisfies the conjunction that Horndini returned
    for its location.  No assertion of a reducer fails, whatever the
    algorithm, the options, the round and the R file; the run does not go
    on for ever; and what it writes is consistent with the sample and lies
    within the intervals. *)
Theorem main_writes_consistent (check : solver) (fuel : nat) (alg : algorithm)
    (reset_R horndini_first_round alternate : bool) (round : nat)
    (R_file : psets) (dps : list datapoint) (hcs : list horn_constraint)
    (intervals : list (nat * nat)) :
  sound check -> intervals <> [] ->
  valid_locations (length intervals) dps hcs ->
  Forall ordered R_file ->
  (main check (S fuel) alg reset_R horndini_first_round alternate round R_file
     dps hcs intervals = AssertFailed
   <-> exists X dp,
         horndini dps hcs intervals = Returned X
         /\ In dp dps /\ is_negative dp = true
         /\ satisfies dp (at_loc X (loc dp)) = true)
  /\ (forall H,
        main check (S fuel) alg reset_R horndini_first_round alternate round
          R_file dps hcs intervals = Returned H ->
        consistent H dps hcs /\ within H intervals)
  /\ main check (S fuel) alg reset_R horndini_first_round alternate round
       R_file dps hcs intervals <> OutOfFuel.
Proof.
  intros Hs Hne Hv HRf. unfold main.
  destruct (horndini_valid dps hcs intervals Hv Hne) as [[X HX]|Ht].
  2:{ rewrite Ht. cbn [bind]. split; [|split; [intros; discriminate | discriminate]].
      split; [discriminate|]. intros (X & dp & HX & _). discriminate. }
  rewrite HX. cbn [bind].
  destruct (horndini_admissible dps hcs intervals X HX) as (Hw & Ha & HL).
  pose proof (horndini_ordered dps hcs intervals X HX) as Ho.
  assert (HXne : X <> []).
  { intros ->. destruct intervals; [congruence | discriminate]. }
  destruct (is_consistent X dps hcs) eqn:Ec; cbn [assert bind].
  - (* the assertion of the driver holds *)
    pose proof (proj1 (is_consistent_iff X dps hcs) Ec) as Hc.
    rewrite <- HL in Hv.
    set (P := fun o : outcome psets =>
                o <> AssertFailed /\ o <> OutOfFuel
                /\ forall H, o = Returned H ->
                             consistent H dps hcs /\ included H X).
    assert (HPX : P (Returned X)).
    { split; [discriminate|]. split; [discriminate|].
      intros H [= <-]. split; [assumption | apply included_refl]. }
    assert (HP : forall R, Forall ordered R ->
               P (reduce_predicates_all dps hcs X R)
               /\ P (reduce_predicates_first dps hcs X R)
               /\ P (reduce_predicates_greedy (S fuel) dps hcs X R)
               /\ P (reduce_predicates_minimal check dps hcs X R)).
    { intros R HR. destruct (Nat.eq_dec (length X) (length R)) as [Hlen|Hlen].
      - split; [|split; [|split]].
        + destruct (reduce_predicates_all_total dps hcs X R HXne Hlen Ho HR Hv Hc)
            as (R' & E & Hi & Hc').
          rewrite E. split; [discriminate|]. split; [discriminate|].
          intros H [= <-]. auto.
        + destruct (reduce_predicates_first_total dps hcs X R HXne Hlen Ho HR Hv Hc)
            as (R' & E & Hi & Hc').
          rewrite E. split; [discriminate|]. split; [discriminate|].
          intros H [= <-]. auto.
        + rewrite (reduce_greedy_cases fuel dps hcs X R HXne Hlen Ho HR Hv Hc).
          destruct (is_consistent
                      (fst (prepare_sets X R (empty_sets (length X)))) dps hcs)
            eqn:E.
          * split; [discriminate|]. split; [discriminate|].
            intros H [= <-]. split; [now apply is_consistent_iff|].
            now apply prepared_included_X.
          * split; [discriminate|]. split; [discriminate|]. intros; discriminate.
        + destruct (reduce_minimal_cases check dps hcs X R Hs HXne Hlen Ho HR Hv
                      (proj1 Hc)) as [Et|(R' & E & Hc' & Hi)]; rewrite ?Et, ?E.
          * split; [discriminate|]. split; [discriminate|]. intros; discriminate.
          * split; [discriminate|]. split; [discriminate|].
            intros H [= <-]. auto.
      - destruct (reducers_wrong_size check (S fuel) dps hcs X R HXne Hlen)
          as (E1 & E2 & E3 & E4).
        rewrite E1, E2, E3, E4.
        repeat split; try discriminate; intros; discriminate. }
    set (R := if reset_R || (round =? 1) then empty_sets (length X) else R_file).
    assert (HR : Forall ordered R).
    { unfold R. destruct (reset_R || (round =? 1));
        [apply empty_sets_ordered | assumption]. }
    destruct (HP R HR) as (P1 & P2 & P3 & P4).
    assert (Hall : P (match alg with
                      | HORNDINI => Returned X
                      | _ =>
                          if negb (horndini_first_round && (round =? 1))
                             && negb (alternate && (round mod 2 =? 1))
                          then match alg with
                               | SORCAR_FIRST =>
                                   reduce_predicates_first dps hcs X R
                               | SORCAR_GREEDY =>
                                   reduce_predicates_greedy (S fuel) dps hcs X R
                               | SORCAR_MINIMAL =>
                                   reduce_predicates_minimal check dps hcs X R
                               | _ => reduce_predicates_all dps hcs X R
                               end
                          else Returned X
                      end)).
    { destruct alg; [exact HPX|..];
        destruct (negb (horndini_first_round && (round =? 1))
                  && negb (alternate && (round mod 2 =? 1))); assumption. }
    destruct Hall as (A1 & A2 & A3).
    split; [|split].
    + split; [intros E; now apply A1 in E|].
      intros (X' & dp & HX' & Hin & Hn & Hsat). exfalso.
      injection HX' as <-.
      destruct Hc as (_ & Hneg & _). rewrite (Hneg dp Hin Hn) in Hsat.
      discriminate.
    + intros H EH. destruct (A3 H EH) as [H1 H2].
      split; [assumption | now apply (within_of_included H X)].
    + exact A2.
  - (* the assertion of the driver fails *)
    split; [|split; [intros; discriminate | discriminate]].
    split; [|reflexivity]. intros _.
    destruct (not_consistent_negative X dps hcs Ha Ec) as (dp & H1 & H2 & H3).
    exists X, dp. auto.
Qed.

Lemma main_writes_consistent_witness :
  consistent [[2]] S2_data [] /\ within [[2]] [(0, 3)].
Proof.
  assert (Hs : sound (fun _ => None)) by (intros q m H; discriminate).
  assert (Hv : valid_locations (length [(0, 3)]) S2_data [])
    by (split; repeat constructor).
  apply (proj1 (proj2 (main_writes_consistent (fun _ => None) 0 SORCAR false false
           false 1 [] S2_data [] [(0, 3)] Hs ltac:(discriminate) Hv
           ltac:(constructor))) [[2]]).
  reflexivity.
Defined.
